(** * Katana graph analytics: SSSP, pull PageRank and the in/out-edge adapter

    A shallow embedding of
      - [libgalois/src/analytics/pagerank/pagerank-pull.cpp] (which also
        carries the text of the SSSP translation unit, [sssp.cpp]), and
      - [libgraphs/include/Galois/Graphs/LC_InOut_Graph.h],
    together with the properties the specification states about them.

    Conventions.
      - A node handle is a [nat] in [[0, N)]; a per-node array
        ([LargeArray], a property column) is a [list] read with [!!] and
        written with [<[ _ := _ ]>].
      - Integer weights are [Z] with the wrap-around of their width
        written out; floating weights and ranks are IEEE numbers as
        [spec_float] with the operations of the standard library.
      - [do_all] over the nodes is run in a given order by one worker;
        loops that C++ writes with [while] take a fuel argument and return
        [None] when it runs out; a run that has the fuel it needs is
        [Some] of a [Run]. *)

From Stdlib Require Import ZArith Lia List Bool.
From Stdlib Require Import Floats.SpecFloat.
From Stdlib Require Import Sorting.Mergesort Sorting.Permutation Sorting.Sorted.
From stdpp Require Import base list relations gmap strings.

Local Open Scope Z_scope.

(** ** Results and error codes ([katana::Result], [katana::ErrorCode]) *)

Inductive ErrorCode : Type :=
| InvalidArgument
| TypeError
| AssertionFailed
| AlreadyExists
| PropertyNotFound.

Inductive Result (A : Type) : Type :=
| ResultSuccess (a : A)
| ResultError (e : ErrorCode).
Arguments ResultSuccess {A} a.
Arguments ResultError {A} e.

(** ** Runs that end in [std::abort()]

    A function that calls [std::abort()] ends the process and hands
    nothing back: its run is [Aborts], where a run that comes back with
    [a] is [Returns a]. *)

Inductive Run (A : Type) : Type :=
| Returns (a : A)
| Aborts.
Arguments Returns {A} a.
Arguments Aborts {A}.

Definition Run_map {A B : Type} (f : A → B) (r : Run A) : Run B :=
  match r with
  | Returns a => Returns (f a)
  | Aborts => Aborts
  end.

(** ** Arrow type ids ([arrow::Type::type]) *)

Inductive ArrowTypeId : Type :=
| NA | BOOL | UINT8 | INT8 | UINT16 | INT16 | UINT32 | INT32 | UINT64 | INT64
| HALF_FLOAT | FLOAT | DOUBLE | STRING | BINARY | FIXED_SIZE_BINARY.

Definition ArrowTypeId_eqb (a b : ArrowTypeId) : bool :=
  match a, b with
  | NA, NA | BOOL, BOOL | UINT8, UINT8 | INT8, INT8 | UINT16, UINT16
  | INT16, INT16 | UINT32, UINT32 | INT32, INT32 | UINT64, UINT64
  | INT64, INT64 | HALF_FLOAT, HALF_FLOAT | FLOAT, FLOAT | DOUBLE, DOUBLE
  | STRING, STRING | BINARY, BINARY | FIXED_SIZE_BINARY, FIXED_SIZE_BINARY => true
  | _, _ => false
  end.

(** ** Loops with fuel *)

(** [while (cond) body]: [body st = None] is the exit of the loop. *)
Fixpoint loop {S : Type} (fuel : nat) (body : S → option S) (st : S) : option S :=
  match fuel with
  | O => None
  | Datatypes.S fuel' =>
      match body st with
      | None => Some st
      | Some st' => loop fuel' body st'
      end
  end.

(** ** Weight types

    [Weight] is the numeric type the SSSP templates are instantiated at
    ([Dist] = [Weight]): the literal [0], [operator+], [operator<], and
    [operator==], and the constant [kDistanceInfinity] of
    [BfsSsspImplementationBase]. *)

Class Weight (W : Type) : Type := {
  wzero : W;
  kDistanceInfinity : W;
  wadd : W → W → W;
  wltb : W → W → bool;
  weqb : W → W → bool;
  (** [UpdateRequestIndexer{shift}]: the bucket of a distance,
      floor(distance / 2^shift). *)
  bucket : nat → W → nat;
  (** [double(x)], for the statistics. *)
  to_double : W → spec_float;
  (** the identity of [GReduceMax<W>]. *)
  reduce_max_identity : W;
}.

(** [a <= b] on weights, through [operator<]: equal or strictly below. *)
Definition wle {W} `{Weight W} (a b : W) : Prop := a = b ∨ wltb a b = true.

(** The order facts the monotonicity arguments rest on.  They hold for the
    integer types and for IEEE comparison (where a NaN is below nothing). *)
Class WeightOrder (W : Type) `{Weight W} : Prop := {
  wltb_irrefl : ∀ a, wltb a a = false;
  wltb_trans : ∀ a b c, wltb a b = true → wltb b c = true → wltb a c = true;
}.

(** Unsigned [bits]-wide integers: addition wraps modulo [2^bits]. *)
Definition uwrap (bits z : Z) : Z := z mod 2 ^ bits.

(** Signed [bits]-wide integers in two's complement.  Overflow of a signed
    addition is undefined in C++; the wrap is what the compiled code does. *)
Definition swrap (bits z : Z) : Z := (z + 2 ^ (bits - 1)) mod 2 ^ bits - 2 ^ (bits - 1).

(** The value of an integer as a [double] (binary64, round to nearest). *)
Definition Z_to_double (z : Z) : spec_float := binary_normalize 53 1024 z 0 false.

Definition UIntWeight (bits inf : Z) : Weight Z :=
  {| wzero := 0; kDistanceInfinity := inf;
     wadd := λ a b, uwrap bits (a + b); wltb := Z.ltb; weqb := Z.eqb;
     bucket := λ shift d, Z.to_nat (Z.shiftr d (Z.of_nat shift));
     to_double := Z_to_double;
     reduce_max_identity := 0 |}.

Definition SIntWeight (bits inf : Z) : Weight Z :=
  {| wzero := 0; kDistanceInfinity := inf;
     wadd := λ a b, swrap bits (a + b); wltb := Z.ltb; weqb := Z.eqb;
     bucket := λ shift d, Z.to_nat (Z.shiftr d (Z.of_nat shift));
     to_double := Z_to_double;
     reduce_max_identity := - 2 ^ (bits - 1) |}.

(** The integer part of a non-negative IEEE number (0 for the others). *)
Definition SF_floor (f : spec_float) : Z :=
  match f with
  | S754_finite false m e => Z.shiftl (Z.pos m) e
  | _ => 0
  end.

(** IEEE binary32 ([float], [prec = 24], [emax = 128]) and binary64
    ([double], [prec = 53], [emax = 1024]).  A finite number of either
    format is a binary64 number after re-rounding, which is exact for
    binary32. *)
Definition SF_to_double (f : spec_float) : spec_float :=
  match f with
  | S754_finite s m e => binary_normalize 53 1024 (cond_Zopp s (Z.pos m)) e s
  | _ => f
  end.

Definition FloatWeight (prec emax : Z) (inf lowest : spec_float) : Weight spec_float :=
  {| wzero := S754_zero false; kDistanceInfinity := inf;
     wadd := SFadd prec emax; wltb := SFltb; weqb := SFeqb;
     bucket := λ shift d, Z.to_nat (Z.shiftr (SF_floor d) (Z.of_nat shift));
     to_double := SF_to_double;
     reduce_max_identity := lowest |}.

(** The six instantiations.  [kDistanceInfinity] is declared in
    [BfsSsspImplementationBase.h], which is not among the sources at hand:
    the sentinel is a parameter of [UIntWeight], [SIntWeight] and
    [FloatWeight], and the instantiations below take
    [numeric_limits<Dist>::max() / 4] for it. *)
Definition UInt32Weight : Weight Z := UIntWeight 32 ((2 ^ 32 - 1) / 4).
Definition Int32Weight : Weight Z := SIntWeight 32 ((2 ^ 31 - 1) / 4).
Definition UInt64Weight : Weight Z := UIntWeight 64 ((2 ^ 64 - 1) / 4).
Definition Int64Weight : Weight Z := SIntWeight 64 ((2 ^ 63 - 1) / 4).
Definition FloatWeight32 : Weight spec_float :=
  FloatWeight 24 128 (S754_finite false 16777215 102)
                     (S754_finite false 8388608 (-149)).
Definition DoubleWeight64 : Weight spec_float :=
  FloatWeight 53 1024 (S754_finite false 9007199254740991 969)
                      (S754_finite false 4503599627370496 (-1074)).

(** ** The typed graph view ([katana::TypedPropertyGraph])

    The topology and the edge weights are read-only during a computation:
    [g !! n] is the list of out-edges of node [n], each a destination and a
    weight.  The per-node distance is the mutable array threaded through
    the algorithms. *)

Abbreviation Graph W := (list (list (nat * W))).

Definition edges {W} (g : Graph W) (n : nat) : list (nat * W) :=
  default [] (g !! n).

(** [graph->GetData<NodeDistance>(n)].  Node handles come from the graph and
    are in range; out of range the C++ read is undefined and the model
    yields the sentinel. *)
Definition GetData {W} `{Weight W} (dist : list W) (n : nat) : W :=
  default kDistanceInfinity (dist !! n).

(** Every destination is a node of the graph. *)
Definition wf_graph {W} (g : Graph W) : Prop :=
  ∀ n e, e ∈ edges g n → (e.1 < length g)%nat.

(** * Part I: the programs *)

(** ** The parallel substrate

    [do_all] and [for_each] belong to the runtime, which is not part of
    the sources.  One worker runs them here; what the runtime is free to
    choose is an argument: the order in which a round of [do_all] visits
    its range, and which pending item [for_each] runs next. *)

Record Executor : Type := {
  (** the order in which the [round]-th [do_all] visits its range *)
  do_all_order : nat → list nat → list nat;
  (** the position, in the pending items, of the one [for_each] runs at
      its [k]-th step (taken modulo their number) *)
  for_each_next : nat → nat;
}.

(** In index order, first pending item first. *)
Definition in_order : Executor :=
  {| do_all_order := λ _ l, l; for_each_next := λ _, 0%nat |}.

(** A legal executor visits every element of the range in each round. *)
Definition fair (ex : Executor) : Prop :=
  ∀ round l x, x ∈ l → x ∈ do_all_order ex round l.

(** [katana::atomicMin(ref, candidate)]: stores the minimum, returns the
    previous value. *)
Definition atomicMin {W} `{Weight W} (d : list W) (v : nat) (c : W) : W * list W :=
  let old := GetData d v in
  (old, if wltb c old then <[v := c]> d else d).

(** ** SSSP ([sssp.cpp]) *)

Module sssp.

Section Implementation.
Context {W : Type} {Wt : Weight W}.

(** *** Work items ([BfsSsspImplementationBase]) *)

(** [UpdateRequest]: a node and the distance it had when the request was
    made. *)
Record UpdateRequest : Type := { ur_src : nat; ur_dist : W }.

(** [SrcEdgeTile]: the same for the out-edges [[beg, end)] of the node,
    counted from its first out-edge. *)
Record SrcEdgeTile : Type := { t_src : nat; t_dist : W; t_beg : nat; t_end : nat }.

(** What the algorithm templates use of their item type [T]. *)
Class Request (T : Type) : Type := { src : T → nat; dist : T → W }.

#[export] Instance UpdateRequest_Request : Request UpdateRequest :=
  {| src := ur_src; dist := ur_dist |}.
#[export] Instance SrcEdgeTile_Request : Request SrcEdgeTile :=
  {| src := t_src; dist := t_dist |}.

(** [ReqPushWrap]: one request for the node. *)
Definition ReqPushWrap (n : nat) (d : W) : list UpdateRequest :=
  [ {| ur_src := n; ur_dist := d |} ].

(** [OutEdgeRangeFn]: all out-edges of the request's node. *)
Definition OutEdgeRangeFn (g : Graph W) (item : UpdateRequest) : list (nat * W) :=
  edges g (ur_src item).

(** Modelled from the spec: [PushEdgeTiles] of
    [BfsSsspImplementationBase.h] is not among the sources.  "Tiled variant
    batches a node's outgoing edges into fixed-size contiguous ranges":
    ranges of [edge_tile_size] edges while more than that many remain, then
    the rest if there is any.  [fuel] bounds the number of ranges. *)
Fixpoint tile_ranges (fuel edge_tile_size beg end_ : nat) : list (nat * nat) :=
  match fuel with
  | O => []
  | S fuel' =>
      if (beg + edge_tile_size <? end_)%nat
      then (beg, beg + edge_tile_size)%nat
             :: tile_ranges fuel' edge_tile_size (beg + edge_tile_size) end_
      else if (beg <? end_)%nat then [(beg, end_)] else []
  end.

Definition PushEdgeTiles {T} (g : Graph W) (edge_tile_size : nat) (n : nat)
    (f : nat → nat → T) : list T :=
  let deg := length (edges g n) in
  map (λ r, f r.1 r.2) (tile_ranges (S deg) edge_tile_size 0 deg).

Definition SrcEdgeTileMaker (n : nat) (d : W) (beg end_ : nat) : SrcEdgeTile :=
  {| t_src := n; t_dist := d; t_beg := beg; t_end := end_ |}.

(** [SrcEdgeTilePushWrap]: the tiles of the node, each with the distance. *)
Definition SrcEdgeTilePushWrap (g : Graph W) (edge_tile_size : nat)
    (n : nat) (d : W) : list SrcEdgeTile :=
  PushEdgeTiles g edge_tile_size n (SrcEdgeTileMaker n d).

(** The edges [[beg, end)] of node [n]. *)
Definition edge_range (g : Graph W) (n beg end_ : nat) : list (nat * W) :=
  take (end_ - beg) (drop beg (edges g n)).

(** [TileRangeFn]: the edges of the tile. *)
Definition TileRangeFn (g : Graph W) (t : SrcEdgeTile) : list (nat * W) :=
  edge_range g (t_src t) (t_beg t) (t_end t).

(** *** Worklists *)

(** Modelled from the spec: [katana::MinHeap] is not among the sources.
    "A global min-priority structure": [pop] removes an entry of least
    distance (the first of them). *)
Fixpoint MinHeap_pop {T} `{Request T} (wl : list T) : option (T * list T) :=
  match wl with
  | [] => None
  | x :: rest =>
      match MinHeap_pop rest with
      | None => Some (x, [])
      | Some (y, rest') =>
          if wltb (dist y) (dist x) then Some (y, x :: rest') else Some (x, rest)
      end
  end.

(** Modelled from the spec: [SerialBucketWL] is not among the sources.
    "Requests are dispatched into a priority-bucket worklist keyed by
    floor(distance / 2^shift); buckets are drained strictly in increasing
    order."  The worklist is the list of pending items in the order they
    were pushed, together with the key of the bucket being drained, which
    starts at 0 and only moves up; a bucket is the items of one key.  An
    item pushed under a key below the current one stays pending and is
    never drained. *)
Definition UpdateRequestIndexer {T} `{Request T} (shift : nat) (item : T) : nat :=
  bucket shift (dist item).

(** [wl.empty()]: no item is pending in the current bucket [k] or in a
    later one. *)
Definition wl_empty {T} `{Request T} (shift k : nat) (wl : list T) : bool :=
  forallb (λ x, (UpdateRequestIndexer shift x <? k)%nat) wl.

(** [wl.goToNextBucket()]: the least key at or after [k] that has an
    item, and [k] when there is none. *)
Definition goToNextBucket {T} `{Request T} (shift k : nat) (wl : list T) : nat :=
  match List.filter (Nat.leb k) (map (UpdateRequestIndexer shift) wl) with
  | [] => k
  | x :: rest => fold_left Nat.min rest x
  end.

(** [wl.allEmpty()]: no item is pending in any bucket. *)
Definition allEmpty {T} (wl : list T) : bool :=
  match wl with
  | [] => true
  | _ :: _ => false
  end.

(** [curr.front(); curr.pop_front()] on the bucket of key [k]. *)
Fixpoint bucket_pop_front {T} `{Request T} (shift k : nat) (wl : list T)
    : option (T * list T) :=
  match wl with
  | [] => None
  | x :: rest =>
      if (UpdateRequestIndexer shift x =? k)%nat then Some (x, rest)
      else match bucket_pop_front shift k rest with
           | None => None
           | Some (y, rest') => Some (y, x :: rest')
           end
  end.

(** The [i]-th pending item, removed. *)
Definition pop_at {T} (i : nat) (wl : list T) : option (T * list T) :=
  match wl !! i with
  | Some x => Some (x, delete i wl)
  | None => None
  end.

(** *** The algorithms, generic in the item type [T], [pushWrap] and
    [edgeRange] as the templates are *)

Section Algorithms.
Context {T : Type} {Rq : Request T}.
Variable g : Graph W.
Variable pushWrap : nat → W → list T.
Variable edgeRange : T → list (nat * W).

(** The state of a worklist loop: the distances and the pending items. *)
Abbreviation State := (list W * list T)%type.

(** One edge of the parallel loop body (lines 425-441): [sdata] is a
    reference and is read again at every edge. *)
Definition relaxAtomic (s : nat) (st : State) (e : nat * W) : State :=
  let new_dist := wadd (GetData st.1 s) e.2 in
  let (old_dist, d') := atomicMin st.1 e.1 new_dist in
  if wltb new_dist old_dist
  then (d', st.2 ++ pushWrap e.1 new_dist)
  else (d', st.2).

(** The body of [for_each] in [DeltaStepAlgo] (lines 415-442). *)
Definition DeltaStepBody (item : T) (st : State) : State :=
  if wltb (GetData st.1 (src item)) (dist item)
  then st
  else fold_left (relaxAtomic (src item)) (edgeRange item) st.

(** [katana::for_each]: run the body on pending items until none is
    left; the executor picks the item. *)
Fixpoint for_each (ex : Executor) (fuel k : nat) (st : State) : option State :=
  match fuel with
  | O => None
  | S fuel' =>
      match st.2 with
      | [] => Some st
      | _ :: _ =>
          match pop_at (for_each_next ex k mod length st.2) st.2 with
          | None => None
          | Some (item, wl') =>
              for_each ex fuel' (S k) (DeltaStepBody item (st.1, wl'))
          end
      end
  end.

Definition DeltaStepAlgo (ex : Executor) (fuel : nat) (d : list W) (source : nat)
    : option (list W) :=
  let d := <[source := wzero]> d in
  let init_bag := pushWrap source wzero in
  fst <$> for_each ex fuel 0 (d, init_bag).

(** One edge of the serial loop bodies (lines 478-489 and 524-535): the
    candidate is computed from [item.dist], the write is guarded. *)
Definition relaxSerial (item_dist : W) (st : State) (e : nat * W) : State :=
  let new_dist := wadd item_dist e.2 in
  if wltb new_dist (GetData st.1 e.1)
  then (<[e.1 := new_dist]> st.1, st.2 ++ pushWrap e.1 new_dist)
  else st.

(** What both serial loops do with a dequeued item. *)
Definition SerialBody (item : T) (st : State) : State :=
  if wltb (GetData st.1 (src item)) (dist item)
  then st                                             (* empty work *)
  else fold_left (relaxSerial (dist item)) (edgeRange item) st.

(** The inner loop of [SerDeltaAlgo] (lines 468-490), on [wl.minBucket()],
    the bucket of the current key [k]. *)
Definition SerDeltaInner (shift k : nat) (st : State) : option State :=
  match bucket_pop_front shift k st.2 with
  | None => None
  | Some (item, wl') => Some (SerialBody item (st.1, wl'))
  end.

(** The outer loop of [SerDeltaAlgo] (lines 465-493), [k] being the
    current key of the worklist. *)
Fixpoint SerDeltaOuter (shift fuel k : nat) (st : State) : option State :=
  match fuel with
  | O => None
  | S fuel' =>
      if wl_empty shift k st.2 then Some st
      else
        match loop fuel (SerDeltaInner shift k) st with
        | None => None
        | Some st' =>
            SerDeltaOuter shift fuel' (goToNextBucket shift k st'.2) st'
        end
  end.

(** [SerDeltaAlgo] (lines 454-499): after the loop, a worklist that still
    holds an item aborts the process (lines 495-497). *)
Definition SerDeltaAlgo (fuel : nat) (d : list W) (source : nat) (stepShift : nat)
    : option (Run (list W)) :=
  let d := <[source := wzero]> d in
  let wl := pushWrap source wzero in
  match SerDeltaOuter stepShift fuel 0 (d, wl) with
  | None => None
  | Some st => Some (if allEmpty st.2 then Returns st.1 else Aborts)
  end.

(** The loop of [DijkstraAlgo] (lines 514-536). *)
Definition DijkstraBody (st : State) : option State :=
  match MinHeap_pop st.2 with
  | None => None
  | Some (item, wl') => Some (SerialBody item (st.1, wl'))
  end.

Definition DijkstraAlgo (fuel : nat) (d : list W) (source : nat) : option (list W) :=
  let d := <[source := wzero]> d in
  let wl := pushWrap source wzero in
  fst <$> loop fuel DijkstraBody (d, wl).

End Algorithms.

(** *** The topological algorithms *)

(** The edge loop of [TopoAlgo] and [TopoTileAlgo] (lines 568-574 and
    613-619): [sdata] is read again at every edge. *)
Definition topoRelax (n : nat) (d : list W) (e : nat * W) : list W :=
  (atomicMin d e.1 (wadd (GetData d n) e.2)).2.

(** The body of the [do_all] of [TopoAlgo] (lines 561-576). *)
Definition TopoVisit (g : Graph W) (st : list W * list W * bool) (n : nat)
    : list W * list W * bool :=
  let '(d, old_dist, changed) := st in
  if wltb (GetData d n) (GetData old_dist n)        (* old_dist[n] > sdata *)
  then (fold_left (topoRelax n) (edges g n) d, <[n := GetData d n]> old_dist, true)
  else st.

(** The [do ... while (changed.reduce())] of [TopoAlgo]. *)
Fixpoint TopoLoop (ex : Executor) (g : Graph W) (fuel rounds : nat)
    (d old_dist : list W) : option (list W) :=
  match fuel with
  | O => None
  | S fuel' =>
      let '(d', old_dist', changed) :=
        fold_left (TopoVisit g) (do_all_order ex rounds (seq 0 (length g)))
                  (d, old_dist, false) in
      if changed then TopoLoop ex g fuel' (S rounds) d' old_dist' else Some d'
  end.

Definition TopoAlgo (ex : Executor) (g : Graph W) (fuel : nat) (d : list W)
    (source : nat) : option (list W) :=
  let old_dist := replicate (length g) kDistanceInfinity in
  let d := <[source := wzero]> d in
  TopoLoop ex g fuel 0 d old_dist.

(** [t.dist = sdata] on the [i]-th tile. *)
Definition set_tile_dist (t : SrcEdgeTile) (d : W) : SrcEdgeTile :=
  {| t_src := t_src t; t_dist := d; t_beg := t_beg t; t_end := t_end t |}.

(** The body of the [do_all] of [TopoTileAlgo] (lines 606-621), on the
    [i]-th tile of the bag. *)
Definition TopoTileVisit (g : Graph W) (st : list W * list SrcEdgeTile * bool) (i : nat)
    : list W * list SrcEdgeTile * bool :=
  let '(d, tiles, changed) := st in
  match tiles !! i with
  | None => st
  | Some t =>
      if wltb (GetData d (t_src t)) (t_dist t)      (* t.dist > sdata *)
      then (fold_left (topoRelax (t_src t)) (TileRangeFn g t) d,
            <[i := set_tile_dist t (GetData d (t_src t))]> tiles, true)
      else st
  end.

Fixpoint TopoTileLoop (ex : Executor) (g : Graph W) (fuel rounds : nat)
    (d : list W) (tiles : list SrcEdgeTile) : option (list W) :=
  match fuel with
  | O => None
  | S fuel' =>
      let '(d', tiles', changed) :=
        fold_left (TopoTileVisit g) (do_all_order ex rounds (seq 0 (length tiles)))
                  (d, tiles, false) in
      if changed then TopoTileLoop ex g fuel' (S rounds) d' tiles' else Some d'
  end.

Definition TopoTileAlgo (ex : Executor) (g : Graph W) (edge_tile_size fuel : nat)
    (d : list W) (source : nat) : option (list W) :=
  let d := <[source := wzero]> d in
  let tiles :=
    concat (map (λ n, SrcEdgeTilePushWrap g edge_tile_size n kDistanceInfinity)
                (seq 0 (length g))) in
  TopoTileLoop ex g fuel 0 d tiles.

End Implementation.
End sssp.

(** ** The property graph ([katana::PropertyGraph])

    The storage engine is a collaborator; what the entry points use of it
    is the topology, the named property columns and their Arrow types. *)

(** [PagerankValueAndOutDegreeTy] ([pagerank-pull.cpp], lines 27-30), the
    one record type these sources keep in a column
    ([katana::StructProperty]); [PRTy] is [float]. *)
Record PagerankValueAndOutDegreeTy : Type := {
  out : Z;          (* uint32_t *)
  value : spec_float;
}.

Inductive Column : Type :=
| IntColumn (t : ArrowTypeId) (vals : list Z)
| FloatColumn (t : ArrowTypeId) (vals : list spec_float)
| StructColumn (vals : list PagerankValueAndOutDegreeTy).

Definition column_type (c : Column) : ArrowTypeId :=
  match c with
  | IntColumn t _ | FloatColumn t _ => t
  | StructColumn _ => FIXED_SIZE_BINARY
  end.

Definition column_length (c : Column) : nat :=
  match c with
  | IntColumn _ vals => length vals
  | FloatColumn _ vals => length vals
  | StructColumn vals => length vals
  end.

Record PropertyGraph : Type := {
  (** per node, the destinations of its out-edges; edge ids count them
      node after node *)
  topology : list (list nat);
  node_properties : gmap string Column;
  edge_properties : gmap string Column;
}.

Definition num_nodes (pg : PropertyGraph) : nat := length (topology pg).

(** [arrow::CTypeTraits<W>]: the Arrow type of a C++ type and the typed
    view of a column of that type. *)
Class PropertyType (W : Type) : Type := {
  type_id : ArrowTypeId;
  view : Column → option (list W);
  store : list W → Column;
}.

Definition IntPropertyType (t : ArrowTypeId) : PropertyType Z :=
  {| type_id := t;
     view := λ c, match c with
                  | IntColumn t' vals => if ArrowTypeId_eqb t' t then Some vals else None
                  | FloatColumn _ _ | StructColumn _ => None
                  end;
     store := IntColumn t |}.

Definition FloatPropertyType (t : ArrowTypeId) : PropertyType spec_float :=
  {| type_id := t;
     view := λ c, match c with
                  | FloatColumn t' vals => if ArrowTypeId_eqb t' t then Some vals else None
                  | IntColumn _ _ | StructColumn _ => None
                  end;
     store := FloatColumn t |}.

Definition StructPropertyType : PropertyType PagerankValueAndOutDegreeTy :=
  {| type_id := FIXED_SIZE_BINARY;
     view := λ c, match c with
                  | StructColumn vals => Some vals
                  | IntColumn _ _ | FloatColumn _ _ => None
                  end;
     store := StructColumn |}.

(** The edges of each node with their weights, from the topology and the
    weight column in edge-id order. *)
Fixpoint attach_weights {W} (topo : list (list nat)) (ws : list W) : Graph W :=
  match topo with
  | [] => []
  | dests :: rest =>
      zip dests (take (length dests) ws)
        :: attach_weights rest (drop (length dests) ws)
  end.

(** Modelled from the spec: [TypedPropertyGraph::Make] is not among the
    sources.  The typed view of a node column and an edge column;
    "TypeError (requested numeric representation does not match the stored
    property's actual type)". *)
Definition Make {W} `{PropertyType W} (pg : PropertyGraph)
    (node_property edge_property : string) : Result (Graph W * list W) :=
  match node_properties pg !! node_property, edge_properties pg !! edge_property with
  | Some nc, Some ec =>
      match view nc, view ec with
      | Some d, Some ws => ResultSuccess (attach_weights (topology pg) ws, d)
      | _, _ => ResultError TypeError
      end
  | _, _ => ResultError PropertyNotFound
  end.

(** The same with no edge property ([Make(pg, {name}, {})]). *)
Definition MakeNodes {W} `{PropertyType W} (pg : PropertyGraph)
    (node_property : string) : Result (list W) :=
  match node_properties pg !! node_property with
  | Some nc =>
      match view nc with
      | Some d => ResultSuccess d
      | None => ResultError TypeError
      end
  | None => ResultError PropertyNotFound
  end.

(** The node column written through the typed view. *)
Definition write_back {W} `{PropertyType W} (pg : PropertyGraph)
    (node_property : string) (d : list W) : PropertyGraph :=
  {| topology := topology pg;
     node_properties := <[node_property := store d]> (node_properties pg);
     edge_properties := edge_properties pg |}.

(** Modelled from the spec: [TemporaryPropertyGuard] of
    [katana/analytics/Utils.h] is not among the sources, and the spec
    leaves the storage engine to its collaborators.  The guard holds the
    name of a node property that is the caller's to use, and removes that
    property from the graph when it goes out of scope; the removal of a
    property that was never made changes nothing. *)
Definition RemoveNodeProperty (pg : PropertyGraph) (name : string) : PropertyGraph :=
  {| topology := topology pg;
     node_properties := delete name (node_properties pg);
     edge_properties := edge_properties pg |}.

(** ** The SSSP entry points *)

Inductive Algorithm : Type :=
| kDeltaTile | kDeltaStep | kDeltaStepBarrier | kSerialDeltaTile | kSerialDelta
| kDijkstraTile | kDijkstra | kTopological | kTopologicalTile | kAutomatic.

Record SsspPlan : Type := {
  algorithm : Algorithm;
  delta : nat;
  edge_tile_size : nat;
}.

(** What the entry points take from outside the sources: the executor of
    the parallel loops, the heuristic of [SsspPlan(&pg)] behind
    [kAutomatic], and [ConstructNodeProperties] of the storage layer. *)
Record Environment : Type := {
  executor : Executor;
  automatic : ∀ W, Graph W → SsspPlan;
  ConstructNodeProperties : ArrowTypeId → PropertyGraph → string → Result PropertyGraph;
}.

Module sssp_entry.
Import sssp.

Section Entry.
Context {W : Type} {Wt : Weight W} {Pt : PropertyType W}.
Variable env : Environment.

(** [SsspImplementation<Weight>::SSSP] (lines 630-700).  [tile] is the
    [edge_tile_size] the implementation object was built with.  The result
    is [None] when the fuel does not suffice. *)
Definition SSSP (tile fuel : nat) (g : Graph W) (d : list W) (start_node : nat)
    (plan : SsspPlan) : option (Run (Result () * list W)) :=
  if (length g <=? start_node)%nat then Some (Returns (ResultError InvalidArgument, d))
  else
    let source := start_node in
    let d := fold_left (λ d n, <[n := kDistanceInfinity]> d) (seq 0 (length g)) d in
    let d := <[source := wzero]> d in
    let plan := match algorithm plan with
                | kAutomatic => automatic env W g
                | _ => plan
                end in
    let ex := executor env in
    let ok (r : option (list W)) := (λ d', Returns (ResultSuccess (), d')) <$> r in
    let ok_or_abort (r : option (Run (list W))) :=
      Run_map (λ d', (ResultSuccess (), d')) <$> r in
    match algorithm plan with
    | kDeltaTile =>
        ok (DeltaStepAlgo (SrcEdgeTilePushWrap g tile) (TileRangeFn g) ex fuel d source)
    | kDeltaStep =>
        ok (DeltaStepAlgo ReqPushWrap (OutEdgeRangeFn g) ex fuel d source)
    | kSerialDeltaTile =>
        ok_or_abort
          (SerDeltaAlgo (SrcEdgeTilePushWrap g tile) (TileRangeFn g) fuel d source
                        (delta plan))
    | kSerialDelta =>
        ok_or_abort
          (SerDeltaAlgo ReqPushWrap (OutEdgeRangeFn g) fuel d source (delta plan))
    | kDijkstraTile =>
        ok (DijkstraAlgo (SrcEdgeTilePushWrap g tile) (TileRangeFn g) fuel d source)
    | kDijkstra =>
        ok (DijkstraAlgo ReqPushWrap (OutEdgeRangeFn g) fuel d source)
    | kTopological => ok (TopoAlgo ex g fuel d source)
    | kTopologicalTile => ok (TopoTileAlgo ex g tile fuel d source)
    | kDeltaStepBarrier =>
        ok (DeltaStepAlgo ReqPushWrap (OutEdgeRangeFn g) ex fuel d source)
    | kAutomatic => Some (Returns (ResultError InvalidArgument, d))
    end.

(** The template [Sssp<Weight>] (lines 703-713). *)
Definition Sssp_typed (fuel : nat) (g : Graph W) (d : list W) (start_node : nat)
    (plan : SsspPlan) : option (Run (Result () * list W)) :=
  SSSP (edge_tile_size plan) fuel g d start_node plan.

(** [SSSPWithWrap<Weight>] (lines 715-743).  The distances are written
    through the typed view, into the output column. *)
Definition SSSPWithWrap (fuel : nat) (pg : PropertyGraph) (start_node : nat)
    (edge_weight_property_name output_property_name : string) (plan : SsspPlan)
    : option (Run (Result () * PropertyGraph)) :=
  match ConstructNodeProperties env type_id pg output_property_name with
  | ResultError e => Some (Returns (ResultError e, pg))
  | ResultSuccess pg =>
      match Make pg output_property_name edge_weight_property_name with
      | ResultError e => Some (Returns (ResultError e, pg))
      | ResultSuccess (g, d) =>
          Run_map (λ rd : Result () * list W,
                     (rd.1, write_back pg output_property_name rd.2))
            <$> Sssp_typed fuel g d start_node plan
      end
  end.

(** *** Validation *)

(** Modelled from the spec: the functor [NotConsistent] of
    [BfsSsspImplementationBase.h] is not among the sources.  "For every
    edge (u,v,w), dist[v] <= dist[u] + w; any violation signals an
    assertion failure": the flag is raised at node [u] when one of its
    edges has [dist[v] > dist[u] + w]. *)
Definition NotConsistent (g : Graph W) (d : list W) (u : nat) : bool :=
  existsb (λ e, wltb (wadd (GetData d u) e.2) (GetData d e.1)) (edges g u).

(** [SsspValidateImpl<Weight>] (lines 778-808).  The graph is handed back
    with the result: the function holds a mutable pointer to it. *)
Definition SsspValidateImpl (pg : PropertyGraph) (start_node : nat)
    (edge_weight_property_name output_property_name : string)
    : Result () * PropertyGraph :=
  match Make pg output_property_name edge_weight_property_name with
  | ResultError e => (ResultError e, pg)
  | ResultSuccess (g, d) =>
      if negb (weqb (GetData d start_node) wzero)
      then (ResultError AssertionFailed, pg)
      else
        let not_consistent := existsb (NotConsistent g d) (seq 0 (length g)) in
        if not_consistent then (ResultError AssertionFailed, pg)
        else (ResultSuccess (), pg)
  end.

(** *** Statistics *)

Record SsspStatistics : Type := {
  n_reached_nodes : Z;
  max_distance : spec_float;
  average_visited_distance : spec_float;
}.

(** The three reducers after the [do_all] of lines 860-872, run in index
    order: [max_dist], [sum_dist], [num_visited]. *)
Definition reduce_statistics (d : list W) : W * W * Z :=
  fold_left
    (λ acc my_distance,
       let '(max_dist, sum_dist, num_visited) := acc in
       if wltb my_distance kDistanceInfinity
       then (if wltb max_dist my_distance then my_distance else max_dist,
             wadd sum_dist my_distance,
             uwrap 64 (num_visited + 1))
       else acc)
    d (reduce_max_identity, wzero, 0).

(** [ComputeStatistics<Weight>] (lines 843-878): the quotient is an IEEE
    binary64 division. *)
Definition ComputeStatistics (pg : PropertyGraph) (output_property_name : string)
    : Result SsspStatistics :=
  match MakeNodes pg output_property_name with
  | ResultError e => ResultError e
  | ResultSuccess d =>
      let '(max_dist, sum_dist, num_visited) := reduce_statistics d in
      let total_visited_nodes := num_visited in
      let average_dist :=
        SFdiv 53 1024 (to_double sum_dist) (Z_to_double total_visited_nodes) in
      ResultSuccess
        {| n_reached_nodes := total_visited_nodes;
           max_distance := to_double max_dist;
           average_visited_distance := average_dist |}
  end.

End Entry.

(** *** Dispatch on the stored type *)

Definition UInt32Type : PropertyType Z := IntPropertyType UINT32.
Definition Int32Type : PropertyType Z := IntPropertyType INT32.
Definition UInt64Type : PropertyType Z := IntPropertyType UINT64.
Definition Int64Type : PropertyType Z := IntPropertyType INT64.
Definition FloatType : PropertyType spec_float := FloatPropertyType FLOAT.
Definition DoubleType : PropertyType spec_float := FloatPropertyType DOUBLE.

(** [katana::analytics::Sssp] (lines 747-774).  [None] also stands for a
    call on a graph without the named edge property, where the C++
    dereferences a null pointer. *)
Definition Sssp (env : Environment) (fuel : nat) (pg : PropertyGraph) (start_node : nat)
    (edge_weight_property_name output_property_name : string) (plan : SsspPlan)
    : option (Run (Result () * PropertyGraph)) :=
  match edge_properties pg !! edge_weight_property_name with
  | None => None
  | Some col =>
      match column_type col with
      | UINT32 =>
          SSSPWithWrap (Wt := UInt32Weight) (Pt := UInt32Type) env fuel pg start_node
            edge_weight_property_name output_property_name plan
      | INT32 =>
          SSSPWithWrap (Wt := Int32Weight) (Pt := Int32Type) env fuel pg start_node
            edge_weight_property_name output_property_name plan
      | UINT64 =>
          SSSPWithWrap (Wt := UInt64Weight) (Pt := UInt64Type) env fuel pg start_node
            edge_weight_property_name output_property_name plan
      | INT64 =>
          SSSPWithWrap (Wt := Int64Weight) (Pt := Int64Type) env fuel pg start_node
            edge_weight_property_name output_property_name plan
      | FLOAT =>
          SSSPWithWrap (Wt := FloatWeight32) (Pt := FloatType) env fuel pg start_node
            edge_weight_property_name output_property_name plan
      | DOUBLE =>
          SSSPWithWrap (Wt := DoubleWeight64) (Pt := DoubleType) env fuel pg start_node
            edge_weight_property_name output_property_name plan
      | _ => Some (Returns (ResultError TypeError, pg))
      end
  end.

(** [katana::analytics::SsspAssertValid] (lines 812-839). *)
Definition SsspAssertValid (pg : PropertyGraph) (start_node : nat)
    (edge_weight_property_name output_property_name : string)
    : option (Result () * PropertyGraph) :=
  match node_properties pg !! output_property_name with
  | None => None
  | Some col =>
      Some match column_type col with
      | UINT32 =>
          SsspValidateImpl (Wt := UInt32Weight) (Pt := UInt32Type) pg start_node
            edge_weight_property_name output_property_name
      | INT32 =>
          SsspValidateImpl (Wt := Int32Weight) (Pt := Int32Type) pg start_node
            edge_weight_property_name output_property_name
      | UINT64 =>
          SsspValidateImpl (Wt := UInt64Weight) (Pt := UInt64Type) pg start_node
            edge_weight_property_name output_property_name
      | INT64 =>
          SsspValidateImpl (Wt := Int64Weight) (Pt := Int64Type) pg start_node
            edge_weight_property_name output_property_name
      | FLOAT =>
          SsspValidateImpl (Wt := FloatWeight32) (Pt := FloatType) pg start_node
            edge_weight_property_name output_property_name
      | DOUBLE =>
          SsspValidateImpl (Wt := DoubleWeight64) (Pt := DoubleType) pg start_node
            edge_weight_property_name output_property_name
      | _ => (ResultError TypeError, pg)
      end
  end.

(** [SsspStatistics::Compute] (lines 882-901). *)
Definition SsspStatistics_Compute (pg : PropertyGraph) (output_property_name : string)
    : option (Result SsspStatistics) :=
  match node_properties pg !! output_property_name with
  | None => None
  | Some col =>
      Some match column_type col with
      | UINT32 => ComputeStatistics (Wt := UInt32Weight) (Pt := UInt32Type) pg output_property_name
      | INT32 => ComputeStatistics (Wt := Int32Weight) (Pt := Int32Type) pg output_property_name
      | UINT64 => ComputeStatistics (Wt := UInt64Weight) (Pt := UInt64Type) pg output_property_name
      | INT64 => ComputeStatistics (Wt := Int64Weight) (Pt := Int64Type) pg output_property_name
      | FLOAT => ComputeStatistics (Wt := FloatWeight32) (Pt := FloatType) pg output_property_name
      | DOUBLE => ComputeStatistics (Wt := DoubleWeight64) (Pt := DoubleType) pg output_property_name
      | _ => ResultError TypeError
      end
  end.

End sssp_entry.

(** ** Pull PageRank ([pagerank-pull.cpp]) *)

Module pagerank.

(** [PRTy] is declared in [pagerank-impl.h], which is not among the
    sources; the locals it is mixed with are [float], and it is taken to
    be [float]: IEEE binary32, round to nearest even. *)
Definition PRTy : Type := spec_float.

Definition fadd : PRTy → PRTy → PRTy := SFadd 24 128.
Definition fsub : PRTy → PRTy → PRTy := SFsub 24 128.
Definition fmul : PRTy → PRTy → PRTy := SFmul 24 128.
Definition fdiv : PRTy → PRTy → PRTy := SFdiv 24 128.
Definition fabs : PRTy → PRTy := SFabs.
Definition fzero : PRTy := S754_zero false.
Definition fone : PRTy := binary_normalize 24 128 1 0 false.
(** The conversion of an unsigned integer to [float]. *)
Definition float_of_Z (z : Z) : PRTy := binary_normalize 24 128 z 0 false.

(** The graph the engine runs on is the transpose of the input: the
    edges of a node lead to its predecessors.  [g !! n] lists their
    destinations. *)
Abbreviation Graph := (list (list nat)).

Definition edges (g : Graph) (n : nat) : list nat := default [] (g !! n).

Abbreviation NodeData := (list PagerankValueAndOutDegreeTy).

(** [graph->GetData<PagerankValueAndOutDegree>(n)]; handles are in range. *)
Definition GetData (nodes : NodeData) (n : nat) : PagerankValueAndOutDegreeTy :=
  default {| out := 0; value := fzero |} (nodes !! n).

(** A [LargeArray<PRTy>] read. *)
Definition at_ (a : list PRTy) (n : nat) : PRTy := default fzero (a !! n).

Record PagerankPlan : Type := {
  alpha : PRTy;
  tolerance : PRTy;
  max_iterations : Z;        (* unsigned int *)
  initial_residual : PRTy;
}.

(** [InitNodeDataTopological] (lines 46-57). *)
Definition InitNodeDataTopological (g : Graph) (nodes : NodeData) : NodeData :=
  let init_value := fdiv fone (float_of_Z (Z.of_nat (length g))) in
  fold_left (λ nodes n, <[n := {| out := 0; value := init_value |}]> nodes)
            (seq 0 (length g)) nodes.

(** [InitNodeDataResidual] (lines 60-74): node data, [delta], [residual]. *)
Definition InitNodeDataResidual (g : Graph) (plan : PagerankPlan)
    (st : NodeData * list PRTy * list PRTy) : NodeData * list PRTy * list PRTy :=
  fold_left
    (λ st n,
       let '(nodes, delta, residual) := st in
       (<[n := {| out := 0; value := fzero |}]> nodes,
        <[n := fzero]> delta,
        <[n := initial_residual plan]> residual))
    (seq 0 (length g)) st.

(** [ComputeOutDeg] (lines 78-112): the tally of destinations, then the
    copy into [out], which narrows [size_t] to [uint32_t]. *)
Definition ComputeOutDeg (g : Graph) (nodes : NodeData) : NodeData :=
  let vec := replicate (length g) 0 in
  let vec :=
    fold_left
      (λ vec src,
         fold_left (λ vec dest, <[dest := uwrap 64 (default 0 (vec !! dest) + 1)]> vec)
                   (edges g src) vec)
      (seq 0 (length g)) vec in
  fold_left
    (λ nodes src,
       <[src := {| out := uwrap 32 (default 0 (vec !! src));
                   value := value (GetData nodes src) |}]> nodes)
    (seq 0 (length g)) nodes.

(** *** The residual algorithm *)

(** The state of [ComputePRResidual]: node data, [delta], [residual] and
    the accumulator of active nodes ([GAccumulator<unsigned int>]). *)
Record ResidualState : Type := {
  rs_nodes : NodeData;
  rs_delta : list PRTy;
  rs_residual : list PRTy;
  rs_accum : Z;
}.

(** Phase 1 at one node (lines 132-147). *)
Definition ResidualPhase1 (plan : PagerankPlan) (st : ResidualState) (src : nat)
    : ResidualState :=
  let sdata := GetData (rs_nodes st) src in
  let delta := <[src := fzero]> (rs_delta st) in
  if SFltb (tolerance plan) (at_ (rs_residual st) src)
  then
    let old_residual := at_ (rs_residual st) src in
    let residual := <[src := fzero]> (rs_residual st) in
    let sdata := {| out := out sdata; value := fadd (value sdata) old_residual |} in
    let nodes := <[src := sdata]> (rs_nodes st) in
    if 0 <? out sdata
    then {| rs_nodes := nodes;
            rs_delta := <[src := fdiv (fmul old_residual (alpha plan))
                                      (float_of_Z (out sdata))]> delta;
            rs_residual := residual;
            rs_accum := uwrap 32 (rs_accum st + 1) |}
    else {| rs_nodes := nodes; rs_delta := delta; rs_residual := residual;
            rs_accum := rs_accum st |}
  else {| rs_nodes := rs_nodes st; rs_delta := delta;
          rs_residual := rs_residual st; rs_accum := rs_accum st |}.

(** The sum of phase 2 (lines 153-159). *)
Definition incoming_delta (g : Graph) (delta : list PRTy) (src : nat) : PRTy :=
  fold_left
    (λ sum dest, if SFltb fzero (at_ delta dest) then fadd sum (at_ delta dest) else sum)
    (edges g src) fzero.

(** Phase 2 at one node (lines 152-163). *)
Definition ResidualPhase2 (g : Graph) (st : ResidualState) (src : nat) : ResidualState :=
  let sum := incoming_delta g (rs_delta st) src in
  if SFltb fzero sum
  then {| rs_nodes := rs_nodes st; rs_delta := rs_delta st;
          rs_residual := <[src := sum]> (rs_residual st); rs_accum := rs_accum st |}
  else st.

(** The first [do_all] of a round, [loopname("PageRank_delta")]. *)
Definition PageRank_delta (ex : Executor) (g : Graph) (plan : PagerankPlan)
    (round : nat) (st : ResidualState) : ResidualState :=
  fold_left (ResidualPhase1 plan) (do_all_order ex (2 * round) (seq 0 (length g))) st.

(** The second [do_all] of a round, [loopname("PageRank")]. *)
Definition PageRank (ex : Executor) (g : Graph)
    (round : nat) (st : ResidualState) : ResidualState :=
  fold_left (ResidualPhase2 g) (do_all_order ex (2 * round + 1) (seq 0 (length g))) st.

(** One round: both [do_all]s (lines 130-166). *)
Definition ResidualRound (ex : Executor) (g : Graph) (plan : PagerankPlan)
    (round : nat) (st : ResidualState) : ResidualState :=
  PageRank ex g round (PageRank_delta ex g plan round st).

(** The [while (true)] of [ComputePRResidual] (lines 129-176); the result
    carries the number of rounds. *)
Fixpoint ResidualLoop (ex : Executor) (g : Graph) (plan : PagerankPlan)
    (fuel : nat) (iterations : Z) (st : ResidualState) : option (ResidualState * Z) :=
  match fuel with
  | O => None
  | S fuel' =>
      let st := ResidualRound ex g plan (Z.to_nat iterations) st in
      let iterations := uwrap 32 (iterations + 1) in
      if (max_iterations plan <=? iterations) || (rs_accum st =? 0)
      then Some (st, iterations)
      else
        let st := {| rs_nodes := rs_nodes st; rs_delta := rs_delta st;
                     rs_residual := rs_residual st; rs_accum := 0 |} in
        ResidualLoop ex g plan fuel' iterations st
  end.

Definition ComputePRResidual (ex : Executor) (g : Graph) (plan : PagerankPlan)
    (fuel : nat) (nodes : NodeData) (delta residual : list PRTy)
    : option (ResidualState * Z) :=
  ResidualLoop ex g plan fuel 0
    {| rs_nodes := nodes; rs_delta := delta; rs_residual := residual; rs_accum := 0 |}.

(** *** The topological algorithm *)

(** The sum over the predecessors (lines 195-201). *)
Definition contributions (g : Graph) (nodes : NodeData) (src : nat) : PRTy :=
  fold_left
    (λ sum dest,
       let ddata := GetData nodes dest in
       fadd sum (fdiv (value ddata) (float_of_Z (out ddata))))
    (edges g src) fzero.

(** The body of the [do_all] of [ComputePRTopological] (lines 193-213):
    the node data and the accumulator of differences. *)
Definition TopoVisit (g : Graph) (plan : PagerankPlan) (base_score : PRTy)
    (st : NodeData * PRTy) (src : nat) : NodeData * PRTy :=
  let (nodes, accum) := st in
  let sdata := GetData nodes src in
  let sum := contributions g nodes src in
  let value_ := fadd (fmul sum (alpha plan)) base_score in
  let diff := fabs (fsub value_ (value sdata)) in
  (<[src := {| out := out sdata; value := value_ |}]> nodes, fadd accum diff).

Definition TopoRound (ex : Executor) (g : Graph) (plan : PagerankPlan)
    (base_score : PRTy) (round : nat) (nodes : NodeData) : NodeData * PRTy :=
  fold_left (TopoVisit g plan base_score)
            (do_all_order ex round (seq 0 (length g))) (nodes, fzero).

(** The [while (true)] of [ComputePRTopological] (lines 190-228); the
    result carries [iteration], which the function reports. *)
Fixpoint TopoLoop (ex : Executor) (g : Graph) (plan : PagerankPlan)
    (base_score : PRTy) (fuel : nat) (iteration : Z) (nodes : NodeData)
    : option (NodeData * Z) :=
  match fuel with
  | O => None
  | S fuel' =>
      let (nodes, accum) := TopoRound ex g plan base_score (Z.to_nat iteration) nodes in
      let iteration := uwrap 32 (iteration + 1) in
      if SFleb accum (tolerance plan) || (max_iterations plan <=? iteration)
      then Some (nodes, iteration)
      else TopoLoop ex g plan base_score fuel' iteration nodes
  end.

Definition ComputePRTopological (ex : Executor) (g : Graph) (plan : PagerankPlan)
    (fuel : nat) (nodes : NodeData) : option (NodeData * Z) :=
  let base_score :=
    fdiv (fsub fone (alpha plan)) (float_of_Z (Z.of_nat (length g))) in
  TopoLoop ex g plan base_score fuel 0 nodes.

(** [Graph::Make(pg, {name}, {})] (lines 277 and 306): the topology with
    the typed view of the record column [name]. *)
Definition Make (pg : PropertyGraph) (name : string) : Result (Graph * NodeData) :=
  match @MakeNodes _ StructPropertyType pg name with
  | ResultError e => ResultError e
  | ResultSuccess nodes => ResultSuccess (topology pg, nodes)
  end.

(** [NodeValue] is declared in [pagerank-impl.h], which is not among the
    sources; it is taken to be a property of [PRTy], stored as [float]. *)
Definition NodeValue : PropertyType PRTy := FloatPropertyType FLOAT.

(** [ExtractValueFromTopoGraph] (lines 233-262): the output column is
    made and viewed, either of which can fail; then the rank of each node
    of [from] is copied into it.  The graph is handed back with the
    result: the function holds a mutable pointer to it. *)
Definition ExtractValueFromTopoGraph (env : Environment) (pg : PropertyGraph)
    (from : Graph * NodeData) (output_property_name : string)
    : Result () * PropertyGraph :=
  match ConstructNodeProperties env (@type_id _ NodeValue) pg output_property_name with
  | ResultError e => (ResultError e, pg)
  | ResultSuccess pg =>
      match @MakeNodes _ NodeValue pg output_property_name with
      | ResultError e => (ResultError e, pg)
      | ResultSuccess graph =>
          let graph :=
            fold_left (λ graph i, <[i := value (GetData from.2 i)]> graph)
                      (do_all_order (executor env) 0 (seq 0 (length from.1))) graph in
          (ResultSuccess (), @write_back _ NodeValue pg output_property_name graph)
      end
  end.

(** [PagerankPullTopological] (lines 265-292).  [temporary_property] is
    the name the [TemporaryPropertyGuard] holds; the guard removes the
    property on every way out of the function.  The node data are written
    through the typed view, into the temporary column.  The result is
    [None] when the fuel does not suffice. *)
Definition PagerankPullTopological (env : Environment) (temporary_property : string)
    (fuel : nat) (pg : PropertyGraph) (output_property_name : string)
    (plan : PagerankPlan) : option (Result () * PropertyGraph) :=
  match ConstructNodeProperties env (@type_id _ StructPropertyType) pg
          temporary_property with
  | ResultError e => Some (ResultError e, RemoveNodeProperty pg temporary_property)
  | ResultSuccess pg =>
      match Make pg temporary_property with
      | ResultError e => Some (ResultError e, RemoveNodeProperty pg temporary_property)
      | ResultSuccess (graph, nodes) =>
          let nodes := InitNodeDataTopological graph nodes in
          let nodes := ComputeOutDeg graph nodes in
          match ComputePRTopological (executor env) graph plan fuel nodes with
          | None => None
          | Some (nodes, iteration) =>
              let pg := @write_back _ StructPropertyType pg temporary_property nodes in
              let (r, pg) :=
                ExtractValueFromTopoGraph env pg (graph, nodes) output_property_name in
              Some (r, RemoveNodeProperty pg temporary_property)
          end
      end
  end.

(** [PagerankPullResidual] (lines 294-326): the node data, ranks and
    out-degrees, are left in the output column. *)
Definition PagerankPullResidual (env : Environment) (fuel : nat) (pg : PropertyGraph)
    (output_property_name : string) (plan : PagerankPlan)
    : option (Result () * PropertyGraph) :=
  match ConstructNodeProperties env (@type_id _ StructPropertyType) pg
          output_property_name with
  | ResultError e => Some (ResultError e, pg)
  | ResultSuccess pg =>
      match Make pg output_property_name with
      | ResultError e => Some (ResultError e, pg)
      | ResultSuccess (graph, nodes) =>
          let delta := replicate (num_nodes pg) fzero in
          let residual := replicate (num_nodes pg) fzero in
          let '(nodes, delta, residual) :=
            InitNodeDataResidual graph plan (nodes, delta, residual) in
          let nodes := ComputeOutDeg graph nodes in
          match ComputePRResidual (executor env) graph plan fuel nodes delta residual with
          | None => None
          | Some (st, iterations) =>
              Some (ResultSuccess (),
                    @write_back _ StructPropertyType pg output_property_name
                                (rs_nodes st))
          end
      end
  end.

End pagerank.

(** ** The in/out-edge adapter ([LC_InOut_Graph.h]) *)

Module inout.

(** [std::sort(first, last, comp)]: the range, reordered so that it is
    sorted for [comp].  Which sorted arrangement results is unspecified; the
    model inserts the elements one by one. *)
Fixpoint sort_insert {A} (comp : A → A → bool) (x : A) (l : list A) : list A :=
  match l with
  | [] => [x]
  | y :: l' => if comp x y then x :: l else y :: sort_insert comp x l'
  end.

Definition std_sort {A} (comp : A → A → bool) (l : list A) : list A :=
  fold_right (sort_insert comp) [] l.

Section Adapter.
Context {edge_data_type : Type}.

(** [EdgeSortValue<GraphNode, edge_data_type>]: what the sort iterators
    [edge_sort_begin], [edge_sort_end] range over. *)
Record EdgeSortValue : Type := { dst : nat; data : edge_data_type }.

(** An [LC_Graph]: per node, its edges in storage order. *)
Abbreviation LC_Graph := (list (list EdgeSortValue)).

(** [Super] is the graph of forward edges, [inGraph] the second graph that
    stores the reverse edges by value when [asymmetric] is set. *)
Record LC_InOut_Graph : Type := {
  Super : LC_Graph;
  inGraph : LC_Graph;
  asymmetric : bool;
}.

Definition node_edges (g : LC_Graph) (N : nat) : list EdgeSortValue :=
  default [] (g !! N).

(** [raw_begin(N)] and [raw_end(N)]: positions in the edge array. *)
Definition raw_begin (g : LC_Graph) (N : nat) : nat :=
  sum_list (length <$> take N g).
Definition raw_end (g : LC_Graph) (N : nat) : nat :=
  sum_list (length <$> take (S N) g).

(** The outgoing edges of [N] ([edge_begin(N)] to [edge_end(N)]). *)
Definition out_edges (G : LC_InOut_Graph) (N : nat) : list EdgeSortValue :=
  node_edges (Super G) N.

(** [in_edge_iterator]: the union of the two iterator kinds, with the tag
    [type] (0 for an iterator of [Super], 1 for one of [inGraph]). *)
Record in_edge_iterator : Type := { type : nat; its : nat }.

Definition increment (i : in_edge_iterator) : in_edge_iterator :=
  {| type := type i; its := S (its i) |}.
(** [advance(unsigned n)] (line 110): the distance the facade passes is
    narrowed to 32 unsigned bits. *)
Definition advance (i : in_edge_iterator) (n : Z) : in_edge_iterator :=
  {| type := type i; its := (its i + Z.to_nat (uwrap 32 n))%nat |}.
Definition equal (i o : in_edge_iterator) : bool :=
  if negb (type i =? type o)%nat then false else (its i =? its o)%nat.
Definition distance_to (i lhs : in_edge_iterator) : Z :=
  Z.of_nat (its lhs) - Z.of_nat (its i).

(** [in_edge_begin] and [in_edge_end] (lines 161-188). *)
Definition in_edge_begin (G : LC_InOut_Graph) (N : nat) : in_edge_iterator :=
  if negb (asymmetric G)
  then {| type := 0; its := raw_begin (Super G) N |}
  else {| type := 1; its := raw_begin (inGraph G) N |}.
Definition in_edge_end (G : LC_InOut_Graph) (N : nat) : in_edge_iterator :=
  if negb (asymmetric G)
  then {| type := 0; its := raw_end (Super G) N |}
  else {| type := 1; its := raw_end (inGraph G) N |}.

(** The edge an iterator stands at ([getInEdgeDst], [getInEdgeData],
    lines 144-159). *)
Definition in_edge_at (G : LC_InOut_Graph) (ni : in_edge_iterator)
    : option EdgeSortValue :=
  if (type ni =? 0)%nat then concat (Super G) !! its ni
  else concat (inGraph G) !! its ni.

(** The incoming edges of [N]: what [in_edges(N)] iterates over. *)
Definition in_edges (G : LC_InOut_Graph) (N : nat) : list EdgeSortValue :=
  if negb (asymmetric G) then node_edges (Super G) N
  else node_edges (inGraph G) N.

(** [std::sort(edge_sort_begin(N), edge_sort_end(N), comp)] on one graph. *)
Definition sort_edges (comp : EdgeSortValue → EdgeSortValue → bool)
    (g : LC_Graph) (N : nat) : LC_Graph :=
  alter (std_sort comp) N g.

(** [sortInEdges] (lines 225-233). *)
Definition sortInEdges (G : LC_InOut_Graph) (N : nat)
    (comp : EdgeSortValue → EdgeSortValue → bool) : LC_InOut_Graph :=
  if negb (asymmetric G)
  then {| Super := sort_edges comp (Super G) N; inGraph := inGraph G;
          asymmetric := asymmetric G |}
  else {| Super := Super G; inGraph := sort_edges comp (inGraph G) N;
          asymmetric := asymmetric G |}.

(** [detail::EdgeSortCompWrapper]: a comparison of edge data, on edges. *)
Definition EdgeSortCompWrapper (comp : edge_data_type → edge_data_type → bool)
    (e1 e2 : EdgeSortValue) : bool :=
  comp (data e1) (data e2).

(** [sortInEdgesByEdgeData] (lines 207-220). *)
Definition sortInEdgesByEdgeData (G : LC_InOut_Graph) (N : nat)
    (comp : edge_data_type → edge_data_type → bool) : LC_InOut_Graph :=
  if negb (asymmetric G)
  then {| Super := sort_edges (EdgeSortCompWrapper comp) (Super G) N;
          inGraph := inGraph G; asymmetric := asymmetric G |}
  else {| Super := Super G;
          inGraph := sort_edges (EdgeSortCompWrapper comp) (inGraph G) N;
          asymmetric := asymmetric G |}.

(** [sortInEdgesByDst] (lines 238-249). *)
Definition sortInEdgesByDst (G : LC_InOut_Graph) (N : nat) : LC_InOut_Graph :=
  if negb (asymmetric G)
  then {| Super := sort_edges (λ e1 e2, (dst e1 <? dst e2)%nat) (Super G) N;
          inGraph := inGraph G; asymmetric := asymmetric G |}
  else {| Super := Super G;
          inGraph := sort_edges (λ e1 e2, (dst e1 <? dst e2)%nat) (inGraph G) N;
          asymmetric := asymmetric G |}.

End Adapter.
End inout.

(** * Part I, continued: the vocabulary of the properties *)

Module inout_spec.
Import inout.

Section Frame.
Context {edge_data_type : Type}.
Abbreviation InOut := (@LC_InOut_Graph edge_data_type).
Abbreviation Edge := (@EdgeSortValue edge_data_type).

(** What a sort of the in-edges of [N] by [comp] does to the adapter [G],
    the result being [G']: the in-edges of [N] are sorted in place; every
    other node keeps its in-edges and its out-edges.  With a separate
    reverse graph the forward graph is untouched; without one the in-edges
    of [N] are its out-edges, which are therefore reordered with them. *)
Definition sorts_in_edges (G : InOut) (N : nat) (comp : Edge → Edge → bool)
    (G' : InOut) : Prop :=
  asymmetric G' = asymmetric G
  ∧ in_edges G' N = std_sort comp (in_edges G N)
  ∧ in_edges G' N ≡ₚ in_edges G N
  ∧ (∀ M, M ≠ N → in_edges G' M = in_edges G M ∧ out_edges G' M = out_edges G M)
  ∧ (if asymmetric G
     then Super G' = Super G
     else inGraph G' = inGraph G ∧ out_edges G' N = in_edges G' N).

End Frame.
End inout_spec.

Module sssp_spec.
Import sssp sssp_entry.

Section Runs.
Context {W : Type} {Wt : Weight W} {T : Type} {Rq : Request (W := W) T}.

(** [d'] is pointwise at or below [d]: no node is farther in [d'] than it
    is in [d]. *)
Definition dist_le (d' d : list W) : Prop :=
  length d' = length d ∧ ∀ v, wle (GetData d' v) (GetData d v).

(** One iteration of a worklist loop: a pending item is taken out and the
    loop body runs on it.  Which item it is depends on the worklist; the
    relation leaves it open. *)
Inductive wl_step (body : T → list W * list T → list W * list T)
    : relation (list W * list T) :=
| wl_step_pop d wl item wl' :
    wl ≡ₚ item :: wl' → wl_step body (d, wl) (body item (d, wl')).

(** The items [pushWrap] makes for a node carry the node and the
    distance. *)
Definition tagged (pushWrap : nat → W → list T) : Prop :=
  ∀ n d item, item ∈ pushWrap n d → src item = n ∧ dist item = d.

(** The edges [edgeRange] yields for an item are out-edges of its node. *)
Definition ranged (g : Graph W) (edgeRange : T → list (nat * W)) : Prop :=
  ∀ item e, e ∈ edgeRange item → e ∈ edges g (src item).

(** No pending request records a distance below the stored one. *)
Definition requests_above (d : list W) (wl : list T) : Prop :=
  ∀ item, item ∈ wl → wle (GetData d (src item)) (dist item).

(** The invariant of the worklist loops: the array has an entry for every
    node and no pending request is below the stored distance. *)
Definition pending_ok (g : Graph W) (st : list W * list T) : Prop :=
  length st.1 = length g ∧ requests_above st.1 st.2.

End Runs.

(** One visit of the [do_all] of [TopoAlgo], at any node: the distances
    and [old_dist]. *)
Inductive topo_step {W} {Wt : Weight W} (g : Graph W)
    : relation (list W * list W) :=
| topo_step_visit d old_dist changed n :
    topo_step g (d, old_dist) (TopoVisit g (d, old_dist, changed) n).1.

(** One visit of the [do_all] of [TopoTileAlgo], at any tile: the
    distances and the tiles. *)
Inductive topo_tile_step {W} {Wt : Weight W} (g : Graph W)
    : relation (list W * list SrcEdgeTile) :=
| topo_tile_step_visit d tiles changed i :
    topo_tile_step g (d, tiles) (TopoTileVisit g (d, tiles, changed) i).1.

(** The distances [SsspImplementation::SSSP] hands to the algorithm it
    selects: all at the sentinel, the source at zero. *)
Definition initial_distances {W} {Wt : Weight W} (g : Graph W) (d : list W)
    (source : nat) : list W :=
  <[source := wzero]>
    (fold_left (λ d n, <[n := kDistanceInfinity]> d) (seq 0 (length g)) d).

(** The plan [SSSP] runs: the one given, or the one of the heuristic
    when the given one is [kAutomatic]. *)
Definition chosen_plan {W} (env : Environment) (g : Graph W) (plan : SsspPlan)
    : SsspPlan :=
  match algorithm plan with
  | kAutomatic => automatic env W g
  | _ => plan
  end.

(** The six stored types the entry points are instantiated at. *)
Definition supported_type (t : ArrowTypeId) : bool :=
  match t with
  | UINT32 | INT32 | UINT64 | INT64 | FLOAT | DOUBLE => true
  | _ => false
  end.

(** The instantiations of the entry points: for each of the six stored
    types, the weight type the templates are instantiated at and the typed
    view of a column of that type. *)
Inductive instantiated_at : ArrowTypeId → ∀ W : Type, Weight W → PropertyType W → Prop :=
| at_uint32 : instantiated_at UINT32 Z UInt32Weight UInt32Type
| at_int32 : instantiated_at INT32 Z Int32Weight Int32Type
| at_uint64 : instantiated_at UINT64 Z UInt64Weight UInt64Type
| at_int64 : instantiated_at INT64 Z Int64Weight Int64Type
| at_float : instantiated_at FLOAT spec_float FloatWeight32 FloatType
| at_double : instantiated_at DOUBLE spec_float DoubleWeight64 DoubleType.

(** What [Sssp] answers at the weight type [W], [res] being the answer:
    an error of the storage layer or of the typed view is handed on, with
    the graph as it then is; otherwise the answer is that of the solver
    on the typed view, with the distances written to the output column. *)
Definition solves_at (W : Type) (Wt : Weight W) (Pt : PropertyType W)
    (env : Environment) (fuel : nat) (pg : PropertyGraph) (start_node : nat)
    (ew out : string) (plan : SsspPlan)
    (res : option (Run (Result () * PropertyGraph))) : Prop :=
  match ConstructNodeProperties env (@type_id W Pt) pg out with
  | ResultError e => res = Some (Returns (ResultError e, pg))
  | ResultSuccess pg' =>
      match Make (W := W) pg' out ew with
      | ResultError e => res = Some (Returns (ResultError e, pg'))
      | ResultSuccess (g, d) =>
          match SSSP (Wt := Wt) env (edge_tile_size plan) fuel g d start_node plan with
          | None => res = None
          | Some Aborts => res = Some Aborts
          | Some (Returns (r, d')) =>
              res = Some (Returns (r, write_back (W := W) pg' out d'))
          end
      end
  end.

(** What the validator looks for: the start node is not at distance zero,
    or an edge [(u, v, w)] has [dist[v] > dist[u] + w], in the arithmetic
    of the weight type. *)
Definition inconsistent {W} {Wt : Weight W} (g : Graph W) (d : list W)
    (start_node : nat) : Prop :=
  weqb (GetData d start_node) wzero = false
  ∨ ∃ u e, e ∈ edges g u ∧ wltb (wadd (GetData d u) e.2) (GetData d e.1) = true.

(** What [SsspAssertValid] answers on a typed view of weight type [W]. *)
Definition validates_at (W : Type) (Wt : Weight W) (Pt : PropertyType W)
    (pg : PropertyGraph) (start_node : nat) (ew out : string) (r : Result ()) : Prop :=
  match Make (W := W) pg out ew with
  | ResultSuccess (g, d) =>
      (r = ResultError AssertionFailed ↔ inconsistent g d start_node)
      ∧ (¬ inconsistent g d start_node → r = ResultSuccess ())
  | ResultError e => r = ResultError e
  end.

(** Every stored distance of the column is the sentinel of its type. *)
Definition all_unreached (c : Column) : Prop :=
  match c with
  | IntColumn UINT32 vals => Forall (λ x, x = @kDistanceInfinity _ UInt32Weight) vals
  | IntColumn INT32 vals => Forall (λ x, x = @kDistanceInfinity _ Int32Weight) vals
  | IntColumn UINT64 vals => Forall (λ x, x = @kDistanceInfinity _ UInt64Weight) vals
  | IntColumn INT64 vals => Forall (λ x, x = @kDistanceInfinity _ Int64Weight) vals
  | FloatColumn FLOAT vals => Forall (λ x, x = @kDistanceInfinity _ FloatWeight32) vals
  | FloatColumn DOUBLE vals => Forall (λ x, x = @kDistanceInfinity _ DoubleWeight64) vals
  | _ => False
  end.

(** The identity of the maximum reducer of the column's type, as a
    [double]. *)
Definition max_identity_of (t : ArrowTypeId) : spec_float :=
  match t with
  | UINT32 => @to_double _ UInt32Weight (@reduce_max_identity _ UInt32Weight)
  | INT32 => @to_double _ Int32Weight (@reduce_max_identity _ Int32Weight)
  | UINT64 => @to_double _ UInt64Weight (@reduce_max_identity _ UInt64Weight)
  | INT64 => @to_double _ Int64Weight (@reduce_max_identity _ Int64Weight)
  | FLOAT => @to_double _ FloatWeight32 (@reduce_max_identity _ FloatWeight32)
  | _ => @to_double _ DoubleWeight64 (@reduce_max_identity _ DoubleWeight64)
  end.

End sssp_spec.

Module pagerank_spec.
Import pagerank.

(** The sum, in the order of the edges, of [rank / outDegree] over the
    predecessors of [v]. *)
Definition predecessor_shares (g : Graph) (nodes : NodeData) (v : nat) : PRTy :=
  fold_left fadd
    (map (λ u, fdiv (value (GetData nodes u)) (float_of_Z (out (GetData nodes u))))
         (edges g v))
    fzero.

(** The rank the specification gives a node: alpha times the sum of the
    shares of its predecessors, plus [(1 - alpha) / N]. *)
Definition new_rank (g : Graph) (plan : PagerankPlan) (nodes : NodeData) (v : nat) : PRTy :=
  fadd (fmul (predecessor_shares g nodes v) (alpha plan))
       (fdiv (fsub fone (alpha plan)) (float_of_Z (Z.of_nat (length g)))).

(** The node data and the accumulated difference after [k] rounds of the
    topological algorithm (the accumulator is reset before each round). *)
Fixpoint after_rounds (ex : Executor) (g : Graph) (plan : PagerankPlan)
    (k : nat) (nodes : NodeData) : NodeData * PRTy :=
  match k with
  | O => (nodes, fzero)
  | S k' =>
      TopoRound ex g plan
        (fdiv (fsub fone (alpha plan)) (float_of_Z (Z.of_nat (length g))))
        k' (after_rounds ex g plan k' nodes).1
  end.

(** The node data a visit finds in a round that began with [old] and
    ends with [new], when the nodes [visited] have had their visit: the
    data of the end of the round at those nodes, the data of the beginning
    elsewhere (the ranks are updated in place). *)
Definition seen (old new : NodeData) (visited : list nat) : NodeData :=
  imap (λ u x, if decide (u ∈ visited) then GetData new u else x) old.

(** A round of the topological algorithm that visits the nodes in the
    order [l], from the node data [old] to the node data [new] with the
    accumulated difference [accum]: every node of [l] has the rank the
    specification gives it from the data its visit finds, no out-degree
    changes, and the accumulator holds the sum, in the order of the
    visits, of [|new - old|] over the nodes of [l]. *)
Definition round_result (g : Graph) (plan : PagerankPlan) (l : list nat)
    (old new : NodeData) (accum : PRTy) : Prop :=
  length new = length old
  ∧ (∀ v, out (GetData new v) = out (GetData old v))
  ∧ (∀ i v, l !! i = Some v →
       value (GetData new v) = new_rank g plan (seen old new (take i l)) v)
  ∧ (∀ v, v ∉ l → GetData new v = GetData old v)
  ∧ accum
    = fold_left fadd
        (map (λ v, fabs (fsub (value (GetData new v)) (value (GetData old v)))) l)
        fzero.

(** The loop stops after round [j]. *)
Definition stops_after (ex : Executor) (g : Graph) (plan : PagerankPlan)
    (nodes : NodeData) (j : nat) : Prop :=
  SFleb (after_rounds ex g plan j nodes).2 (tolerance plan) = true
  ∨ max_iterations plan <= Z.of_nat j.

(** The sum, in the order of the edges, of the positive [delta] of the
    predecessors of [v]. *)
Definition positive_delta_sum (g : Graph) (delta : list PRTy) (v : nat) : PRTy :=
  fold_left fadd (filter (λ x, SFltb fzero x = true) (map (at_ delta) (edges g v))) fzero.

(** The sum of all ranks, in index order. *)
Definition total_rank (ranks : list PRTy) : PRTy := fold_left fadd ranks fzero.

End pagerank_spec.

Module shortest_spec.
Import sssp sssp_spec.

Section Shortest.
Context {W : Type} {Wt : Weight W}.
Variable g : Graph W.
Variable source : nat.

#[local] Abbreviation inf := (kDistanceInfinity : W).

(** [walk v x]: some walk from the source to [v] has length [x], the sum
    of its weights in the arithmetic of the weight type, taken edge after
    edge, and each of its proper prefixes is shorter than the sentinel. *)
Inductive walk : nat → W → Prop :=
| walk_source : walk source wzero
| walk_edge u x e :
    walk u x → wltb x inf = true → e ∈ edges g u → walk e.1 (wadd x e.2).

(** The values a stored distance can take: the sentinel and the lengths
    of the walks. *)
Definition distance (x : W) : Prop := x = inf ∨ ∃ v, walk v x.

(** [d] holds the shortest-path distances from the source, cut off at the
    sentinel: the distance of a node is the sentinel, or it is below the
    sentinel and the length of a walk to the node; and no walk to the
    node is shorter. *)
Definition shortest (d : list W) : Prop :=
  length d = length g
  ∧ (∀ v, GetData d v = inf
          ∨ (wltb (GetData d v) inf = true ∧ walk v (GetData d v)))
  ∧ (∀ v x, walk v x → wltb x (GetData d v) = false).

(** Relaxation closure: the distance of a node is the sentinel or the
    length of a walk to it below the sentinel, the source is at zero, and
    for every edge [(u, v, w)] of a node [u] below the sentinel
    [dist[v] <= dist[u] + w]. *)
Definition settled (d : list W) : Prop :=
  length d = length g
  ∧ (∀ v, GetData d v = inf
          ∨ (wltb (GetData d v) inf = true ∧ walk v (GetData d v)))
  ∧ GetData d source = wzero
  ∧ (∀ u e, e ∈ edges g u → wltb (GetData d u) inf = true →
       wltb (wadd (GetData d u) e.2) (GetData d e.1) = false).

Variable rank : W → nat.

(** [rank] numbers the distances in increasing order: [operator<] on
    distances is the order of their numbers, two distances of one number
    are the same, zero is the first of them and is below the sentinel. *)
Definition ranked : Prop :=
  (rank wzero < rank inf)%nat
  ∧ (∀ a b, distance a → distance b → wltb a b = true ↔ (rank a < rank b)%nat)
  ∧ (∀ a b, distance a → distance b → rank a = rank b → a = b)
  ∧ (∀ a, distance a → (rank wzero <= rank a)%nat).

(** The weight type computes in order on [g]: the distances are numbered
    by [rank]; of two walks to a node, the one that is not longer is not
    longer either after the same edge; and the bucket of a walk is not
    before the bucket of the walk it extends. *)
Definition ordered_on : Prop :=
  ranked
  ∧ (∀ u x y e, walk u x → walk u y → e ∈ edges g u →
       (rank x <= rank y)%nat → wltb y inf = true →
       (rank (wadd x e.2) <= rank (wadd y e.2))%nat)
  ∧ (∀ shift u x e, walk u x → wltb x inf = true → e ∈ edges g u →
       wltb (wadd x e.2) inf = true →
       (bucket shift x <= bucket shift (wadd x e.2))%nat).

(** The sum of the numbers of the distances. *)
Definition rank_sum (d : list W) : nat := sum_list_with rank d.

(** Every stored distance is the sentinel or the length of a walk to the
    node that is below the sentinel. *)
Definition realized (d : list W) : Prop :=
  length d = length g
  ∧ ∀ v, GetData d v = inf
         ∨ (walk v (GetData d v) ∧ (rank (GetData d v) < rank inf)%nat).

(** The edge [e] of [u] is relaxed. *)
Definition relaxed (d : list W) (u : nat) (e : nat * W) : Prop :=
  (rank (GetData d e.1) <= rank (wadd (GetData d u) e.2))%nat.

Section Worklist.
Context {T : Type} {Rq : Request (W := W) T}.
Variable pushWrap : nat → W → list T.
Variable edgeRange : T → list (nat * W).

(** The items made for a node cover its out-edges. *)
Definition covering : Prop :=
  ∀ n x e, e ∈ edges g n → ∃ item, item ∈ pushWrap n x ∧ e ∈ edgeRange item.

(** Every edge of a reached node is relaxed, or a pending request with
    the current distance of the node has it in its range, or it is among
    the edges [rest] still to come of the request [(u0, x)] being
    processed. *)
Definition closed_or_pending (u0 : nat) (x : W) (rest : list (nat * W))
    (st : list W * list T) : Prop :=
  ∀ u e, e ∈ edges g u → (rank (GetData st.1 u) < rank inf)%nat →
    relaxed st.1 u e
    ∨ (∃ item, item ∈ st.2 ∧ src item = u ∧ dist item = GetData st.1 u
               ∧ e ∈ edgeRange item)
    ∨ (u = u0 ∧ GetData st.1 u0 = x ∧ e ∈ rest).

(** The invariant of the worklist loops. *)
Definition wl_inv (u0 : nat) (x : W) (rest : list (nat * W))
    (st : list W * list T) : Prop :=
  realized st.1
  ∧ GetData st.1 source = wzero
  ∧ (∀ item, item ∈ st.2 →
       walk (src item) (dist item)
       ∧ (rank (GetData st.1 (src item)) <= rank (dist item) < rank inf)%nat)
  ∧ closed_or_pending u0 x rest st.

(** The measure that every iteration of a worklist loop lowers, [k]
    bounding the number of items made for a node. *)
Definition wl_measure (k : nat) (st : list W * list T) : nat :=
  (k * rank_sum st.1 + length st.2)%nat.

(** An item of the worklist [wl'] was in [wl], or was made for a
    candidate, the sum of [b] and the weight of an edge of [u0], that is
    below the sentinel. *)
Definition pushed_from (u0 : nat) (b : W) (wl wl' : list T) : Prop :=
  ∀ i, i ∈ wl' →
    i ∈ wl ∨ ∃ e, e ∈ edges g u0 ∧ dist i = wadd b e.2
                  ∧ wltb (wadd b e.2) inf = true.

(** No pending request is in a bucket before the current one. *)
Definition not_behind (shift k : nat) (st : list W * list T) : Prop :=
  ∀ item, item ∈ st.2 → (k <= UpdateRequestIndexer shift item)%nat.

(** The current bucket has an item or no item is left to drain: one more
    turn of the outer loop of [SerDeltaAlgo] is needed when neither
    holds. *)
Definition idle (shift k : nat) (wl : list T) : nat :=
  if wl_empty shift k wl || existsb (λ x, (UpdateRequestIndexer shift x =? k)%nat) wl
  then 0%nat else 1%nat.

End Worklist.

(** The invariant of the topological rounds: [old_dist] is at or above
    the distances, and the edges of a node are relaxed as long as the node
    is at the distance it was last visited with. *)
Definition topo_inv (st : list W * list W) : Prop :=
  realized st.1
  ∧ GetData st.1 source = wzero
  ∧ length st.2 = length g
  ∧ (∀ v, distance (GetData st.2 v)
          ∧ (rank (GetData st.1 v) <= rank (GetData st.2 v) <= rank inf)%nat)
  ∧ (∀ u e, e ∈ edges g u → (rank (GetData st.2 u) < rank inf)%nat →
       GetData st.1 u = GetData st.2 u →
       (rank (GetData st.1 e.1) <= rank (wadd (GetData st.2 u) e.2))%nat).

(** The tiles are ranges of out-edges and cover the out-edges of every
    node. *)
Definition well_tiled (tiles : list SrcEdgeTile) : Prop :=
  (∀ t, t ∈ tiles → ∀ e, e ∈ TileRangeFn g t → e ∈ edges g (t_src t))
  ∧ (∀ u e, e ∈ edges g u → ∃ t, t ∈ tiles ∧ t_src t = u ∧ e ∈ TileRangeFn g t).

(** The same invariant for the tiles, each with the distance it has
    seen. *)
Definition topo_tile_inv (st : list W * list SrcEdgeTile) : Prop :=
  realized st.1
  ∧ GetData st.1 source = wzero
  ∧ well_tiled st.2
  ∧ (∀ t, t ∈ st.2 →
       distance (t_dist t)
       ∧ (rank (GetData st.1 (t_src t)) <= rank (t_dist t) <= rank inf)%nat)
  ∧ (∀ t e, t ∈ st.2 → e ∈ TileRangeFn g t → (rank (t_dist t) < rank inf)%nat →
       GetData st.1 (t_src t) = t_dist t →
       (rank (GetData st.1 e.1) <= rank (wadd (t_dist t) e.2))%nat).

(** Fuel that suffices for every algorithm on [g]. *)
Definition enough_fuel : nat :=
  S (S (length (concat g)) * S (S (length (concat g)) * S (length g))
     * S (rank inf)).

End Shortest.

(** The integral weight types compute exactly on [g]: the order is the
    order of the integers, no weight of [g] is negative, and adding a
    weight of [g] to a distance below the sentinel does not overflow. *)
Definition exact_on {Wt : Weight Z} (g : Graph Z) : Prop :=
  (wzero : Z) = 0
  ∧ (∀ a b : Z, wltb a b = (a <? b))
  ∧ 0 < (kDistanceInfinity : Z)
  ∧ (∀ n e, e ∈ edges g n → 0 <= e.2)
  ∧ (∀ n e x, e ∈ edges g n → 0 <= x < kDistanceInfinity → wadd x e.2 = x + e.2)
  ∧ (∀ shift (x : Z), bucket shift x = Z.to_nat (Z.shiftr x (Z.of_nat shift))).

(** No weight of [g] is negative, and the sentinel plus a weight of [g]
    is at most [limit]. *)
Definition no_overflow (limit inf : Z) (g : Graph Z) : bool :=
  forallb (forallb (λ e : nat * Z, (0 <=? e.2) && (inf + e.2 <=? limit))) g.

(** [wf_graph], decided. *)
Definition wf_graphb {W} (g : Graph W) : bool :=
  forallb (forallb (λ e : nat * W, (e.1 <? length g)%nat)) g.

(** The sum of integer distances. *)
Definition Zsum (d : list Z) : Z := foldr Z.add 0 d.

End shortest_spec.

(** ** Example inputs *)

Module inout_examples.
Import inout.

(** A symmetric adapter whose node 0 has the out-edges to 2 and to 1, in
    that order. *)
Definition two_out_edges : @LC_InOut_Graph () :=
  {| Super := [[ {| dst := 2; data := () |}; {| dst := 1; data := () |} ]; []; []];
     inGraph := [];
     asymmetric := false |}.

End inout_examples.

Module sssp_examples.
Import sssp sssp_entry sssp_spec.

(** A graph of one node and no edge whose weight column is of type
    [INT16]. *)
Definition int16_graph : PropertyGraph :=
  {| topology := [[]];
     node_properties := {[ "dist" := IntColumn INT16 [5] ]};
     edge_properties := {[ "w" := IntColumn INT16 [] ]} |}.

(** An environment that runs the loops in index order, resolves
    [kAutomatic] to Dijkstra and adds no column. *)
Definition no_storage : Environment :=
  {| executor := in_order;
     automatic := λ _ _, {| algorithm := kDijkstra; delta := 0; edge_tile_size := 1 |};
     ConstructNodeProperties := λ _ pg _, ResultSuccess pg |}.

(** The diamond of the specification with its distances [0, 1, 4, 3], as
    [uint32_t] columns. *)
Definition diamond_graph : PropertyGraph :=
  {| topology := [[1; 2]; [3]; [3]; []]%nat;
     node_properties := {[ "dist" := IntColumn UINT32 [0; 1; 4; 3] ]};
     edge_properties := {[ "w" := IntColumn UINT32 [1; 4; 2; 1] ]} |}.

(** The diamond before a run: the distance column holds stale values. *)
Definition diamond_unsolved : PropertyGraph :=
  {| topology := [[1; 2]; [3]; [3]; []]%nat;
     node_properties := {[ "dist" := IntColumn UINT32 [7; 7; 7; 7] ]};
     edge_properties := {[ "w" := IntColumn UINT32 [1; 4; 2; 1] ]} |}.

(** The diamond with a distance column that is not consistent: the start
    node is at distance 5, and node 1 is farther than the edge from node 0
    allows. *)
Definition diamond_inconsistent : PropertyGraph :=
  {| topology := [[1; 2]; [3]; [3]; []]%nat;
     node_properties := {[ "dist" := IntColumn UINT32 [5; 900; 4; 3] ]};
     edge_properties := {[ "w" := IntColumn UINT32 [1; 4; 2; 1] ]} |}.

(** The diamond with weights and distances of type [float]: the weights
    1.0, 4.0, 2.0, 1.0 and the distances 0.0, 1.0, 4.0, 3.0. *)
Definition diamond_float : PropertyGraph :=
  {| topology := [[1; 2]; [3]; [3]; []]%nat;
     node_properties :=
       {[ "dist" := FloatColumn FLOAT
                      [S754_zero false; S754_finite false 8388608 (-23);
                       S754_finite false 8388608 (-21);
                       S754_finite false 12582912 (-22)] ]};
     edge_properties :=
       {[ "w" := FloatColumn FLOAT
                   [S754_finite false 8388608 (-23); S754_finite false 8388608 (-21);
                    S754_finite false 8388608 (-22); S754_finite false 8388608 (-23)] ]} |}.

(** Three nodes, none reached. *)
Definition unreached_graph : PropertyGraph :=
  {| topology := [[]; []; []];
     node_properties :=
       {[ "dist" := IntColumn UINT32 (replicate 3 (@kDistanceInfinity _ UInt32Weight)) ]};
     edge_properties := ∅ |}.

(** The diamond of the specification, as weighted adjacency lists. *)
Definition diamond : Graph Z := [[(1%nat, 1); (2%nat, 4)]; [(3%nat, 2)]; [(3%nat, 1)]; []].

(** The diamond with weights of type [float]: 1.0, 4.0, 2.0, 1.0. *)
Definition float_diamond : Graph spec_float :=
  [[(1%nat, S754_finite false 8388608 (-23)); (2%nat, S754_finite false 8388608 (-21))];
   [(3%nat, S754_finite false 8388608 (-22))];
   [(3%nat, S754_finite false 8388608 (-23))];
   []].

(** The lengths of the walks of [float_diamond] are whole numbers up to
    5; their integer parts number them, and 6 is the number of the
    sentinel. *)
Definition float_diamond_rank (x : spec_float) : nat := Z.to_nat (Z.min (SF_floor x) 6).

(** [n] nodes at the sentinel of [uint32_t]. *)
Definition unreached (n : nat) : list Z := replicate n (@kDistanceInfinity _ UInt32Weight).

(** A graph on which Dijkstra leaves a stale request: node 1 is first
    reached at distance 10 and then, through node 2, at distance 5. *)
Definition detour : Graph Z := [[(1%nat, 10); (2%nat, 2)]; []; [(1%nat, 3)]].

(** The environment of a single thread: loops in index order. *)
Definition single_thread : Environment :=
  {| executor := in_order;
     automatic := λ _ _, {| algorithm := kDeltaStep; delta := 13; edge_tile_size := 512 |};
     ConstructNodeProperties := λ _ pg _, ResultSuccess pg |}.

(** A graph with weights of 32 unsigned bits on which an addition wraps
    around: node 1 is first reached at distance 10, and 10 plus the weight
    of its edge to node 3 is 2 modulo 2^32; later node 1 is reached at
    distance 5, and 5 plus that weight is 2^32 - 3, above the sentinel. *)
Definition overflow_graph : Graph Z :=
  [[(1%nat, 10); (2%nat, 2)]; [(3%nat, 2 ^ 32 - 8)]; [(1%nat, 3)]; []].

End sssp_examples.

Module pagerank_examples.
Import pagerank.

(** The two-cycle of the specification, in pull orientation. *)
Definition two_cycle : Graph := [[1]; [0]]%nat.

(** The default plan: alpha 0.85, tolerance 0.001, at most 1000 rounds. *)
Definition default_plan : PagerankPlan :=
  {| alpha := S754_finite false 14260634 (-24);
     tolerance := S754_finite false 8589935 (-33);
     max_iterations := 1000;
     initial_residual := S754_finite false 10066328 (-26) |}.

(** [n] nodes as they are allocated. *)
Definition fresh_nodes (n : nat) : NodeData :=
  replicate n {| out := 0; value := fzero |}.

(** The node data the rounds of the topological algorithm begin with on
    [g]: every rank at [1/N], and the out-degrees. *)
Definition initial_ranks (g : Graph) : NodeData :=
  ComputeOutDeg g (InitNodeDataTopological g (fresh_nodes (length g))).

(** A column as the storage layer makes it: one entry for each of [n]
    nodes. *)
Definition fresh_column (t : ArrowTypeId) (n : nat) : Column :=
  match t with
  | FIXED_SIZE_BINARY => StructColumn (fresh_nodes n)
  | HALF_FLOAT | FLOAT | DOUBLE => FloatColumn t (replicate n (S754_zero false))
  | _ => IntColumn t (replicate n 0)
  end.

(** A storage layer that makes every column it is asked for, with a
    single thread that runs the loops in index order. *)
Definition in_memory : Environment :=
  {| executor := in_order;
     automatic := λ _ _, {| algorithm := kDeltaStep; delta := 13; edge_tile_size := 512 |};
     ConstructNodeProperties := λ t pg name,
       ResultSuccess
         {| topology := topology pg;
            node_properties :=
              <[name := fresh_column t (num_nodes pg)]> (node_properties pg);
            edge_properties := edge_properties pg |} |}.

(** The property graph with the topology [g] and no property. *)
Definition bare (g : Graph) : PropertyGraph :=
  {| topology := g; node_properties := ∅; edge_properties := ∅ |}.

(** The default plan with the maximum number of rounds set to 0. *)
Definition no_round_plan : PagerankPlan :=
  {| alpha := alpha default_plan; tolerance := tolerance default_plan;
     max_iterations := 0; initial_residual := initial_residual default_plan |}.

(** The state of the residual algorithm on the two-cycle after phase 1 of
    the first round. *)
Definition two_cycle_phase1 : ResidualState :=
  PageRank_delta in_order two_cycle default_plan 0
    {| rs_nodes := ComputeOutDeg two_cycle (fresh_nodes 2);
       rs_delta := [fzero; fzero];
       rs_residual := [initial_residual default_plan; initial_residual default_plan];
       rs_accum := 0 |}.

(** A two-cycle with an edge from node 0 to a third node that has no
    out-edge, in pull orientation. *)
Definition dangling_graph : Graph := [[1]; [0]; [0]]%nat.

(** The state of the residual algorithm on it at the start of the first
    round. *)
Definition dangling_start : ResidualState :=
  {| rs_nodes := ComputeOutDeg dangling_graph (fresh_nodes 3);
     rs_delta := [fzero; fzero; fzero];
     rs_residual := replicate 3 (initial_residual default_plan);
     rs_accum := 0 |}.

End pagerank_examples.

(** ** Vocabulary of the further properties *)

Module more_spec.

(** Every [do_all] of the executor runs its body once on each element of
    the range. *)
Definition once (ex : Executor) : Prop :=
  ∀ round l, do_all_order ex round l ≡ₚ l.

(** How often [n] is a destination in the adjacency lists [g]. *)
Definition in_degree (g : list (list nat)) (n : nat) : Z :=
  Z.of_nat (count_occ Nat.eq_dec (concat g) n).

(** A node is active in phase 1 of the residual algorithm: its residual
    is above the tolerance and it has an out-edge. *)
Definition active (plan : pagerank.PagerankPlan) (st : pagerank.ResidualState)
    (u : nat) : bool :=
  SFltb (pagerank.tolerance plan) (pagerank.at_ (pagerank.rs_residual st) u)
  && (0 <? out (pagerank.GetData (pagerank.rs_nodes st) u)).

(** What phase 1 leaves at the node [v], given what it found there. *)
Definition phase1_at (plan : pagerank.PagerankPlan)
    (st st' : pagerank.ResidualState) (v : nat) : Prop :=
  let r := pagerank.at_ (pagerank.rs_residual st) v in
  let sdata := pagerank.GetData (pagerank.rs_nodes st) v in
  let sdata' := pagerank.GetData (pagerank.rs_nodes st') v in
  out sdata' = out sdata
  ∧ if SFltb (pagerank.tolerance plan) r
    then value sdata' = pagerank.fadd (value sdata) r
         ∧ pagerank.at_ (pagerank.rs_residual st') v = pagerank.fzero
         ∧ pagerank.at_ (pagerank.rs_delta st') v
           = (if 0 <? out sdata
              then pagerank.fdiv (pagerank.fmul r (pagerank.alpha plan))
                     (pagerank.float_of_Z (out sdata))
              else pagerank.fzero)
    else sdata' = sdata
         ∧ pagerank.at_ (pagerank.rs_residual st') v = r
         ∧ pagerank.at_ (pagerank.rs_delta st') v = pagerank.fzero.

(** The three arrays of the residual algorithm agree at [v]. *)
Definition same_at (st st' : pagerank.ResidualState) (v : nat) : Prop :=
  pagerank.GetData (pagerank.rs_nodes st') v = pagerank.GetData (pagerank.rs_nodes st) v
  ∧ pagerank.at_ (pagerank.rs_residual st') v = pagerank.at_ (pagerank.rs_residual st) v
  ∧ pagerank.at_ (pagerank.rs_delta st') v = pagerank.at_ (pagerank.rs_delta st) v.

(** The three arrays have an entry for each of [n] nodes. *)
Definition sized (n : nat) (st : pagerank.ResidualState) : Prop :=
  length (pagerank.rs_nodes st) = n
  ∧ length (pagerank.rs_delta st) = n
  ∧ length (pagerank.rs_residual st) = n.

(** The storage layer [base], except that it makes a record column with
    the content [vals]. *)
Definition with_records (vals : list PagerankValueAndOutDegreeTy) (base : Environment)
    : Environment :=
  {| executor := executor base;
     automatic := automatic base;
     ConstructNodeProperties := λ t pg name,
       match t with
       | FIXED_SIZE_BINARY =>
           ResultSuccess
             {| topology := topology pg;
                node_properties := <[name := StructColumn vals]> (node_properties pg);
                edge_properties := edge_properties pg |}
       | _ => ConstructNodeProperties base t pg name
       end |}.

(** The storage layer keeps the topology when it makes a node column, and
    the column it has made has an entry for each node. *)
Definition allocates (env : Environment) : Prop :=
  ∀ t pg name pg', ConstructNodeProperties env t pg name = ResultSuccess pg' →
    topology pg' = topology pg
    ∧ ∀ col, node_properties pg' !! name = Some col → column_length col = num_nodes pg.

(** The node data both PageRank algorithms begin their rounds with: the
    rank [x] and the out-degree of each node. *)
Definition initial_nodes (g : pagerank.Graph) (x : pagerank.PRTy) : pagerank.NodeData :=
  pagerank.ComputeOutDeg g (replicate (length g) {| out := 0; value := x |}).

(** The error [e] is what the storage layer answered when
    [PagerankPullTopological] asked it for the temporary column [tmp] or
    for its typed view, or, the rounds done and the node data [nodes]
    written to that column, for the output column or its typed view. *)
Definition topological_storage_error (env : Environment) (tmp out_name : string)
    (pg : PropertyGraph) (nodes : pagerank.NodeData) (e : ErrorCode) : Prop :=
  ConstructNodeProperties env FIXED_SIZE_BINARY pg tmp = ResultError e
  ∨ ∃ pg1, ConstructNodeProperties env FIXED_SIZE_BINARY pg tmp = ResultSuccess pg1
      ∧ (pagerank.Make pg1 tmp = ResultError e
         ∨ let pg2 := @write_back _ StructPropertyType pg1 tmp nodes in
           (ConstructNodeProperties env FLOAT pg2 out_name = ResultError e
            ∨ ∃ pg3, ConstructNodeProperties env FLOAT pg2 out_name = ResultSuccess pg3
                ∧ @MakeNodes _ pagerank.NodeValue pg3 out_name = ResultError e)).

(** The same for [PagerankPullResidual], which asks for the output column
    and its typed view before its rounds. *)
Definition residual_storage_error (env : Environment) (out_name : string)
    (pg : PropertyGraph) (e : ErrorCode) : Prop :=
  ConstructNodeProperties env FIXED_SIZE_BINARY pg out_name = ResultError e
  ∨ ∃ pg1, ConstructNodeProperties env FIXED_SIZE_BINARY pg out_name = ResultSuccess pg1
      ∧ pagerank.Make pg1 out_name = ResultError e.

(** The distances below the sentinel [inf], in index order. *)
Definition reached (inf : Z) (vals : list Z) : list Z :=
  List.filter (λ x, x <? inf) vals.

End more_spec.

Module closure_spec.
Import sssp sssp_spec shortest_spec.

Section Closure.
Context {Wt : Weight Z}.
Variable g : Graph Z.
Variable source : nat.

(** The weight type is unsigned: its order is the order of the integers
    and no sum is below zero (sums may wrap around). *)
Definition unsigned_weights : Prop :=
  (wzero : Z) = 0
  ∧ (∀ a b : Z, wltb a b = (a <? b))
  ∧ 0 < (kDistanceInfinity : Z)
  ∧ (∀ a b : Z, 0 <= wadd a b).

(** Every distance is between zero and the sentinel. *)
Definition bounded (d : list Z) : Prop :=
  length d = length g ∧ ∀ v, 0 <= GetData d v <= kDistanceInfinity.

(** The edge [e] of [u] is relaxed, in the arithmetic of the weight
    type. *)
Definition relaxed_w (d : list Z) (u : nat) (e : nat * Z) : Prop :=
  GetData d e.1 <= wadd (GetData d u) e.2.

(** Relaxation closure: every edge of a reached node is relaxed. *)
Definition closed (d : list Z) : Prop :=
  ∀ u e, e ∈ edges g u → GetData d u < kDistanceInfinity → relaxed_w d u e.

(** What every strategy that returns ends with: a distance between zero
    and the sentinel for each node, zero at the start node, and
    relaxation closure. *)
Definition closed_distances (d : list Z) : Prop :=
  bounded d ∧ GetData d source = 0 ∧ closed d.

End Closure.
End closure_spec.

Module more_examples.
Import pagerank pagerank_examples.

(** The state of the residual algorithm on the two-cycle at the start of
    the first round. *)
Definition two_cycle_start : ResidualState :=
  {| rs_nodes := ComputeOutDeg two_cycle (fresh_nodes 2);
     rs_delta := [fzero; fzero];
     rs_residual := [initial_residual default_plan; initial_residual default_plan];
     rs_accum := 0 |}.

(** A path 0 -> 1 -> 3 beside a node, 2, that no edge leads to. *)
Definition isolated : list (list (nat * Z)) := [[(1%nat, 5)]; [(3%nat, 2)]; [(3%nat, 1)]; []].

(** Two edges in a row, the second with a weight that makes the sum wrap
    around 32 bits: 10 + (2^32 - 8) is 2 modulo 2^32. *)
Definition wrap_chain : list (list (nat * Z)) := [[(1%nat, 10)]; [(2%nat, 2 ^ 32 - 8)]; []].

(** An environment whose storage layer refuses to add a column. *)
Definition read_only : Environment :=
  {| executor := in_order;
     automatic := λ _ _, {| algorithm := kDijkstra; delta := 0; edge_tile_size := 1 |};
     ConstructNodeProperties := λ _ _ _, ResultError AlreadyExists |}.

End more_examples.

(** * Part II: properties *)

(** ** The in/out-edge adapter *)

Module inout_props.
Import inout inout_spec inout_examples.

Section Sorting.
Context {edge_data_type : Type}.
Abbreviation InOut := (@LC_InOut_Graph edge_data_type).
Abbreviation Edge := (@EdgeSortValue edge_data_type).
Implicit Types (G : InOut) (g : list (list Edge)) (N M : nat).

Lemma sort_insert_perm {A} (comp : A → A → bool) x l :
  sort_insert comp x l ≡ₚ x :: l.
Proof.
  induction l as [|y l IH]; simpl; [done|].
  destruct (comp x y); [done|].
  rewrite IH. apply Permutation_swap.
Qed.

Lemma std_sort_perm {A} (comp : A → A → bool) l : std_sort comp l ≡ₚ l.
Proof.
  induction l as [|x l IH]; simpl; [done|].
  rewrite sort_insert_perm. by rewrite IH.
Qed.

Lemma sort_edges_other comp g N M :
  M ≠ N → node_edges (sort_edges comp g N) M = node_edges g M.
Proof.
  intros Hne. unfold node_edges, sort_edges.
  rewrite list_lookup_alter_ne; [done|]. intros ->. by apply Hne.
Qed.

Lemma sort_edges_same comp g N :
  node_edges (sort_edges comp g N) N = std_sort comp (node_edges g N).
Proof.
  unfold node_edges, sort_edges. rewrite list_lookup_alter.
  destruct (decide (N = N)) as [_|Hne]; [|by destruct Hne].
  by destruct (g !! N).
Qed.

(** The effect of a sort on whichever graph holds the in-edges. *)
Lemma sort_in_edges_effect G N comp G' :
  G' = (if negb (asymmetric G)
        then {| Super := sort_edges comp (Super G) N; inGraph := inGraph G;
                asymmetric := asymmetric G |}
        else {| Super := Super G; inGraph := sort_edges comp (inGraph G) N;
                asymmetric := asymmetric G |}) →
  sorts_in_edges G N comp G'.
Proof.
  intros ->. unfold sorts_in_edges, in_edges, out_edges.
  destruct (asymmetric G) eqn:Hasym; simpl; rewrite ?Hasym; simpl.
  - split; [done|]. rewrite sort_edges_same.
    split; [done|]. split; [apply std_sort_perm|].
    split; [|done]. intros M HM. by rewrite sort_edges_other.
  - split; [done|]. rewrite sort_edges_same.
    split; [done|]. split; [apply std_sort_perm|].
    split; [|done]. intros M HM. by rewrite sort_edges_other.
Qed.

(** C9, as amended.  Each of the three sorts of the incoming edges of [N]
    sorts them in place and leaves the in-edges and the out-edges of every
    other node as they were.  In asymmetric mode the forward graph, hence
    the order of the outgoing edges of [N] too, is unchanged; in symmetric
    mode the in-edges of [N] are its out-edges, and these are reordered by
    the sort. *)
Theorem C9_sort_in_edges_frame G N
    (comp : Edge → Edge → bool) (comp_data : edge_data_type → edge_data_type → bool) :
  sorts_in_edges G N comp (sortInEdges G N comp)
  ∧ sorts_in_edges G N (EdgeSortCompWrapper comp_data)
                   (sortInEdgesByEdgeData G N comp_data)
  ∧ sorts_in_edges G N (λ e1 e2, (dst e1 <? dst e2)%nat) (sortInEdgesByDst G N).
Proof.
  split; [|split].
  - apply sort_in_edges_effect. reflexivity.
  - apply sort_in_edges_effect. reflexivity.
  - apply sort_in_edges_effect. reflexivity.
Qed.

End Sorting.

(** C9, as stated, fails in symmetric mode: sorting the incoming edges of
    node 0 by destination reorders its outgoing edges. *)
Lemma C9_symmetric_sort_reorders_out_edges :
  out_edges (sortInEdgesByDst two_out_edges 0) 0 ≠ out_edges two_out_edges 0.
Proof.
  vm_compute. intros Heq. discriminate Heq.
Qed.

End inout_props.

(** ** The SSSP entry points: dispatch, validation, statistics *)

Module sssp_entry_props.
Import sssp sssp_entry sssp_spec sssp_examples.

(** *** Dispatch (C8) *)

Lemma supported_instantiated (t : ArrowTypeId) :
  supported_type t = true ↔ ∃ W Wt Pt, instantiated_at t W Wt Pt.
Proof.
  split.
  - destruct t; try discriminate; intros _; eexists _, _, _; constructor.
  - intros (W & Wt & Pt & Hat). by destruct Hat.
Qed.

Lemma SSSPWithWrap_solves_at {W} {Wt : Weight W} {Pt : PropertyType W}
    (env : Environment) (fuel : nat) (pg : PropertyGraph) (start_node : nat)
    (ew out : string) (plan : SsspPlan) :
  solves_at W Wt Pt env fuel pg start_node ew out plan
    (SSSPWithWrap env fuel pg start_node ew out plan).
Proof.
  unfold solves_at, SSSPWithWrap, Sssp_typed.
  destruct (ConstructNodeProperties env type_id pg out) as [pg'|e]; [|done].
  destruct (Make pg' out ew) as [[g d]|e]; [|done].
  destruct (SSSP env (edge_tile_size plan) fuel g d start_node plan) as [[[r d']|]|];
    done.
Qed.

(** C8.  [Sssp] looks at the Arrow type of the stored edge-weight property.
    The supported types are the six that have an instantiation.  For each
    of them the answer is the one of that instantiation: the weight type
    and the typed view are those of the stored type, an error of the
    storage layer or of the typed view is handed on, and otherwise the
    solver runs on the typed view and its distances go to the output
    column.  For every other type the answer is [TypeError] and the
    property graph is the one that was given, whatever the storage layer
    and the executor are. *)
Theorem C8_Sssp_dispatch (env : Environment) (fuel : nat) (pg : PropertyGraph)
    (start_node : nat) (edge_weight_property_name output_property_name : string)
    (plan : SsspPlan) (col : Column) :
  edge_properties pg !! edge_weight_property_name = Some col →
  (supported_type (column_type col) = true
   ↔ ∃ W Wt Pt, instantiated_at (column_type col) W Wt Pt)
  ∧ (supported_type (column_type col) = false →
       Sssp env fuel pg start_node edge_weight_property_name
            output_property_name plan
       = Some (Returns (ResultError TypeError, pg)))
  ∧ (∀ W Wt Pt, instantiated_at (column_type col) W Wt Pt →
       @type_id W Pt = column_type col
       ∧ solves_at W Wt Pt env fuel pg start_node edge_weight_property_name
           output_property_name plan
           (Sssp env fuel pg start_node edge_weight_property_name
                 output_property_name plan)).
Proof.
  intros Hcol. split; [apply supported_instantiated|]. split.
  - intros Hno. unfold Sssp. rewrite Hcol. by destruct (column_type col).
  - intros W Wt Pt Hat. unfold Sssp. rewrite Hcol.
    destruct Hat; (split; [done|]); apply SSSPWithWrap_solves_at.
Qed.

(** A weight column of type [INT16] is refused and the graph is left as
    it was; on the diamond with [uint32_t] weights Dijkstra runs and the
    output column holds the distances 0, 1, 4, 3. *)
Lemma C8_Sssp_dispatch_witness :
  Sssp no_storage 10 int16_graph 0 "w" "dist"
       {| algorithm := kDijkstra; delta := 0; edge_tile_size := 1 |}
  = Some (Returns (ResultError TypeError, int16_graph))
  ∧ Sssp no_storage 10 diamond_unsolved 0 "w" "dist"
         {| algorithm := kDijkstra; delta := 0; edge_tile_size := 1 |}
    = Some (Returns (ResultSuccess (), diamond_graph)).
Proof.
  split.
  - exact (proj1 (proj2 (C8_Sssp_dispatch no_storage 10 int16_graph 0 "w" "dist"
                   {| algorithm := kDijkstra; delta := 0; edge_tile_size := 1 |}
                   (IntColumn INT16 []) eq_refl)) eq_refl).
  - pose proof (proj2 (proj2 (proj2 (C8_Sssp_dispatch no_storage 10 diamond_unsolved 0
                   "w" "dist"
                   {| algorithm := kDijkstra; delta := 0; edge_tile_size := 1 |}
                   (IntColumn UINT32 [1; 4; 2; 1]) eq_refl))
                   Z UInt32Weight UInt32Type at_uint32)) as Hsolve.
    unfold solves_at in Hsolve. vm_compute in Hsolve. vm_compute. exact Hsolve.
Defined.

(** *** Validation (C4) *)

Section Validation.
Context {W : Type} {Wt : Weight W} {Pt : PropertyType W}.

Lemma existsb_NotConsistent (g : Graph W) (d : list W) :
  existsb (NotConsistent g d) (seq 0 (length g)) = true
  ↔ ∃ u e, e ∈ edges g u ∧ wltb (wadd (GetData d u) e.2) (GetData d e.1) = true.
Proof.
  rewrite existsb_exists. split.
  - intros (u & _ & Hu). unfold NotConsistent in Hu.
    apply existsb_exists in Hu as (e & He & Hlt).
    exists u, e. split; [by apply list_elem_of_In|done].
  - intros (u & e & He & Hlt). exists u. split.
    + apply in_seq. split; [lia|]. simpl.
      unfold edges in He. destruct (g !! u) as [es|] eqn:Hu.
      * by apply lookup_lt_Some in Hu.
      * simpl in He. by apply elem_of_nil in He.
    + unfold NotConsistent. apply existsb_exists.
      exists e. split; [by apply list_elem_of_In|done].
Qed.

(** On a typed view, the validator answers [AssertionFailed] exactly when
    the distances are inconsistent, and success otherwise. *)
Lemma SsspValidateImpl_typed (pg : PropertyGraph) (start_node : nat)
    (ew out : string) (g : Graph W) (d : list W) :
  Make pg out ew = ResultSuccess (g, d) →
  ∃ r, SsspValidateImpl pg start_node ew out = (r, pg)
       ∧ (r = ResultError AssertionFailed ↔ inconsistent g d start_node)
       ∧ (¬ inconsistent g d start_node → r = ResultSuccess ()).
Proof.
  intros HMake. unfold SsspValidateImpl. rewrite HMake. unfold inconsistent.
  destruct (weqb (GetData d start_node) wzero) eqn:Hstart; simpl.
  - destruct (existsb (NotConsistent g d) (seq 0 (length g))) eqn:Hex.
    + exists (ResultError AssertionFailed). split; [done|].
      apply existsb_NotConsistent in Hex. split; [|intros Hn; destruct Hn; by right].
      split; [by right|done].
    + exists (ResultSuccess ()). split; [done|]. split; [|done].
      split; [discriminate|]. intros [Hs|Hv]; [discriminate|].
      apply existsb_NotConsistent in Hv. congruence.
  - exists (ResultError AssertionFailed). split; [done|].
    split; [|intros Hn; destruct Hn; by left]. split; [by left|done].
Qed.

Lemma SsspValidateImpl_untyped (pg : PropertyGraph) (start_node : nat)
    (ew out : string) (e : ErrorCode) :
  Make (W := W) pg out ew = ResultError e →
  SsspValidateImpl pg start_node ew out = (ResultError e, pg).
Proof. intros HMake. unfold SsspValidateImpl. by rewrite HMake. Qed.

End Validation.

Lemma SsspValidateImpl_validates_at {W} {Wt : Weight W} {Pt : PropertyType W}
    (pg : PropertyGraph) (start_node : nat) (ew out : string) :
  ∃ r, SsspValidateImpl pg start_node ew out = (r, pg)
       ∧ validates_at W Wt Pt pg start_node ew out r.
Proof.
  unfold validates_at.
  destruct (Make (W := W) pg out ew) as [[g d]|e] eqn:HMake.
  - by apply SsspValidateImpl_typed.
  - exists (ResultError e). split; [|done]. by apply SsspValidateImpl_untyped.
Qed.

(** What [inconsistent] says, decided. *)
Lemma inconsistent_decide {W} {Wt : Weight W} (g : Graph W) (d : list W)
    (start_node : nat) :
  inconsistent g d start_node
  ↔ negb (weqb (GetData d start_node) wzero)
    || existsb (NotConsistent g d) (seq 0 (length g)) = true.
Proof.
  unfold inconsistent. rewrite orb_true_iff, existsb_NotConsistent, negb_true_iff.
  done.
Qed.

Lemma SsspAssertValid_at {W} {Wt : Weight W} {Pt : PropertyType W}
    (pg : PropertyGraph) (start_node : nat) (ew out : string) (col : Column) :
  node_properties pg !! out = Some col →
  instantiated_at (column_type col) W Wt Pt →
  SsspAssertValid pg start_node ew out = Some (SsspValidateImpl pg start_node ew out).
Proof.
  intros Hcol Hat. unfold SsspAssertValid. rewrite Hcol. by destruct Hat.
Qed.

(** C4, as amended.  [SsspAssertValid] never changes the property graph.
    When the stored distance property has one of the six supported types,
    the answer is the one of the instantiation of that type: when the
    typed view of the distances and of the edge weights exists, it is
    [AssertionFailed] exactly when the start node is not at distance zero
    or an edge [(u, v, w)] has [dist[v] > dist[u] + w] in the arithmetic
    of that weight type, and success when neither holds; when the typed
    view does not exist it is the error of the view.  For any other
    stored type the answer is [TypeError]. *)
Theorem C4_SsspAssertValid (pg : PropertyGraph) (start_node : nat)
    (edge_weight_property_name output_property_name : string) (col : Column) :
  node_properties pg !! output_property_name = Some col →
  ∃ r, SsspAssertValid pg start_node edge_weight_property_name output_property_name
       = Some (r, pg)
       ∧ (supported_type (column_type col) = true
          ↔ ∃ W Wt Pt, instantiated_at (column_type col) W Wt Pt)
       ∧ (supported_type (column_type col) = false → r = ResultError TypeError)
       ∧ (∀ W Wt Pt, instantiated_at (column_type col) W Wt Pt →
            validates_at W Wt Pt pg start_node edge_weight_property_name
                         output_property_name r).
Proof.
  intros Hcol.
  destruct (supported_type (column_type col)) eqn:Hs.
  - destruct (proj1 (supported_instantiated _) Hs) as (W & Wt & Pt & Hat).
    destruct (@SsspValidateImpl_validates_at W Wt Pt pg start_node
                edge_weight_property_name output_property_name) as (r & Hr & Hv).
    pose proof (SsspAssertValid_at pg start_node edge_weight_property_name
                  output_property_name col Hcol Hat) as Hrun.
    exists r. split; [by rewrite Hrun, Hr|].
    split; [split; [intros _; by exists W, Wt, Pt|done]|]. split; [done|].
    intros W' Wt' Pt' Hat'.
    pose proof (SsspAssertValid_at pg start_node edge_weight_property_name
                  output_property_name col Hcol Hat') as Hrun'.
    destruct (@SsspValidateImpl_validates_at W' Wt' Pt' pg start_node
                edge_weight_property_name output_property_name) as (r' & Hr' & Hv').
    assert (r' = r) as <- by congruence. exact Hv'.
  - exists (ResultError TypeError). split.
    + unfold SsspAssertValid. rewrite Hcol. by destruct (column_type col).
    + assert (∀ W Wt Pt, ¬ instantiated_at (column_type col) W Wt Pt) as Hnone.
      { intros W Wt Pt Hat.
        assert (supported_type (column_type col) = true) as Hyes
          by (apply supported_instantiated; by exists W, Wt, Pt).
        congruence. }
      split; [split; [done|intros (W & Wt & Pt & Hat); by destruct (Hnone W Wt Pt)]|].
      split; [done|]. intros W Wt Pt Hat. by destruct (Hnone W Wt Pt).
Qed.

(** The validator accepts the diamond with its shortest distances and
    refuses it with a start node at distance 5. *)
Lemma C4_SsspAssertValid_witness :
  SsspAssertValid diamond_graph 0 "w" "dist"
  = Some (ResultSuccess (), diamond_graph)
  ∧ SsspAssertValid diamond_inconsistent 0 "w" "dist"
    = Some (ResultError AssertionFailed, diamond_inconsistent).
Proof.
  split.
  - destruct (C4_SsspAssertValid diamond_graph 0 "w" "dist"
                (IntColumn UINT32 [0; 1; 4; 3]) eq_refl) as (r & Hrun & _ & _ & Hat).
    specialize (Hat Z UInt32Weight UInt32Type at_uint32).
    unfold validates_at in Hat.
    change (Make (W := Z) (H := UInt32Type) diamond_graph "dist" "w")
      with (ResultSuccess (A := Graph Z * list Z)
              ([[(1%nat, 1); (2%nat, 4)]; [(3%nat, 2)]; [(3%nat, 1)]; []], [0; 1; 4; 3]))
      in Hat.
    destruct Hat as [_ Hok]. rewrite Hrun. rewrite Hok; [done|].
    rewrite inconsistent_decide. vm_compute. discriminate.
  - destruct (C4_SsspAssertValid diamond_inconsistent 0 "w" "dist"
                (IntColumn UINT32 [5; 900; 4; 3]) eq_refl) as (r & Hrun & _ & _ & Hat).
    specialize (Hat Z UInt32Weight UInt32Type at_uint32).
    unfold validates_at in Hat.
    change (Make (W := Z) (H := UInt32Type) diamond_inconsistent "dist" "w")
      with (ResultSuccess (A := Graph Z * list Z)
              ([[(1%nat, 1); (2%nat, 4)]; [(3%nat, 2)]; [(3%nat, 1)]; []],
               [5; 900; 4; 3]))
      in Hat.
    destruct Hat as [Hbad _]. rewrite Hrun. rewrite (proj2 Hbad); [done|].
    rewrite inconsistent_decide. vm_compute. reflexivity.
Defined.

(** C4, as stated, fails: the start node of [int16_graph] is stored at
    distance 5, not zero, and the validator does not answer
    [AssertionFailed] but [TypeError]. *)
Lemma C4_unsupported_type_is_TypeError :
  node_properties int16_graph !! "dist" = Some (IntColumn INT16 [5])
  ∧ SsspAssertValid int16_graph 0 "w" "dist"
    = Some (ResultError TypeError, int16_graph).
Proof.
  split.
  - reflexivity.
  - unfold SsspAssertValid.
    replace (node_properties int16_graph !! "dist") with (Some (IntColumn INT16 [5]))
      by reflexivity.
    reflexivity.
Qed.

(** *** Statistics (C10) *)

Lemma reduce_statistics_unreached {W} {Wt : Weight W} (d : list W) :
  wltb (kDistanceInfinity : W) kDistanceInfinity = false →
  Forall (λ x, x = kDistanceInfinity) d →
  reduce_statistics d = (reduce_max_identity, wzero, 0).
Proof.
  intros Hirr Hall. unfold reduce_statistics.
  generalize (reduce_max_identity : W, wzero : W, 0) as acc.
  induction Hall as [|x d -> _ IH]; intros acc; simpl; [done|].
  destruct acc as [[max_dist sum_dist] num_visited].
  rewrite Hirr. apply IH.
Qed.

Lemma ComputeStatistics_unreached {W} {Wt : Weight W} {Pt : PropertyType W}
    (pg : PropertyGraph) (out : string) (col : Column) (d : list W) :
  node_properties pg !! out = Some col →
  view col = Some d →
  wltb (kDistanceInfinity : W) kDistanceInfinity = false →
  Forall (λ x, x = kDistanceInfinity) d →
  ComputeStatistics pg out
  = ResultSuccess
      {| n_reached_nodes := 0;
         max_distance := to_double (reduce_max_identity : W);
         average_visited_distance :=
           SFdiv 53 1024 (to_double (wzero : W)) (Z_to_double 0) |}.
Proof.
  intros Hcol Hview Hirr Hall. unfold ComputeStatistics, MakeNodes.
  rewrite Hcol, Hview. by rewrite reduce_statistics_unreached.
Qed.

(** C10.  When every stored distance is the infinity sentinel, no node
    counts as reached: the statistics are still produced, with the count 0
    and the maximum at the identity of the reducer, and the mean is the
    quotient of the sum 0 by the count 0, an IEEE division of zero by zero,
    whose value is NaN.  Nothing guards the division. *)
Theorem C10_statistics_of_unreached_graph (pg : PropertyGraph)
    (output_property_name : string) (col : Column) :
  node_properties pg !! output_property_name = Some col →
  all_unreached col →
  SsspStatistics_Compute pg output_property_name
  = Some (ResultSuccess
            {| n_reached_nodes := 0;
               max_distance := max_identity_of (column_type col);
               average_visited_distance :=
                 SFdiv 53 1024 (S754_zero false) (Z_to_double 0) |})
  ∧ Z_to_double 0 = S754_zero false
  ∧ SFdiv 53 1024 (S754_zero false) (Z_to_double 0) = S754_nan.
Proof.
  intros Hcol Hall. split; [|split; reflexivity].
  unfold SsspStatistics_Compute. rewrite Hcol.
  destruct col as [t vals|t vals|vals]; [destruct t..|]; simpl in Hall; try done;
    simpl; f_equal.
  - by apply (ComputeStatistics_unreached (Wt := UInt32Weight) (Pt := UInt32Type)
                pg _ (IntColumn UINT32 vals) vals).
  - by apply (ComputeStatistics_unreached (Wt := Int32Weight) (Pt := Int32Type)
                pg _ (IntColumn INT32 vals) vals).
  - by apply (ComputeStatistics_unreached (Wt := UInt64Weight) (Pt := UInt64Type)
                pg _ (IntColumn UINT64 vals) vals).
  - by apply (ComputeStatistics_unreached (Wt := Int64Weight) (Pt := Int64Type)
                pg _ (IntColumn INT64 vals) vals).
  - by apply (ComputeStatistics_unreached (Wt := FloatWeight32) (Pt := FloatType)
                pg _ (FloatColumn FLOAT vals) vals).
  - by apply (ComputeStatistics_unreached (Wt := DoubleWeight64) (Pt := DoubleType)
                pg _ (FloatColumn DOUBLE vals) vals).
Qed.

(** The statistics of three unreached nodes. *)
Lemma C10_statistics_of_unreached_graph_witness :
  SsspStatistics_Compute unreached_graph "dist"
  = Some (ResultSuccess
            {| n_reached_nodes := 0;
               max_distance := S754_zero false;
               average_visited_distance := S754_nan |})
  ∧ Z_to_double 0 = S754_zero false
  ∧ SFdiv 53 1024 (S754_zero false) (Z_to_double 0) = S754_nan.
Proof.
  apply (C10_statistics_of_unreached_graph unreached_graph "dist"
           (IntColumn UINT32 (replicate 3 (@kDistanceInfinity _ UInt32Weight)))).
  - reflexivity.
  - simpl. repeat constructor.
Defined.

End sssp_entry_props.

(** ** Pull PageRank *)

Module pagerank_props.
Import pagerank pagerank_spec pagerank_examples more_spec.

#[local] Arguments fadd : simpl never.
#[local] Arguments fsub : simpl never.
#[local] Arguments fmul : simpl never.
#[local] Arguments fdiv : simpl never.
#[local] Arguments float_of_Z : simpl never.

(** *** Arrays *)

Lemma at_insert_eq (a : list PRTy) (n : nat) (x : PRTy) :
  (n < length a)%nat → at_ (<[n := x]> a) n = x.
Proof. intros Hn. unfold at_. by rewrite list_lookup_insert_eq. Qed.

Lemma at_insert_ne (a : list PRTy) (n m : nat) (x : PRTy) :
  n ≠ m → at_ (<[n := x]> a) m = at_ a m.
Proof. intros Hn. unfold at_. by rewrite list_lookup_insert_ne. Qed.

Lemma node_data_insert_eq (nodes : NodeData) (n : nat) x :
  (n < length nodes)%nat → GetData (<[n := x]> nodes) n = x.
Proof. intros Hn. unfold GetData. by rewrite list_lookup_insert_eq. Qed.

Lemma node_data_insert_ne (nodes : NodeData) (n m : nat) x :
  n ≠ m → GetData (<[n := x]> nodes) m = GetData nodes m.
Proof. intros Hn. unfold GetData. by rewrite list_lookup_insert_ne. Qed.

(** *** Initialization of the topological algorithm *)

Lemma init_fold_length (x : PagerankValueAndOutDegreeTy) (ns : list nat) (nodes : NodeData) :
  length (fold_left (λ nodes n, <[n := x]> nodes) ns nodes) = length nodes.
Proof.
  revert nodes. induction ns as [|n ns IH]; intros nodes; simpl; [done|].
  by rewrite IH, length_insert.
Qed.

Lemma init_fold_GetData (x : PagerankValueAndOutDegreeTy) (ns : list nat)
    (nodes : NodeData) (n : nat) :
  (n < length nodes)%nat →
  GetData (fold_left (λ nodes n, <[n := x]> nodes) ns nodes) n
  = if decide (n ∈ ns) then x else GetData nodes n.
Proof.
  revert nodes. induction ns as [|m ns IH]; intros nodes Hlt; simpl.
  - destruct (decide (n ∈ [])) as [Hin|_]; [|done]. by apply elem_of_nil in Hin.
  - rewrite IH by (by rewrite length_insert).
    destruct (decide (n ∈ ns)) as [Hns|Hns].
    + rewrite decide_True; [done|]. by apply elem_of_cons; right.
    + destruct (decide (m = n)) as [->|Hmn].
      * rewrite node_data_insert_eq by done.
        rewrite decide_True; [done|]. by apply elem_of_cons; left.
      * rewrite node_data_insert_ne by done.
        rewrite decide_False; [done|].
        intros [->|?]%elem_of_cons; done.
Qed.

Lemma InitNodeDataTopological_value (g : Graph) (nodes : NodeData) (n : nat) :
  length nodes = length g → (n < length g)%nat →
  value (GetData (InitNodeDataTopological g nodes) n)
  = fdiv fone (float_of_Z (Z.of_nat (length g))).
Proof.
  intros Hlen Hn. unfold InitNodeDataTopological.
  rewrite init_fold_GetData by lia.
  rewrite decide_True; [done|].
  apply list_elem_of_In, in_seq. lia.
Qed.

(** *** One visit and one round of the topological algorithm *)

Lemma contributions_shares (g : Graph) (nodes : NodeData) (v : nat) :
  contributions g nodes v = predecessor_shares g nodes v.
Proof.
  unfold contributions, predecessor_shares.
  generalize fzero as acc. induction (edges g v) as [|u us IH]; intros acc; simpl.
  - done.
  - apply IH.
Qed.

Lemma TopoVisit_spec (g : Graph) (plan : PagerankPlan) (nodes : NodeData)
    (accum : PRTy) (v : nat) :
  (v < length nodes)%nat →
  let base := fdiv (fsub fone (alpha plan)) (float_of_Z (Z.of_nat (length g))) in
  let r := TopoVisit g plan base (nodes, accum) v in
  value (GetData r.1 v) = new_rank g plan nodes v
  ∧ out (GetData r.1 v) = out (GetData nodes v)
  ∧ r.2 = fadd accum (fabs (fsub (new_rank g plan nodes v) (value (GetData nodes v))))
  ∧ (∀ u, u ≠ v → GetData r.1 u = GetData nodes u)
  ∧ length r.1 = length nodes.
Proof.
  intros Hv base r. subst r. unfold TopoVisit. cbn [fst snd].
  rewrite contributions_shares.
  rewrite node_data_insert_eq by done. cbn [value out].
  split; [done|]. split; [done|]. split; [done|].
  split; [|by rewrite length_insert].
  intros u Hu. by rewrite node_data_insert_ne.
Qed.

Lemma TopoVisit_other (g : Graph) (plan : PagerankPlan) (base : PRTy)
    (st : NodeData * PRTy) (v u : nat) :
  u ≠ v → GetData (TopoVisit g plan base st v).1 u = GetData st.1 u.
Proof.
  intros Hu. destruct st as [nodes accum]. unfold TopoVisit. cbn [fst].
  by rewrite node_data_insert_ne.
Qed.

Lemma TopoVisits_other (g : Graph) (plan : PagerankPlan) (base : PRTy)
    (l : list nat) (st : NodeData * PRTy) (u : nat) :
  u ∉ l → GetData (fold_left (TopoVisit g plan base) l st).1 u = GetData st.1 u.
Proof.
  revert st. induction l as [|v l IH]; intros st Hu; simpl; [done|].
  apply not_elem_of_cons in Hu as [Huv Hul].
  rewrite IH by done. by apply TopoVisit_other.
Qed.

Lemma TopoVisits_length (g : Graph) (plan : PagerankPlan) (base : PRTy)
    (l : list nat) (st : NodeData * PRTy) :
  length (fold_left (TopoVisit g plan base) l st).1 = length st.1.
Proof.
  revert st. induction l as [|v l IH]; intros st; simpl; [done|].
  rewrite IH. destruct st as [nodes accum]. unfold TopoVisit. cbn [fst].
  by rewrite length_insert.
Qed.

(** In a round that visits [v] once, the rank of [v] at the end of the
    round is the rank computed from the node data as they were when [v]
    was visited. *)
Lemma TopoRound_rank (g : Graph) (plan : PagerankPlan) (l1 l2 : list nat)
    (nodes : NodeData) (v : nat) :
  (v < length nodes)%nat → v ∉ l2 →
  let base := fdiv (fsub fone (alpha plan)) (float_of_Z (Z.of_nat (length g))) in
  value (GetData (fold_left (TopoVisit g plan base) (l1 ++ v :: l2) (nodes, fzero)).1 v)
  = new_rank g plan (fold_left (TopoVisit g plan base) l1 (nodes, fzero)).1 v.
Proof.
  intros Hv Hl2 base. rewrite fold_left_app. simpl.
  rewrite TopoVisits_other by done.
  destruct (fold_left (TopoVisit g plan base) l1 (nodes, fzero)) as [nodes1 accum1] eqn:H1.
  assert (length nodes1 = length nodes) as Hlen.
  { change nodes1 with (nodes1, accum1).1. rewrite <- H1. apply TopoVisits_length. }
  cbn [fst] in Hlen.
  assert (v < length nodes1)%nat as Hv1 by lia.
  destruct (TopoVisit_spec g plan nodes1 accum1 v Hv1) as (Hval & _).
  exact Hval.
Qed.

(** *** The round loop of the topological algorithm *)

Lemma TopoLoop_runs (ex : Executor) (g : Graph) (plan : PagerankPlan)
    (nodes : NodeData) (fuel i : nat) :
  let base := fdiv (fsub fone (alpha plan)) (float_of_Z (Z.of_nat (length g))) in
  let bound := Z.to_nat (Z.max 1 (max_iterations plan)) in
  0 <= max_iterations plan < 2 ^ 32 →
  (i < bound)%nat → (bound - i <= fuel)%nat →
  (∀ j, (1 <= j <= i)%nat → ¬ stops_after ex g plan nodes j) →
  ∃ k, (i < k <= bound)%nat
       ∧ TopoLoop ex g plan base fuel (Z.of_nat i) (after_rounds ex g plan i nodes).1
         = Some ((after_rounds ex g plan k nodes).1, Z.of_nat k)
       ∧ stops_after ex g plan nodes k
       ∧ (∀ j, (1 <= j < k)%nat → ¬ stops_after ex g plan nodes j).
Proof.
  intros base bound Hmax. revert i.
  induction fuel as [|fuel IH]; intros i Hi Hfuel Hrun; [lia|].
  cbn [TopoLoop]. rewrite Nat2Z.id.
  change (TopoRound ex g plan base i (after_rounds ex g plan i nodes).1)
    with (after_rounds ex g plan (S i) nodes).
  destruct (after_rounds ex g plan (S i) nodes) as [nodes' accum] eqn:Hround.
  assert (uwrap 32 (Z.of_nat i + 1) = Z.of_nat (S i)) as ->.
  { unfold uwrap. rewrite Z.mod_small; lia. }
  destruct (SFleb accum (tolerance plan) || (max_iterations plan <=? Z.of_nat (S i)))
    eqn:Hstop.
  - exists (S i). split; [lia|]. rewrite Hround. split; [done|]. split.
    + unfold stops_after. rewrite Hround. cbn [snd].
      apply orb_true_iff in Hstop as [?|Hle]; [by left|right].
      by apply Z.leb_le in Hle.
    + intros j Hj. apply Hrun. lia.
  - apply orb_false_iff in Hstop as [Hacc Hlt]. apply Z.leb_gt in Hlt.
    assert (¬ stops_after ex g plan nodes (S i)) as Hnot.
    { unfold stops_after. rewrite Hround. cbn [snd]. intros [?|?]; [congruence|lia]. }
    destruct (IH (S i)) as (k & Hk & Hloop & Hstopk & Hbefore).
    + lia.
    + lia.
    + intros j Hj. destruct (decide (j = S i)) as [->|]; [done|]. apply Hrun. lia.
    + exists k. split; [lia|]. rewrite Hround in Hloop. cbn [fst] in Hloop.
      by rewrite Hloop.
Qed.

Lemma out_insert_same (nodes : NodeData) (v u : nat) (x : PRTy) :
  out (GetData (<[v := {| out := out (GetData nodes v); value := x |}]> nodes) u)
  = out (GetData nodes u).
Proof.
  destruct (decide (u = v)) as [->|Hne]; [|by rewrite node_data_insert_ne].
  destruct (decide (v < length nodes)%nat) as [Hv|Hv].
  - by rewrite node_data_insert_eq.
  - by rewrite list_insert_ge by lia.
Qed.

Lemma TopoVisits_out (g : Graph) (plan : PagerankPlan) (base : PRTy)
    (l : list nat) (st : NodeData * PRTy) (u : nat) :
  out (GetData (fold_left (TopoVisit g plan base) l st).1 u) = out (GetData st.1 u).
Proof.
  revert st. induction l as [|v l IH]; intros st; cbn [fold_left]; [done|].
  rewrite IH. destruct st as [nodes accum]. unfold TopoVisit. cbn [fst].
  apply out_insert_same.
Qed.

Lemma after_rounds_out (ex : Executor) (g : Graph) (plan : PagerankPlan)
    (k : nat) (nodes : NodeData) (u : nat) :
  out (GetData (after_rounds ex g plan k nodes).1 u) = out (GetData nodes u).
Proof.
  induction k as [|k IH]; [done|]. cbn [after_rounds]. unfold TopoRound.
  rewrite TopoVisits_out. exact IH.
Qed.

Lemma after_rounds_length (ex : Executor) (g : Graph) (plan : PagerankPlan)
    (k : nat) (nodes : NodeData) :
  length (after_rounds ex g plan k nodes).1 = length nodes.
Proof.
  induction k as [|k IH]; [done|]. cbn [after_rounds]. unfold TopoRound.
  by rewrite TopoVisits_length.
Qed.

Lemma in_order_once : once in_order.
Proof. intros round l. reflexivity. Qed.

(** *** A round of the topological algorithm, visit by visit *)

Lemma TopoVisits_accum (g : Graph) (plan : PagerankPlan) (l : list nat)
    (st : NodeData * PRTy) :
  let base := fdiv (fsub fone (alpha plan)) (float_of_Z (Z.of_nat (length g))) in
  NoDup l → (∀ v, v ∈ l → (v < length st.1)%nat) →
  (fold_left (TopoVisit g plan base) l st).2
  = fold_left fadd
      (map (λ v, fabs (fsub (value (GetData (fold_left (TopoVisit g plan base) l st).1 v))
                            (value (GetData st.1 v)))) l)
      st.2.
Proof.
  intros base. revert st. induction l as [|v l IH]; intros st Hnd Hin; [done|].
  apply NoDup_cons in Hnd as [Hv Hnd]. cbn [fold_left map].
  rewrite IH; [|done|].
  2:{ intros u Hu. destruct st as [nodes accum]. unfold TopoVisit. cbn [fst].
      rewrite length_insert. apply Hin. by right. }
  destruct st as [nodes accum]. cbn [fst snd].
  assert (v < length nodes)%nat as Hlt by (apply (Hin v); by left).
  destruct (TopoVisit_spec g plan nodes accum v Hlt) as (Hval & _ & Hacc & Hoth & _).
  fold base in Hval, Hacc, Hoth.
  rewrite TopoVisits_other by done. rewrite Hacc, Hval. f_equal.
  apply map_ext_in. intros u Hu%list_elem_of_In.
  rewrite Hoth; [done|]. intros ->. done.
Qed.

Lemma TopoVisits_seen (g : Graph) (plan : PagerankPlan) (l1 l2 : list nat)
    (old : NodeData) :
  let base := fdiv (fsub fone (alpha plan)) (float_of_Z (Z.of_nat (length g))) in
  (∀ u, u ∈ l1 → u ∉ l2) →
  (fold_left (TopoVisit g plan base) l1 (old, fzero)).1
  = seen old (fold_left (TopoVisit g plan base) (l1 ++ l2) (old, fzero)).1 l1.
Proof.
  intros base Hdisj. apply list_eq. intros u. unfold seen.
  rewrite list_lookup_imap.
  destruct (old !! u) as [x|] eqn:Hu; cbn.
  - assert (u < length old)%nat as Hlt by (by eapply lookup_lt_Some).
    assert (u < length (fold_left (TopoVisit g plan base) l1 (old, fzero)).1)%nat
      as Hlt1 by (by rewrite TopoVisits_length).
    destruct (lookup_lt_is_Some_2 _ _ Hlt1) as [y Hy]. rewrite Hy. f_equal.
    assert (y = GetData (fold_left (TopoVisit g plan base) l1 (old, fzero)).1 u) as ->.
    { unfold GetData. by rewrite Hy. }
    destruct (decide (u ∈ l1)) as [Hin|Hout].
    + rewrite fold_left_app. symmetry. apply TopoVisits_other. by apply Hdisj.
    + rewrite TopoVisits_other by done. cbn [fst]. unfold GetData. by rewrite Hu.
  - apply lookup_ge_None. rewrite TopoVisits_length. cbn [fst].
    by apply lookup_ge_None.
Qed.

(** A round that visits each node of [l] once is the round of the
    specification. *)
Lemma TopoVisits_round (g : Graph) (plan : PagerankPlan) (l : list nat)
    (old : NodeData) :
  let base := fdiv (fsub fone (alpha plan)) (float_of_Z (Z.of_nat (length g))) in
  NoDup l → (∀ v, v ∈ l → (v < length old)%nat) →
  round_result g plan l old
    (fold_left (TopoVisit g plan base) l (old, fzero)).1
    (fold_left (TopoVisit g plan base) l (old, fzero)).2.
Proof.
  intros base Hnd Hin. split; [apply TopoVisits_length|].
  split; [intros v; apply TopoVisits_out|]. split; [|split].
  - intros i v Hi.
    pose proof (take_drop_middle l i v Hi) as Hsplit.
    assert ((v ∉ drop (S i) l) ∧ (∀ u, u ∈ take i l → u ∉ v :: drop (S i) l))
      as [Hv Hdisj].
    { rewrite <- Hsplit in Hnd. apply NoDup_app in Hnd as (_ & Hdisj & Hnd).
      apply NoDup_cons in Hnd as [Hv _]. done. }
    assert (v < length old)%nat as Hlt.
    { apply Hin. by eapply list_elem_of_lookup_2. }
    pose proof (TopoRound_rank g plan (take i l) (drop (S i) l) old v Hlt Hv) as Hrank.
    pose proof (TopoVisits_seen g plan (take i l) (v :: drop (S i) l) old Hdisj)
      as Hseen.
    cbv zeta in Hrank, Hseen. rewrite Hsplit in Hrank, Hseen.
    subst base. rewrite Hrank. f_equal. exact Hseen.
  - intros v Hv. by rewrite TopoVisits_other.
  - exact (TopoVisits_accum g plan l (old, fzero) Hnd Hin).
Qed.

(** The description of a round leaves no choice: two rounds over the
    same nodes from the same data end with the same data and the same
    accumulated difference. *)
Lemma round_result_unique (g : Graph) (plan : PagerankPlan) (l : list nat)
    (old new1 new2 : NodeData) (accum1 accum2 : PRTy) :
  round_result g plan l old new1 accum1 → round_result g plan l old new2 accum2 →
  new1 = new2 ∧ accum1 = accum2.
Proof.
  intros (Hlen1 & Hout1 & Hval1 & Hoth1 & ->) (Hlen2 & Hout2 & Hval2 & Hoth2 & ->).
  assert (∀ i u, u ∈ take i l → GetData new1 u = GetData new2 u) as Hsame.
  { induction i as [|i IH]; intros u Hu.
    - rewrite take_0 in Hu. by apply elem_of_nil in Hu.
    - destruct (l !! i) as [v|] eqn:Hi.
      + rewrite (take_S_r l i v Hi) in Hu.
        apply elem_of_app in Hu as [Hu|Hu%list_elem_of_singleton]; [by apply IH|].
        subst u.
        assert (seen old new1 (take i l) = seen old new2 (take i l)) as Hseen.
        { unfold seen. apply imap_ext. intros w x _.
          destruct (decide (w ∈ take i l)); [by apply IH|done]. }
        pose proof (Hval1 i v Hi) as H1. pose proof (Hval2 i v Hi) as H2.
        rewrite Hseen in H1. rewrite <- H2 in H1.
        pose proof (Hout1 v) as O1. pose proof (Hout2 v) as O2.
        destruct (GetData new1 v), (GetData new2 v). cbn in *. congruence.
      + apply IH. apply lookup_ge_None in Hi.
        rewrite take_ge in Hu by lia. by rewrite take_ge by lia. }
  assert (∀ u, GetData new1 u = GetData new2 u) as Hall.
  { intros u. destruct (decide (u ∈ l)) as [Hu|Hu].
    - apply (Hsame (length l)). by rewrite firstn_all.
    - by rewrite Hoth1, Hoth2. }
  split.
  - apply list_eq. intros u. destruct (decide (u < length old)%nat) as [Hu|Hu].
    + destruct (lookup_lt_is_Some_2 new1 u) as [x Hx]; [lia|].
      destruct (lookup_lt_is_Some_2 new2 u) as [y Hy]; [lia|].
      specialize (Hall u). unfold GetData in Hall. rewrite Hx, Hy in Hall.
      cbn in Hall. by rewrite Hx, Hy, Hall.
    + by rewrite !lookup_ge_None_2 by lia.
  - f_equal. apply map_ext. intros v. by rewrite Hall.
Qed.

(** Each round of the loop, where the executor runs the body once on
    each node. *)
Lemma after_rounds_round (ex : Executor) (g : Graph) (plan : PagerankPlan)
    (nodes : NodeData) (j : nat) :
  once ex → length nodes = length g →
  do_all_order ex j (seq 0 (length g)) ≡ₚ seq 0 (length g)
  ∧ round_result g plan (do_all_order ex j (seq 0 (length g)))
      (after_rounds ex g plan j nodes).1
      (after_rounds ex g plan (S j) nodes).1
      (after_rounds ex g plan (S j) nodes).2.
Proof.
  intros Honce Hlen. split; [apply Honce|].
  cbn [after_rounds]. unfold TopoRound. apply TopoVisits_round.
  - rewrite (Honce j). apply NoDup_seq.
  - intros v Hv. rewrite (Honce j) in Hv. apply list_elem_of_In, in_seq in Hv.
    rewrite after_rounds_length. lia.
Qed.

(** C5, as amended.  The topological algorithm initializes every rank to
    [1/N].  Each round visits every node once, where the executor runs
    the body of a loop once on each element; the rank of a node after the
    round is alpha times the sum over its predecessors of
    [rank / outDegree] plus [(1 - alpha)/N], computed from the node data
    its visit finds (the ranks are updated in place, so that the
    predecessors visited earlier in the round contribute their new rank),
    and the accumulator holds the sum over all nodes of [|new - old|].
    The round loop returns, and the round [k] it returns after is the
    first one at whose end the accumulated difference is at most the
    tolerance or the count has reached the configured maximum.  The count
    is at least 1 and at most the larger of 1 and the maximum: the loop
    tests after the round, so one round runs even when the maximum is 0. *)
Theorem C5_topological_pagerank (ex : Executor) (g : Graph) (plan : PagerankPlan)
    (nodes : NodeData) :
  0 <= max_iterations plan < 2 ^ 32 →
  length nodes = length g →
  (∀ n, (n < length g)%nat →
        value (GetData (InitNodeDataTopological g nodes) n)
        = fdiv fone (float_of_Z (Z.of_nat (length g))))
  ∧ (∀ nodes' accum v, (v < length nodes')%nat →
        let r := TopoVisit g plan
                   (fdiv (fsub fone (alpha plan)) (float_of_Z (Z.of_nat (length g))))
                   (nodes', accum) v in
        value (GetData r.1 v) = new_rank g plan nodes' v
        ∧ r.2 = fadd accum (fabs (fsub (new_rank g plan nodes' v)
                                        (value (GetData nodes' v))))
        ∧ ∀ u, u ≠ v → GetData r.1 u = GetData nodes' u)
  ∧ (once ex →
     ∀ j, do_all_order ex j (seq 0 (length g)) ≡ₚ seq 0 (length g)
          ∧ round_result g plan (do_all_order ex j (seq 0 (length g)))
              (after_rounds ex g plan j nodes).1
              (after_rounds ex g plan (S j) nodes).1
              (after_rounds ex g plan (S j) nodes).2)
  ∧ (after_rounds ex g plan 0 nodes).1 = nodes
  ∧ ∃ k, (1 <= k)%nat ∧ Z.of_nat k <= Z.max 1 (max_iterations plan)
         ∧ (∀ fuel, (Z.to_nat (Z.max 1 (max_iterations plan)) <= fuel)%nat →
              ComputePRTopological ex g plan fuel nodes
              = Some ((after_rounds ex g plan k nodes).1, Z.of_nat k))
         ∧ stops_after ex g plan nodes k
         ∧ (∀ j, (1 <= j < k)%nat → ¬ stops_after ex g plan nodes j).
Proof.
  intros Hmax Hlen. split; [|split; [|split; [|split]]].
  - intros n Hn. by apply InitNodeDataTopological_value.
  - intros nodes' accum v Hv r.
    destruct (TopoVisit_spec g plan nodes' accum v Hv) as (Hval & _ & Hacc & Hoth & _).
    by repeat split.
  - intros Honce j. by apply after_rounds_round.
  - done.
  - pose proof (TopoLoop_runs ex g plan nodes
                  (Z.to_nat (Z.max 1 (max_iterations plan))) 0 Hmax) as Hrun.
    destruct Hrun as (k & Hk & Hloop & Hstop & Hbefore); [lia|lia|intros j Hj; lia|].
    exists k. split; [lia|]. split; [lia|]. split; [|done].
    intros fuel Hfuel.
    destruct (TopoLoop_runs ex g plan nodes fuel 0 Hmax) as (k' & Hk' & Hloop' & Hstop' & Hbefore');
      [lia|lia|intros j Hj; lia|].
    assert (k' = k) as ->.
    { destruct (Nat.lt_trichotomy k' k) as [Hlt|[Heq|Hgt]]; [|done|].
      - exfalso. apply (Hbefore k'); [lia|done].
      - exfalso. apply (Hbefore' k); [lia|done]. }
    exact Hloop'.
Qed.

Lemma default_plan_max : 0 <= max_iterations default_plan < 2 ^ 32.
Proof. cbn [max_iterations default_plan]. lia. Qed.

(** The two-cycle under the default plan, the loops run in index order:
    every round is the round of the specification over both nodes. *)
Lemma C5_topological_pagerank_witness :
  (∀ j, do_all_order in_order j (seq 0 (length two_cycle)) ≡ₚ seq 0 (length two_cycle)
        ∧ round_result two_cycle default_plan
            (do_all_order in_order j (seq 0 (length two_cycle)))
            (after_rounds in_order two_cycle default_plan j (initial_ranks two_cycle)).1
            (after_rounds in_order two_cycle default_plan (S j)
               (initial_ranks two_cycle)).1
            (after_rounds in_order two_cycle default_plan (S j)
               (initial_ranks two_cycle)).2)
  ∧ ∃ k, (1 <= k)%nat ∧ Z.of_nat k <= Z.max 1 (max_iterations default_plan)
       ∧ (∀ fuel, (Z.to_nat (Z.max 1 (max_iterations default_plan)) <= fuel)%nat →
            ComputePRTopological in_order two_cycle default_plan fuel
              (initial_ranks two_cycle)
            = Some ((after_rounds in_order two_cycle default_plan k
                       (initial_ranks two_cycle)).1, Z.of_nat k))
       ∧ stops_after in_order two_cycle default_plan (initial_ranks two_cycle) k
       ∧ (∀ j, (1 <= j < k)%nat →
            ¬ stops_after in_order two_cycle default_plan (initial_ranks two_cycle) j).
Proof.
  destruct (C5_topological_pagerank in_order two_cycle default_plan
              (initial_ranks two_cycle) default_plan_max eq_refl)
    as (_ & _ & Hround & _ & Hloop).
  split; [exact (Hround in_order_once)|exact Hloop].
Defined.

(** C5, as stated, fails at its last clause: with the maximum 0 the
    algorithm still runs a round, and reports the count 1. *)
Lemma C5_one_round_with_maximum_zero :
  ∃ nodes,
    ComputePRTopological in_order two_cycle no_round_plan 1 (initial_ranks two_cycle)
    = Some (nodes, 1)
    ∧ max_iterations no_round_plan < 1
    ∧ PagerankPullTopological in_memory "tmp" 1 (bare two_cycle) "rank" no_round_plan
      = Some (ResultSuccess (),
              {| topology := two_cycle;
                 node_properties := {[ "rank" := FloatColumn FLOAT (map value nodes) ]};
                 edge_properties := ∅ |}).
Proof.
  eexists. split; [|split].
  - vm_compute. reflexivity.
  - cbn [max_iterations no_round_plan]. lia.
  - vm_compute. reflexivity.
Qed.

(** *** The residual algorithm: phase 2 (C6) *)

Lemma incoming_fold (delta : list PRTy) (l : list nat) (acc : PRTy) :
  fold_left
    (λ sum dest, if SFltb fzero (at_ delta dest) then fadd sum (at_ delta dest) else sum)
    l acc
  = fold_left fadd (filter (λ x, SFltb fzero x = true) (map (at_ delta) l)) acc.
Proof.
  revert acc. induction l as [|u us IH]; intros acc; simpl; [done|].
  rewrite IH. unfold filter at 2. cbn [list_filter].
  destruct (decide (SFltb fzero (at_ delta u) = true)) as [Hpos|Hneg].
  - by rewrite Hpos.
  - apply not_true_is_false in Hneg. by rewrite Hneg.
Qed.

Lemma incoming_delta_positive_sum (g : Graph) (delta : list PRTy) (v : nat) :
  incoming_delta g delta v = positive_delta_sum g delta v.
Proof. apply incoming_fold. Qed.

Lemma ResidualPhase2_frame (g : Graph) (st : ResidualState) (v : nat) :
  rs_nodes (ResidualPhase2 g st v) = rs_nodes st
  ∧ rs_delta (ResidualPhase2 g st v) = rs_delta st
  ∧ rs_accum (ResidualPhase2 g st v) = rs_accum st
  ∧ length (rs_residual (ResidualPhase2 g st v)) = length (rs_residual st).
Proof.
  unfold ResidualPhase2.
  destruct (SFltb fzero (incoming_delta g (rs_delta st) v)); cbn; [|done].
  by rewrite length_insert.
Qed.

Lemma ResidualPhase2_residual (g : Graph) (st : ResidualState) (v u : nat) :
  (u < length (rs_residual st))%nat →
  at_ (rs_residual (ResidualPhase2 g st v)) u
  = if decide (u = v)
    then (if SFltb fzero (incoming_delta g (rs_delta st) u)
          then incoming_delta g (rs_delta st) u else at_ (rs_residual st) u)
    else at_ (rs_residual st) u.
Proof.
  intros Hu. unfold ResidualPhase2.
  destruct (decide (u = v)) as [->|Hne].
  - destruct (SFltb fzero (incoming_delta g (rs_delta st) v)); cbn; [|done].
    by rewrite at_insert_eq.
  - destruct (SFltb fzero (incoming_delta g (rs_delta st) v)); cbn; [|done].
    by rewrite at_insert_ne.
Qed.

(** Phase 2 over a list of nodes: the frame, and the residual of a node. *)
Lemma ResidualPhase2_fold (g : Graph) (l : list nat) (st : ResidualState) :
  let st' := fold_left (ResidualPhase2 g) l st in
  rs_nodes st' = rs_nodes st
  ∧ rs_delta st' = rs_delta st
  ∧ rs_accum st' = rs_accum st
  ∧ length (rs_residual st') = length (rs_residual st)
  ∧ ∀ u, (u < length (rs_residual st))%nat →
      at_ (rs_residual st') u
      = if decide (u ∈ l)
        then (if SFltb fzero (incoming_delta g (rs_delta st) u)
              then incoming_delta g (rs_delta st) u else at_ (rs_residual st) u)
        else at_ (rs_residual st) u.
Proof.
  revert st. induction l as [|v l IH]; intros st; simpl.
  - repeat split; try done; intros u _;
      destruct (decide (u ∈ [])) as [Hin|_]; try done; by apply elem_of_nil in Hin.
  - destruct (ResidualPhase2_frame g st v) as (Hn & Hd & Ha & Hl).
    destruct (IH (ResidualPhase2 g st v)) as (Hn' & Hd' & Ha' & Hl' & Hres).
    rewrite Hn', Hd', Ha', Hl', Hn, Hd, Ha, Hl.
    repeat split; try done. intros u Hu.
    rewrite Hres by lia. rewrite Hd, ResidualPhase2_residual by done.
    destruct (decide (u ∈ v :: l)) as [Hin'|Hin'];
      destruct (decide (u ∈ l)) as [Hin|Hin];
      destruct (decide (u = v)) as [Heq|Hne];
      try done.
    + by destruct (SFltb fzero (incoming_delta g (rs_delta st) u)).
    + apply elem_of_cons in Hin' as [?|?]; done.
    + exfalso. apply Hin'. by apply elem_of_cons; right.
    + exfalso. apply Hin'. by apply elem_of_cons; right.
    + exfalso. apply Hin'. by apply elem_of_cons; left.
Qed.

(** C6.  Phase 2 of a round of the residual algorithm leaves the node
    data and [delta] alone, and the residual of a node [v] after it is the
    sum of the positive [delta] of its predecessors when that sum is
    positive, and the residual [v] had entering the phase when the sum is
    zero: the sum replaces the residual and is never added to it. *)
Theorem C6_residual_phase2 (ex : Executor) (g : Graph) (round : nat)
    (st : ResidualState) (v : nat) :
  fair ex → (v < length g)%nat → length (rs_residual st) = length g →
  let sum := positive_delta_sum g (rs_delta st) v in
  let st' := PageRank ex g round st in
  incoming_delta g (rs_delta st) v = sum
  ∧ (SFltb fzero sum = true → at_ (rs_residual st') v = sum)
  ∧ (∀ s, sum = S754_zero s → at_ (rs_residual st') v = at_ (rs_residual st) v)
  ∧ at_ (rs_residual st') v
    = (if SFltb fzero sum then sum else at_ (rs_residual st) v)
  ∧ rs_delta st' = rs_delta st
  ∧ rs_nodes st' = rs_nodes st.
Proof.
  intros Hfair Hv Hlen sum st'. subst st'. unfold PageRank.
  destruct (ResidualPhase2_fold g
              (do_all_order ex (2 * round + 1) (seq 0 (length g))) st)
    as (Hn & Hd & _ & _ & Hres).
  assert (at_ (rs_residual
                 (fold_left (ResidualPhase2 g)
                    (do_all_order ex (2 * round + 1) (seq 0 (length g))) st)) v
          = if SFltb fzero sum then sum else at_ (rs_residual st) v) as Hv'.
  { rewrite Hres by lia. rewrite incoming_delta_positive_sum. fold sum.
    rewrite decide_True; [done|].
    apply Hfair, list_elem_of_In, in_seq. lia. }
  split; [apply incoming_delta_positive_sum|].
  split; [intros Hpos; by rewrite Hv', Hpos|].
  split; [intros s Hs; rewrite Hv', Hs; by destruct s|].
  by repeat split.
Qed.

Lemma in_order_fair : fair in_order.
Proof. intros round l x Hx. exact Hx. Qed.

(** Phase 2 of the first round on the two-cycle. *)
Lemma C6_residual_phase2_witness :
  let sum := positive_delta_sum two_cycle (rs_delta two_cycle_phase1) 0 in
  let st' := PageRank in_order two_cycle 0 two_cycle_phase1 in
  incoming_delta two_cycle (rs_delta two_cycle_phase1) 0 = sum
  ∧ (SFltb fzero sum = true → at_ (rs_residual st') 0 = sum)
  ∧ (∀ s, sum = S754_zero s
          → at_ (rs_residual st') 0 = at_ (rs_residual two_cycle_phase1) 0)
  ∧ at_ (rs_residual st') 0
    = (if SFltb fzero sum then sum else at_ (rs_residual two_cycle_phase1) 0)
  ∧ rs_delta st' = rs_delta two_cycle_phase1
  ∧ rs_nodes st' = rs_nodes two_cycle_phase1.
Proof.
  apply (C6_residual_phase2 in_order two_cycle 0 two_cycle_phase1 0 in_order_fair).
  - simpl. lia.
  - reflexivity.
Defined.

(** *** The residual algorithm: dangling nodes (C7) *)

(** C7, as amended.  In phase 1 a node whose residual exceeds the
    tolerance and whose out-degree is zero adds the residual to its rank
    and zeroes the residual; its [delta] is zero, so no sum of phase 2
    takes anything from it, and it is not counted active.  The other
    nodes are not touched.  (Nothing bounds the total rank by 1: the
    ranks are not normalized.) *)
Theorem C7_dangling_node_phase1 (plan : PagerankPlan) (st : ResidualState) (v : nat) :
  (v < length (rs_nodes st))%nat →
  (v < length (rs_delta st))%nat →
  (v < length (rs_residual st))%nat →
  SFltb (tolerance plan) (at_ (rs_residual st) v) = true →
  out (GetData (rs_nodes st) v) = 0 →
  let st' := ResidualPhase1 plan st v in
  value (GetData (rs_nodes st') v)
  = fadd (value (GetData (rs_nodes st) v)) (at_ (rs_residual st) v)
  ∧ at_ (rs_residual st') v = fzero
  ∧ at_ (rs_delta st') v = fzero
  ∧ SFltb fzero (at_ (rs_delta st') v) = false
  ∧ rs_accum st' = rs_accum st
  ∧ ∀ u, u ≠ v →
      GetData (rs_nodes st') u = GetData (rs_nodes st) u
      ∧ at_ (rs_residual st') u = at_ (rs_residual st) u
      ∧ at_ (rs_delta st') u = at_ (rs_delta st) u.
Proof.
  intros Hn Hd Hr Htol Hout st'. subst st'. unfold ResidualPhase1.
  rewrite Htol. cbn [out]. rewrite Hout. cbn.
  rewrite node_data_insert_eq by done. cbn [value].
  rewrite !at_insert_eq by done.
  repeat split; try done.
  - by rewrite node_data_insert_ne.
  - by rewrite at_insert_ne.
  - by rewrite at_insert_ne.
Qed.

(** Phase 1 of the first round at the dangling node. *)
Lemma C7_dangling_node_phase1_witness :
  let st' := ResidualPhase1 default_plan dangling_start 2 in
  value (GetData (rs_nodes st') 2)
  = fadd (value (GetData (rs_nodes dangling_start) 2))
         (at_ (rs_residual dangling_start) 2)
  ∧ at_ (rs_residual st') 2 = fzero
  ∧ at_ (rs_delta st') 2 = fzero
  ∧ SFltb fzero (at_ (rs_delta st') 2) = false
  ∧ rs_accum st' = rs_accum dangling_start
  ∧ ∀ u, u ≠ 2%nat →
      GetData (rs_nodes st') u = GetData (rs_nodes dangling_start) u
      ∧ at_ (rs_residual st') u = at_ (rs_residual dangling_start) u
      ∧ at_ (rs_delta st') u = at_ (rs_delta dangling_start) u.
Proof.
  apply (C7_dangling_node_phase1 default_plan dangling_start 2).
  - simpl. lia.
  - simpl. lia.
  - simpl. lia.
  - vm_compute. reflexivity.
  - vm_compute. reflexivity.
Defined.

(** C7, as stated, fails at its consequence: node 2 of [dangling_graph]
    has out-degree zero and absorbs residual, and the ranks the residual
    algorithm ends with sum to more than 1. *)
Lemma C7_total_rank_above_one :
  out (GetData (ComputeOutDeg dangling_graph (fresh_nodes 3)) 2) = 0
  ∧ ∃ pg nodes,
      PagerankPullResidual in_memory 20 (bare dangling_graph) "rank" default_plan
      = Some (ResultSuccess (), pg)
      ∧ node_properties pg !! "rank" = Some (StructColumn nodes)
      ∧ SFltb fone (total_rank (map value nodes)) = true.
Proof.
  split.
  - vm_compute. reflexivity.
  - eexists _, _. split; [|split].
    + vm_compute. reflexivity.
    + vm_compute. reflexivity.
    + vm_compute. reflexivity.
Qed.

End pagerank_props.

(** ** SSSP: the order on weights, arrays of distances *)

Module sssp_order.
Import sssp sssp_spec.

Lemma UIntWeight_order (bits inf : Z) : @WeightOrder Z (UIntWeight bits inf).
Proof.
  split; cbn.
  - intros a. apply Z.ltb_irrefl.
  - intros a b c Hab Hbc. apply Z.ltb_lt in Hab, Hbc. apply Z.ltb_lt. lia.
Qed.

Lemma SIntWeight_order (bits inf : Z) : @WeightOrder Z (SIntWeight bits inf).
Proof.
  split; cbn.
  - intros a. apply Z.ltb_irrefl.
  - intros a b c Hab Hbc. apply Z.ltb_lt in Hab, Hbc. apply Z.ltb_lt. lia.
Qed.

Section Order.
Context {W : Type} {Wt : Weight W} {WO : WeightOrder W}.
Implicit Types (d : list W) (v n : nat) (x c : W).

Lemma wle_refl x : wle x x.
Proof. by left. Qed.

Lemma wle_trans x y z : wle x y → wle y z → wle x z.
Proof.
  intros [->|Hxy] [->|Hyz]; [by left|by right|by right|].
  right. by apply (wltb_trans x y z).
Qed.

Lemma wle_lt_false x y : wle x y → wltb x y = false → x = y.
Proof. intros [->|Hlt] Hnlt; [done|congruence]. Qed.

Lemma GetData_insert d i j x :
  GetData (<[i := x]> d) j
  = if decide (i = j ∧ (i < length d)%nat) then x else GetData d j.
Proof.
  unfold GetData. destruct (decide (i = j ∧ (i < length d)%nat)) as [[-> Hlt]|Hn].
  - by rewrite list_lookup_insert_eq.
  - destruct (decide (i = j)) as [->|Hne].
    + rewrite list_insert_ge; [done|]. lia.
    + by rewrite list_lookup_insert_ne.
Qed.

Lemma GetData_insert_eq d i x : (i < length d)%nat → GetData (<[i := x]> d) i = x.
Proof. intros Hi. rewrite GetData_insert. by rewrite decide_True. Qed.

Lemma GetData_insert_ne d i j x : i ≠ j → GetData (<[i := x]> d) j = GetData d j.
Proof. intros Hi. rewrite GetData_insert. rewrite decide_False; [done|]. tauto. Qed.

Lemma dist_le_refl d : dist_le d d.
Proof. split; [done|]. intros v. apply wle_refl. Qed.

Lemma dist_le_trans d1 d2 d3 : dist_le d1 d2 → dist_le d2 d3 → dist_le d1 d3.
Proof.
  intros [Hl1 H1] [Hl2 H2]. split; [congruence|].
  intros v. by apply (wle_trans _ (GetData d2 v)).
Qed.

(** A write of a value at or below the stored one. *)
Lemma dist_le_insert d v x : wle x (GetData d v) → dist_le (<[v := x]> d) d.
Proof.
  intros Hx. split; [by rewrite length_insert|].
  intros u. rewrite GetData_insert.
  destruct (decide (v = u ∧ (v < length d)%nat)) as [[-> _]|_]; [done|apply wle_refl].
Qed.

(** [atomicMin] never raises a distance. *)
Lemma atomicMin_le d v c : dist_le (atomicMin d v c).2 d.
Proof.
  unfold atomicMin. cbn [snd].
  destruct (wltb c (GetData d v)) eqn:Hlt; [|apply dist_le_refl].
  apply dist_le_insert. by right.
Qed.

Lemma atomicMin_old d v c : (atomicMin d v c).1 = GetData d v.
Proof. done. Qed.

Lemma topoRelax_le n d e : dist_le (topoRelax n d e) d.
Proof. apply atomicMin_le. Qed.

Lemma topoRelax_fold_le n es d : dist_le (fold_left (topoRelax n) es d) d.
Proof.
  revert d. induction es as [|e es IH]; intros d; simpl; [apply dist_le_refl|].
  eapply dist_le_trans; [apply IH|apply topoRelax_le].
Qed.

Lemma TopoVisit_le (g : Graph W) st n : dist_le (TopoVisit g st n).1.1 st.1.1.
Proof.
  destruct st as [[d old_dist] changed]. unfold TopoVisit.
  destruct (wltb (GetData d n) (GetData old_dist n)); cbn [fst].
  - apply topoRelax_fold_le.
  - apply dist_le_refl.
Qed.

Lemma TopoTileVisit_le (g : Graph W) st i : dist_le (TopoTileVisit g st i).1.1 st.1.1.
Proof.
  destruct st as [[d tiles] changed]. unfold TopoTileVisit.
  destruct (tiles !! i) as [t|]; [|apply dist_le_refl].
  destruct (wltb (GetData d (t_src t)) (t_dist t)); cbn [fst].
  - apply topoRelax_fold_le.
  - apply dist_le_refl.
Qed.

Section Worklist.
Context {T : Type} {Rq : Request (W := W) T}.
Variable pushWrap : nat → W → list T.
Variable edgeRange : T → list (nat * W).
Implicit Types (st : list W * list T) (item : T) (e : nat * W).

Lemma relaxSerial_le x st e : dist_le (relaxSerial pushWrap x st e).1 st.1.
Proof.
  unfold relaxSerial.
  destruct (wltb (wadd x e.2) (GetData st.1 e.1)) eqn:Hlt; cbn [fst].
  - apply dist_le_insert. by right.
  - apply dist_le_refl.
Qed.

Lemma relaxAtomic_le s st e : dist_le (relaxAtomic pushWrap s st e).1 st.1.
Proof.
  unfold relaxAtomic.
  pose proof (atomicMin_le st.1 e.1 (wadd (GetData st.1 s) e.2)) as Hle.
  destruct (atomicMin st.1 e.1 (wadd (GetData st.1 s) e.2)) as [old_dist d'].
  cbn [snd] in Hle. by destruct (wltb _ old_dist).
Qed.

Lemma relaxSerial_fold_le x es st :
  dist_le (fold_left (relaxSerial pushWrap x) es st).1 st.1.
Proof.
  revert st. induction es as [|e es IH]; intros st; simpl; [apply dist_le_refl|].
  eapply dist_le_trans; [apply IH|apply relaxSerial_le].
Qed.

Lemma relaxAtomic_fold_le s es st :
  dist_le (fold_left (relaxAtomic pushWrap s) es st).1 st.1.
Proof.
  revert st. induction es as [|e es IH]; intros st; simpl; [apply dist_le_refl|].
  eapply dist_le_trans; [apply IH|apply relaxAtomic_le].
Qed.

Lemma SerialBody_le item st : dist_le (SerialBody pushWrap edgeRange item st).1 st.1.
Proof.
  unfold SerialBody. destruct (wltb _ (dist item)); [apply dist_le_refl|].
  apply relaxSerial_fold_le.
Qed.

Lemma DeltaStepBody_le item st : dist_le (DeltaStepBody pushWrap edgeRange item st).1 st.1.
Proof.
  unfold DeltaStepBody. destruct (wltb _ (dist item)); [apply dist_le_refl|].
  apply relaxAtomic_fold_le.
Qed.

Lemma wl_steps_le (body : T → list W * list T → list W * list T) :
  (∀ item st, dist_le (body item st).1 st.1) →
  ∀ st st', rtc (wl_step body) st st' → dist_le st'.1 st.1.
Proof.
  intros Hbody st st' Hrtc.
  induction Hrtc as [st|st1 st2 st3 Hstep _ IH]; [apply dist_le_refl|].
  eapply dist_le_trans; [apply IH|].
  destruct Hstep as [d wl item wl' _]. apply (Hbody item (d, wl')).
Qed.

End Worklist.
End Order.
End sssp_order.

(** ** SSSP: every loop is a chain of steps *)

Module sssp_runs.
Import sssp sssp_spec sssp_order.

Lemma loop_rtc {S : Type} (R : relation S) (body : S → option S) :
  (∀ st st', body st = Some st' → R st st') →
  ∀ fuel st st', loop fuel body st = Some st' → rtc R st st' ∧ body st' = None.
Proof.
  intros Hbody fuel. induction fuel as [|fuel IH]; intros st st' Hloop; [done|].
  simpl in Hloop. destruct (body st) as [st1|] eqn:Hst.
  - destruct (IH _ _ Hloop) as [Hrtc Hend]. split; [|done].
    eapply rtc_l; [by apply Hbody|done].
  - injection Hloop as <-. split; [apply rtc_refl|done].
Qed.

Section Worklists.
Context {W : Type} {Wt : Weight W} {T : Type} {Rq : Request (W := W) T}.
Implicit Types (wl : list T) (item : T).

Lemma MinHeap_pop_perm wl item wl' :
  MinHeap_pop wl = Some (item, wl') → wl ≡ₚ item :: wl'.
Proof.
  revert item wl'. induction wl as [|x rest IH]; intros item wl' Hpop; [done|].
  simpl in Hpop. destruct (MinHeap_pop rest) as [[y rest']|] eqn:Hrest.
  - specialize (IH y rest' eq_refl).
    destruct (wltb (dist y) (dist x)); injection Hpop as <- <-.
    + rewrite IH. apply Permutation_swap.
    + done.
  - injection Hpop as <- <-. destruct rest; [done|].
    simpl in Hrest. destruct (MinHeap_pop rest) as [[? ?]|]; [|done].
    by destruct (wltb _ _).
Qed.

Lemma MinHeap_pop_None wl : MinHeap_pop wl = None → wl = [].
Proof.
  destruct wl as [|x rest]; [done|]. simpl.
  destruct (MinHeap_pop rest) as [[y rest']|]; [|done].
  by destruct (wltb _ _).
Qed.

Lemma bucket_pop_front_perm shift k wl item wl' :
  bucket_pop_front shift k wl = Some (item, wl') → wl ≡ₚ item :: wl'.
Proof.
  revert item wl'. induction wl as [|x rest IH]; intros item wl' Hpop; [done|].
  simpl in Hpop. destruct (UpdateRequestIndexer shift x =? k)%nat.
  - by injection Hpop as <- <-.
  - destruct (bucket_pop_front shift k rest) as [[y rest']|]; [|done].
    injection Hpop as <- <-. rewrite (IH y rest' eq_refl). apply Permutation_swap.
Qed.

Lemma pop_at_perm i wl item wl' :
  pop_at i wl = Some (item, wl') → wl ≡ₚ item :: wl'.
Proof.
  unfold pop_at. destruct (wl !! i) as [x|] eqn:Hi; [|done].
  intros [= <- <-]. by apply delete_Permutation.
Qed.

Variable pushWrap : nat → W → list T.
Variable edgeRange : T → list (nat * W).

Lemma DijkstraBody_step st st' :
  DijkstraBody pushWrap edgeRange st = Some st' →
  wl_step (SerialBody pushWrap edgeRange) st st'.
Proof.
  unfold DijkstraBody. destruct st as [d wl]. cbn [fst snd].
  destruct (MinHeap_pop wl) as [[item wl']|] eqn:Hpop; [|done].
  intros [= <-]. constructor. by apply MinHeap_pop_perm.
Qed.

Lemma SerDeltaInner_step shift k st st' :
  SerDeltaInner pushWrap edgeRange shift k st = Some st' →
  wl_step (SerialBody pushWrap edgeRange) st st'.
Proof.
  unfold SerDeltaInner. destruct st as [d wl]. cbn [fst snd].
  destruct (bucket_pop_front shift k wl) as [[item wl']|] eqn:Hpop; [|done].
  intros [= <-]. constructor. by apply bucket_pop_front_perm in Hpop.
Qed.

Lemma Dijkstra_loop_rtc fuel st st' :
  loop fuel (DijkstraBody pushWrap edgeRange) st = Some st' →
  rtc (wl_step (SerialBody pushWrap edgeRange)) st st' ∧ st'.2 = [].
Proof.
  intros Hloop.
  destruct (loop_rtc _ _ DijkstraBody_step _ _ _ Hloop) as [Hrtc Hend].
  split; [done|]. unfold DijkstraBody in Hend.
  destruct (MinHeap_pop st'.2) as [[? ?]|] eqn:Hpop; [done|].
  by apply MinHeap_pop_None.
Qed.

Lemma SerDeltaOuter_rtc shift fuel k st st' :
  SerDeltaOuter pushWrap edgeRange shift fuel k st = Some st' →
  rtc (wl_step (SerialBody pushWrap edgeRange)) st st'.
Proof.
  revert k st. induction fuel as [|fuel IH]; intros k st Hloop; [done|].
  cbn [SerDeltaOuter] in Hloop.
  destruct (wl_empty shift k st.2).
  - injection Hloop as <-. apply rtc_refl.
  - destruct (loop (S fuel) _ st) as [st1|] eqn:Hinner; [|done].
    destruct (loop_rtc _ _ (SerDeltaInner_step shift _) _ _ _ Hinner) as [Hrtc _].
    etrans; [done|]. by eapply IH.
Qed.

(** A run of [SerDeltaAlgo] that returns went through a chain of steps
    from the request of the source. *)
Lemma SerDeltaAlgo_rtc fuel d source shift d' :
  SerDeltaAlgo pushWrap edgeRange fuel d source shift = Some (Returns d') →
  rtc (wl_step (SerialBody pushWrap edgeRange))
      (<[source := wzero]> d, pushWrap source wzero) (d', []).
Proof.
  unfold SerDeltaAlgo. intros Hrun.
  destruct (SerDeltaOuter _ _ _ _ _ _) as [[d1 wl1]|] eqn:Hloop; [|done].
  apply SerDeltaOuter_rtc in Hloop. cbn [fst snd] in Hrun.
  destruct wl1; cbn in Hrun; [|done]. by injection Hrun as <-.
Qed.

Lemma for_each_rtc ex fuel k st st' :
  for_each pushWrap edgeRange ex fuel k st = Some st' →
  rtc (wl_step (DeltaStepBody pushWrap edgeRange)) st st' ∧ st'.2 = [].
Proof.
  revert k st. induction fuel as [|fuel IH]; intros k st Hloop; [done|].
  cbn [for_each] in Hloop. destruct st as [d wl]. cbn [fst snd] in Hloop.
  destruct wl as [|x rest] eqn:Hwl.
  - injection Hloop as <-. split; [apply rtc_refl|done].
  - rewrite <- Hwl in Hloop.
    destruct (pop_at _ wl) as [[item wl']|] eqn:Hpop; [|done].
    destruct (IH _ _ Hloop) as [Hrtc Hend]. split; [|done].
    eapply rtc_l; [|done]. rewrite <- Hwl. constructor. by apply pop_at_perm in Hpop.
Qed.

End Worklists.

Section Topo.
Context {W : Type} {Wt : Weight W}.
Variable g : Graph W.

Lemma TopoVisit_flag_irrelevant d old_dist c1 c2 n :
  (TopoVisit g (d, old_dist, c1) n).1 = (TopoVisit g (d, old_dist, c2) n).1.
Proof. unfold TopoVisit. by destruct (wltb _ _). Qed.

Lemma TopoVisits_rtc ns d old_dist changed :
  rtc (topo_step g) (d, old_dist)
      (fold_left (TopoVisit g) ns (d, old_dist, changed)).1.
Proof.
  revert d old_dist changed. induction ns as [|n ns IH]; intros d old_dist changed.
  - apply rtc_refl.
  - cbn [fold_left].
    destruct (TopoVisit g (d, old_dist, changed) n) as [[d1 old1] c1] eqn:Hv.
    eapply rtc_l; [|apply IH].
    change (d1, old1) with (d1, old1, c1).1. rewrite <- Hv. constructor.
Qed.

Lemma TopoLoop_rtc ex fuel rounds d old_dist d' :
  TopoLoop ex g fuel rounds d old_dist = Some d' →
  ∃ old_dist', rtc (topo_step g) (d, old_dist) (d', old_dist').
Proof.
  revert rounds d old_dist. induction fuel as [|fuel IH]; intros rounds d old_dist Hloop;
    [done|].
  cbn [TopoLoop] in Hloop.
  pose proof (TopoVisits_rtc (do_all_order ex rounds (seq 0 (length g))) d old_dist false)
    as Hround.
  destruct (fold_left _ _ (d, old_dist, false)) as [[d1 old1] changed].
  cbn [fst] in Hround. destruct changed.
  - destruct (IH _ _ _ Hloop) as [old' Hrtc]. exists old'. by etrans.
  - injection Hloop as <-. by exists old1.
Qed.

Lemma TopoTileVisits_rtc is_ d tiles changed :
  rtc (topo_tile_step g) (d, tiles)
      (fold_left (TopoTileVisit g) is_ (d, tiles, changed)).1.
Proof.
  revert d tiles changed. induction is_ as [|i is_ IH]; intros d tiles changed.
  - apply rtc_refl.
  - cbn [fold_left].
    destruct (TopoTileVisit g (d, tiles, changed) i) as [[d1 tiles1] c1] eqn:Hv.
    eapply rtc_l; [|apply IH].
    change (d1, tiles1) with (d1, tiles1, c1).1. rewrite <- Hv. constructor.
Qed.

Lemma TopoTileLoop_rtc ex fuel rounds d tiles d' :
  TopoTileLoop ex g fuel rounds d tiles = Some d' →
  ∃ tiles', rtc (topo_tile_step g) (d, tiles) (d', tiles').
Proof.
  revert rounds d tiles. induction fuel as [|fuel IH]; intros rounds d tiles Hloop;
    [done|].
  cbn [TopoTileLoop] in Hloop.
  pose proof (TopoTileVisits_rtc (do_all_order ex rounds (seq 0 (length tiles))) d tiles false)
    as Hround.
  destruct (fold_left _ _ (d, tiles, false)) as [[d1 tiles1] changed].
  cbn [fst] in Hround. destruct changed.
  - destruct (IH _ _ _ Hloop) as [tiles' Hrtc]. exists tiles'. by etrans.
  - injection Hloop as <-. by exists tiles1.
Qed.

End Topo.
End sssp_runs.

(** ** SSSP: monotone distances (C2) and stale requests (C3) *)

Module sssp_monotone.
Import sssp sssp_entry sssp_spec sssp_order sssp_runs sssp_examples.

Section Monotone.
Context {W : Type} {Wt : Weight W} {WO : WeightOrder W}.

Lemma topo_steps_le (g : Graph W) st st' :
  rtc (topo_step g) st st' → dist_le st'.1 st.1.
Proof.
  intros Hrtc. induction Hrtc as [st|st1 st2 st3 Hstep _ IH]; [apply dist_le_refl|].
  eapply dist_le_trans; [apply IH|].
  destruct Hstep as [d old_dist changed n].
  apply (TopoVisit_le g (d, old_dist, changed) n).
Qed.

Lemma topo_tile_steps_le (g : Graph W) st st' :
  rtc (topo_tile_step g) st st' → dist_le st'.1 st.1.
Proof.
  intros Hrtc. induction Hrtc as [st|st1 st2 st3 Hstep _ IH]; [apply dist_le_refl|].
  eapply dist_le_trans; [apply IH|].
  destruct Hstep as [d tiles changed i].
  apply (TopoTileVisit_le g (d, tiles, changed) i).
Qed.

Section Algorithms.
Context {T : Type} {Rq : Request (W := W) T}.
Variable pushWrap : nat → W → list T.
Variable edgeRange : T → list (nat * W).

Lemma DijkstraAlgo_le fuel d source d' :
  DijkstraAlgo pushWrap edgeRange fuel d source = Some d' →
  dist_le d' (<[source := wzero]> d).
Proof.
  unfold DijkstraAlgo. intros Hrun.
  destruct (loop fuel _ _) as [st'|] eqn:Hloop; [|done].
  injection Hrun as <-. apply Dijkstra_loop_rtc in Hloop as [Hrtc _].
  apply (wl_steps_le _ (SerialBody_le pushWrap edgeRange) _ _ Hrtc).
Qed.

Lemma SerDeltaAlgo_le fuel d source shift d' :
  SerDeltaAlgo pushWrap edgeRange fuel d source shift = Some (Returns d') →
  dist_le d' (<[source := wzero]> d).
Proof.
  intros Hrun. apply SerDeltaAlgo_rtc in Hrun.
  apply (wl_steps_le _ (SerialBody_le pushWrap edgeRange) _ _ Hrun).
Qed.

Lemma DeltaStepAlgo_le ex fuel d source d' :
  DeltaStepAlgo pushWrap edgeRange ex fuel d source = Some d' →
  dist_le d' (<[source := wzero]> d).
Proof.
  unfold DeltaStepAlgo. intros Hrun.
  destruct (for_each _ _ _ _ _ _) as [st'|] eqn:Hloop; [|done].
  injection Hrun as <-. apply for_each_rtc in Hloop as [Hrtc _].
  apply (wl_steps_le _ (DeltaStepBody_le pushWrap edgeRange) _ _ Hrtc).
Qed.

End Algorithms.

Lemma TopoAlgo_le ex (g : Graph W) fuel d source d' :
  TopoAlgo ex g fuel d source = Some d' → dist_le d' (<[source := wzero]> d).
Proof.
  unfold TopoAlgo. intros Hrun. apply TopoLoop_rtc in Hrun as [old' Hrtc].
  apply (topo_steps_le g _ _ Hrtc).
Qed.

Lemma TopoTileAlgo_le ex (g : Graph W) tile fuel d source d' :
  TopoTileAlgo ex g tile fuel d source = Some d' → dist_le d' (<[source := wzero]> d).
Proof.
  unfold TopoTileAlgo. intros Hrun. apply TopoTileLoop_rtc in Hrun as [tiles' Hrtc].
  apply (topo_tile_steps_le g _ _ Hrtc).
Qed.

(** The write of zero at the source that every algorithm starts with does
    not change the distances [SSSP] hands over. *)
Lemma initial_distances_source (g : Graph W) d source :
  <[source := wzero]> (initial_distances g d source) = initial_distances g d source.
Proof. unfold initial_distances. apply list_insert_insert_eq. Qed.

(** C2.  No write of a distance raises it.  [atomicMin] and the guarded
    write of the serial loops store a value only if it is below the stored
    one, so every state a worklist loop or a topological round passes
    through is pointwise at or below every earlier one, and so is the
    result of every algorithm relative to the distances it starts from.
    The one unguarded write, zero at the source, is a no-op on the
    distances the entry point hands over, so a run of [SSSP] ends pointwise
    at or below them. *)
Theorem C2_distances_never_increase {T : Type} {Rq : Request (W := W) T}
    (g : Graph W) (pushWrap : nat → W → list T) (edgeRange : T → list (nat * W)) :
  (∀ d v c, dist_le (atomicMin d v c).2 d)
  ∧ (∀ x st e, dist_le (relaxSerial pushWrap x st e).1 st.1)
  ∧ (∀ st st', rtc (wl_step (SerialBody pushWrap edgeRange)) st st' → dist_le st'.1 st.1)
  ∧ (∀ st st', rtc (wl_step (DeltaStepBody pushWrap edgeRange)) st st' → dist_le st'.1 st.1)
  ∧ (∀ st st', rtc (topo_step g) st st' → dist_le st'.1 st.1)
  ∧ (∀ st st', rtc (topo_tile_step g) st st' → dist_le st'.1 st.1)
  ∧ (∀ fuel d source d',
       DijkstraAlgo pushWrap edgeRange fuel d source = Some d' →
       dist_le d' (<[source := wzero]> d))
  ∧ (∀ fuel d source shift d',
       SerDeltaAlgo pushWrap edgeRange fuel d source shift = Some (Returns d') →
       dist_le d' (<[source := wzero]> d))
  ∧ (∀ ex fuel d source d',
       DeltaStepAlgo pushWrap edgeRange ex fuel d source = Some d' →
       dist_le d' (<[source := wzero]> d))
  ∧ (∀ ex fuel d source d',
       TopoAlgo ex g fuel d source = Some d' → dist_le d' (<[source := wzero]> d))
  ∧ (∀ ex tile fuel d source d',
       TopoTileAlgo ex g tile fuel d source = Some d' →
       dist_le d' (<[source := wzero]> d))
  ∧ (∀ env tile fuel d start_node plan r d',
       SSSP env tile fuel g d start_node plan = Some (Returns (r, d')) →
       (start_node < length g)%nat →
       dist_le d' (initial_distances g d start_node)).
Proof.
  split; [apply atomicMin_le|].
  split; [apply relaxSerial_le|].
  split; [apply wl_steps_le, SerialBody_le|].
  split; [apply wl_steps_le, DeltaStepBody_le|].
  split; [apply topo_steps_le|].
  split; [apply topo_tile_steps_le|].
  split; [apply DijkstraAlgo_le|].
  split; [apply SerDeltaAlgo_le|].
  split; [apply DeltaStepAlgo_le|].
  split; [intros; by eapply TopoAlgo_le|].
  split; [intros; by eapply TopoTileAlgo_le|].
  intros env tile fuel d start_node plan r d' Hrun Hstart.
  unfold SSSP in Hrun. apply Nat.leb_gt in Hstart as Hguard. rewrite Hguard in Hrun.
  fold (initial_distances g d start_node) in Hrun.
  rewrite <- (initial_distances_source g d start_node).
  set (d1 := initial_distances g d start_node) in *.
  set (plan' := match algorithm plan with kAutomatic => _ | _ => plan end) in Hrun.
  destruct (algorithm plan'); cbn in Hrun;
    try (match type of Hrun with
         | (Run_map _ <$> ?a) = Some _ =>
             destruct a as [[dr|]|] eqn:Halgo; [|done..]; injection Hrun as <- <-
         | (_ <$> ?a) = Some _ =>
             destruct a as [dr|] eqn:Halgo; [|done]; injection Hrun as <- <-
         end);
    try (match type of Halgo with
         | @DeltaStepAlgo _ _ ?T' ?Rq' ?pw ?er ?ex ?fl ?d0 ?s = _ =>
             exact (@DeltaStepAlgo_le T' Rq' pw er ex fl d0 s _ Halgo)
         | @SerDeltaAlgo _ _ ?T' ?Rq' ?pw ?er ?fl ?d0 ?s ?sh = _ =>
             exact (@SerDeltaAlgo_le T' Rq' pw er fl d0 s sh _ Halgo)
         | @DijkstraAlgo _ _ ?T' ?Rq' ?pw ?er ?fl ?d0 ?s = _ =>
             exact (@DijkstraAlgo_le T' Rq' pw er fl d0 s _ Halgo)
         | TopoAlgo _ _ _ _ _ = _ => exact (TopoAlgo_le _ _ _ _ _ _ Halgo)
         | TopoTileAlgo _ _ _ _ _ _ = _ => exact (TopoTileAlgo_le _ _ _ _ _ _ _ Halgo)
         end).
  injection Hrun as <- <-. subst d1. rewrite !initial_distances_source.
  apply dist_le_refl.
Qed.

End Monotone.

(** Dijkstra on the diamond, with [uint32_t] weights: the result is at or
    below the initial distances. *)
Lemma C2_distances_never_increase_witness :
  @dist_le Z UInt32Weight [0; 1; 4; 3] (<[0%nat := 0]> (unreached 4)).
Proof.
  pose proof (@C2_distances_never_increase Z UInt32Weight (UIntWeight_order 32 _)
                (@UpdateRequest Z) _ diamond ReqPushWrap (OutEdgeRangeFn diamond))
    as (_ & _ & _ & _ & _ & _ & HDijkstra & _).
  apply (HDijkstra 10%nat (unreached 4) 0%nat [0; 1; 4; 3]).
  reflexivity.
Defined.

(** *** Stale requests (C3) *)

Section Stale.
Context {W : Type} {Wt : Weight W} {WO : WeightOrder W}.
Context {T : Type} {Rq : Request (W := W) T}.
Variable g : Graph W.
Variable pushWrap : nat → W → list T.
Variable edgeRange : T → list (nat * W).
Hypothesis Hwf : wf_graph g.
Hypothesis Htagged : tagged pushWrap.
Hypothesis Hranged : ranged g edgeRange.
Implicit Types (st : list W * list T) (item : T) (e : nat * W).

#[local] Abbreviation pending_ok := (pending_ok g).

Lemma requests_above_le d d' (wl : list T) :
  dist_le d' d → requests_above d wl → requests_above d' wl.
Proof.
  intros [_ Hle] Hwl item Hin.
  eapply wle_trans; [apply Hle|by apply Hwl].
Qed.

Lemma requests_above_push d (wl : list T) v x :
  (v < length d)%nat → wle x (GetData d v) →
  requests_above d wl →
  requests_above (<[v := x]> d) (wl ++ pushWrap v x).
Proof.
  intros Hv Hx Hwl item [Hin|Hin]%elem_of_app.
  - by apply (requests_above_le d _ wl (dist_le_insert d v x Hx) Hwl).
  - destruct (Htagged v x item Hin) as [-> ->].
    rewrite GetData_insert_eq by done. apply wle_refl.
Qed.

Lemma relaxSerial_ok x st e :
  (e.1 < length g)%nat → pending_ok st → pending_ok (relaxSerial pushWrap x st e).
Proof.
  intros He [Hlen Hwl]. unfold relaxSerial.
  destruct (wltb (wadd x e.2) (GetData st.1 e.1)) eqn:Hlt; [|done].
  split; cbn [fst snd]; [by rewrite length_insert|].
  apply requests_above_push; [lia|by right|done].
Qed.

Lemma relaxAtomic_ok s st e :
  (e.1 < length g)%nat → pending_ok st → pending_ok (relaxAtomic pushWrap s st e).
Proof.
  intros He [Hlen Hwl]. unfold relaxAtomic, atomicMin.
  destruct (wltb (wadd (GetData st.1 s) e.2) (GetData st.1 e.1)) eqn:Hlt; [|done].
  split; cbn [fst snd]; [by rewrite length_insert|].
  apply requests_above_push; [lia|by right|done].
Qed.

Lemma relax_fold_ok (relax : list W * list T → nat * W → list W * list T) es st :
  (∀ st e, (e.1 < length g)%nat → pending_ok st → pending_ok (relax st e)) →
  (∀ e, e ∈ es → (e.1 < length g)%nat) →
  pending_ok st → pending_ok (fold_left relax es st).
Proof.
  intros Hrelax. revert st. induction es as [|e es IH]; intros st Hes Hst; [done|].
  simpl. apply IH.
  - intros e' He'. apply Hes. by right.
  - apply Hrelax; [|done]. apply Hes. by left.
Qed.

Lemma edgeRange_in_range item e : e ∈ edgeRange item → (e.1 < length g)%nat.
Proof. intros He. eapply Hwf. by apply Hranged. Qed.

Lemma SerialBody_ok item st :
  pending_ok st → pending_ok (SerialBody pushWrap edgeRange item st).
Proof.
  intros Hst. unfold SerialBody. destruct (wltb _ (dist item)); [done|].
  apply relax_fold_ok; [apply relaxSerial_ok|apply edgeRange_in_range|done].
Qed.

Lemma DeltaStepBody_ok item st :
  pending_ok st → pending_ok (DeltaStepBody pushWrap edgeRange item st).
Proof.
  intros Hst. unfold DeltaStepBody. destruct (wltb _ (dist item)); [done|].
  apply relax_fold_ok; [apply relaxAtomic_ok|apply edgeRange_in_range|done].
Qed.

Lemma pending_ok_pop d (wl wl' : list T) item :
  wl ≡ₚ item :: wl' → pending_ok (d, wl) →
  pending_ok (d, wl') ∧ wle (GetData d (src item)) (dist item).
Proof.
  intros Hperm [Hlen Hwl]. split; [split; [done|]|].
  - intros x Hx. apply Hwl. cbn [snd]. rewrite Hperm. by right.
  - apply Hwl. cbn [snd]. rewrite Hperm. by left.
Qed.

Lemma wl_steps_ok (body : T → list W * list T → list W * list T) :
  (∀ item st, pending_ok st → pending_ok (body item st)) →
  ∀ st st', rtc (wl_step body) st st' → pending_ok st → pending_ok st'.
Proof.
  intros Hbody st st' Hrtc.
  induction Hrtc as [st|st1 st2 st3 Hstep _ IH]; [done|].
  intros Hst. apply IH. destruct Hstep as [d wl item wl' Hperm].
  apply Hbody. by apply (pending_ok_pop d wl wl' item).
Qed.

Lemma pending_ok_init d source :
  length d = length g → (source < length g)%nat →
  pending_ok (<[source := wzero]> d, pushWrap source wzero).
Proof.
  intros Hlen Hsource. split; cbn [fst snd]; [by rewrite length_insert|].
  intros item Hin. destruct (Htagged _ _ _ Hin) as [-> ->].
  rewrite GetData_insert_eq by lia. apply wle_refl.
Qed.

(** C3.  In a run of a worklist variant from the distances and the
    request of the source, whichever pending request [(u, d)] is taken out
    next, the test of the loop body lets it through exactly when [d] is
    the stored distance of [u]; a request with any other [d] is dropped:
    the distances stay as they are and nothing is enqueued.  This holds
    for the body shared by the serial delta and Dijkstra loops and for the
    body of the parallel delta-stepping loop, each of whose iterations
    takes a request out of the worklist and runs the body on it. *)
Theorem C3_stale_request_is_dropped (d0 : list W) (source : nat)
    (body : T → list W * list T → list W * list T)
    (d : list W) (wl wl' : list T) (item : T) :
  length d0 = length g → (source < length g)%nat →
  body = SerialBody pushWrap edgeRange ∨ body = DeltaStepBody pushWrap edgeRange →
  rtc (wl_step body) (<[source := wzero]> d0, pushWrap source wzero) (d, wl) →
  wl ≡ₚ item :: wl' →
  (wltb (GetData d (src item)) (dist item) = false ↔ dist item = GetData d (src item))
  ∧ (dist item ≠ GetData d (src item) → body item (d, wl') = (d, wl'))
  ∧ (∀ st st', DijkstraBody pushWrap edgeRange st = Some st' →
               wl_step (SerialBody pushWrap edgeRange) st st')
  ∧ (∀ shift k st st', SerDeltaInner pushWrap edgeRange shift k st = Some st' →
               wl_step (SerialBody pushWrap edgeRange) st st')
  ∧ (∀ ex fuel k st st', for_each pushWrap edgeRange ex fuel k st = Some st' →
               rtc (wl_step (DeltaStepBody pushWrap edgeRange)) st st').
Proof.
  intros Hlen Hsource Hbody Hrtc Hperm.
  assert (pending_ok (d, wl)) as Hok.
  { apply (wl_steps_ok body) in Hrtc; [done| |by apply pending_ok_init].
    destruct Hbody as [-> | ->]; [apply SerialBody_ok|apply DeltaStepBody_ok]. }
  destruct (pending_ok_pop d wl wl' item Hperm Hok) as [_ Hle].
  assert (wltb (GetData d (src item)) (dist item) = false
          ↔ dist item = GetData d (src item)) as Htest.
  { split.
    - intros Hnlt. symmetry. by apply wle_lt_false.
    - intros ->. apply wltb_irrefl. }
  split; [done|]. split.
  - intros Hne.
    assert (wltb (GetData d (src item)) (dist item) = true) as Hlt.
    { destruct (wltb (GetData d (src item)) (dist item)) eqn:Hlt; [done|].
      destruct Hne. by apply Htest. }
    destruct Hbody as [-> | ->]; unfold SerialBody, DeltaStepBody; cbn [fst];
      by rewrite Hlt.
  - split; [apply DijkstraBody_step|]. split; [apply SerDeltaInner_step|].
    intros ex fuel k st st' Hrun. by apply for_each_rtc in Hrun as [Hrun _].
Qed.

End Stale.

(** The out-edge requests are tagged and ranged. *)
Lemma ReqPushWrap_tagged {W} : tagged (ReqPushWrap (W := W)).
Proof.
  intros n d item Hin. apply list_elem_of_singleton in Hin as ->. done.
Qed.

Lemma OutEdgeRangeFn_ranged {W} (g : Graph W) :
  ranged g (OutEdgeRangeFn g).
Proof. intros item e He. exact He. Qed.

Lemma detour_wf : wf_graph detour.
Proof.
  intros n e He. unfold edges in He.
  destruct n as [|[|[|n]]]; cbn in He;
    repeat (apply elem_of_cons in He as [->|He]; [cbn; lia|]);
    by apply elem_of_nil in He.
Qed.

(** After the request of the source and the request of node 2, Dijkstra
    holds the distances [0, 5, 2] and the requests (1, 10) and (1, 5). *)
Lemma detour_run :
  rtc (wl_step (SerialBody (Wt := UInt32Weight) ReqPushWrap (OutEdgeRangeFn detour)))
      (<[0%nat := 0]> (unreached 3), ReqPushWrap 0%nat 0)
      ([0; 5; 2], [ {| ur_src := 1; ur_dist := 10 |}; {| ur_src := 1; ur_dist := 5 |} ]).
Proof.
  apply (rtc_l _ _
           ([0; 10; 2],
            [ {| ur_src := 1; ur_dist := 10 |}; {| ur_src := 2; ur_dist := 2 |} ])).
  - exact (wl_step_pop
             (SerialBody (Wt := UInt32Weight) ReqPushWrap (OutEdgeRangeFn detour))
             (<[0%nat := 0]> (unreached 3)) (ReqPushWrap 0%nat 0)
             {| ur_src := 0; ur_dist := 0 |} [] (Permutation_refl _)).
  - apply rtc_once.
    exact (wl_step_pop
             (SerialBody (Wt := UInt32Weight) ReqPushWrap (OutEdgeRangeFn detour))
             [0; 10; 2]
             [ {| ur_src := 1; ur_dist := 10 |}; {| ur_src := 2; ur_dist := 2 |} ]
             {| ur_src := 2; ur_dist := 2 |}
             [ {| ur_src := 1; ur_dist := 10 |} ]
             (Permutation_swap _ _ _)).
Qed.

Lemma detour_source : (0 < length detour)%nat.
Proof. cbn. lia. Qed.

(** Dijkstra on [detour]: the request for node 1 at distance 10 is stale
    when it is dequeued. *)
Lemma C3_stale_request_is_dropped_witness :
  SerialBody (Wt := UInt32Weight) ReqPushWrap (OutEdgeRangeFn detour)
    {| ur_src := 1; ur_dist := 10 |}
    ([0; 5; 2], [ {| ur_src := 1; ur_dist := 5 |} ])
  = ([0; 5; 2], [ {| ur_src := 1; ur_dist := 5 |} ]).
Proof.
  refine (proj1 (proj2 (@C3_stale_request_is_dropped Z UInt32Weight
            (UIntWeight_order 32 _) (@UpdateRequest Z) _ detour ReqPushWrap
            (OutEdgeRangeFn detour) detour_wf ReqPushWrap_tagged
            (OutEdgeRangeFn_ranged detour)
            (unreached 3) 0%nat
            (SerialBody (Wt := UInt32Weight) ReqPushWrap (OutEdgeRangeFn detour))
            [0; 5; 2]
            [ {| ur_src := 1; ur_dist := 10 |}; {| ur_src := 1; ur_dist := 5 |} ]
            [ {| ur_src := 1; ur_dist := 5 |} ]
            {| ur_src := 1; ur_dist := 10 |}
            eq_refl detour_source (or_introl eq_refl) detour_run
            (Permutation_refl _))) _).
  cbn. intros Heq. discriminate Heq.
Defined.

End sssp_monotone.

(** ** SSSP: every strategy ends with relaxation closure, and with the
    shortest distances where the weight type computes in order *)

Module sssp_shortest.
Import sssp sssp_entry sssp_spec sssp_order sssp_runs shortest_spec.

Lemma loop_terminates {S : Type} (P : S → Prop) (m : S → nat) (body : S → option S) :
  (∀ st st', P st → body st = Some st' → P st' ∧ (m st' < m st)%nat) →
  ∀ fuel st, P st → (m st < fuel)%nat →
  ∃ st', loop fuel body st = Some st' ∧ P st' ∧ body st' = None
         ∧ (m st' <= m st)%nat ∧ (body st ≠ None → (m st' < m st)%nat).
Proof.
  intros Hbody fuel. induction fuel as [|fuel IH]; intros st HP Hm; [lia|].
  simpl. destruct (body st) as [st1|] eqn:Hst.
  - destruct (Hbody _ _ HP Hst) as [HP1 Hm1].
    destruct (IH st1 HP1) as (st' & Hloop & HP' & Hend & Hle & _); [lia|].
    exists st'. split; [done|]. split; [done|]. split; [done|]. split; [lia|].
    intros _. lia.
  - exists st. split; [done|]. split; [done|]. split; [done|]. split; [lia|].
    intros Hn. by destruct Hn.
Qed.

(** *** Sums of ranks *)

Section RankSum.
Context {W : Type}.
Variable rank : W → nat.

Lemma rank_sum_insert (d : list W) (v : nat) (x y : W) :
  d !! v = Some x →
  (rank_sum rank (<[v := y]> d) + rank x = rank_sum rank d + rank y)%nat.
Proof.
  revert v. induction d as [|z d IH]; intros v Hv; [done|].
  destruct v as [|v]; simpl in *.
  - injection Hv as ->. unfold rank_sum. cbn [sum_list_with]. lia.
  - specialize (IH v Hv). unfold rank_sum in *. cbn [sum_list_with]. lia.
Qed.

Lemma rank_sum_le_length (d : list W) (b : nat) :
  (∀ x, x ∈ d → (rank x <= b)%nat) → (rank_sum rank d <= length d * b)%nat.
Proof.
  induction d as [|z d IH]; intros Hd; [unfold rank_sum; simpl; lia|].
  assert (rank z <= b)%nat by (apply Hd; by left).
  assert (rank_sum rank d <= length d * b)%nat
    by (apply IH; intros x Hx; apply Hd; by right).
  unfold rank_sum in *. cbn [sum_list_with length]. nia.
Qed.

End RankSum.

(** *** Edge tiles *)

Section Tiles.
Context {W : Type} {Wt : Weight W}.
Variable g : Graph W.

Lemma tile_ranges_length fuel ts b e :
  (length (tile_ranges fuel ts b e) <= fuel)%nat.
Proof.
  revert b. induction fuel as [|fuel IH]; intros b; cbn [tile_ranges]; [done|].
  destruct (b + ts <? e)%nat; cbn [length].
  - specialize (IH (b + ts)%nat). lia.
  - destruct (b <? e)%nat; cbn [length]; lia.
Qed.

(** With a positive tile size the tiles cover the range. *)
Lemma tile_ranges_cover fuel ts b e i :
  (0 < ts)%nat → (b <= i < e)%nat → (e - b < fuel)%nat →
  ∃ r, r ∈ tile_ranges fuel ts b e ∧ (r.1 <= i < r.2)%nat.
Proof.
  intros Hts. revert b. induction fuel as [|fuel IH]; intros b Hi Hfuel; [lia|].
  cbn [tile_ranges]. destruct (Nat.ltb_spec (b + ts) e) as [Hlt|Hge].
  - destruct (decide (i < b + ts)%nat) as [Hin|Hout].
    + exists (b, (b + ts)%nat). split; [by left|]. cbn. lia.
    + destruct (IH (b + ts)%nat) as (r & Hr & Hri); [lia|lia|].
      exists r. split; [by right|done].
  - destruct (Nat.ltb_spec b e) as [_|?]; [|lia].
    exists (b, e). split; [by left|]. cbn. lia.
Qed.

Lemma edge_range_sub n b e x : x ∈ edge_range g n b e → x ∈ edges g n.
Proof. intros Hx. unfold edge_range in Hx. by apply subseteq_take, subseteq_drop in Hx. Qed.

Lemma edge_range_lookup n b e i x :
  edges g n !! i = Some x → (b <= i < e)%nat → x ∈ edge_range g n b e.
Proof.
  intros Hx Hi. unfold edge_range. apply elem_of_take. exists (i - b)%nat.
  split; [|lia]. rewrite lookup_drop. by replace (b + (i - b))%nat with i by lia.
Qed.

Lemma edges_length n : (length (edges g n) <= length (concat g))%nat.
Proof.
  unfold edges. destruct (g !! n) as [es|] eqn:Hn; cbn; [|lia].
  apply list_elem_of_lookup_2 in Hn. clear n.
  induction g as [|l ls IH]; [by apply elem_of_nil in Hn|].
  cbn [concat]. rewrite length_app.
  apply elem_of_cons in Hn as [->|Hn]; [lia|]. specialize (IH Hn). lia.
Qed.

Lemma edges_in_range n e : e ∈ edges g n → (n < length g)%nat.
Proof.
  unfold edges. destruct (g !! n) as [es|] eqn:Hn; cbn.
  - intros _. by eapply lookup_lt_Some.
  - intros He. by apply elem_of_nil in He.
Qed.

Lemma SrcEdgeTilePushWrap_tagged ts : tagged (SrcEdgeTilePushWrap g ts).
Proof.
  intros n d t Ht. unfold SrcEdgeTilePushWrap, PushEdgeTiles in Ht.
  apply list_elem_of_In, in_map_iff in Ht as (r & <- & _). done.
Qed.

Lemma TileRangeFn_ranged : ranged g (TileRangeFn g).
Proof. intros t e He. by apply edge_range_sub in He. Qed.

Lemma SrcEdgeTilePushWrap_covers ts n x e :
  (0 < ts)%nat → e ∈ edges g n →
  ∃ t, t ∈ SrcEdgeTilePushWrap g ts n x ∧ e ∈ TileRangeFn g t.
Proof.
  intros Hts [i Hi]%list_elem_of_lookup_1.
  pose proof (lookup_lt_Some _ _ _ Hi) as Hlt.
  destruct (tile_ranges_cover (S (length (edges g n))) ts 0 (length (edges g n)) i)
    as (r & Hr & Hri); [done|lia|lia|].
  exists (SrcEdgeTileMaker n x r.1 r.2). split.
  - unfold SrcEdgeTilePushWrap, PushEdgeTiles.
    apply list_elem_of_In, in_map_iff. exists r. split; [done|by apply list_elem_of_In].
  - unfold TileRangeFn. cbn. by apply (edge_range_lookup n r.1 r.2 i).
Qed.

Lemma SrcEdgeTilePushWrap_length ts n x :
  (length (SrcEdgeTilePushWrap g ts n x) <= S (length (concat g)))%nat.
Proof.
  unfold SrcEdgeTilePushWrap, PushEdgeTiles. rewrite length_map.
  pose proof (tile_ranges_length (S (length (edges g n))) ts 0 (length (edges g n))).
  pose proof (edges_length n). lia.
Qed.

(** The bag of tiles [TopoTileAlgo] starts from. *)
Lemma initial_tiles ts x t :
  t ∈ concat (map (λ n, SrcEdgeTilePushWrap g ts n x) (seq 0 (length g))) ↔
  ∃ n, (n < length g)%nat ∧ t ∈ SrcEdgeTilePushWrap g ts n x.
Proof.
  rewrite list_elem_of_In, in_concat. split.
  - intros (l & (n & <- & Hn%in_seq)%in_map_iff & Ht).
    exists n. split; [lia|by apply list_elem_of_In].
  - intros (n & Hn & Ht). exists (SrcEdgeTilePushWrap g ts n x). split.
    + apply in_map_iff. exists n. split; [done|]. apply in_seq. lia.
    + by apply list_elem_of_In.
Qed.

Lemma initial_tiles_length ts x :
  (length (concat (map (λ n, SrcEdgeTilePushWrap g ts n x) (seq 0 (length g))))
   <= S (length (concat g)) * length g)%nat.
Proof.
  assert (∀ ns, (length (concat (map (λ n, SrcEdgeTilePushWrap g ts n x) ns))
                 <= S (length (concat g)) * length ns)%nat) as Hns.
  { induction ns as [|n ns IH]; cbn [map concat length]; [lia|].
    rewrite length_app. pose proof (SrcEdgeTilePushWrap_length ts n x). lia. }
  specialize (Hns (seq 0 (length g))). by rewrite length_seq in Hns.
Qed.

Lemma ReqPushWrap_covering : covering g ReqPushWrap (OutEdgeRangeFn g).
Proof.
  intros n x e He. exists {| ur_src := n; ur_dist := x |}. split; [by left|done].
Qed.

Lemma SrcEdgeTilePushWrap_covering ts :
  (0 < ts)%nat → covering g (SrcEdgeTilePushWrap g ts) (TileRangeFn g).
Proof. intros Hts n x e He. by apply SrcEdgeTilePushWrap_covers. Qed.

End Tiles.

(** *** Arrays of distances *)

Section Arrays.
Context {W : Type} {Wt : Weight W}.
Implicit Types (d : list W).

#[local] Abbreviation inf := (kDistanceInfinity : W).

Lemma GetData_lookup d v x : d !! v = Some x → GetData d v = x.
Proof. unfold GetData. by intros ->. Qed.

Lemma GetData_out d v : (length d <= v)%nat → GetData d v = inf.
Proof. intros Hv. unfold GetData. by rewrite lookup_ge_None_2. Qed.

Lemma GetData_in d v : (v < length d)%nat → d !! v = Some (GetData d v).
Proof.
  intros Hv. destruct (lookup_lt_is_Some_2 d v Hv) as [x Hx].
  by rewrite (GetData_lookup d v x Hx).
Qed.

Lemma GetData_write d v0 y v :
  (v0 < length d)%nat →
  GetData (<[v0 := y]> d) v = if decide (v = v0) then y else GetData d v.
Proof.
  intros Hv0. rewrite GetData_insert.
  destruct (decide (v = v0)) as [->|Hne].
  - by rewrite decide_True.
  - rewrite decide_False; [done|]. intros [? _]. congruence.
Qed.

Lemma GetData_replicate n v : GetData (replicate n inf) v = inf.
Proof.
  destruct (decide (v < n)%nat).
  - apply GetData_lookup. by apply lookup_replicate_2.
  - apply GetData_out. rewrite length_replicate. lia.
Qed.

Lemma fold_insert_replicate d (n : nat) :
  (n <= length d)%nat →
  fold_left (λ d n, <[n := inf]> d) (seq 0 n) d = replicate n inf ++ drop n d.
Proof.
  induction n as [|n IH]; intros Hn.
  - simpl. by rewrite drop_0.
  - rewrite seq_S, fold_left_app. simpl. rewrite IH by lia.
    rewrite insert_app_r_alt by (rewrite length_replicate; lia).
    rewrite length_replicate, Nat.sub_diag.
    destruct (drop n d) as [|z rest] eqn:Hdrop.
    + apply (f_equal length) in Hdrop. rewrite length_drop in Hdrop. simpl in Hdrop. lia.
    + assert (drop (S n) d = rest) as ->.
      { replace (S n) with (n + 1)%nat by lia. rewrite <- drop_drop, Hdrop. done. }
      change (<[0%nat := inf]> (z :: rest)) with ([inf] ++ rest).
      rewrite app_assoc, <- replicate_S_end. reflexivity.
Qed.

(** The distances [SSSP] starts an algorithm from. *)
Lemma initial_distances_replicate (g : Graph W) d (source : nat) :
  length d = length g →
  initial_distances g d source = <[source := wzero]> (replicate (length g) inf).
Proof.
  intros Hlen. unfold initial_distances.
  rewrite fold_insert_replicate by lia.
  rewrite <- Hlen, drop_all, app_nil_r. done.
Qed.

Lemma GetData_initial (n source v : nat) :
  (source < n)%nat →
  GetData (<[source := wzero]> (replicate n inf)) v
  = if decide (v = source) then wzero else inf.
Proof.
  intros Hsource.
  rewrite GetData_write by (by rewrite length_replicate).
  destruct (decide (v = source)); [done|apply GetData_replicate].
Qed.

Lemma elem_of_insert_inv {A} (l : list A) i x y :
  y ∈ <[i := x]> l → y = x ∨ y ∈ l.
Proof.
  intros [j Hj]%list_elem_of_lookup_1.
  apply list_lookup_insert_Some in Hj as [(_ & -> & _)|[_ Hj]]; [by left|right].
  by apply list_elem_of_lookup_2 in Hj.
Qed.

End Arrays.

(** *** The buckets of the serial delta loop *)

Section Buckets.
Context {W : Type} {Wt : Weight W} {T : Type} {Rq : Request (W := W) T}.
Implicit Types (wl : list T).

Lemma fold_min_in (x : nat) (l : list nat) : fold_left Nat.min l x ∈ x :: l.
Proof.
  revert x. induction l as [|y l IH]; intros x; simpl; [by left|].
  pose proof (IH (Nat.min x y)) as Hin. apply elem_of_cons in Hin as [Heq|Hin].
  - rewrite Heq. destruct (Nat.min_spec x y) as [[_ ->]|[_ ->]].
    + by left.
    + right. by left.
  - right. by right.
Qed.

Lemma fold_min_le (x : nat) (l : list nat) y :
  y ∈ x :: l → (fold_left Nat.min l x <= y)%nat.
Proof.
  assert (∀ l x, (fold_left Nat.min l x <= x)%nat
                 ∧ ∀ y, y ∈ l → (fold_left Nat.min l x <= y)%nat) as Hmin.
  { clear. induction l as [|z l IH]; intros x; simpl.
    - split; [done|]. intros y Hy. by apply elem_of_nil in Hy.
    - destruct (IH (Nat.min x z)) as [Hx Hl]. split; [lia|].
      intros y [->|Hy]%elem_of_cons; [lia|by apply Hl]. }
  destruct (Hmin l x) as [Hx Hl].
  intros [->|Hy]%elem_of_cons; [done|by apply Hl].
Qed.

Lemma bucket_pop_front_Some shift k wl :
  k ∈ map (UpdateRequestIndexer shift) wl →
  ∃ item wl', bucket_pop_front shift k wl = Some (item, wl').
Proof.
  induction wl as [|x rest IH]; intros Hk; [by apply elem_of_nil in Hk|].
  simpl. destruct (UpdateRequestIndexer shift x =? k)%nat eqn:Hx; [by eexists _, _|].
  apply Nat.eqb_neq in Hx.
  simpl in Hk. apply elem_of_cons in Hk as [Hk|Hk]; [congruence|].
  destruct (IH Hk) as (item & wl' & ->). by eexists _, _.
Qed.

Lemma bucket_pop_front_key shift k wl item wl' :
  bucket_pop_front shift k wl = Some (item, wl') →
  UpdateRequestIndexer shift item = k.
Proof.
  revert item wl'. induction wl as [|x rest IH]; intros item wl' Hpop; [done|].
  simpl in Hpop. destruct (UpdateRequestIndexer shift x =? k)%nat eqn:Hx.
  - injection Hpop as <- <-. by apply Nat.eqb_eq.
  - destruct (bucket_pop_front shift k rest) as [[y rest']|]; [|done].
    injection Hpop as <- <-. by eapply IH.
Qed.

Lemma key_in_map shift k wl :
  existsb (λ x, (UpdateRequestIndexer shift x =? k)%nat) wl = true →
  k ∈ map (UpdateRequestIndexer shift) wl.
Proof.
  intros (x & Hx & Hk)%existsb_exists. apply Nat.eqb_eq in Hk as <-.
  apply list_elem_of_In, in_map. done.
Qed.

(** After [goToNextBucket] the current bucket has an item, or nothing is
    left to drain. *)
Lemma idle_next shift k wl : idle shift (goToNextBucket shift k wl) wl = 0%nat.
Proof.
  unfold idle, goToNextBucket.
  destruct (List.filter (Nat.leb k) (map (UpdateRequestIndexer shift) wl))
    as [|x rest] eqn:Hkeys.
  - assert (wl_empty shift k wl = true) as ->; [|done].
    unfold wl_empty. apply forallb_forall. intros item Hitem.
    apply Nat.ltb_lt.
    destruct (Nat.lt_ge_cases (UpdateRequestIndexer shift item) k) as [?|Hge]; [done|].
    assert (In (UpdateRequestIndexer shift item)
               (List.filter (Nat.leb k) (map (UpdateRequestIndexer shift) wl))) as Hin.
    { apply filter_In. split; [by apply in_map|by apply Nat.leb_le]. }
    rewrite Hkeys in Hin. by destruct Hin.
  - assert (existsb (λ y, (UpdateRequestIndexer shift y =? fold_left Nat.min rest x)%nat)
                    wl = true) as ->; [|by rewrite orb_true_r].
    pose proof (fold_min_in x rest) as Hin. rewrite <- Hkeys in Hin.
    apply list_elem_of_In, filter_In in Hin as [Hin _].
    apply in_map_iff in Hin as (item & Hkey & Hitem).
    apply existsb_exists. exists item. split; [done|]. by apply Nat.eqb_eq.
Qed.

Lemma goToNextBucket_not_behind shift k (st : list W * list T) :
  not_behind shift k st → not_behind shift (goToNextBucket shift k st.2) st.
Proof.
  intros Hk item Hitem. unfold goToNextBucket.
  destruct (List.filter (Nat.leb k) (map (UpdateRequestIndexer shift) st.2))
    as [|x rest] eqn:Hkeys.
  - by apply Hk.
  - apply fold_min_le. rewrite <- Hkeys.
    apply list_elem_of_In, filter_In. split.
    + apply in_map. by apply list_elem_of_In.
    + apply Nat.leb_le. by apply Hk.
Qed.

Lemma wl_empty_not_behind shift k (st : list W * list T) :
  wl_empty shift k st.2 = true → not_behind shift k st → st.2 = [].
Proof.
  intros Hempty Hk. destruct st as [d [|item wl]]; [done|]. exfalso.
  cbn [snd] in *. unfold wl_empty in Hempty. rewrite forallb_forall in Hempty.
  specialize (Hempty item (or_introl eq_refl)). apply Nat.ltb_lt in Hempty.
  specialize (Hk item). cbn [snd] in Hk.
  assert (k <= UpdateRequestIndexer shift item)%nat by (apply Hk; by left). lia.
Qed.

Variable pushWrap : nat → W → list T.
Variable edgeRange : T → list (nat * W).
Variable Inv : nat → list W * list T → Prop.
Variable m : list W * list T → nat.
Variable shift : nat.
Hypothesis Hinner :
  ∀ k st st', Inv k st → SerDeltaInner pushWrap edgeRange shift k st = Some st' →
    Inv k st' ∧ (m st' < m st)%nat.
Hypothesis Hnext :
  ∀ k st, Inv k st → SerDeltaInner pushWrap edgeRange shift k st = None →
    Inv (goToNextBucket shift k st.2) st.

(** The outer loop of [SerDeltaAlgo] comes to an end when its inner loop
    lowers a measure, keeping an invariant the outer loop keeps. *)
Lemma SerDeltaOuter_terminates fuel k st :
  Inv k st → (m st + idle shift k st.2 < fuel)%nat →
  ∃ k' st', SerDeltaOuter pushWrap edgeRange shift fuel k st = Some st'
            ∧ Inv k' st' ∧ wl_empty shift k' st'.2 = true.
Proof.
  revert k st. induction fuel as [|fuel IH]; intros k st Hinv Hm; [lia|].
  cbn [SerDeltaOuter]. destruct (wl_empty shift k st.2) eqn:Hempty.
  - by exists k, st.
  - destruct (loop_terminates (Inv k) m (SerDeltaInner pushWrap edgeRange shift k))
      with (fuel := S fuel) (st := st)
      as (st1 & Hloop & Hinv1 & Hend & Hle & Hlt); [by apply Hinner|done|lia|].
    rewrite Hloop. apply IH; [by apply Hnext|].
    rewrite idle_next, Nat.add_0_r.
    unfold idle in Hm. rewrite Hempty in Hm. cbn [orb] in Hm.
    destruct (existsb _ st.2) eqn:Hkey; [|lia].
    assert (m st1 < m st)%nat; [|lia].
    apply Hlt. unfold SerDeltaInner.
    destruct (bucket_pop_front_Some shift k st.2 (key_in_map _ _ _ Hkey))
      as (item & wl' & ->). done.
Qed.

End Buckets.

(** *** Distances numbered by rank *)

Section Ranked.
Context {W : Type} {Wt : Weight W}.
Variable g : Graph W.
Variable source : nat.
Variable rank : W → nat.
Hypothesis Hranked : ranked g source rank.
Hypothesis Hwf : wf_graph g.
Hypothesis Hsource : (source < length g)%nat.

#[local] Abbreviation inf := (kDistanceInfinity : W).
#[local] Abbreviation walk := (walk g source).
#[local] Abbreviation distance := (distance g source).
#[local] Abbreviation realized := (realized g source rank).
#[local] Abbreviation settled := (settled g source).

Lemma zero_below_inf : (rank wzero < rank inf)%nat.
Proof. destruct Hranked as (H & _). exact H. Qed.

Lemma wltb_rank a b :
  distance a → distance b → wltb a b = true ↔ (rank a < rank b)%nat.
Proof. destruct Hranked as (_ & H & _). apply H. Qed.

Lemma wltb_rank_false a b :
  distance a → distance b → wltb a b = false ↔ (rank b <= rank a)%nat.
Proof.
  intros Ha Hb. destruct (wltb a b) eqn:E.
  - apply wltb_rank in E; [|done..]. split; [done|lia].
  - split; [|done]. intros _.
    destruct (Nat.lt_ge_cases (rank a) (rank b)) as [Hlt|?]; [|done].
    apply wltb_rank in Hlt; [|done..]. congruence.
Qed.

Lemma rank_inj a b : distance a → distance b → rank a = rank b → a = b.
Proof. destruct Hranked as (_ & _ & H & _). apply H. Qed.

Lemma zero_least a : distance a → (rank wzero <= rank a)%nat.
Proof. destruct Hranked as (_ & _ & _ & H). apply H. Qed.

Lemma distance_inf : distance inf.
Proof. by left. Qed.

Lemma distance_walk v x : walk v x → distance x.
Proof. intros Hx. right. by exists v. Qed.

Lemma walk_below v x : walk v x → (rank x < rank inf)%nat → wltb x inf = true.
Proof.
  intros Hx Hlt. apply wltb_rank; [by eapply distance_walk|apply distance_inf|done].
Qed.

Lemma walk_step u x e :
  walk u x → (rank x < rank inf)%nat → e ∈ edges g u → walk e.1 (wadd x e.2).
Proof.
  intros Hx Hlt He. apply (walk_edge g source u x e); [done|by eapply walk_below|done].
Qed.

Lemma walk_in_range v x : walk v x → (v < length g)%nat.
Proof. induction 1 as [|u x e _ _ _ He]; [done|]. by apply (Hwf u). Qed.

Lemma realized_distance d v :
  realized d → distance (GetData d v) ∧ (rank (GetData d v) <= rank inf)%nat.
Proof.
  intros [_ Hd]. destruct (Hd v) as [->|[Hwalk Hlt]].
  - split; [apply distance_inf|done].
  - split; [by eapply distance_walk|lia].
Qed.

Lemma realized_walk d v :
  realized d → (rank (GetData d v) < rank inf)%nat → walk v (GetData d v).
Proof.
  intros [_ Hd] Hlt. destruct (Hd v) as [Heq|[Hwalk _]]; [|done].
  rewrite Heq in Hlt. lia.
Qed.

Lemma realized_settled d :
  realized d →
  ∀ v, GetData d v = inf ∨ (wltb (GetData d v) inf = true ∧ walk v (GetData d v)).
Proof.
  intros [_ Hd] v. destruct (Hd v) as [Heq|[Hwalk Hlt]]; [by left|right].
  split; [by eapply walk_below|done].
Qed.

(** A candidate that is the length of a walk, stored below the value of
    a node. *)
Lemma write_below (d : list W) (v0 : nat) (c : W) :
  realized d → GetData d source = wzero → (v0 < length g)%nat →
  walk v0 c → (rank c < rank (GetData d v0))%nat →
  realized (<[v0 := c]> d)
  ∧ GetData (<[v0 := c]> d) source = wzero
  ∧ (∀ v, GetData (<[v0 := c]> d) v = if decide (v = v0) then c else GetData d v)
  ∧ (∀ v, (rank (GetData (<[v0 := c]> d) v) <= rank (GetData d v))%nat)
  ∧ (rank_sum rank (<[v0 := c]> d) < rank_sum rank d)%nat.
Proof.
  intros Hreal Hsrc Hv0 Hc Hlt. pose proof Hreal as [Hlen Hd].
  assert (∀ v, GetData (<[v0 := c]> d) v
               = if decide (v = v0) then c else GetData d v) as HG.
  { intros v. apply GetData_write. lia. }
  pose proof (realized_distance d v0 Hreal) as [_ Hle0].
  split; [|split; [|split; [done|split]]].
  - split; [by rewrite length_insert|]. intros v. rewrite HG.
    destruct (decide (v = v0)) as [->|_]; [|apply Hd].
    right. split; [done|lia].
  - rewrite HG. destruct (decide (source = v0)) as [Heq|_]; [|done].
    rewrite <- Heq, Hsrc in Hlt.
    pose proof (zero_least c (distance_walk _ _ Hc)). lia.
  - intros v. rewrite HG. destruct (decide (v = v0)) as [->|_]; lia.
  - pose proof (rank_sum_insert rank d v0 (GetData d v0) c) as Hsum.
    rewrite GetData_in in Hsum by lia. specialize (Hsum eq_refl). lia.
Qed.

(** *** The worklist loops *)

Section Worklist.
Context {T : Type} {Rq : Request (W := W) T}.
Variable pushWrap : nat → W → list T.
Variable edgeRange : T → list (nat * W).
Variable K : nat.
Hypothesis Htagged : tagged pushWrap.
Hypothesis Hranged : ranged g edgeRange.
Hypothesis Hcovering : covering g pushWrap edgeRange.
Hypothesis HK : ∀ n x, (length (pushWrap n x) <= K)%nat.

#[local] Abbreviation wl_inv := (wl_inv g source rank edgeRange).
#[local] Abbreviation measure := (wl_measure rank K).

#[local] Abbreviation pushed_from := (pushed_from g).

(** One edge [e0] of the request [(u0, x)], relaxed from the base [b]:
    the invariant moves on to the rest of the edges, no distance grows,
    and the measure does not grow. *)
Lemma relax_generic u0 x e0 rest b (st st' : list W * list T) :
  e0 ∈ edges g u0 → walk u0 b → (rank b < rank inf)%nat →
  (GetData st.1 u0 = x → b = x) →
  st' = (if wltb (wadd b e0.2) (GetData st.1 e0.1)
         then (<[e0.1 := wadd b e0.2]> st.1, st.2 ++ pushWrap e0.1 (wadd b e0.2))
         else st) →
  wl_inv u0 x (e0 :: rest) st →
  wl_inv u0 x rest st'
  ∧ (∀ v, (rank (GetData st'.1 v) <= rank (GetData st.1 v))%nat)
  ∧ (measure st' <= measure st)%nat
  ∧ pushed_from u0 b st.2 st'.2.
Proof.
  destruct st as [d wl]. cbn [fst snd].
  intros He0 Hwalk Hb Hbx -> (Hreal & Hsrc & Hreq & Hclosed).
  unfold closed_or_pending, relaxed in *. cbn [fst snd] in *.
  pose proof (Hwf u0 e0 He0) as Hv0.
  pose proof (walk_step u0 b e0 Hwalk Hb He0) as Hc.
  pose proof (distance_walk _ _ Hc) as Hdc.
  pose proof (realized_distance d e0.1 Hreal) as [Hd0 Hle0].
  destruct (wltb (wadd b e0.2) (GetData d e0.1)) eqn:Hlt.
  - (* the distance of the destination is lowered *)
    apply wltb_rank in Hlt; [|done..].
    destruct (write_below d e0.1 (wadd b e0.2) Hreal Hsrc Hv0 Hc Hlt)
      as (Hreal' & Hsrc' & HG & Hle & Hsum).
    cbn [fst snd].
    split; [|split; [exact Hle|split]].
    + split; [done|]. split; [done|]. cbn [fst snd]. split.
      * intros item [Hin|Hin]%elem_of_app.
        -- destruct (Hreq item Hin) as [Hw Hr]. split; [done|].
           specialize (Hle (src item)). lia.
        -- destruct (Htagged _ _ _ Hin) as [-> ->]. split; [done|].
           rewrite HG, decide_True by done. lia.
      * intros u e He. unfold relaxed. cbn [fst snd]. rewrite !HG.
        destruct (decide (u = e0.1)) as [->|Hu].
        { intros _. right. left.
          destruct (Hcovering e0.1 (wadd b e0.2) e He) as (item & Hitem & Hin).
          exists item. destruct (Htagged _ _ _ Hitem) as [Hs Hd].
          split; [apply elem_of_app; by right|done]. }
        intros Hu_inf.
        destruct (Hclosed u e He Hu_inf)
          as [Hrel|[(item & Hitem & Hs & Hd & Hin)|(-> & Hx & Hin)]].
        -- left. destruct (decide (e.1 = e0.1)) as [Heq|_]; [rewrite Heq in Hrel|]; lia.
        -- right. left. exists item.
           split; [apply elem_of_app; by left|done].
        -- apply elem_of_cons in Hin as [->|Hin].
           ++ left. rewrite decide_True by done. rewrite Hx, <- (Hbx Hx). lia.
           ++ right. right. by rewrite decide_False.
    + unfold wl_measure. cbn [fst snd]. rewrite length_app.
      pose proof (HK e0.1 (wadd b e0.2)) as HKe. nia.
    + intros i [Hin|Hin]%elem_of_app; [by left|right].
      destruct (Htagged _ _ _ Hin) as [_ ->]. exists e0. split; [done|]. split; [done|].
      apply wltb_rank; [done|apply distance_inf|lia].
  - (* nothing is written *)
    apply wltb_rank_false in Hlt; [|done..].
    cbn [fst snd]. split; [|split; [intros v; lia|split; [lia|intros i Hi; by left]]].
    split; [done|]. split; [done|]. split; [done|].
    intros u e He Hu_inf. unfold relaxed. cbn [fst snd] in *.
    destruct (Hclosed u e He Hu_inf) as [Hrel|[Hpend|(-> & Hx & Hin)]].
    + by left.
    + right. by left.
    + apply elem_of_cons in Hin as [->|Hin].
      * left. rewrite Hx, <- (Hbx Hx). lia.
      * right. by right.
Qed.

Lemma relaxAtomic_unfold u0 e0 (st : list W * list T) :
  relaxAtomic pushWrap u0 st e0
  = (if wltb (wadd (GetData st.1 u0) e0.2) (GetData st.1 e0.1)
     then (<[e0.1 := wadd (GetData st.1 u0) e0.2]> st.1,
           st.2 ++ pushWrap e0.1 (wadd (GetData st.1 u0) e0.2))
     else st).
Proof.
  unfold relaxAtomic, atomicMin.
  destruct (wltb _ _); [done|]. by destruct st.
Qed.

Lemma pushed_from_trans u0 b (wl1 wl2 wl3 : list T) :
  pushed_from u0 b wl1 wl2 → pushed_from u0 b wl2 wl3 → pushed_from u0 b wl1 wl3.
Proof.
  intros H12 H23 i Hi. destruct (H23 i Hi) as [Hi2|?]; [by apply H12|by right].
Qed.

Lemma relaxSerial_fold u0 x es (st : list W * list T) :
  (∀ e, e ∈ es → e ∈ edges g u0) → walk u0 x → (rank x < rank inf)%nat →
  wl_inv u0 x es st →
  wl_inv u0 x [] (fold_left (relaxSerial pushWrap x) es st)
  ∧ (measure (fold_left (relaxSerial pushWrap x) es st) <= measure st)%nat
  ∧ pushed_from u0 x st.2 (fold_left (relaxSerial pushWrap x) es st).2.
Proof.
  intros Hes Hwalk Hx. revert st.
  induction es as [|e0 es IH]; intros st Hinv.
  { split; [done|]. split; [done|]. intros i Hi. by left. }
  cbn [fold_left].
  assert (e0 ∈ edges g u0) as He0 by (apply Hes; by left).
  destruct (relax_generic u0 x e0 es x st (relaxSerial pushWrap x st e0))
    as (Hinv' & _ & Hm & Hpush); try done.
  destruct (IH (λ e He, Hes e (list_elem_of_further _ _ _ He)) _ Hinv')
    as (Hfin & Hm' & Hpush').
  split; [done|]. split; [lia|]. by eapply pushed_from_trans.
Qed.

Lemma relaxAtomic_fold u0 x es (st : list W * list T) :
  (∀ e, e ∈ es → e ∈ edges g u0) → (rank x < rank inf)%nat →
  (rank (GetData st.1 u0) <= rank x)%nat →
  wl_inv u0 x es st →
  wl_inv u0 x [] (fold_left (relaxAtomic pushWrap u0) es st)
  ∧ (measure (fold_left (relaxAtomic pushWrap u0) es st) <= measure st)%nat.
Proof.
  intros Hes Hx. revert st.
  induction es as [|e0 es IH]; intros st Hle Hinv; [by split|].
  cbn [fold_left].
  assert (e0 ∈ edges g u0) as He0 by (apply Hes; by left).
  assert (walk u0 (GetData st.1 u0)) as Hwalk.
  { destruct Hinv as (Hreal & _). apply (realized_walk _ _ Hreal). lia. }
  destruct (relax_generic u0 x e0 es (GetData st.1 u0) st (relaxAtomic pushWrap u0 st e0))
    as (Hinv' & Hle' & Hm & _); try done.
  { lia. }
  { apply relaxAtomic_unfold. }
  assert (rank (GetData (relaxAtomic pushWrap u0 st e0).1 u0) <= rank x)%nat as Hle''.
  { specialize (Hle' u0). lia. }
  destruct (IH (λ e He, Hes e (list_elem_of_further _ _ _ He)) _ Hle'' Hinv')
    as [Hfin Hm'].
  split; [done|lia].
Qed.

(** Taking a request out of the worklist. *)
Lemma wl_inv_pop d (wl wl' : list T) item :
  wl ≡ₚ item :: wl' → wl_inv 0%nat wzero [] (d, wl) →
  (walk (src item) (dist item)
   ∧ (rank (GetData d (src item)) <= rank (dist item) < rank inf)%nat)
  ∧ ((rank (GetData d (src item)) < rank (dist item))%nat →
     wl_inv 0%nat wzero [] (d, wl'))
  ∧ (GetData d (src item) = dist item →
     wl_inv (src item) (dist item) (edgeRange item) (d, wl'))
  ∧ (measure (d, wl') < measure (d, wl))%nat.
Proof.
  intros Hperm (Hreal & Hsrc & Hreq & Hclosed). cbn [fst snd] in *.
  assert (∀ i, i ∈ wl ↔ i = item ∨ i ∈ wl') as Hmem.
  { intros i. rewrite Hperm. apply elem_of_cons. }
  assert (∀ i, i ∈ wl' →
            walk (src i) (dist i)
            ∧ (rank (GetData d (src i)) <= rank (dist i) < rank inf)%nat) as Hreq'.
  { intros i Hi. apply Hreq, Hmem. by right. }
  split; [apply Hreq, Hmem; by left|]. split; [|split].
  - intros Hstale.
    split; [done|]. split; [done|]. split; [exact Hreq'|].
    intros u e He Hu. cbn [fst snd] in *.
    destruct (Hclosed u e He Hu) as [?|[(i & Hi & Hs & Hd & Hin)|(_ & _ & Hin)]].
    + by left.
    + cbn [fst snd] in *.
      apply Hmem in Hi as [->|Hi]; [rewrite Hs, Hd in Hstale; lia|].
      right. left. by exists i.
    + by apply elem_of_nil in Hin.
  - intros Hfresh.
    split; [done|]. split; [done|]. split; [exact Hreq'|].
    intros u e He Hu. cbn [fst snd] in *.
    destruct (Hclosed u e He Hu) as [?|[(i & Hi & Hs & Hd & Hin)|(_ & _ & Hin)]].
    + by left.
    + cbn [fst snd] in *. apply Hmem in Hi as [->|Hi].
      * right. right. cbn [fst snd]. by split; [|split].
      * right. left. by exists i.
    + by apply elem_of_nil in Hin.
  - unfold wl_measure. cbn [fst snd]. rewrite (Permutation_length Hperm). simpl. lia.
Qed.

Lemma wl_inv_idle u0 x (st : list W * list T) :
  wl_inv u0 x [] st → wl_inv 0%nat wzero [] st.
Proof.
  intros (Hreal & Hsrc & Hreq & Hclosed).
  split; [done|]. split; [done|]. split; [done|].
  intros u e He Hu. destruct (Hclosed u e He Hu) as [?|[?|(_ & _ & Hin)]].
  - by left.
  - right. by left.
  - by apply elem_of_nil in Hin.
Qed.

(** The test of the loop bodies on a request that was taken out. *)
Lemma stale_test d item :
  realized d → walk (src item) (dist item) →
  (rank (GetData d (src item)) <= rank (dist item))%nat →
  if wltb (GetData d (src item)) (dist item)
  then (rank (GetData d (src item)) < rank (dist item))%nat
  else GetData d (src item) = dist item.
Proof.
  intros Hreal Hwalk Hle.
  pose proof (realized_distance d (src item) Hreal) as [Hd _].
  pose proof (distance_walk _ _ Hwalk) as Hi.
  destruct (wltb _ _) eqn:Hlt.
  - by apply wltb_rank in Hlt.
  - apply wltb_rank_false in Hlt; [|done..]. apply rank_inj; [done..|lia].
Qed.

Lemma SerialBody_inv d (wl wl' : list T) item :
  wl ≡ₚ item :: wl' → wl_inv 0%nat wzero [] (d, wl) →
  wl_inv 0%nat wzero [] (SerialBody pushWrap edgeRange item (d, wl'))
  ∧ (measure (SerialBody pushWrap edgeRange item (d, wl')) < measure (d, wl))%nat
  ∧ pushed_from (src item) (dist item) wl'
      (SerialBody pushWrap edgeRange item (d, wl')).2.
Proof.
  intros Hperm Hinv.
  pose proof Hinv as (Hreal & _).
  destruct (wl_inv_pop d wl wl' item Hperm Hinv) as ([Hw Hreq] & Hstale & Hfresh & Hm).
  pose proof (stale_test d item Hreal Hw (proj1 Hreq)) as Htest.
  unfold SerialBody. cbn [fst].
  destruct (wltb (GetData d (src item)) (dist item)).
  - split; [by apply Hstale|]. split; [done|]. intros i Hi. by left.
  - destruct (relaxSerial_fold (src item) (dist item) (edgeRange item) (d, wl'))
      as (Hfin & Hm' & Hpush).
    + intros e He. by apply Hranged.
    + done.
    + lia.
    + by apply Hfresh.
    + split; [by apply (wl_inv_idle (src item) (dist item))|]. split; [lia|done].
Qed.

Lemma DeltaStepBody_inv d (wl wl' : list T) item :
  wl ≡ₚ item :: wl' → wl_inv 0%nat wzero [] (d, wl) →
  wl_inv 0%nat wzero [] (DeltaStepBody pushWrap edgeRange item (d, wl'))
  ∧ (measure (DeltaStepBody pushWrap edgeRange item (d, wl')) < measure (d, wl))%nat.
Proof.
  intros Hperm Hinv.
  pose proof Hinv as (Hreal & _).
  destruct (wl_inv_pop d wl wl' item Hperm Hinv) as ([Hw Hreq] & Hstale & Hfresh & Hm).
  pose proof (stale_test d item Hreal Hw (proj1 Hreq)) as Htest.
  unfold DeltaStepBody. cbn [fst].
  destruct (wltb (GetData d (src item)) (dist item)).
  - split; [by apply Hstale|done].
  - destruct (relaxAtomic_fold (src item) (dist item) (edgeRange item) (d, wl'))
      as [Hfin Hm'].
    + intros e He. by apply Hranged.
    + lia.
    + cbn [fst]. rewrite Htest. lia.
    + by apply Hfresh.
    + split; [by apply (wl_inv_idle (src item) (dist item))|lia].
Qed.

(** When no request is pending the distances are settled. *)
Lemma wl_inv_done d : wl_inv 0%nat wzero [] (d, []) → settled d.
Proof.
  intros (Hreal & Hsrc & _ & Hclosed). cbn [fst snd] in *.
  split; [apply Hreal|]. split; [by apply realized_settled|]. split; [done|].
  intros u e He Hu.
  pose proof (realized_distance d u Hreal) as [Hdu _].
  apply wltb_rank in Hu; [|done|apply distance_inf].
  pose proof (realized_walk d u Hreal Hu) as Hwu.
  pose proof (realized_distance d e.1 Hreal) as [Hde _].
  apply wltb_rank_false; [by eapply distance_walk, walk_step|done|].
  destruct (Hclosed u e He Hu) as [Hrel|[(i & Hi & _)|(_ & _ & Hin)]].
  - done.
  - by apply elem_of_nil in Hi.
  - by apply elem_of_nil in Hin.
Qed.

#[local] Abbreviation start :=
  (<[source := wzero]> (replicate (length g) inf), pushWrap source wzero).

Lemma initial_realized : realized (<[source := wzero]> (replicate (length g) inf)).
Proof.
  split; [by rewrite length_insert, length_replicate|].
  intros v. rewrite GetData_initial by done.
  destruct (decide (v = source)) as [->|_]; [right|by left].
  split; [constructor|apply zero_below_inf].
Qed.

(** The state every worklist algorithm starts from. *)
Lemma wl_inv_initial : wl_inv 0%nat wzero [] start.
Proof.
  split; [apply initial_realized|].
  cbn [fst snd]. split; [by rewrite GetData_initial, decide_True|]. split.
  - intros item Hin. destruct (Htagged _ _ _ Hin) as [-> ->].
    split; [constructor|].
    rewrite GetData_initial, decide_True by done. pose proof zero_below_inf. lia.
  - unfold closed_or_pending, relaxed. cbn [fst snd]. intros u e He.
    rewrite !GetData_initial by done.
    destruct (decide (u = source)) as [->|_]; [intros _|lia].
    right. left. destruct (Hcovering source wzero e He) as (item & Hitem & Hin).
    exists item. by destruct (Htagged _ _ _ Hitem) as [Hs Hd].
Qed.

Lemma initial_rank_sum :
  (rank_sum rank (<[source := wzero]> (replicate (length g) inf))
   <= length g * rank inf)%nat.
Proof.
  pose proof (rank_sum_le_length rank
                (<[source := wzero]> (replicate (length g) inf)) (rank inf)) as Hsum.
  rewrite length_insert, length_replicate in Hsum. apply Hsum.
  intros x [v Hv]%list_elem_of_lookup. apply GetData_lookup in Hv.
  rewrite GetData_initial in Hv by done. pose proof zero_below_inf.
  destruct (decide (v = source)); subst x; lia.
Qed.

Lemma measure_initial : (measure start <= K * (length g * rank inf) + K)%nat.
Proof.
  unfold wl_measure. cbn [fst snd]. pose proof (HK source wzero) as Hk.
  pose proof initial_rank_sum as Hsum. nia.
Qed.

Lemma start_of_initial (d0 : list W) :
  length d0 = length g →
  (<[source := wzero]> (initial_distances g d0 source), pushWrap source wzero) = start.
Proof.
  intros Hlen. rewrite (initial_distances_replicate g d0 source Hlen).
  by rewrite list_insert_insert_eq.
Qed.

Lemma Dijkstra_loop_settles fuel (st : list W * list T) :
  wl_inv 0%nat wzero [] st → (measure st < fuel)%nat →
  ∃ d', fst <$> loop fuel (DijkstraBody pushWrap edgeRange) st = Some d' ∧ settled d'.
Proof.
  intros Hinv Hm.
  destruct (loop_terminates (wl_inv 0%nat wzero []) measure
              (DijkstraBody pushWrap edgeRange)) with (fuel := fuel) (st := st)
    as (st' & Hloop & Hinv' & Hend & _); try done.
  - intros [d wl] st1 Hst Hbody. unfold DijkstraBody in Hbody. cbn [fst snd] in Hbody.
    destruct (MinHeap_pop wl) as [[item wl']|] eqn:Hpop; [|done].
    injection Hbody as <-. apply MinHeap_pop_perm in Hpop.
    destruct (SerialBody_inv d wl wl' item Hpop Hst) as (? & ? & _). done.
  - exists st'.1. rewrite Hloop. split; [done|].
    unfold DijkstraBody in Hend.
    destruct (MinHeap_pop st'.2) as [[? ?]|] eqn:Hpop; [done|].
    apply MinHeap_pop_None in Hpop. destruct st' as [d' wl']. cbn [fst snd] in *.
    subst wl'. by apply wl_inv_done.
Qed.

Lemma for_each_settles ex fuel k (st : list W * list T) :
  wl_inv 0%nat wzero [] st → (measure st < fuel)%nat →
  ∃ d', fst <$> for_each pushWrap edgeRange ex fuel k st = Some d' ∧ settled d'.
Proof.
  revert k st. induction fuel as [|fuel IH]; intros k st Hinv Hm; [lia|].
  cbn [for_each]. destruct st as [d wl]. cbn [fst snd].
  destruct wl as [|x rest] eqn:Hwl.
  - exists d. split; [done|]. by apply wl_inv_done.
  - rewrite <- Hwl in *.
    assert (for_each_next ex k mod length wl < length wl)%nat as Hidx.
    { apply Nat.mod_upper_bound. rewrite Hwl. simpl. lia. }
    unfold pop_at. destruct (lookup_lt_is_Some_2 wl _ Hidx) as [item Hitem].
    rewrite Hitem.
    destruct (DeltaStepBody_inv d wl
                (delete (for_each_next ex k mod length wl)%nat wl) item)
      as [Hinv' Hm']; [by apply delete_Permutation|done|].
    apply IH; [done|lia].
Qed.

(** The serial delta loop ends with every bucket at or after the current
    one drained; the distances are settled if no request is left behind. *)
Lemma SerDeltaOuter_settles shift fuel (st : list W * list T) :
  wl_inv 0%nat wzero [] st → (measure st + 1 < fuel)%nat →
  ∃ st', SerDeltaOuter pushWrap edgeRange shift fuel 0 st = Some st'
         ∧ (st'.2 = [] → settled st'.1).
Proof.
  intros Hinv Hm.
  destruct (SerDeltaOuter_terminates pushWrap edgeRange
              (λ _, wl_inv 0%nat wzero []) measure shift) with
    (fuel := fuel) (k := 0%nat) (st := st) as (k' & st' & Hrun & Hinv' & _).
  - intros k [d wl] st1 Hst Hbody. unfold SerDeltaInner in Hbody.
    cbn [fst snd] in Hbody.
    destruct (bucket_pop_front shift k wl) as [[item wl']|] eqn:Hpop; [|done].
    injection Hbody as <-. apply bucket_pop_front_perm in Hpop.
    destruct (SerialBody_inv d wl wl' item Hpop Hst) as (? & ? & _). done.
  - done.
  - done.
  - unfold idle. destruct (_ || _); lia.
  - exists st'. split; [done|]. destruct st' as [d' wl']. cbn [fst snd].
    intros ->. by apply wl_inv_done.
Qed.

(** Each worklist algorithm, started as [SSSP] starts it, comes to an
    end, given enough fuel; the parallel delta-stepping loop and Dijkstra
    return settled distances, and so does serial delta unless it
    aborts. *)
Lemma DijkstraAlgo_settles fuel (d0 : list W) :
  length d0 = length g → (K * (length g * rank inf) + K < fuel)%nat →
  ∃ d', DijkstraAlgo pushWrap edgeRange fuel (initial_distances g d0 source) source
        = Some d' ∧ settled d'.
Proof.
  intros Hlen Hfuel. unfold DijkstraAlgo. rewrite (start_of_initial d0 Hlen).
  apply Dijkstra_loop_settles; [apply wl_inv_initial|].
  pose proof measure_initial. lia.
Qed.

Lemma DeltaStepAlgo_settles ex fuel (d0 : list W) :
  length d0 = length g → (K * (length g * rank inf) + K < fuel)%nat →
  ∃ d', DeltaStepAlgo pushWrap edgeRange ex fuel (initial_distances g d0 source) source
        = Some d' ∧ settled d'.
Proof.
  intros Hlen Hfuel. unfold DeltaStepAlgo. rewrite (start_of_initial d0 Hlen).
  apply for_each_settles; [apply wl_inv_initial|].
  pose proof measure_initial. lia.
Qed.

Lemma SerDeltaAlgo_settles fuel shift (d0 : list W) :
  length d0 = length g → (K * (length g * rank inf) + K + 1 < fuel)%nat →
  ∃ r, SerDeltaAlgo pushWrap edgeRange fuel (initial_distances g d0 source) source shift
       = Some r
       ∧ (r = Aborts ∨ ∃ d', r = Returns d' ∧ settled d').
Proof.
  intros Hlen Hfuel. unfold SerDeltaAlgo. rewrite (start_of_initial d0 Hlen).
  destruct (SerDeltaOuter_settles shift fuel start) as (st' & -> & Hdone);
    [apply wl_inv_initial|pose proof measure_initial; lia|].
  eexists. split; [done|]. destruct st' as [d' [|item wl']]; cbn.
  - right. exists d'. split; [done|]. by apply Hdone.
  - by left.
Qed.

(** Where the bucket of a walk is not before the bucket of the walk it
    extends, no request is pushed behind the cursor of the serial delta
    worklist: the loop ends with every bucket drained, and the algorithm
    returns. *)
Lemma SerDeltaInner_not_behind shift k (st st' : list W * list T) :
  (∀ u x e, walk u x → wltb x inf = true → e ∈ edges g u →
     wltb (wadd x e.2) inf = true →
     (bucket shift x <= bucket shift (wadd x e.2))%nat) →
  wl_inv 0%nat wzero [] st ∧ not_behind shift k st →
  SerDeltaInner pushWrap edgeRange shift k st = Some st' →
  (wl_inv 0%nat wzero [] st' ∧ not_behind shift k st') ∧ (measure st' < measure st)%nat.
Proof.
  intros Hbucket [Hst Hk] Hbody. destruct st as [d wl].
  unfold SerDeltaInner in Hbody. cbn [fst snd] in Hbody.
  destruct (bucket_pop_front shift k wl) as [[item wl']|] eqn:Hpop; [|done].
  injection Hbody as <-.
  pose proof (bucket_pop_front_key _ _ _ _ _ Hpop) as Hkey.
  apply bucket_pop_front_perm in Hpop.
  destruct (SerialBody_inv d wl wl' item Hpop Hst) as (Hinv' & Hm & Hpush).
  destruct (wl_inv_pop d wl wl' item Hpop Hst) as ([Hw Hreq] & _).
  split; [split|]; [done| |done].
  intros i Hi. destruct (Hpush i Hi) as [Hold|(e & He & Hd & Hlt)].
  - apply Hk. cbn [snd]. rewrite Hpop. by right.
  - unfold UpdateRequestIndexer in *. rewrite Hd, <- Hkey.
    apply (Hbucket (src item)); [done|apply (walk_below (src item)); [done|lia]|done..].
Qed.

Lemma SerDeltaAlgo_returns fuel shift (d0 : list W) :
  (∀ u x e, walk u x → wltb x inf = true → e ∈ edges g u →
     wltb (wadd x e.2) inf = true →
     (bucket shift x <= bucket shift (wadd x e.2))%nat) →
  length d0 = length g → (K * (length g * rank inf) + K + 1 < fuel)%nat →
  ∃ d', SerDeltaAlgo pushWrap edgeRange fuel (initial_distances g d0 source) source shift
        = Some (Returns d') ∧ settled d'.
Proof.
  intros Hbucket Hlen Hfuel. unfold SerDeltaAlgo. rewrite (start_of_initial d0 Hlen).
  destruct (SerDeltaOuter_terminates pushWrap edgeRange
              (λ k st, wl_inv 0%nat wzero [] st ∧ not_behind shift k st) measure shift)
    with (fuel := fuel) (k := 0%nat) (st := start)
    as (k' & st' & -> & [Hinv' Hk'] & Hempty).
  - intros k st st1. by apply SerDeltaInner_not_behind.
  - intros k st [Hst Hk] _. split; [done|]. by apply goToNextBucket_not_behind.
  - split; [apply wl_inv_initial|]. intros item _. lia.
  - pose proof measure_initial. unfold idle. destruct (_ || _); lia.
  - pose proof (wl_empty_not_behind shift k' st' Hempty Hk') as Hnil.
    destruct st' as [d' wl']. cbn [fst snd] in *. subst wl'.
    exists d'. split; [done|]. by apply wl_inv_done.
Qed.

End Worklist.

(** *** The topological rounds *)

#[local] Abbreviation topo_inv := (topo_inv g source rank).

(** The edges [es] of a visit of [n] that found it at or below [x]: they
    are relaxed afterwards if the node is still at [x]. *)
Lemma topoRelax_closing n es x (d : list W) :
  (∀ e, e ∈ es → e ∈ edges g n) →
  realized d → GetData d source = wzero →
  (rank (GetData d n) <= rank x)%nat → (rank x < rank inf)%nat →
  realized (fold_left (topoRelax n) es d)
  ∧ GetData (fold_left (topoRelax n) es d) source = wzero
  ∧ (∀ v, (rank (GetData (fold_left (topoRelax n) es d) v) <= rank (GetData d v))%nat)
  ∧ (GetData (fold_left (topoRelax n) es d) n = x →
     ∀ e, e ∈ es →
       (rank (GetData (fold_left (topoRelax n) es d) e.1) <= rank (wadd x e.2))%nat).
Proof.
  intros Hes. revert d. induction es as [|e0 es IH]; intros d Hreal Hsrc Hn Hx.
  - cbn [fold_left]. split; [done|]. split; [done|]. split; [intros v; lia|].
    intros _ e He. by apply elem_of_nil in He.
  - cbn [fold_left].
    assert (e0 ∈ edges g n) as He0 by (apply Hes; by left).
    pose proof (Hwf n e0 He0) as Hv0.
    assert (walk n (GetData d n)) as Hwn by (apply (realized_walk _ _ Hreal); lia).
    assert (walk e0.1 (wadd (GetData d n) e0.2)) as Hc
      by (apply (walk_step n); [done|lia|done]).
    pose proof (realized_distance d e0.1 Hreal) as [Hd0 _].
    assert (realized (topoRelax n d e0)
            ∧ GetData (topoRelax n d e0) source = wzero
            ∧ (∀ v, (rank (GetData (topoRelax n d e0) v) <= rank (GetData d v))%nat)
            ∧ (rank (GetData (topoRelax n d e0) e0.1)
               <= rank (wadd (GetData d n) e0.2))%nat)
      as (Hreal1 & Hsrc1 & Hle1 & He1).
    { unfold topoRelax, atomicMin. cbn [snd].
      destruct (wltb (wadd (GetData d n) e0.2) (GetData d e0.1)) eqn:Hlt.
      - apply wltb_rank in Hlt; [|by eapply distance_walk|done].
        destruct (write_below d e0.1 (wadd (GetData d n) e0.2) Hreal Hsrc Hv0 Hc Hlt)
          as (Hreal' & Hsrc' & HG & Hle & _).
        split; [done|]. split; [done|]. split; [done|].
        rewrite HG, decide_True by done. lia.
      - apply wltb_rank_false in Hlt; [|by eapply distance_walk|done].
        split; [done|]. split; [done|]. split; [intros v; lia|lia]. }
    destruct (IH (λ e He, Hes e (list_elem_of_further _ _ _ He)) (topoRelax n d e0))
      as (Hreal2 & Hsrc2 & Hle2 & He2); try done.
    { specialize (Hle1 n). lia. }
    split; [done|]. split; [done|]. split.
    + intros v. specialize (Hle1 v). specialize (Hle2 v). lia.
    + intros Hx' e [->|He]%elem_of_cons; [|by apply He2].
      assert (GetData d n = x) as Hdx.
      { pose proof (Hle1 n). pose proof (Hle2 n).
        apply rank_inj; [by eapply distance_walk| |rewrite Hx' in *; lia].
        rewrite <- Hx'. apply (realized_distance _ _ Hreal2). }
      rewrite Hdx in He1. specialize (Hle2 e0.1). lia.
Qed.

Lemma TopoVisit_closing n (d old_dist : list W) (changed : bool) :
  topo_inv (d, old_dist) →
  let '(d', old', changed') := TopoVisit g (d, old_dist, changed) n in
  topo_inv (d', old')
  ∧ (rank_sum rank old' <= rank_sum rank old_dist)%nat
  ∧ (changed' = true →
       changed = true ∨ (rank_sum rank old' < rank_sum rank old_dist)%nat)
  ∧ (changed' = false →
       changed = false ∧ d' = d ∧ old' = old_dist
       ∧ wltb (GetData d n) (GetData old_dist n) = false).
Proof.
  intros (Hreal & Hsrc & Hlen & Hold & Hrel). cbn [fst snd] in *.
  unfold TopoVisit.
  pose proof (realized_distance d n Hreal) as [Hdn _].
  pose proof (Hold n) as [Hon Holdn].
  destruct (wltb (GetData d n) (GetData old_dist n)) eqn:Hlt.
  - apply wltb_rank in Hlt; [|done..].
    assert (n < length old_dist)%nat as Hn.
    { destruct (decide (n < length old_dist)%nat) as [|Hout]; [done|].
      rewrite (GetData_out old_dist n) in Hlt by lia.
      destruct Hreal as [Hl _]. rewrite (GetData_out d n) in Hlt by lia. lia. }
    assert (∀ v, GetData (<[n := GetData d n]> old_dist) v
                 = if decide (v = n) then GetData d n else GetData old_dist v) as HG.
    { intros v. by apply GetData_write. }
    destruct (topoRelax_closing n (edges g n) (GetData d n) d)
      as (Hreal' & Hsrc' & Hle' & He'); try done; try lia.
    pose proof (rank_sum_insert rank old_dist n (GetData old_dist n) (GetData d n))
      as Hsum.
    rewrite GetData_in in Hsum by done. specialize (Hsum eq_refl).
    split; [|split; [|split]].
    + split; [done|]. split; [done|]. cbn [fst snd].
      split; [by rewrite length_insert|]. split.
      * intros v. rewrite HG. specialize (Hle' v). destruct (Hold v) as [Hov Holdv].
        destruct (decide (v = n)) as [->|_]; (split; [done|lia]).
      * intros u e He. rewrite HG. destruct (decide (u = n)) as [->|_].
        -- intros _ Hsame. by apply He'.
        -- intros Hu Hsame.
           assert (GetData d u = GetData old_dist u) as Hdu.
           { pose proof (Hle' u). destruct (Hold u) as [Hou Holdu].
             apply rank_inj; [apply (realized_distance _ _ Hreal)|done|].
             rewrite Hsame in *. lia. }
           specialize (Hrel u e He Hu Hdu). specialize (Hle' e.1). lia.
    + lia.
    + intros _. right. lia.
    + done.
  - split; [done|]. split; [lia|]. split; [by left|]. intros ->. done.
Qed.

Lemma TopoVisits_closing ns (d old_dist : list W) (changed : bool) :
  topo_inv (d, old_dist) →
  let '(d', old', changed') := fold_left (TopoVisit g) ns (d, old_dist, changed) in
  topo_inv (d', old')
  ∧ (rank_sum rank old' <= rank_sum rank old_dist)%nat
  ∧ (changed' = true →
       changed = true ∨ (rank_sum rank old' < rank_sum rank old_dist)%nat)
  ∧ (changed' = false →
       changed = false ∧ d' = d ∧ old' = old_dist
       ∧ ∀ n, n ∈ ns → wltb (GetData d n) (GetData old_dist n) = false).
Proof.
  revert d old_dist changed. induction ns as [|n ns IH]; intros d old_dist changed Hinv.
  - cbn [fold_left]. split; [done|]. split; [lia|]. split; [by left|].
    intros ->. repeat split; try done. intros n Hn. by apply elem_of_nil in Hn.
  - cbn [fold_left].
    pose proof (TopoVisit_closing n d old_dist changed Hinv) as Hvisit.
    destruct (TopoVisit g (d, old_dist, changed) n) as [[d1 old1] c1].
    destruct Hvisit as (Hinv1 & Hsum1 & Htrue1 & Hfalse1).
    specialize (IH d1 old1 c1 Hinv1).
    destruct (fold_left (TopoVisit g) ns (d1, old1, c1)) as [[d2 old2] c2].
    destruct IH as (Hinv2 & Hsum2 & Htrue2 & Hfalse2).
    split; [done|]. split; [lia|]. split.
    + intros Hc2. destruct (Htrue2 Hc2) as [Hc1|Hlt]; [|right; lia].
      destruct (Htrue1 Hc1) as [?|?]; [by left|right; lia].
    + intros Hc2. destruct (Hfalse2 Hc2) as (Hc1 & -> & -> & Hns).
      destruct (Hfalse1 Hc1) as (Hc & -> & -> & Hn).
      repeat split; try done. intros m [->|Hm]%elem_of_cons; [done|by apply Hns].
Qed.

(** The closure of a node that is at the distance it was last visited
    with. *)
Lemma closed_at (d : list W) u e (o : W) :
  realized d → e ∈ edges g u → distance o →
  (rank (GetData d u) <= rank o)%nat →
  wltb (GetData d u) inf = true →
  wltb (GetData d u) o = false →
  ((rank o < rank inf)%nat → GetData d u = o →
   (rank (GetData d e.1) <= rank (wadd o e.2))%nat) →
  wltb (wadd (GetData d u) e.2) (GetData d e.1) = false.
Proof.
  intros Hreal He Ho Hle Hu Hstable Hrel.
  pose proof (realized_distance d u Hreal) as [Hdu _].
  pose proof (realized_distance d e.1 Hreal) as [Hde _].
  apply wltb_rank in Hu; [|done|apply distance_inf].
  apply wltb_rank_false in Hstable; [|done..].
  assert (GetData d u = o) as Hsame by (apply rank_inj; [done..|lia]).
  pose proof (realized_walk d u Hreal Hu) as Hwu.
  apply wltb_rank_false; [eapply distance_walk, (walk_step u); [done|lia|done]|done|].
  rewrite Hsame. apply Hrel; [rewrite <- Hsame; lia|done].
Qed.

Lemma topo_inv_done (d old_dist : list W) :
  topo_inv (d, old_dist) →
  (∀ n, (n < length g)%nat → wltb (GetData d n) (GetData old_dist n) = false) →
  settled d.
Proof.
  intros (Hreal & Hsrc & Hlo & Hold & Hrel) Hstable. cbn [fst snd] in *.
  split; [apply Hreal|]. split; [by apply realized_settled|]. split; [done|].
  intros u e He Hu.
  pose proof (edges_in_range g u e He) as Hrange.
  destruct (Hold u) as [Hou Holdu].
  apply (closed_at d u e (GetData old_dist u)); try done; [lia|by apply Hstable|].
  intros Hlt Hsame. by apply Hrel.
Qed.

Lemma TopoLoop_settles ex fuel rounds (d old_dist : list W) :
  fair ex → topo_inv (d, old_dist) → (rank_sum rank old_dist < fuel)%nat →
  ∃ d', TopoLoop ex g fuel rounds d old_dist = Some d' ∧ settled d'.
Proof.
  intros Hfair. revert rounds d old_dist.
  induction fuel as [|fuel IH]; intros rounds d old_dist Hinv Hfuel; [lia|].
  cbn [TopoLoop].
  pose proof (TopoVisits_closing (do_all_order ex rounds (seq 0 (length g)))
                d old_dist false Hinv) as Hround.
  destruct (fold_left (TopoVisit g) _ (d, old_dist, false)) as [[d1 old1] changed].
  destruct Hround as (Hinv1 & Hsum & Htrue & Hfalse).
  destruct changed.
  - destruct (Htrue eq_refl) as [?|Hlt]; [done|].
    apply IH; [done|lia].
  - destruct (Hfalse eq_refl) as (_ & -> & -> & Hstable).
    exists d. split; [done|]. apply (topo_inv_done d old_dist Hinv).
    intros n Hn. apply Hstable, Hfair, list_elem_of_In, in_seq. lia.
Qed.

Lemma topo_inv_initial :
  topo_inv (<[source := wzero]> (replicate (length g) inf), replicate (length g) inf).
Proof.
  split; [apply initial_realized|].
  cbn [fst snd]. split; [by rewrite GetData_initial, decide_True|].
  split; [by rewrite length_replicate|].
  split.
  - intros v. rewrite GetData_initial, GetData_replicate by done.
    split; [apply distance_inf|]. pose proof zero_below_inf.
    destruct (decide (v = source)); lia.
  - intros u e He. rewrite GetData_replicate. lia.
Qed.

Lemma rank_sum_replicate n (x : W) : rank_sum rank (replicate n x) = (n * rank x)%nat.
Proof.
  induction n as [|n IH]; [done|]. unfold rank_sum in *. cbn [replicate sum_list_with].
  rewrite IH. lia.
Qed.

Lemma TopoAlgo_settles ex fuel (d0 : list W) :
  fair ex → length d0 = length g → (length g * rank inf < fuel)%nat →
  ∃ d', TopoAlgo ex g fuel (initial_distances g d0 source) source = Some d'
        ∧ settled d'.
Proof.
  intros Hfair Hlen Hfuel. unfold TopoAlgo.
  rewrite (initial_distances_replicate g d0 source Hlen), list_insert_insert_eq.
  apply TopoLoop_settles; [done|apply topo_inv_initial|].
  by rewrite rank_sum_replicate.
Qed.

(** *** The topological rounds on tiles *)

#[local] Abbreviation topo_tile_inv := (topo_tile_inv g source rank).
#[local] Abbreviation well_tiled := (well_tiled g).

Lemma well_tiled_insert tiles i t x :
  well_tiled tiles → tiles !! i = Some t →
  well_tiled (<[i := set_tile_dist t x]> tiles).
Proof.
  intros [Hsub Hcov] Hi. pose proof (list_elem_of_lookup_2 _ _ _ Hi) as Ht.
  split.
  - intros t' [->|Ht']%elem_of_insert_inv e He; [by apply (Hsub t Ht)|by apply Hsub].
  - intros u e He. destruct (Hcov u e He) as (t0 & [j Hj]%list_elem_of_lookup_1 & Hu & Hin).
    destruct (decide (j = i)) as [->|Hne].
    + assert (t0 = t) as -> by congruence.
      exists (set_tile_dist t x). split; [|done].
      apply list_elem_of_insert. by eapply lookup_lt_Some.
    + exists t0. split; [|done].
      apply (list_elem_of_lookup_2 _ j). by rewrite list_lookup_insert_ne.
Qed.

Lemma TopoTileVisit_closing i (d : list W) tiles (changed : bool) :
  topo_tile_inv (d, tiles) →
  let '(d', tiles', changed') := TopoTileVisit g (d, tiles, changed) i in
  topo_tile_inv (d', tiles')
  ∧ length tiles' = length tiles
  ∧ (rank_sum rank (t_dist <$> tiles') <= rank_sum rank (t_dist <$> tiles))%nat
  ∧ (changed' = true →
       changed = true
       ∨ (rank_sum rank (t_dist <$> tiles') < rank_sum rank (t_dist <$> tiles))%nat)
  ∧ (changed' = false →
       changed = false ∧ d' = d ∧ tiles' = tiles
       ∧ ∀ t, tiles !! i = Some t → wltb (GetData d (t_src t)) (t_dist t) = false).
Proof.
  intros (Hreal & Hsrc & Htiled & Hold & Hrel). cbn [fst snd] in *.
  unfold TopoTileVisit. destruct (tiles !! i) as [t|] eqn:Hi.
  2:{ split; [done|]. split; [done|]. split; [lia|]. split; [by left|].
      intros ->. done. }
  destruct (wltb (GetData d (t_src t)) (t_dist t)) eqn:Hlt.
  2:{ split; [done|]. split; [done|]. split; [lia|]. split; [by left|].
      intros ->. repeat split; try done. by intros t' [= <-]. }
  pose proof (list_elem_of_lookup_2 _ _ _ Hi) as Ht.
  pose proof (Hold t Ht) as [Hdt Holdt].
  apply wltb_rank in Hlt; [|apply (realized_distance _ _ Hreal)|done].
  destruct (topoRelax_closing (t_src t) (TileRangeFn g t) (GetData d (t_src t)) d)
    as (Hreal' & Hsrc' & Hle' & He'); try done; try lia.
  { apply Htiled, Ht. }
  pose proof (rank_sum_insert rank (t_dist <$> tiles) i (t_dist t)
                (GetData d (t_src t))) as Hsum.
  rewrite list_lookup_fmap, Hi in Hsum. specialize (Hsum eq_refl).
  change (<[i := GetData d (t_src t)]> (t_dist <$> tiles))
    with (<[i := t_dist (set_tile_dist t (GetData d (t_src t)))]> (t_dist <$> tiles))
    in Hsum.
  rewrite <- list_fmap_insert in Hsum.
  split; [|split; [|split; [|split]]].
  - split; [done|]. split; [done|]. cbn [fst snd].
    split; [by apply well_tiled_insert|]. split.
    + intros t' [->|Ht']%elem_of_insert_inv; cbn.
      * split; [apply (realized_distance _ _ Hreal)|].
        specialize (Hle' (t_src t)). lia.
      * destruct (Hold t' Ht') as [Hdt' Holdt']. split; [done|].
        specialize (Hle' (t_src t')). lia.
    + intros t' e [->|Ht']%elem_of_insert_inv He; cbn.
      * intros _ Hsame. by apply He'.
      * intros Hd Hsame.
        destruct (Hold t' Ht') as [Hdt' Holdt'].
        assert (GetData d (t_src t') = t_dist t') as Hsame'.
        { pose proof (Hle' (t_src t')).
          apply rank_inj; [apply (realized_distance _ _ Hreal)|done|].
          rewrite Hsame in *. lia. }
        specialize (Hrel t' e Ht' He Hd Hsame'). specialize (Hle' e.1). lia.
  - by rewrite length_insert.
  - lia.
  - intros _. right. lia.
  - done.
Qed.

Lemma TopoTileVisits_closing is_ (d : list W) tiles (changed : bool) :
  topo_tile_inv (d, tiles) →
  let '(d', tiles', changed') :=
    fold_left (TopoTileVisit g) is_ (d, tiles, changed) in
  topo_tile_inv (d', tiles')
  ∧ length tiles' = length tiles
  ∧ (rank_sum rank (t_dist <$> tiles') <= rank_sum rank (t_dist <$> tiles))%nat
  ∧ (changed' = true →
       changed = true
       ∨ (rank_sum rank (t_dist <$> tiles') < rank_sum rank (t_dist <$> tiles))%nat)
  ∧ (changed' = false →
       changed = false ∧ d' = d ∧ tiles' = tiles
       ∧ ∀ i t, i ∈ is_ → tiles !! i = Some t →
           wltb (GetData d (t_src t)) (t_dist t) = false).
Proof.
  revert d tiles changed. induction is_ as [|i is_ IH]; intros d tiles changed Hinv.
  - cbn [fold_left]. split; [done|]. split; [done|]. split; [lia|]. split; [by left|].
    intros ->. repeat split; try done. intros i t Hi. by apply elem_of_nil in Hi.
  - cbn [fold_left].
    pose proof (TopoTileVisit_closing i d tiles changed Hinv) as Hvisit.
    destruct (TopoTileVisit g (d, tiles, changed) i) as [[d1 tiles1] c1].
    destruct Hvisit as (Hinv1 & Hlen1 & Hsum1 & Htrue1 & Hfalse1).
    specialize (IH d1 tiles1 c1 Hinv1).
    destruct (fold_left (TopoTileVisit g) is_ (d1, tiles1, c1)) as [[d2 tiles2] c2].
    destruct IH as (Hinv2 & Hlen2 & Hsum2 & Htrue2 & Hfalse2).
    split; [done|]. split; [lia|]. split; [lia|]. split.
    + intros Hc2. destruct (Htrue2 Hc2) as [Hc1|Hlt]; [|right; lia].
      destruct (Htrue1 Hc1) as [?|?]; [by left|right; lia].
    + intros Hc2. destruct (Hfalse2 Hc2) as (Hc1 & -> & -> & His).
      destruct (Hfalse1 Hc1) as (Hc & -> & -> & Hi).
      repeat split; try done.
      intros j t [->|Hj]%elem_of_cons Ht; [by apply Hi|by apply (His j)].
Qed.

Lemma topo_tile_inv_done (d : list W) tiles :
  topo_tile_inv (d, tiles) →
  (∀ i t, tiles !! i = Some t → wltb (GetData d (t_src t)) (t_dist t) = false) →
  settled d.
Proof.
  intros (Hreal & Hsrc & [_ Hcov] & Hold & Hrel) Hstable.
  cbn [fst snd] in *.
  split; [apply Hreal|]. split; [by apply realized_settled|]. split; [done|].
  intros u e He Hu.
  destruct (Hcov u e He) as (t & Ht & <- & Hin).
  pose proof Ht as [i Hi]%list_elem_of_lookup_1.
  destruct (Hold t Ht) as [Hdt Holdt].
  apply (closed_at d (t_src t) e (t_dist t)); try done; [lia|by apply (Hstable i)|].
  intros Hlt Hsame. by apply Hrel.
Qed.

Lemma TopoTileLoop_settles ex fuel rounds (d : list W) tiles :
  fair ex → topo_tile_inv (d, tiles) →
  (rank_sum rank (t_dist <$> tiles) < fuel)%nat →
  ∃ d', TopoTileLoop ex g fuel rounds d tiles = Some d' ∧ settled d'.
Proof.
  intros Hfair. revert rounds d tiles.
  induction fuel as [|fuel IH]; intros rounds d tiles Hinv Hfuel; [lia|].
  cbn [TopoTileLoop].
  pose proof (TopoTileVisits_closing (do_all_order ex rounds (seq 0 (length tiles)))
                d tiles false Hinv) as Hround.
  destruct (fold_left (TopoTileVisit g) _ (d, tiles, false)) as [[d1 tiles1] changed].
  destruct Hround as (Hinv1 & Hlen1 & Hsum & Htrue & Hfalse).
  destruct changed.
  - destruct (Htrue eq_refl) as [?|Hlt]; [done|].
    apply IH; [done|lia].
  - destruct (Hfalse eq_refl) as (_ & -> & -> & Hstable).
    exists d. split; [done|]. apply (topo_tile_inv_done d tiles Hinv).
    intros i t Hi. apply (Hstable i t); [|done].
    apply Hfair, list_elem_of_In, in_seq. apply lookup_lt_Some in Hi. lia.
Qed.

Lemma topo_tile_inv_initial ts :
  (0 < ts)%nat →
  topo_tile_inv
    (<[source := wzero]> (replicate (length g) inf),
     concat (map (λ n, SrcEdgeTilePushWrap g ts n inf) (seq 0 (length g)))).
Proof.
  intros Hts.
  split; [apply initial_realized|].
  cbn [fst snd]. split; [by rewrite GetData_initial, decide_True|].
  split; [split|split].
  - intros t _ e He. by apply (TileRangeFn_ranged g t e).
  - intros u e He.
    destruct (SrcEdgeTilePushWrap_covers g ts u inf e Hts He) as (t & Ht & Hin).
    exists t. split; [|split; [|done]].
    + apply initial_tiles. exists u. split; [by eapply edges_in_range|done].
    + by apply (SrcEdgeTilePushWrap_tagged g ts u inf t).
  - intros t (n & _ & Ht)%initial_tiles.
    apply (SrcEdgeTilePushWrap_tagged g ts n inf t) in Ht as [_ Hd]. cbn in Hd.
    rewrite Hd. split; [apply distance_inf|].
    pose proof (realized_distance _ (t_src t) initial_realized) as [_ Hle]. lia.
  - intros t e (n & _ & Ht)%initial_tiles _.
    apply (SrcEdgeTilePushWrap_tagged g ts n inf t) in Ht as [_ Hd]. cbn in Hd.
    rewrite Hd. lia.
Qed.

Lemma TopoTileAlgo_settles ex ts fuel (d0 : list W) :
  fair ex → (0 < ts)%nat → length d0 = length g →
  (S (length (concat g)) * length g * rank inf < fuel)%nat →
  ∃ d', TopoTileAlgo ex g ts fuel (initial_distances g d0 source) source = Some d'
        ∧ settled d'.
Proof.
  intros Hfair Hts Hlen Hfuel. unfold TopoTileAlgo.
  rewrite (initial_distances_replicate g d0 source Hlen), list_insert_insert_eq.
  apply TopoTileLoop_settles; [done|by apply topo_tile_inv_initial|].
  pose proof (initial_tiles_length g ts inf) as Hcount.
  pose proof (rank_sum_le_length rank
                (t_dist <$> concat (map (λ n, SrcEdgeTilePushWrap g ts n inf)
                                        (seq 0 (length g)))) (rank inf)) as Hsum.
  rewrite length_fmap in Hsum.
  assert (rank_sum rank (t_dist <$> concat (map (λ n, SrcEdgeTilePushWrap g ts n inf)
                                                (seq 0 (length g))))
          <= S (length (concat g)) * length g * rank inf)%nat as Hle; [|lia].
  etrans; [apply Hsum|nia].
  intros x (t & -> & (n & _ & Ht)%initial_tiles)%list_elem_of_fmap.
  apply (SrcEdgeTilePushWrap_tagged g ts n inf t) in Ht as [_ Hd]. cbn in Hd.
  by rewrite Hd.
Qed.

(** *** Settled distances are the shortest ones *)

#[local] Abbreviation shortest := (shortest g source).

(** Where of two walks to a node the one that is not longer is not
    longer either after the same edge, no walk is shorter than a settled
    distance. *)
Lemma settled_shortest (d : list W) :
  (∀ u x y e, walk u x → walk u y → e ∈ edges g u →
     (rank x <= rank y)%nat → wltb y inf = true →
     (rank (wadd x e.2) <= rank (wadd y e.2))%nat) →
  settled d → shortest d.
Proof.
  intros Hmono (Hlen & Hd & Hsrc & Hclosed).
  split; [done|]. split; [done|].
  assert (∀ v, distance (GetData d v)) as Hdist.
  { intros v. destruct (Hd v) as [->|[_ Hw]]; [apply distance_inf|by eapply distance_walk]. }
  assert (∀ v x, walk v x → (rank (GetData d v) <= rank x)%nat) as Hle.
  { induction 1 as [|u x e Hx IH Hlt He]; [by rewrite Hsrc|].
    assert (wltb (GetData d u) inf = true) as Hu.
    { apply wltb_rank; [done|apply distance_inf|].
      apply wltb_rank in Hlt; [lia|by eapply distance_walk|apply distance_inf]. }
    assert (walk u (GetData d u)) as Hwu.
    { destruct (Hd u) as [Heq|[_ ?]]; [|done].
      rewrite Heq in Hu. apply wltb_rank in Hu; [lia|apply distance_inf..]. }
    specialize (Hclosed u e He Hu).
    apply wltb_rank_false in Hclosed; [|eapply distance_walk, walk_edge; done|done].
    specialize (Hmono u (GetData d u) x e Hwu Hx He IH Hlt). lia. }
  intros v x Hx. apply wltb_rank_false; [by eapply distance_walk|done|by apply Hle].
Qed.

Lemma shortest_unique (d d' : list W) : shortest d → shortest d' → d = d'.
Proof.
  intros (Hlen & Hd & Hmin) (Hlen' & Hd' & Hmin').
  assert (∀ v, GetData d v = GetData d' v) as Hsame.
  { intros v. destruct (Hd v) as [Hv|[Hlt Hw]], (Hd' v) as [Hv'|[Hlt' Hw']].
    - congruence.
    - specialize (Hmin v _ Hw'). rewrite Hv in Hmin. congruence.
    - specialize (Hmin' v _ Hw). rewrite Hv' in Hmin'. congruence.
    - specialize (Hmin v _ Hw'). specialize (Hmin' v _ Hw).
      apply wltb_rank_false in Hmin; [|by eapply distance_walk..].
      apply wltb_rank_false in Hmin'; [|by eapply distance_walk..].
      apply rank_inj; [by eapply distance_walk..|lia]. }
  apply list_eq. intros v. destruct (decide (v < length g)%nat) as [Hv|Hv].
  - rewrite (GetData_in d v), (GetData_in d' v) by lia. by rewrite Hsame.
  - rewrite !lookup_ge_None_2 by lia. done.
Qed.

End Ranked.

(** *** The entry point *)

Section Entry.
Context {W : Type} {Wt : Weight W}.
Variable env : Environment.
Variable g : Graph W.
Variable source : nat.
Variable rank : W → nat.
Hypothesis Hwf : wf_graph g.
Hypothesis Hsource : (source < length g)%nat.
Hypothesis Hfair : fair (executor env).

#[local] Abbreviation inf := (kDistanceInfinity : W).

Lemma enough_fuel_plain fuel :
  (enough_fuel g rank <= fuel)%nat →
  (1 * (length g * rank inf) + 1 + 1 < fuel)%nat.
Proof. unfold enough_fuel. nia. Qed.

Lemma enough_fuel_tiled fuel :
  (enough_fuel g rank <= fuel)%nat →
  (S (length (concat g)) * (length g * rank inf) + S (length (concat g)) + 1
   < fuel)%nat.
Proof. unfold enough_fuel. nia. Qed.

Lemma enough_fuel_rounds fuel :
  (enough_fuel g rank <= fuel)%nat →
  (S (length (concat g)) * length g * rank inf < fuel)%nat.
Proof. unfold enough_fuel. nia. Qed.

(** Every strategy that [SSSP] selects comes to an end; it returns
    settled distances, unless it is serial delta and aborts. *)
Lemma SSSP_settled tile fuel (d0 : list W) (plan : SsspPlan) :
  ranked g source rank →
  (0 < tile)%nat → length d0 = length g →
  algorithm (chosen_plan env g plan) ≠ kAutomatic →
  (enough_fuel g rank <= fuel)%nat →
  ∃ r, SSSP env tile fuel g d0 source plan = Some r
       ∧ ((r = Aborts
           ∧ (algorithm (chosen_plan env g plan) = kSerialDelta
              ∨ algorithm (chosen_plan env g plan) = kSerialDeltaTile))
          ∨ ∃ d', r = Returns (ResultSuccess (), d') ∧ settled g source d').
Proof.
  intros Hranked Htile Hlen Hplan Hfuel. unfold SSSP.
  destruct (Nat.leb_spec (length g) source) as [?|_]; [lia|].
  fold (initial_distances g d0 source). fold (chosen_plan env g plan).
  pose proof (enough_fuel_plain fuel Hfuel) as Hplain.
  pose proof (enough_fuel_tiled fuel Hfuel) as Htiled.
  pose proof (enough_fuel_rounds fuel Hfuel) as Hrounds.
  assert (∀ (r : option (list W)) (P : Prop),
            (∃ d', r = Some d' ∧ settled g source d') →
            ∃ r', (λ d', Returns (ResultSuccess (), d')) <$> r = Some r'
                  ∧ ((r' = Aborts ∧ P)
                     ∨ ∃ d', r' = Returns (ResultSuccess (), d') ∧ settled g source d'))
    as Hok.
  { intros r P (d' & -> & Hd'). eexists. split; [done|]. right. by exists d'. }
  assert (∀ (r : option (Run (list W))) (P : Prop), P →
            (∃ r', r = Some r'
                   ∧ (r' = Aborts ∨ ∃ d', r' = Returns d' ∧ settled g source d')) →
            ∃ r', Run_map (λ d', (ResultSuccess (), d')) <$> r = Some r'
                  ∧ ((r' = Aborts ∧ P)
                     ∨ ∃ d', r' = Returns (ResultSuccess (), d') ∧ settled g source d'))
    as Hrun.
  { intros r P HP (r' & -> & [->|(d' & -> & Hd')]); (eexists; split; [done|]).
    - by left.
    - right. by exists d'. }
  destruct (algorithm (chosen_plan env g plan)); try done.
  - apply Hok.
    apply (DeltaStepAlgo_settles g source rank Hranked Hwf Hsource _ _
             (S (length (concat g))));
      [apply SrcEdgeTilePushWrap_tagged|apply TileRangeFn_ranged
      |by apply SrcEdgeTilePushWrap_covering|apply SrcEdgeTilePushWrap_length
      |done|lia].
  - apply Hok.
    apply (DeltaStepAlgo_settles g source rank Hranked Hwf Hsource _ _ 1%nat);
      [apply sssp_monotone.ReqPushWrap_tagged|apply sssp_monotone.OutEdgeRangeFn_ranged
      |apply ReqPushWrap_covering|done|done|lia].
  - apply Hok.
    apply (DeltaStepAlgo_settles g source rank Hranked Hwf Hsource _ _ 1%nat);
      [apply sssp_monotone.ReqPushWrap_tagged|apply sssp_monotone.OutEdgeRangeFn_ranged
      |apply ReqPushWrap_covering|done|done|lia].
  - apply Hrun; [by right|].
    apply (SerDeltaAlgo_settles g source rank Hranked Hwf Hsource _ _
             (S (length (concat g))));
      [apply SrcEdgeTilePushWrap_tagged|apply TileRangeFn_ranged
      |by apply SrcEdgeTilePushWrap_covering|apply SrcEdgeTilePushWrap_length
      |done|lia].
  - apply Hrun; [by left|].
    apply (SerDeltaAlgo_settles g source rank Hranked Hwf Hsource _ _ 1%nat);
      [apply sssp_monotone.ReqPushWrap_tagged|apply sssp_monotone.OutEdgeRangeFn_ranged
      |apply ReqPushWrap_covering|done|done|lia].
  - apply Hok.
    apply (DijkstraAlgo_settles g source rank Hranked Hwf Hsource _ _
             (S (length (concat g))));
      [apply SrcEdgeTilePushWrap_tagged|apply TileRangeFn_ranged
      |by apply SrcEdgeTilePushWrap_covering|apply SrcEdgeTilePushWrap_length
      |done|lia].
  - apply Hok.
    apply (DijkstraAlgo_settles g source rank Hranked Hwf Hsource _ _ 1%nat);
      [apply sssp_monotone.ReqPushWrap_tagged|apply sssp_monotone.OutEdgeRangeFn_ranged
      |apply ReqPushWrap_covering|done|done|lia].
  - apply Hok.
    apply (TopoAlgo_settles g source rank Hranked Hwf Hsource); [done|done|nia].
  - apply Hok.
    by apply (TopoTileAlgo_settles g source rank Hranked Hwf Hsource).
Qed.

(** Where the weight type computes in order, serial delta returns as
    well, and the settled distances are the shortest ones. *)
Lemma SSSP_shortest tile fuel (d0 : list W) (plan : SsspPlan) :
  ordered_on g source rank →
  (0 < tile)%nat → length d0 = length g →
  algorithm (chosen_plan env g plan) ≠ kAutomatic →
  (enough_fuel g rank <= fuel)%nat →
  ∃ d', SSSP env tile fuel g d0 source plan = Some (Returns (ResultSuccess (), d'))
        ∧ shortest g source d'.
Proof.
  intros (Hranked & Hmono & Hbucket) Htile Hlen Hplan Hfuel.
  assert (∀ d', settled g source d' → shortest g source d') as Hshort.
  { intros d'. by apply (settled_shortest g source rank Hranked). }
  destruct (SSSP_settled tile fuel d0 plan Hranked Htile Hlen Hplan Hfuel)
    as (r & Hr & [[-> Hserial]|(d' & -> & Hd')]); [|exists d'; by split; [|apply Hshort]].
  exfalso. revert Hr. unfold SSSP.
  destruct (Nat.leb_spec (length g) source) as [?|_]; [lia|].
  fold (initial_distances g d0 source). fold (chosen_plan env g plan).
  pose proof (enough_fuel_plain fuel Hfuel) as Hplain.
  pose proof (enough_fuel_tiled fuel Hfuel) as Htiled.
  destruct Hserial as [-> | ->].
  - destruct (SerDeltaAlgo_returns g source rank Hranked Hwf Hsource
                ReqPushWrap (OutEdgeRangeFn g) 1%nat
                sssp_monotone.ReqPushWrap_tagged
                (sssp_monotone.OutEdgeRangeFn_ranged g)
                (ReqPushWrap_covering g)) with
      (fuel := fuel) (shift := delta (chosen_plan env g plan)) (d0 := d0)
      as (d' & -> & _); [done|by apply Hbucket|done|lia|done].
  - destruct (SerDeltaAlgo_returns g source rank Hranked Hwf Hsource
                (SrcEdgeTilePushWrap g tile) (TileRangeFn g) (S (length (concat g)))
                (SrcEdgeTilePushWrap_tagged g tile) (TileRangeFn_ranged g)
                (SrcEdgeTilePushWrap_covering g tile Htile)) with
      (fuel := fuel) (shift := delta (chosen_plan env g plan)) (d0 := d0)
      as (d' & -> & _);
      [apply SrcEdgeTilePushWrap_length|by apply Hbucket|done|lia|done].
Qed.

End Entry.

End sssp_shortest.

(** ** SSSP: the strategies agree where the weight type computes in order *)

Module sssp_agree.
Import sssp sssp_entry sssp_spec sssp_order sssp_runs shortest_spec sssp_shortest.
Import sssp_examples.

Lemma forallb_edges {W} (P : nat * W → bool) (g : Graph W) n e :
  forallb (forallb P) g = true → e ∈ edges g n → P e = true.
Proof.
  intros Hg He. unfold edges in He. destruct (g !! n) as [es|] eqn:Hn; cbn in He.
  - apply list_elem_of_lookup_2, list_elem_of_In in Hn. apply list_elem_of_In in He.
    rewrite forallb_forall in Hg. specialize (Hg es Hn).
    rewrite forallb_forall in Hg. by apply Hg.
  - by apply elem_of_nil in He.
Qed.

Lemma wf_graphb_wf {W} (g : Graph W) : wf_graphb g = true → wf_graph g.
Proof.
  intros Hg n e He. apply (forallb_edges _ g n e Hg) in He. by apply Nat.ltb_lt in He.
Qed.

(** Unsigned weights compute exactly where the sentinel plus a weight
    stays within the width. *)
Lemma UIntWeight_exact_on (bits inf : Z) (g : Graph Z) :
  0 < inf → no_overflow (2 ^ bits) inf g = true →
  exact_on (Wt := UIntWeight bits inf) g.
Proof.
  intros Hinf Hg. split; [done|]. split; [done|]. split; [done|]. split; [|split].
  - intros n e He. apply (forallb_edges _ g n e Hg) in He.
    apply andb_prop in He as [He _]. by apply Z.leb_le.
  - intros n e x He Hx. apply (forallb_edges _ g n e Hg) in He.
    apply andb_prop in He as [H0 Hlim]. apply Z.leb_le in H0, Hlim.
    cbn in *. unfold uwrap. apply Z.mod_small. lia.
  - done.
Qed.

(** Signed weights likewise, within the positive half of the width. *)
Lemma SIntWeight_exact_on (bits inf : Z) (g : Graph Z) :
  0 < bits → 0 < inf → no_overflow (2 ^ (bits - 1)) inf g = true →
  exact_on (Wt := SIntWeight bits inf) g.
Proof.
  intros Hbits Hinf Hg. split; [done|]. split; [done|]. split; [done|].
  split; [|split].
  - intros n e He. apply (forallb_edges _ g n e Hg) in He.
    apply andb_prop in He as [He _]. by apply Z.leb_le.
  - intros n e x He Hx. apply (forallb_edges _ g n e Hg) in He.
    apply andb_prop in He as [H0 Hlim]. apply Z.leb_le in H0, Hlim.
    cbn in *. unfold swrap.
    assert (2 ^ bits = 2 * 2 ^ (bits - 1)) as Hpow.
    { replace bits with (Z.succ (bits - 1)) at 1 by lia. apply Z.pow_succ_r. lia. }
    rewrite Z.mod_small; lia.
  - done.
Qed.

(** *** The integral types: exact arithmetic is in order *)

Section Exact.
Context {Wt : Weight Z}.
Variable g : Graph Z.
Variable source : nat.
Hypothesis Hexact : exact_on g.

Lemma walk_nonneg v x : walk g source v x → 0 <= x.
Proof.
  destruct Hexact as (Hz & Hlt & Hinf & Hw & Hadd & _).
  induction 1 as [|u x e _ IH Hx He]; [lia|].
  rewrite Hlt in Hx. apply Z.ltb_lt in Hx.
  rewrite (Hadd u e x He) by lia. specialize (Hw u e He). lia.
Qed.

Lemma distance_nonneg x : distance g source x → 0 <= x.
Proof.
  intros [->|[v Hv]]; [|by eapply walk_nonneg].
  destruct Hexact as (_ & _ & Hinf & _). lia.
Qed.

(** The integers number themselves. *)
Lemma exact_on_ordered : ordered_on g source Z.to_nat.
Proof.
  pose proof Hexact as (Hz & Hlt & Hinf & Hw & Hadd & Hb).
  split; [split; [|split; [|split]]|split].
  - rewrite Hz. lia.
  - intros a b Ha%distance_nonneg Hb'%distance_nonneg.
    rewrite Hlt, Z.ltb_lt. lia.
  - intros a b Ha%distance_nonneg Hb'%distance_nonneg. lia.
  - intros a Ha%distance_nonneg. rewrite Hz. lia.
  - intros u x y e Hx%walk_nonneg Hy%walk_nonneg He Hle Hlty.
    rewrite Hlt in Hlty. apply Z.ltb_lt in Hlty.
    rewrite !(Hadd u e) by (done || lia). lia.
  - intros shift u x e Hx%walk_nonneg Hltx He _.
    rewrite Hlt in Hltx. apply Z.ltb_lt in Hltx.
    rewrite !Hb, (Hadd u e) by (done || lia). specialize (Hw u e He).
    rewrite !Z.shiftr_div_pow2 by lia.
    apply Z2Nat.inj_le.
    + apply Z.div_pos; lia.
    + apply Z.div_pos; lia.
    + apply Z.div_le_mono; lia.
Qed.

End Exact.

(** *** A graph of [float] weights on which the arithmetic is in order *)

Lemma float_diamond_walks v x :
  walk (Wt := FloatWeight32) float_diamond 0 v x →
  (v, x) ∈ [(0%nat, S754_zero false); (1%nat, S754_finite false 8388608 (-23));
            (2%nat, S754_finite false 8388608 (-21));
            (3%nat, S754_finite false 12582912 (-22));
            (3%nat, S754_finite false 10485760 (-21))].
Proof.
  induction 1 as [|u x e _ IH _ He]; [by left|].
  apply list_elem_of_In. apply list_elem_of_In in IH.
  simpl in IH.
  destruct IH as [IH|[IH|[IH|[IH|[IH|[]]]]]]; injection IH as <- <-;
    vm_compute in He; apply list_elem_of_In in He; simpl in He;
    repeat (destruct He as [<-|He]; [vm_compute; tauto|]); destruct He.
Qed.

Lemma float_diamond_distances x :
  distance (Wt := FloatWeight32) float_diamond 0 x →
  x ∈ [S754_finite false 16777215 102; S754_zero false;
       S754_finite false 8388608 (-23); S754_finite false 8388608 (-21);
       S754_finite false 12582912 (-22); S754_finite false 10485760 (-21)].
Proof.
  intros [->|[v Hv%float_diamond_walks]]; [by left|].
  apply list_elem_of_In. apply list_elem_of_In in Hv. simpl in Hv. simpl.
  destruct Hv as [Hv|[Hv|[Hv|[Hv|[Hv|[]]]]]]; injection Hv as <- <-; tauto.
Qed.

Lemma float_diamond_ordered :
  ordered_on (Wt := FloatWeight32) float_diamond 0 float_diamond_rank.
Proof.
  assert (∀ x, distance (Wt := FloatWeight32) float_diamond 0 x →
            x = S754_finite false 16777215 102 ∨ x = S754_zero false
            ∨ x = S754_finite false 8388608 (-23) ∨ x = S754_finite false 8388608 (-21)
            ∨ x = S754_finite false 12582912 (-22)
            ∨ x = S754_finite false 10485760 (-21)) as Hcases.
  { intros x Hx%float_diamond_distances. apply list_elem_of_In in Hx. simpl in Hx.
    destruct Hx as [<-|[<-|[<-|[<-|[<-|[<-|[]]]]]]]; tauto. }
  assert (∀ u x, walk (Wt := FloatWeight32) float_diamond 0 u x →
            (u, x) = (0%nat, S754_zero false)
            ∨ (u, x) = (1%nat, S754_finite false 8388608 (-23))
            ∨ (u, x) = (2%nat, S754_finite false 8388608 (-21))
            ∨ (u, x) = (3%nat, S754_finite false 12582912 (-22))
            ∨ (u, x) = (3%nat, S754_finite false 10485760 (-21))) as Hwalks.
  { intros u x Hx%float_diamond_walks. apply list_elem_of_In in Hx. simpl in Hx.
    destruct Hx as [<-|[<-|[<-|[<-|[<-|[]]]]]]; tauto. }
  assert (∀ u e, e ∈ edges float_diamond u →
            In (u, e) [(0%nat, (1%nat, S754_finite false 8388608 (-23)));
                       (0%nat, (2%nat, S754_finite false 8388608 (-21)));
                       (1%nat, (3%nat, S754_finite false 8388608 (-22)));
                       (2%nat, (3%nat, S754_finite false 8388608 (-23)))]) as Hedges.
  { intros u e He. unfold edges in He.
    destruct u as [|[|[|[|u]]]]; vm_compute in He; apply list_elem_of_In in He;
      simpl in He; simpl; intuition (subst; auto). }
  split; [split; [|split; [|split]]|split].
  - vm_compute. lia.
  - intros a b Ha%Hcases Hb%Hcases.
    destruct Ha as [->|[->|[->|[->|[->| ->]]]]], Hb as [->|[->|[->|[->|[->| ->]]]]];
      vm_compute; split; (done || lia).
  - intros a b Ha%Hcases Hb%Hcases.
    destruct Ha as [->|[->|[->|[->|[->| ->]]]]], Hb as [->|[->|[->|[->|[->| ->]]]]];
      vm_compute; (done || lia).
  - intros a Ha%Hcases.
    destruct Ha as [->|[->|[->|[->|[->| ->]]]]]; vm_compute; lia.
  - intros u x y e Hx%Hwalks Hy%Hwalks He%Hedges _ _. simpl in He.
    destruct Hx as [Hx|[Hx|[Hx|[Hx|Hx]]]], Hy as [Hy|[Hy|[Hy|[Hy|Hy]]]],
        He as [He|[He|[He|[He|[]]]]]; simplify_eq; vm_compute; lia.
  - intros shift u x e Hx%Hwalks _ He%Hedges _. simpl in He.
    destruct Hx as [Hx|[Hx|[Hx|[Hx|Hx]]]], He as [He|[He|[He|[He|[]]]]];
      simplify_eq;
      unfold bucket; cbn [FloatWeight32 FloatWeight];
      apply Z2Nat.inj_le; try (apply Z.shiftr_nonneg; vm_compute; done);
      rewrite !Z.shiftr_div_pow2 by lia; apply Z.div_le_mono; try lia;
      vm_compute; done.
Qed.

(** C1, where the weight type computes in order on the graph: whatever
    the weight type, integral or floating, on a well-formed graph whose
    distances [rank] numbers in increasing order, with zero first, and on
    which of two walks to a node the one that is not longer stays so
    after the same edge and no edge takes a walk to an earlier bucket,
    from an in-range source, with a fair executor and a positive tile
    size, every strategy [SSSP] can select (the three delta-stepping
    ones, serial delta plain and tiled, Dijkstra plain and tiled,
    topological plain and tiled, directly or through [kAutomatic])
    terminates within [enough_fuel] steps, returns without aborting, and
    returns the same distance array as serial Dijkstra, equal entry by
    entry; that array holds the shortest distances from the source.  The
    integral types compute in order where no addition overflows
    ([exact_on_ordered]); the distances of a floating type are compared
    for equality, not up to a tolerance. *)
Theorem C1_strategies_agree_in_order {W : Type} {Wt : Weight W} (env : Environment)
    (g : Graph W) (rank : W → nat) (d0 : list W) (source tile fuel : nat)
    (plan : SsspPlan) :
  ordered_on g source rank → wf_graph g → (source < length g)%nat →
  fair (executor env) → (0 < tile)%nat → length d0 = length g →
  algorithm (chosen_plan env g plan) ≠ kAutomatic →
  (enough_fuel g rank <= fuel)%nat →
  ∃ dfinal,
    shortest g source dfinal
    ∧ SSSP env tile fuel g d0 source plan = Some (Returns (ResultSuccess (), dfinal))
    ∧ SSSP env tile fuel g d0 source
           {| algorithm := kDijkstra; delta := delta plan;
              edge_tile_size := edge_tile_size plan |}
      = Some (Returns (ResultSuccess (), dfinal)).
Proof.
  intros Hordered Hwf Hsource Hfair Htile Hlen Hplan Hfuel.
  destruct (SSSP_shortest env g source rank Hwf Hsource Hfair tile fuel d0 plan)
    as (d1 & Hrun1 & Hd1); [done..|].
  destruct (SSSP_shortest env g source rank Hwf Hsource Hfair tile fuel d0
              {| algorithm := kDijkstra; delta := delta plan;
                 edge_tile_size := edge_tile_size plan |})
    as (d2 & Hrun2 & Hd2); [done..|].
  exists d1. split; [done|]. split; [done|].
  destruct Hordered as [Hranked _].
  assert (d1 = d2) as <-; [|done].
  by eapply (shortest_unique g source rank).
Qed.

(** On the diamond with [uint32_t] weights the tiled topological strategy
    and serial Dijkstra return the same array, and so do serial delta and
    serial Dijkstra on the diamond with [float] weights. *)
Lemma C1_strategies_agree_in_order_witness :
  (∃ dfinal,
     shortest (Wt := UInt32Weight) diamond 0 dfinal
     ∧ SSSP (Wt := UInt32Weight) single_thread 2
            (enough_fuel (Wt := UInt32Weight) diamond Z.to_nat)
            diamond [7; 7; 7; 7] 0
            {| algorithm := kTopologicalTile; delta := 13; edge_tile_size := 2 |}
       = Some (Returns (ResultSuccess (), dfinal))
     ∧ SSSP (Wt := UInt32Weight) single_thread 2
            (enough_fuel (Wt := UInt32Weight) diamond Z.to_nat)
            diamond [7; 7; 7; 7] 0
            {| algorithm := kDijkstra; delta := 13; edge_tile_size := 2 |}
       = Some (Returns (ResultSuccess (), dfinal)))
  ∧ (∃ dfinal,
       shortest (Wt := FloatWeight32) float_diamond 0 dfinal
       ∧ SSSP (Wt := FloatWeight32) single_thread 2 911 float_diamond
              (replicate 4 (S754_zero false)) 0
              {| algorithm := kSerialDelta; delta := 1; edge_tile_size := 2 |}
         = Some (Returns (ResultSuccess (), dfinal))
       ∧ SSSP (Wt := FloatWeight32) single_thread 2 911 float_diamond
              (replicate 4 (S754_zero false)) 0
              {| algorithm := kDijkstra; delta := 1; edge_tile_size := 2 |}
         = Some (Returns (ResultSuccess (), dfinal))).
Proof.
  split.
  - apply (C1_strategies_agree_in_order (Wt := UInt32Weight) single_thread
             diamond Z.to_nat [7; 7; 7; 7] 0 2
             (enough_fuel (Wt := UInt32Weight) diamond Z.to_nat)
             {| algorithm := kTopologicalTile; delta := 13; edge_tile_size := 2 |}).
    + apply exact_on_ordered, UIntWeight_exact_on; reflexivity.
    + apply wf_graphb_wf. reflexivity.
    + cbn. lia.
    + intros round l x Hx. exact Hx.
    + lia.
    + reflexivity.
    + cbn. intros Heq. discriminate Heq.
    + apply Nat.le_refl.
  - apply (C1_strategies_agree_in_order (Wt := FloatWeight32) single_thread
             float_diamond float_diamond_rank (replicate 4 (S754_zero false)) 0 2 911
             {| algorithm := kSerialDelta; delta := 1; edge_tile_size := 2 |}).
    + exact float_diamond_ordered.
    + apply wf_graphb_wf. reflexivity.
    + cbn. lia.
    + intros round l x Hx. exact Hx.
    + lia.
    + reflexivity.
    + cbn. intros Heq. discriminate Heq.
    + vm_compute. lia.
Defined.

(** C1 as stated fails: the weights of [overflow_graph] are not negative
    and node 0 is in range, yet serial Dijkstra leaves node 3 at the
    sentinel and the topological strategy, in index order, ends with
    distance 2 for it. *)
Lemma C1_overflow_strategies_disagree :
  no_overflow (2 ^ 64) 0 overflow_graph = true
  ∧ wf_graphb overflow_graph = true
  ∧ SSSP (Wt := UInt32Weight) single_thread 1 100 overflow_graph
         (replicate 4 1073741823) 0
         {| algorithm := kDijkstra; delta := 13; edge_tile_size := 1 |}
    = Some (Returns (ResultSuccess (), [0; 5; 2; 1073741823]))
  ∧ SSSP (Wt := UInt32Weight) single_thread 1 100 overflow_graph
         (replicate 4 1073741823) 0
         {| algorithm := kTopological; delta := 13; edge_tile_size := 1 |}
    = Some (Returns (ResultSuccess (), [0; 5; 2; 2])).
Proof. repeat split; vm_compute; reflexivity. Qed.

(** The same divergence with the largest value of the type, or half of
    it less one, as the sentinel. *)
Lemma overflow_other_sentinels :
  DijkstraAlgo (Wt := UIntWeight 32 (2 ^ 32 - 1)) ReqPushWrap
    (OutEdgeRangeFn overflow_graph) 100
    (replicate 4 (2 ^ 32 - 1)) 0 = Some [0; 5; 2; 2 ^ 32 - 3]
  ∧ TopoAlgo (Wt := UIntWeight 32 (2 ^ 32 - 1)) in_order overflow_graph 100
      (replicate 4 (2 ^ 32 - 1)) 0 = Some [0; 5; 2; 2]
  ∧ DijkstraAlgo (Wt := UIntWeight 32 (2 ^ 31 - 2)) ReqPushWrap
      (OutEdgeRangeFn overflow_graph) 100
      (replicate 4 (2 ^ 31 - 2)) 0 = Some [0; 5; 2; 2 ^ 31 - 2]
  ∧ TopoAlgo (Wt := UIntWeight 32 (2 ^ 31 - 2)) in_order overflow_graph 100
      (replicate 4 (2 ^ 31 - 2)) 0 = Some [0; 5; 2; 2].
Proof. repeat split; vm_compute; reflexivity. Qed.

End sssp_agree.

(** ** The in/out-edge adapter: iteration and order *)

Module inout_iteration.
Import inout inout_spec inout_examples inout_props.

Section Iteration.
Context {edge_data_type : Type}.
Implicit Types (g : list (list (@EdgeSortValue edge_data_type)))
  (G : @LC_InOut_Graph edge_data_type).

Lemma raw_begin_S (l : list (@EdgeSortValue edge_data_type)) g N :
  raw_begin (l :: g) (S N) = (length l + raw_begin g N)%nat.
Proof. reflexivity. Qed.

Lemma raw_end_S (l : list (@EdgeSortValue edge_data_type)) g N :
  raw_end (l :: g) (S N) = (length l + raw_end g N)%nat.
Proof. reflexivity. Qed.

Lemma raw_end_begin g N :
  raw_end g N = (raw_begin g N + length (node_edges g N))%nat.
Proof.
  revert N. induction g as [|l g IH]; intros N; [by destruct N|].
  destruct N as [|N].
  - change (raw_end (l :: g) 0) with (length l + 0)%nat.
    change (raw_begin (l :: g) 0) with 0%nat.
    change (node_edges (l :: g) 0) with l. lia.
  - rewrite raw_begin_S, raw_end_S, IH.
    change (node_edges (l :: g) (S N)) with (node_edges g N). lia.
Qed.

Lemma concat_lookup_raw g N k :
  (k < length (node_edges g N))%nat →
  concat g !! (raw_begin g N + k)%nat = node_edges g N !! k.
Proof.
  revert N. induction g as [|l g IH]; intros N Hk; [destruct N; cbn in Hk; lia|].
  destruct N as [|N].
  - change (node_edges (l :: g) 0) with l in *.
    change (raw_begin (l :: g) 0) with 0%nat.
    cbn [concat Nat.add]. by rewrite lookup_app_l.
  - change (node_edges (l :: g) (S N)) with (node_edges g N) in *.
    rewrite raw_begin_S. cbn [concat]. rewrite lookup_app_r by lia.
    replace (length l + raw_begin g N + k - length l)%nat
      with (raw_begin g N + k)%nat by lia.
    by apply IH.
Qed.

Lemma advance_small (i : in_edge_iterator) (k : nat) :
  Z.of_nat k < 2 ^ 32 →
  advance i (Z.of_nat k) = {| type := type i; its := (its i + k)%nat |}.
Proof.
  intros Hk. unfold advance, uwrap. rewrite Z.mod_small by lia. by rewrite Nat2Z.id.
Qed.

(** The loop [for (ii = in_edge_begin(N); ii != in_edge_end(N); ++ii)]
    visits the in-edges of [N], each once and in storage order, as long
    as there are fewer than 2^32 of them: the two iterators are
    [length (in_edges G N)] apart, the [k]-th step is not yet the end and
    stands at the [k]-th in-edge, a step of one is an advance by one, and
    the advance by the number of in-edges is the end.  The distance of an
    advance counts modulo 2^32: an advance by 2^32 more arrives at the
    same place. *)
Theorem in_edge_iteration G N :
  Z.of_nat (length (in_edges G N)) < 2 ^ 32 →
  distance_to (in_edge_begin G N) (in_edge_end G N)
  = Z.of_nat (length (in_edges G N))
  ∧ equal (advance (in_edge_begin G N) (Z.of_nat (length (in_edges G N))))
          (in_edge_end G N)
    = true
  ∧ (∀ k, (k < length (in_edges G N))%nat →
       increment (advance (in_edge_begin G N) (Z.of_nat k))
       = advance (in_edge_begin G N) (Z.of_nat k + 1))
  ∧ (∀ k, (k < length (in_edges G N))%nat →
       equal (advance (in_edge_begin G N) (Z.of_nat k)) (in_edge_end G N) = false
       ∧ in_edge_at G (advance (in_edge_begin G N) (Z.of_nat k)) = in_edges G N !! k)
  ∧ (∀ n, advance (in_edge_begin G N) (n + 2 ^ 32) = advance (in_edge_begin G N) n).
Proof.
  intros Hsmall.
  assert (∀ k, (k <= length (in_edges G N))%nat →
            advance (in_edge_begin G N) (Z.of_nat k)
            = {| type := type (in_edge_begin G N);
                 its := (its (in_edge_begin G N) + k)%nat |}) as Hadv.
  { intros k Hk. apply advance_small. lia. }
  split; [|split; [|split; [|split]]].
  - unfold in_edge_begin, in_edge_end, in_edges, distance_to.
    destruct (asymmetric G); cbn [negb type its]; rewrite raw_end_begin; lia.
  - rewrite Hadv by lia. revert Hsmall.
    unfold in_edge_begin, in_edge_end, in_edges, equal.
    destruct (asymmetric G); cbn [negb type its Nat.eqb]; intros _;
      rewrite raw_end_begin; apply Nat.eqb_refl.
  - intros k Hk. replace (Z.of_nat k + 1) with (Z.of_nat (S k)) by lia.
    rewrite !Hadv by lia. unfold increment. cbn [type its]. f_equal. lia.
  - intros k Hk. rewrite Hadv by lia. revert Hk.
    unfold in_edge_begin, in_edge_end, in_edges, equal, in_edge_at.
    destruct (asymmetric G); cbn [negb type its Nat.eqb]; intros Hk;
      rewrite raw_end_begin;
      (split; [apply Nat.eqb_neq; lia|by apply concat_lookup_raw]).
  - intros n. unfold advance, uwrap. do 3 f_equal.
    rewrite <- (Z.mul_1_l (2 ^ 32)) at 1. apply Z.mod_add. lia.
Qed.

(** Iterators of the two kinds are never equal, whatever their
    positions. *)
Lemma equal_mixed (i o : in_edge_iterator) :
  type i ≠ type o → equal i o = false.
Proof. intros Hne. unfold equal. by apply Nat.eqb_neq in Hne as ->. Qed.

End Iteration.

(** Node 0 of [two_out_edges] and its in-edges. *)
Lemma in_edge_iteration_witness :
  distance_to (in_edge_begin two_out_edges 0) (in_edge_end two_out_edges 0)
  = Z.of_nat (length (in_edges two_out_edges 0))
  ∧ equal (advance (in_edge_begin two_out_edges 0)
                   (Z.of_nat (length (in_edges two_out_edges 0))))
          (in_edge_end two_out_edges 0)
    = true
  ∧ (∀ k, (k < length (in_edges two_out_edges 0))%nat →
       increment (advance (in_edge_begin two_out_edges 0) (Z.of_nat k))
       = advance (in_edge_begin two_out_edges 0) (Z.of_nat k + 1))
  ∧ (∀ k, (k < length (in_edges two_out_edges 0))%nat →
       equal (advance (in_edge_begin two_out_edges 0) (Z.of_nat k))
             (in_edge_end two_out_edges 0) = false
       ∧ in_edge_at two_out_edges (advance (in_edge_begin two_out_edges 0) (Z.of_nat k))
         = in_edges two_out_edges 0 !! k)
  ∧ (∀ n, advance (in_edge_begin two_out_edges 0) (n + 2 ^ 32)
          = advance (in_edge_begin two_out_edges 0) n).
Proof. apply (in_edge_iteration two_out_edges 0). vm_compute. reflexivity. Defined.

Section Sorted.
Context {A : Type}.
Variable comp : A → A → bool.
Hypothesis comp_asym : ∀ a b, comp a b = true → comp b a = false.
Hypothesis comp_negtrans :
  ∀ a b c, comp b a = false → comp c b = false → comp c a = false.

Lemma sort_insert_sorted x l :
  StronglySorted (λ a b, comp b a = false) l →
  StronglySorted (λ a b, comp b a = false) (sort_insert comp x l).
Proof.
  induction l as [|y l IH]; intros Hl; cbn.
  - constructor; [constructor|constructor].
  - apply StronglySorted_inv in Hl as [Hl Hy].
    destruct (comp x y) eqn:Hxy.
    + constructor; [by constructor|].
      constructor; [by apply comp_asym|].
      rewrite Forall_forall in Hy. apply Forall_forall. intros z Hz.
      apply (comp_negtrans x y z); [by apply comp_asym|by apply Hy].
    + constructor; [by apply IH|].
      apply Forall_forall. intros z Hz.
      rewrite (sort_insert_perm comp x l) in Hz.
      apply elem_of_cons in Hz as [->|Hz]; [done|].
      rewrite Forall_forall in Hy. by apply Hy.
Qed.

Lemma std_sort_sorted l : StronglySorted (λ a b, comp b a = false) (std_sort comp l).
Proof.
  induction l as [|x l IH]; cbn; [constructor|]. by apply sort_insert_sorted.
Qed.

End Sorted.

Lemma StronglySorted_impl {A} (R1 R2 : A → A → Prop) l :
  (∀ a b, R1 a b → R2 a b) → StronglySorted R1 l → StronglySorted R2 l.
Proof.
  intros HR. induction 1 as [|a l Hl IH Ha]; constructor; [done|].
  eapply Forall_impl; [exact Ha|]. intros b. apply HR.
Qed.

Section SortedEdges.
Context {edge_data_type : Type}.
Implicit Types (G : @LC_InOut_Graph edge_data_type).

Lemma in_edges_sortInEdges G N comp :
  in_edges (sortInEdges G N comp) N = std_sort comp (in_edges G N).
Proof. by destruct (sort_in_edges_effect G N comp _ eq_refl) as (_ & ? & _). Qed.

(** After [sortInEdges] with a comparison that is a strict weak order
    (asymmetric, and "not less" is transitive), no in-edge of the node is
    less than an in-edge before it; the same after
    [sortInEdgesByEdgeData], for the data of the in-edges and a comparison
    of edge data. *)
Theorem sortInEdges_sorted G N
    (comp : EdgeSortValue → EdgeSortValue → bool)
    (comp_data : edge_data_type → edge_data_type → bool) :
  (∀ a b, comp a b = true → comp b a = false) →
  (∀ a b c, comp b a = false → comp c b = false → comp c a = false) →
  (∀ a b, comp_data a b = true → comp_data b a = false) →
  (∀ a b c, comp_data b a = false → comp_data c b = false → comp_data c a = false) →
  StronglySorted (λ a b, comp b a = false) (in_edges (sortInEdges G N comp) N)
  ∧ StronglySorted (λ a b, comp_data (data b) (data a) = false)
      (in_edges (sortInEdgesByEdgeData G N comp_data) N).
Proof.
  intros Hasym Htrans Hasym_data Htrans_data. split.
  - rewrite in_edges_sortInEdges. by apply std_sort_sorted.
  - change (sortInEdgesByEdgeData G N comp_data)
      with (sortInEdges G N (EdgeSortCompWrapper comp_data)).
    rewrite in_edges_sortInEdges.
    apply (std_sort_sorted (EdgeSortCompWrapper comp_data)).
    + intros a b. apply Hasym_data.
    + intros a b c. apply Htrans_data.
Qed.

(** After [sortInEdgesByDst] the in-edges of the node are in
    non-decreasing order of their destinations. *)
Theorem sortInEdgesByDst_sorted G N :
  StronglySorted (λ a b, (dst a <= dst b)%nat) (in_edges (sortInEdgesByDst G N) N).
Proof.
  change (sortInEdgesByDst G N)
    with (sortInEdges G N (λ e1 e2, (dst e1 <? dst e2)%nat)).
  rewrite in_edges_sortInEdges.
  apply (StronglySorted_impl (λ a b, (dst b <? dst a)%nat = false)).
  - intros a b Hab. by apply Nat.ltb_ge in Hab.
  - apply std_sort_sorted.
    + intros a b Hab. apply Nat.ltb_lt in Hab. apply Nat.ltb_ge. lia.
    + intros a b c Hab Hbc. apply Nat.ltb_ge in Hab, Hbc. apply Nat.ltb_ge. lia.
Qed.

End SortedEdges.

(** The in-edges of node 0 of [two_out_edges], sorted by destination and
    by their (unit) data. *)
Lemma sortInEdges_sorted_witness :
  StronglySorted (λ a b : @EdgeSortValue (), (dst b <? dst a)%nat = false)
    (in_edges (sortInEdges two_out_edges 0 (λ a b, (dst a <? dst b)%nat)) 0)
  ∧ StronglySorted (λ a b : @EdgeSortValue (), false = false)
      (in_edges (sortInEdgesByEdgeData two_out_edges 0 (λ _ _, false)) 0).
Proof.
  apply (sortInEdges_sorted two_out_edges 0
           (λ a b, (dst a <? dst b)%nat) (λ _ _, false)).
  - intros a b Hab. apply Nat.ltb_lt in Hab. apply Nat.ltb_ge. lia.
  - intros a b c Hab Hbc. apply Nat.ltb_ge in Hab, Hbc. apply Nat.ltb_ge. lia.
  - intros a b Hab. discriminate Hab.
  - intros a b c _ _. reflexivity.
Defined.

End inout_iteration.

(** ** Pull PageRank: degrees, initial data and the residual rounds *)

Module pagerank_more.
Import pagerank pagerank_spec pagerank_examples pagerank_props more_spec more_examples.

Lemma fold_insert_seq {A} (x : A) (l : list A) (n : nat) :
  (n <= length l)%nat →
  fold_left (λ l n, <[n := x]> l) (seq 0 n) l = replicate n x ++ drop n l.
Proof.
  induction n as [|n IH]; intros Hn.
  - simpl. by rewrite drop_0.
  - rewrite seq_S, fold_left_app. simpl. rewrite IH by lia.
    rewrite insert_app_r_alt by (rewrite length_replicate; lia).
    rewrite length_replicate, Nat.sub_diag.
    destruct (drop n l) as [|z rest] eqn:Hdrop.
    + apply (f_equal length) in Hdrop. rewrite length_drop in Hdrop. simpl in Hdrop. lia.
    + assert (drop (S n) l = rest) as ->.
      { replace (S n) with (n + 1)%nat by lia. rewrite <- drop_drop, Hdrop. done. }
      change (<[0%nat := x]> (z :: rest)) with ([x] ++ rest).
      rewrite app_assoc, <- replicate_S_end. reflexivity.
Qed.

Lemma uwrap_idemp bits z : uwrap bits (uwrap bits z) = uwrap bits z.
Proof. unfold uwrap. apply Zmod_mod. Qed.

Lemma uwrap_succ bits z : uwrap bits (uwrap bits z + 1) = uwrap bits (z + 1).
Proof. unfold uwrap. by rewrite Zplus_mod_idemp_l. Qed.

Lemma uwrap_32_64 z : uwrap 32 (uwrap 64 z) = uwrap 32 z.
Proof.
  unfold uwrap. apply Z.mod_mod_divide. exists (2 ^ 32). reflexivity.
Qed.

(** *** [ComputeOutDeg] *)

(** The tally of one node's edges. *)
Lemma tally_fold (dests : list nat) (vec : list Z) (n : nat) :
  let vec' :=
    fold_left (λ vec dest, <[dest := uwrap 64 (default 0 (vec !! dest) + 1)]> vec)
              dests vec in
  length vec' = length vec
  ∧ ((n < length vec)%nat →
     uwrap 64 (default 0 (vec' !! n))
     = uwrap 64 (default 0 (vec !! n) + Z.of_nat (count_occ Nat.eq_dec dests n))).
Proof.
  revert vec. induction dests as [|dest dests IH]; intros vec; cbn [fold_left].
  - split; [done|]. intros _. cbn. f_equal. lia.
  - destruct (IH (<[dest := uwrap 64 (default 0 (vec !! dest) + 1)]> vec)) as [Hlen Hn].
    rewrite length_insert in Hlen, Hn. split; [done|]. intros Hlt.
    rewrite (Hn Hlt). cbn [count_occ].
    destruct (Nat.eq_dec dest n) as [->|Hne].
    + rewrite list_lookup_insert_eq by done.
      change (default 0 (Some ?x)) with x.
      unfold uwrap. rewrite Zplus_mod_idemp_l. f_equal. lia.
    + by rewrite list_lookup_insert_ne.
Qed.

(** The tally of the edges of the nodes [srcs]. *)
Lemma tally_all (g : Graph) (srcs : list nat) (vec : list Z) (n : nat) :
  let vec' :=
    fold_left
      (λ vec src,
         fold_left (λ vec dest, <[dest := uwrap 64 (default 0 (vec !! dest) + 1)]> vec)
                   (edges g src) vec)
      srcs vec in
  length vec' = length vec
  ∧ ((n < length vec)%nat →
     uwrap 64 (default 0 (vec' !! n))
     = uwrap 64 (default 0 (vec !! n)
                 + Z.of_nat (count_occ Nat.eq_dec (concat (map (edges g) srcs)) n))).
Proof.
  revert vec. induction srcs as [|src srcs IH]; intros vec; cbn [fold_left map concat].
  - split; [done|]. intros _. cbn. f_equal. lia.
  - destruct (tally_fold (edges g src) vec n) as [Hlen1 Hn1].
    destruct (IH (fold_left
                    (λ vec dest, <[dest := uwrap 64 (default 0 (vec !! dest) + 1)]> vec)
                    (edges g src) vec)) as [Hlen2 Hn2].
    rewrite Hlen1 in Hlen2, Hn2. split; [done|]. intros Hlt.
    rewrite (Hn2 Hlt), count_occ_app. unfold uwrap in *.
    rewrite <- Zplus_mod_idemp_l, (Hn1 Hlt), Zplus_mod_idemp_l. f_equal. lia.
Qed.

Lemma edges_of_all (g : Graph) : map (edges g) (seq 0 (length g)) = g.
Proof.
  apply list_eq. intros i. rewrite list_lookup_fmap.
  destruct (decide (i < length g)%nat) as [Hi|Hi].
  - rewrite lookup_seq_lt by done. cbn. unfold edges.
    destruct (lookup_lt_is_Some_2 g i Hi) as [x Hx]. by rewrite Hx.
  - rewrite lookup_seq_ge by lia. cbn. symmetry. apply lookup_ge_None_2. lia.
Qed.

(** The copy of the tally into [out]. *)
Lemma copy_fold (c : nat → Z) (ns : list nat) (nodes : NodeData) (n : nat) :
  (n < length nodes)%nat →
  let nodes' :=
    fold_left (λ nodes src,
                 <[src := {| out := c src; value := value (GetData nodes src) |}]> nodes)
              ns nodes in
  length nodes' = length nodes
  ∧ GetData nodes' n
    = if decide (n ∈ ns)
      then {| out := c n; value := value (GetData nodes n) |}
      else GetData nodes n.
Proof.
  revert nodes. induction ns as [|m ns IH]; intros nodes Hlt; cbn [fold_left].
  - split; [done|]. destruct (decide (n ∈ [])) as [Hin|_]; [|done].
    by apply elem_of_nil in Hin.
  - destruct (IH (<[m := {| out := c m; value := value (GetData nodes m) |}]> nodes))
      as [Hlen Hn]; [by rewrite length_insert|].
    rewrite length_insert in Hlen. split; [done|]. rewrite Hn.
    destruct (decide (m = n)) as [->|Hmn].
    + rewrite node_data_insert_eq by done. cbn [value].
      rewrite (decide_True (P := n ∈ n :: ns)) by (by left).
      by destruct (decide (n ∈ ns)).
    + rewrite node_data_insert_ne by done.
      destruct (decide (n ∈ ns)) as [Hns|Hns].
      * rewrite decide_True; [done|]. by right.
      * rewrite decide_False; [done|]. intros [->|?]%elem_of_cons; done.
Qed.

(** [ComputeOutDeg] stores at every node the number of adjacency-list
    entries that lead to it, reduced modulo 2^32 by the narrowing to
    [uint32_t], and leaves the rank of the node as it was. *)
Theorem ComputeOutDeg_counts (g : Graph) (nodes : NodeData) (n : nat) :
  length nodes = length g → (n < length g)%nat →
  GetData (ComputeOutDeg g nodes) n
  = {| out := uwrap 32 (in_degree g n); value := value (GetData nodes n) |}.
Proof.
  intros Hlen Hn. unfold ComputeOutDeg.
  destruct (tally_all g (seq 0 (length g)) (replicate (length g) 0) n) as [Hvlen Hv].
  rewrite length_replicate in Hvlen, Hv. specialize (Hv Hn).
  rewrite edges_of_all, lookup_replicate_2 in Hv by done. cbn [default] in Hv.
  match goal with
  | |- GetData (fold_left _ _ _) _ = _ =>
      destruct (copy_fold
                  (λ src, uwrap 32 (default 0
                     (fold_left
                        (λ vec src,
                           fold_left
                             (λ vec dest,
                                <[dest := uwrap 64 (default 0 (vec !! dest) + 1)]> vec)
                             (edges g src) vec)
                        (seq 0 (length g)) (replicate (length g) 0) !! src)))
                  (seq 0 (length g)) nodes n) as [_ Hcopy]; [lia|]
  end.
  rewrite Hcopy, decide_True by (apply elem_of_seq; lia).
  f_equal. rewrite <- uwrap_32_64, Hv, uwrap_32_64. done.
Qed.

(** On the two-cycle each node is a destination once. *)
Lemma ComputeOutDeg_counts_witness :
  GetData (ComputeOutDeg two_cycle (fresh_nodes 2)) 1
  = {| out := uwrap 32 (in_degree two_cycle 1);
       value := value (GetData (fresh_nodes 2) 1) |}.
Proof. apply (ComputeOutDeg_counts two_cycle (fresh_nodes 2) 1); [reflexivity|cbn; lia]. Defined.

(** *** The rounds of the residual algorithm *)

Lemma ResidualLoop_runs (ex : Executor) (g : Graph) (plan : PagerankPlan) (m : nat) :
  max_iterations plan < 2 ^ 32 →
  ∀ (i : Z) (st : ResidualState),
    0 <= i < 2 ^ 32 - 1 →
    (Z.to_nat (max_iterations plan - (i + 1)) <= m)%nat →
    ∃ st' k,
      i + 1 <= k <= Z.max (i + 1) (max_iterations plan)
      ∧ (k < max_iterations plan → rs_accum st' = 0)
      ∧ ∀ fuel, (m < fuel)%nat → ResidualLoop ex g plan fuel i st = Some (st', k).
Proof.
  intros Hmax. induction m as [|m IH]; intros i st Hi Hm.
  - exists (ResidualRound ex g plan (Z.to_nat i) st), (i + 1).
    split; [lia|]. split; [lia|]. intros [|fuel] Hfuel; [lia|].
    cbn [ResidualLoop]. unfold uwrap. rewrite Z.mod_small by lia.
    destruct (Z.leb_spec (max_iterations plan) (i + 1)) as [_|?]; [done|lia].
  - destruct ((max_iterations plan <=? i + 1)
              || (rs_accum (ResidualRound ex g plan (Z.to_nat i) st) =? 0)) eqn:Hstop.
    + exists (ResidualRound ex g plan (Z.to_nat i) st), (i + 1).
      split; [lia|]. split.
      * intros Hlt. apply orb_prop in Hstop as [Hle|Heq].
        -- apply Z.leb_le in Hle. lia.
        -- by apply Z.eqb_eq in Heq.
      * intros [|fuel] Hfuel; [lia|].
        cbn [ResidualLoop]. unfold uwrap. rewrite Z.mod_small by lia.
        by rewrite Hstop.
    + apply orb_false_elim in Hstop as [Hgt Hne]. apply Z.leb_gt in Hgt.
      destruct (IH (i + 1)
                  {| rs_nodes := rs_nodes (ResidualRound ex g plan (Z.to_nat i) st);
                     rs_delta := rs_delta (ResidualRound ex g plan (Z.to_nat i) st);
                     rs_residual := rs_residual (ResidualRound ex g plan (Z.to_nat i) st);
                     rs_accum := 0 |})
        as (st' & k & Hk & Hacc & Hrun); [lia|lia|].
      exists st', k. split; [lia|]. split; [done|].
      intros [|fuel] Hfuel; [lia|].
      cbn [ResidualLoop]. unfold uwrap. rewrite Z.mod_small by lia.
      apply Z.leb_gt in Hgt. rewrite Hgt, Hne. cbn [orb].
      apply Hrun. lia.
Qed.

Lemma ComputePRResidual_loop (ex : Executor) (g : Graph) (plan : PagerankPlan)
    (nodes : NodeData) (delta residual : list PRTy) :
  0 <= max_iterations plan < 2 ^ 32 →
  ∃ st' k,
    1 <= k <= Z.max 1 (max_iterations plan)
    ∧ ∀ fuel, (Z.to_nat (Z.max 1 (max_iterations plan)) <= fuel)%nat →
        ResidualLoop ex g plan fuel 0
          {| rs_nodes := nodes; rs_delta := delta; rs_residual := residual;
             rs_accum := 0 |}
        = Some (st', k).
Proof.
  intros Hmax.
  destruct (ResidualLoop_runs ex g plan (Z.to_nat (max_iterations plan - 1))
              (proj2 Hmax) 0
              {| rs_nodes := nodes; rs_delta := delta; rs_residual := residual;
                 rs_accum := 0 |})
    as (st' & k & Hk & _ & Hrun); [lia|done|].
  exists st', k. split; [lia|]. intros fuel Hfuel. apply Hrun. lia.
Qed.

(** [ComputePRResidual] always returns: it runs at least one round and at
    most the configured maximum (one round when the maximum is 0), and
    when it stops before the maximum, no node was active in its last
    round. *)
Theorem ComputePRResidual_rounds (ex : Executor) (g : Graph) (plan : PagerankPlan)
    (nodes : NodeData) (delta residual : list PRTy) :
  0 <= max_iterations plan < 2 ^ 32 →
  ∃ st' k,
    1 <= k <= Z.max 1 (max_iterations plan)
    ∧ (k < max_iterations plan → rs_accum st' = 0)
    ∧ ∀ fuel, (Z.to_nat (Z.max 1 (max_iterations plan)) <= fuel)%nat →
        ComputePRResidual ex g plan fuel nodes delta residual = Some (st', k).
Proof.
  intros Hmax.
  destruct (ResidualLoop_runs ex g plan (Z.to_nat (max_iterations plan - 1))
              (proj2 Hmax) 0
              {| rs_nodes := nodes; rs_delta := delta; rs_residual := residual;
                 rs_accum := 0 |})
    as (st' & k & Hk & Hacc & Hrun); [lia|done|].
  exists st', k. split; [lia|]. split; [done|].
  intros fuel Hfuel. apply Hrun. lia.
Qed.

(** The residual algorithm on the two-cycle under the default plan. *)
Lemma ComputePRResidual_rounds_witness :
  ∃ st' k,
    1 <= k <= Z.max 1 (max_iterations default_plan)
    ∧ (k < max_iterations default_plan → rs_accum st' = 0)
    ∧ ∀ fuel, (Z.to_nat (Z.max 1 (max_iterations default_plan)) <= fuel)%nat →
        ComputePRResidual in_order two_cycle default_plan fuel
          (ComputeOutDeg two_cycle (fresh_nodes 2)) [fzero; fzero]
          [initial_residual default_plan; initial_residual default_plan]
        = Some (st', k).
Proof.
  apply (ComputePRResidual_rounds in_order two_cycle default_plan).
  cbn. lia.
Defined.

(** *** Phase 1 of a round *)

Lemma ResidualPhase1_visit (plan : PagerankPlan) (st : ResidualState) (src : nat) :
  sized (length (rs_nodes st)) st → (src < length (rs_nodes st))%nat →
  let st1 := ResidualPhase1 plan st src in
  sized (length (rs_nodes st)) st1
  ∧ phase1_at plan st st1 src
  ∧ (∀ u, u ≠ src → same_at st st1 u)
  ∧ rs_accum st1
    = (if active plan st src then uwrap 32 (rs_accum st + 1) else rs_accum st).
Proof.
  intros (_ & Hd & Hr) Hsrc. unfold ResidualPhase1, phase1_at, same_at, active, sized.
  cbn [out value].
  destruct (SFltb (tolerance plan) (at_ (rs_residual st) src)) eqn:Htol;
    [destruct (0 <? out (GetData (rs_nodes st) src)) eqn:Hout|];
    cbn [rs_nodes rs_delta rs_residual rs_accum andb];
    rewrite ?length_insert, ?node_data_insert_eq, ?at_insert_eq
      by (rewrite ?length_insert; lia);
    cbn [out value];
    (split; [done|]); (split; [by rewrite ?Hout|]);
    (split; [|done]); intros u Hu;
    rewrite ?node_data_insert_ne, ?at_insert_ne by done; done.
Qed.

Lemma filter_agree (P Q : nat → Prop) `{∀ x, Decision (P x)} `{∀ x, Decision (Q x)}
    (l : list nat) :
  (∀ x, x ∈ l → P x ↔ Q x) → filter P l = filter Q l.
Proof.
  induction l as [|x l IH]; intros HPQ; [done|].
  rewrite !filter_cons.
  assert (P x ↔ Q x) as Hx by (apply HPQ; by left).
  rewrite IH by (intros y Hy; apply HPQ; by right).
  destruct (decide (P x)), (decide (Q x)); tauto.
Qed.

Lemma ResidualPhase1_fold (plan : PagerankPlan) (ns : list nat) :
  ∀ st : ResidualState,
    sized (length (rs_nodes st)) st → NoDup ns →
    (∀ m, m ∈ ns → (m < length (rs_nodes st))%nat) →
    let st' := fold_left (ResidualPhase1 plan) ns st in
    sized (length (rs_nodes st)) st'
    ∧ (∀ v, v ∈ ns → phase1_at plan st st' v)
    ∧ (∀ v, v ∉ ns → same_at st st' v)
    ∧ uwrap 32 (rs_accum st')
      = uwrap 32 (rs_accum st
                  + Z.of_nat (length (filter (λ u, active plan st u = true) ns)))
    ∧ (0 <= rs_accum st < 2 ^ 32 → 0 <= rs_accum st' < 2 ^ 32).
Proof.
  induction ns as [|m ns IH]; intros st Hsized Hnodup Hrange; cbn [fold_left].
  - split; [done|]. split; [intros v Hv; by apply elem_of_nil in Hv|].
    split; [done|]. split; [|done]. cbn. f_equal. lia.
  - apply NoDup_cons in Hnodup as [Hm Hnodup].
    destruct (ResidualPhase1_visit plan st m Hsized) as (Hsized1 & Hat & Hother & Hacc);
      [apply Hrange; by left|].
    assert (length (rs_nodes (ResidualPhase1 plan st m)) = length (rs_nodes st)) as Hlen1
      by apply Hsized1.
    destruct (IH (ResidualPhase1 plan st m)) as (Hsized2 & Hin & Hout & Hacc2 & Hbound);
      [by rewrite Hlen1|done|intros u Hu; rewrite Hlen1; apply Hrange; by right|].
    rewrite Hlen1 in Hsized2.
    assert (∀ u, u ≠ m → active plan (ResidualPhase1 plan st m) u = active plan st u)
      as Hactive.
    { intros u Hu. destruct (Hother u Hu) as (Hn & Hr & _).
      unfold active. by rewrite Hn, Hr. }
    split; [done|]. split; [|split; [|split]].
    + intros v [->|Hv]%elem_of_cons.
      * destruct (Hout m Hm) as (Hn & Hr & Hd).
        unfold phase1_at in *. by rewrite Hn, Hr, Hd.
      * assert (v ≠ m) as Hne by (intros ->; done).
        destruct (Hother v Hne) as (Hn & Hr & Hd).
        specialize (Hin v Hv). unfold phase1_at in *.
        by rewrite Hn, Hr in Hin.
    + intros v Hv. apply not_elem_of_cons in Hv as [Hne Hv].
      destruct (Hother v Hne) as (Hn & Hr & Hd).
      destruct (Hout v Hv) as (Hn' & Hr' & Hd').
      unfold same_at. by rewrite Hn', Hr', Hd'.
    + rewrite Hacc2.
      rewrite (filter_agree (λ u, active plan (ResidualPhase1 plan st m) u = true)
                 (λ u, active plan st u = true) ns).
      2:{ intros u Hu. rewrite Hactive; [done|]. intros ->. done. }
      rewrite filter_cons, Hacc.
      destruct (active plan st m) eqn:Hm_active.
      * rewrite decide_True by done. cbn [length].
        unfold uwrap. rewrite Zplus_mod_idemp_l. f_equal. lia.
      * rewrite decide_False by done. done.
    + intros Hb. apply Hbound. rewrite Hacc.
      destruct (active plan st m); [|done].
      unfold uwrap. apply Z.mod_pos_bound. lia.
Qed.

(** Phase 1 of a round, when every node is visited once: a node whose
    residual is above the tolerance adds it to its rank, zeroes it and,
    when it has an out-edge, emits [residual * alpha / out] as its delta;
    any other node keeps rank and residual and has delta 0.  Out-degrees
    do not change, and the accumulator, reset before the round, holds the
    number of active nodes (modulo 2^32). *)
Theorem PageRank_delta_effect (ex : Executor) (g : Graph) (plan : PagerankPlan)
    (round : nat) (st : ResidualState) :
  once ex → sized (length g) st → rs_accum st = 0 →
  let st' := PageRank_delta ex g plan round st in
  sized (length g) st'
  ∧ (∀ v, (v < length g)%nat → phase1_at plan st st' v)
  ∧ rs_accum st'
    = uwrap 32 (Z.of_nat (length (filter (λ u, active plan st u = true)
                                         (seq 0 (length g))))).
Proof.
  intros Honce Hsized Hacc0. unfold PageRank_delta.
  pose proof (Honce (2 * round)%nat (seq 0 (length g))) as Hperm.
  assert (length (rs_nodes st) = length g) as Hlen by apply Hsized.
  destruct (ResidualPhase1_fold plan (do_all_order ex (2 * round) (seq 0 (length g))) st)
    as (Hsized' & Hin & _ & Hacc & Hbound).
  - by rewrite Hlen.
  - rewrite Hperm. apply NoDup_seq.
  - intros m Hm. rewrite Hperm in Hm. apply elem_of_seq in Hm. lia.
  - rewrite Hlen in Hsized'. split; [done|]. split.
    + intros v Hv. apply Hin. rewrite Hperm. apply elem_of_seq. lia.
    + assert (length (filter (λ u, active plan st u = true)
                              (do_all_order ex (2 * round) (seq 0 (length g))))
              = length (filter (λ u, active plan st u = true) (seq 0 (length g))))
        as Hcount by (apply Permutation_length; by f_equiv).
      rewrite Hcount, Hacc0, Z.add_0_l in Hacc. rewrite <- Hacc.
      symmetry. apply Z.mod_small. apply Hbound. lia.
Qed.

(** Phase 1 of the first round on the two-cycle. *)
Lemma PageRank_delta_effect_witness :
  sized 2 (PageRank_delta in_order two_cycle default_plan 0 two_cycle_start)
  ∧ (∀ v, (v < 2)%nat →
       phase1_at default_plan two_cycle_start
         (PageRank_delta in_order two_cycle default_plan 0 two_cycle_start) v)
  ∧ rs_accum (PageRank_delta in_order two_cycle default_plan 0 two_cycle_start)
    = uwrap 32 (Z.of_nat (length (filter (λ u, active default_plan two_cycle_start u = true)
                                         (seq 0 2)))).
Proof.
  apply (PageRank_delta_effect in_order two_cycle default_plan 0 two_cycle_start).
  - apply in_order_once.
  - repeat split; reflexivity.
  - reflexivity.
Defined.

(** *** The initial node data *)

Lemma init_triple_fold {A B C} (x : A) (y : B) (z : C) (ns : list nat) :
  ∀ (a : list A) (b : list B) (c : list C),
    fold_left (λ (st : list A * list B * list C) n,
                 let '(a, b, c) := st in (<[n := x]> a, <[n := y]> b, <[n := z]> c))
              ns (a, b, c)
    = (fold_left (λ a n, <[n := x]> a) ns a,
       fold_left (λ b n, <[n := y]> b) ns b,
       fold_left (λ c n, <[n := z]> c) ns c).
Proof. induction ns as [|n ns IH]; intros a b c; cbn [fold_left]; [done|apply IH]. Qed.

Lemma InitNodeDataTopological_fresh (g : Graph) (nodes : NodeData) :
  length nodes = length g →
  InitNodeDataTopological g nodes
  = replicate (length g)
      {| out := 0; value := fdiv fone (float_of_Z (Z.of_nat (length g))) |}.
Proof.
  intros Hlen. unfold InitNodeDataTopological.
  rewrite fold_insert_seq by lia. by rewrite drop_ge, app_nil_r by lia.
Qed.

Lemma InitNodeDataResidual_fresh (g : Graph) (plan : PagerankPlan)
    (nodes : NodeData) (delta residual : list PRTy) :
  length nodes = length g → length delta = length g → length residual = length g →
  InitNodeDataResidual g plan (nodes, delta, residual)
  = (replicate (length g) {| out := 0; value := fzero |},
     replicate (length g) fzero,
     replicate (length g) (initial_residual plan)).
Proof.
  intros Hn Hd Hr. unfold InitNodeDataResidual.
  rewrite init_triple_fold, !fold_insert_seq by lia.
  rewrite (drop_ge nodes), (drop_ge delta), (drop_ge residual) by lia.
  by rewrite !app_nil_r.
Qed.

Lemma Make_with_records (vals : NodeData) (pg : PropertyGraph) (name : string) :
  Make {| topology := topology pg;
          node_properties := <[name := StructColumn vals]> (node_properties pg);
          edge_properties := edge_properties pg |} name
  = ResultSuccess (topology pg, vals).
Proof. unfold Make, MakeNodes. cbn. by rewrite lookup_insert_eq. Qed.

(** Both algorithms overwrite the node data they are given before they
    read it: what they return, the node data and the number of rounds
    their loops end with, and the property graph they leave, does not
    depend on what the freshly made record column held. *)
Theorem Pagerank_ignores_initial_data (base : Environment) (tmp out_name : string)
    (pg : PropertyGraph) (plan : PagerankPlan) (fuel : nat) (nodes1 nodes2 : NodeData) :
  length nodes1 = num_nodes pg → length nodes2 = num_nodes pg →
  ComputePRTopological (executor base) (topology pg) plan fuel
    (ComputeOutDeg (topology pg) (InitNodeDataTopological (topology pg) nodes1))
  = ComputePRTopological (executor base) (topology pg) plan fuel
      (ComputeOutDeg (topology pg) (InitNodeDataTopological (topology pg) nodes2))
  ∧ InitNodeDataResidual (topology pg) plan
      (nodes1, replicate (num_nodes pg) fzero, replicate (num_nodes pg) fzero)
    = InitNodeDataResidual (topology pg) plan
        (nodes2, replicate (num_nodes pg) fzero, replicate (num_nodes pg) fzero)
  ∧ PagerankPullTopological (with_records nodes1 base) tmp fuel pg out_name plan
    = PagerankPullTopological (with_records nodes2 base) tmp fuel pg out_name plan
  ∧ PagerankPullResidual (with_records nodes1 base) fuel pg out_name plan
    = PagerankPullResidual (with_records nodes2 base) fuel pg out_name plan.
Proof.
  intros H1 H2. unfold num_nodes in *.
  split; [by rewrite !InitNodeDataTopological_fresh|].
  split; [by rewrite !InitNodeDataResidual_fresh by (by rewrite ?length_replicate)|].
  unfold PagerankPullTopological, PagerankPullResidual.
  cbn [with_records ConstructNodeProperties executor type_id StructPropertyType].
  rewrite !Make_with_records. cbn [topology num_nodes].
  rewrite !InitNodeDataTopological_fresh by done.
  unfold num_nodes. cbn [topology].
  rewrite !InitNodeDataResidual_fresh by (by rewrite ?length_replicate).
  split.
  - destruct (ComputePRTopological _ _ _ _ _) as [[nodes k]|]; [|done].
    unfold ExtractValueFromTopoGraph, write_back.
    cbn [with_records ConstructNodeProperties executor type_id NodeValue
           FloatPropertyType topology node_properties edge_properties
           StructPropertyType store].
    by rewrite !insert_insert_eq.
  - destruct (ComputePRResidual _ _ _ _ _ _ _) as [[st k]|]; [|done].
    unfold write_back.
    cbn [topology node_properties edge_properties StructPropertyType store].
    by rewrite !insert_insert_eq.
Qed.

Lemma Pagerank_ignores_initial_data_witness :
  ComputePRTopological in_order two_cycle default_plan 5
    (ComputeOutDeg two_cycle (InitNodeDataTopological two_cycle (fresh_nodes 2)))
  = ComputePRTopological in_order two_cycle default_plan 5
      (ComputeOutDeg two_cycle
         (InitNodeDataTopological two_cycle
            [ {| out := 7; value := fone |}; {| out := 9; value := fzero |} ]))
  ∧ InitNodeDataResidual two_cycle default_plan
      (fresh_nodes 2, replicate 2 fzero, replicate 2 fzero)
    = InitNodeDataResidual two_cycle default_plan
        ([ {| out := 7; value := fone |}; {| out := 9; value := fzero |} ],
         replicate 2 fzero, replicate 2 fzero)
  ∧ PagerankPullTopological (with_records (fresh_nodes 2) in_memory) "tmp" 5
      (bare two_cycle) "rank" default_plan
    = PagerankPullTopological
        (with_records [ {| out := 7; value := fone |}; {| out := 9; value := fzero |} ]
           in_memory)
        "tmp" 5 (bare two_cycle) "rank" default_plan
  ∧ PagerankPullResidual (with_records (fresh_nodes 2) in_memory) 5
      (bare two_cycle) "rank" default_plan
    = PagerankPullResidual
        (with_records [ {| out := 7; value := fone |}; {| out := 9; value := fzero |} ]
           in_memory)
        5 (bare two_cycle) "rank" default_plan.
Proof.
  apply (Pagerank_ignores_initial_data in_memory "tmp" "rank" (bare two_cycle)
           default_plan 5);
    reflexivity.
Defined.

(** *** The out-degrees the shares are divided by *)

Lemma edge_in_concat (g : Graph) (src dest : nat) :
  dest ∈ edges g src → In dest (concat g).
Proof.
  unfold edges. intros Hd. destruct (g !! src) as [l|] eqn:Hl; cbn in Hd.
  - apply in_concat. exists l.
    split; [by apply list_elem_of_In, (list_elem_of_lookup_2 g src)|by apply list_elem_of_In].
  - by apply elem_of_nil in Hd.
Qed.

(** The rank shares are never divided by zero: on a graph of fewer than
    2^32 edges whose destinations are nodes, after any number of rounds of
    the topological algorithm the out-degree stored at a predecessor is
    the number of adjacency-list entries that lead to it, which is
    positive. *)
Theorem shares_divide_by_positive_degree (ex : Executor) (g : Graph)
    (plan : PagerankPlan) (nodes : NodeData) (k src dest : nat) :
  length nodes = length g →
  (∀ n d, d ∈ edges g n → (d < length g)%nat) →
  Z.of_nat (length (concat g)) < 2 ^ 32 →
  dest ∈ edges g src →
  out (GetData (after_rounds ex g plan k
                  (ComputeOutDeg g (InitNodeDataTopological g nodes))).1 dest)
  = in_degree g dest
  ∧ 0 < in_degree g dest.
Proof.
  intros Hlen Hwf Hsmall Hdest.
  pose proof (edge_in_concat g src dest Hdest) as Hin.
  apply (count_occ_In Nat.eq_dec) in Hin.
  pose proof (count_occ_bound Nat.eq_dec dest (concat g)) as Hbound.
  split; [|unfold in_degree; lia].
  rewrite after_rounds_out.
  rewrite ComputeOutDeg_counts;
    [|by rewrite InitNodeDataTopological_fresh, length_replicate|by eapply Hwf].
  cbn [out]. unfold uwrap, in_degree. apply Z.mod_small. lia.
Qed.

Lemma shares_divide_by_positive_degree_witness :
  out (GetData (after_rounds in_order two_cycle default_plan 3
                  (ComputeOutDeg two_cycle
                     (InitNodeDataTopological two_cycle (fresh_nodes 2)))).1 1)
  = in_degree two_cycle 1
  ∧ 0 < in_degree two_cycle 1.
Proof.
  apply (shares_divide_by_positive_degree in_order two_cycle default_plan
           (fresh_nodes 2) 3 0 1).
  - reflexivity.
  - intros n d Hd. destruct n as [|[|n]]; cbn in Hd.
    + apply list_elem_of_singleton in Hd as ->. cbn. lia.
    + apply list_elem_of_singleton in Hd as ->. cbn. lia.
    + by apply elem_of_nil in Hd.
  - reflexivity.
  - cbn. by left.
Defined.

(** *** One rank per node *)

Lemma copy_fold_length (c : nat → Z) (ns : list nat) (nodes : NodeData) :
  length (fold_left
            (λ nodes src,
               <[src := {| out := c src; value := value (GetData nodes src) |}]> nodes)
            ns nodes)
  = length nodes.
Proof.
  revert nodes. induction ns as [|n ns IH]; intros nodes; cbn [fold_left]; [done|].
  by rewrite IH, length_insert.
Qed.

Lemma ComputeOutDeg_length (g : Graph) (nodes : NodeData) :
  length (ComputeOutDeg g nodes) = length nodes.
Proof.
  unfold ComputeOutDeg.
  apply (copy_fold_length
           (λ src, uwrap 32 (default 0
              (fold_left
                 (λ vec src,
                    fold_left
                      (λ vec dest, <[dest := uwrap 64 (default 0 (vec !! dest) + 1)]> vec)
                      (edges g src) vec)
                 (seq 0 (length g)) (replicate (length g) 0) !! src)))).
Qed.

Lemma ResidualPhase1_nodes_length (plan : PagerankPlan) (l : list nat)
    (st : ResidualState) :
  length (rs_nodes (fold_left (ResidualPhase1 plan) l st)) = length (rs_nodes st).
Proof.
  revert st. induction l as [|n l IH]; intros st; cbn [fold_left]; [done|].
  rewrite IH. unfold ResidualPhase1.
  destruct (SFltb _ _); [destruct (0 <? _)|]; cbn [rs_nodes];
    by rewrite ?length_insert.
Qed.

Lemma ResidualRound_nodes_length (ex : Executor) (g : Graph) (plan : PagerankPlan)
    (round : nat) (st : ResidualState) :
  length (rs_nodes (ResidualRound ex g plan round st)) = length (rs_nodes st).
Proof.
  unfold ResidualRound, PageRank, PageRank_delta.
  destruct (ResidualPhase2_fold g (do_all_order ex (2 * round + 1) (seq 0 (length g)))
              (fold_left (ResidualPhase1 plan)
                 (do_all_order ex (2 * round) (seq 0 (length g))) st)) as (-> & _).
  apply ResidualPhase1_nodes_length.
Qed.

Lemma ResidualLoop_nodes_length (ex : Executor) (g : Graph) (plan : PagerankPlan)
    (fuel : nat) :
  ∀ (i : Z) (st st' : ResidualState) (k : Z),
    ResidualLoop ex g plan fuel i st = Some (st', k) →
    length (rs_nodes st') = length (rs_nodes st).
Proof.
  induction fuel as [|fuel IH]; intros i st st' k Hrun; [done|].
  cbn [ResidualLoop] in Hrun.
  destruct (_ || _).
  - injection Hrun as <- <-. apply ResidualRound_nodes_length.
  - apply IH in Hrun. cbn [rs_nodes] in Hrun.
    by rewrite Hrun, ResidualRound_nodes_length.
Qed.

(** *** The entry points *)

Lemma copy_lookup (f : nat → PRTy) (l : list nat) (ranks : list PRTy) (u : nat) :
  fold_left (λ graph i, <[i := f i]> graph) l ranks !! u
  = if decide (u ∈ l ∧ (u < length ranks)%nat) then Some (f u) else ranks !! u.
Proof.
  revert ranks. induction l as [|v l IH]; intros ranks; cbn [fold_left].
  - rewrite decide_False; [done|]. intros [Hu _]. by apply elem_of_nil in Hu.
  - rewrite IH, length_insert.
    destruct (decide (u ∈ l ∧ (u < length ranks)%nat)) as [[Hl Hlt]|Hno].
    + rewrite decide_True; [done|]. split; [by right|done].
    + destruct (decide (u = v)) as [->|Hne].
      * destruct (decide (v < length ranks)%nat) as [Hlt|Hge].
        -- rewrite list_lookup_insert_eq by done.
           rewrite decide_True; [done|]. split; [by left|done].
        -- rewrite list_insert_ge by lia.
           rewrite decide_False; [done|]. intros [_ ?]. lia.
      * rewrite list_lookup_insert_ne by done.
        rewrite decide_False; [done|].
        intros [[->|Hl]%elem_of_cons Hlt]; [done|]. apply Hno. by split.
Qed.

(** The copy loop of [ExtractValueFromTopoGraph] leaves the ranks of the
    nodes in the output column. *)
Lemma copy_ranks (from : NodeData) (l : list nat) (ranks : list PRTy) :
  length ranks = length from → (∀ v, (v < length from)%nat → v ∈ l) →
  fold_left (λ graph i, <[i := value (GetData from i)]> graph) l ranks
  = map value from.
Proof.
  intros Hlen Hall. apply list_eq. intros u.
  rewrite (copy_lookup (λ i, value (GetData from i))).
  change (map value from) with (value <$> from). rewrite list_lookup_fmap.
  destruct (decide (u < length from)%nat) as [Hu|Hu].
  - rewrite decide_True by (split; [by apply Hall|lia]).
    destruct (lookup_lt_is_Some_2 from u Hu) as [x Hx].
    unfold GetData. by rewrite Hx.
  - rewrite decide_False by (intros [_ ?]; lia).
    by rewrite !lookup_ge_None_2 by lia.
Qed.

Lemma MakeNodes_cases {W} {Pt : PropertyType W} (pg : PropertyGraph) (name : string) :
  (∃ e, MakeNodes pg name = ResultError e)
  ∨ ∃ col d, node_properties pg !! name = Some col ∧ view col = Some d
             ∧ MakeNodes pg name = ResultSuccess d.
Proof.
  unfold MakeNodes. destruct (node_properties pg !! name) as [col|]; [|left; by eexists].
  destruct (view col) as [d|] eqn:Hview; [|left; by eexists].
  right. by exists col, d.
Qed.

Lemma ComputePRTopological_returns (ex : Executor) (g : Graph) (plan : PagerankPlan)
    (nodes : NodeData) (fuel : nat) :
  0 <= max_iterations plan < 2 ^ 32 →
  (Z.to_nat (Z.max 1 (max_iterations plan)) <= fuel)%nat →
  ∃ nodes' k, ComputePRTopological ex g plan fuel nodes = Some (nodes', k)
              ∧ length nodes' = length nodes
              ∧ 1 <= k <= Z.max 1 (max_iterations plan).
Proof.
  intros Hmax Hfuel.
  destruct (TopoLoop_runs ex g plan nodes fuel 0 Hmax)
    as (k & Hk & Hrun & _); [lia|lia|intros j Hj; lia|].
  exists (after_rounds ex g plan k nodes).1, (Z.of_nat k).
  split; [exact Hrun|]. split; [apply after_rounds_length|lia].
Qed.

Lemma ComputePRResidual_returns (ex : Executor) (g : Graph) (plan : PagerankPlan)
    (nodes : NodeData) (delta residual : list PRTy) (fuel : nat) :
  0 <= max_iterations plan < 2 ^ 32 →
  (Z.to_nat (Z.max 1 (max_iterations plan)) <= fuel)%nat →
  ∃ st k, ComputePRResidual ex g plan fuel nodes delta residual = Some (st, k)
          ∧ length (rs_nodes st) = length nodes
          ∧ 1 <= k <= Z.max 1 (max_iterations plan).
Proof.
  intros Hmax Hfuel.
  destruct (ComputePRResidual_loop ex g plan nodes delta residual Hmax)
    as (st' & k & Hk & Hrun).
  exists st', k. split; [by apply Hrun|]. split; [|done].
  pose proof (Hrun _ Hfuel) as Hrun0.
  by apply ResidualLoop_nodes_length in Hrun0.
Qed.

(** Given fuel for the configured maximum of rounds, both entry
    algorithms return, whatever the storage layer answers.  The rounds
    end with node data for each node after a number of rounds that is at
    least one and at most the maximum (one when the maximum is 0).  The
    topological algorithm leaves no temporary column behind; when it
    succeeds, the output column holds the ranks the rounds ended with, as
    [float]s, one for each node; the residual algorithm, when it succeeds,
    leaves the node data, ranks and out-degrees, in the output column.
    An error is what the storage layer answered to one of the requests
    for a column or its typed view. *)
Theorem Pagerank_returns_rank_per_node (env : Environment) (tmp out_name : string)
    (pg : PropertyGraph) (plan : PagerankPlan) (fuel : nat) :
  0 <= max_iterations plan < 2 ^ 32 →
  (Z.to_nat (Z.max 1 (max_iterations plan)) <= fuel)%nat →
  allocates env → fair (executor env) → tmp ≠ out_name →
  (∃ nodes k,
      ComputePRTopological (executor env) (topology pg) plan fuel
        (initial_nodes (topology pg)
           (fdiv fone (float_of_Z (Z.of_nat (num_nodes pg)))))
      = Some (nodes, k)
      ∧ length nodes = num_nodes pg
      ∧ 1 <= k <= Z.max 1 (max_iterations plan)
      ∧ ∃ r pg', PagerankPullTopological env tmp fuel pg out_name plan = Some (r, pg')
          ∧ node_properties pg' !! tmp = None
          ∧ match r with
            | ResultSuccess _ =>
                node_properties pg' !! out_name
                = Some (FloatColumn FLOAT (map value nodes))
            | ResultError e => topological_storage_error env tmp out_name pg nodes e
            end)
  ∧ (∃ st k,
      ComputePRResidual (executor env) (topology pg) plan fuel
        (initial_nodes (topology pg) fzero)
        (replicate (num_nodes pg) fzero)
        (replicate (num_nodes pg) (initial_residual plan))
      = Some (st, k)
      ∧ length (rs_nodes st) = num_nodes pg
      ∧ 1 <= k <= Z.max 1 (max_iterations plan)
      ∧ ∃ r pg', PagerankPullResidual env fuel pg out_name plan = Some (r, pg')
          ∧ match r with
            | ResultSuccess _ =>
                node_properties pg' !! out_name = Some (StructColumn (rs_nodes st))
            | ResultError e => residual_storage_error env out_name pg e
            end).
Proof.
  intros Hmax Hfuel Halloc Hfair Hne. unfold num_nodes. split.
  - destruct (ComputePRTopological_returns (executor env) (topology pg) plan
                (initial_nodes (topology pg)
                   (fdiv fone (float_of_Z (Z.of_nat (length (topology pg))))))
                fuel Hmax Hfuel) as (nodes & k & Hrun & Hlen & Hk).
    exists nodes, k. split; [done|].
    unfold initial_nodes in Hlen. rewrite ComputeOutDeg_length, length_replicate in Hlen.
    split; [done|]. split; [done|].
    unfold PagerankPullTopological, topological_storage_error.
    cbn [type_id StructPropertyType].
    destruct (ConstructNodeProperties env FIXED_SIZE_BINARY pg tmp) as [pg1|e] eqn:Hc1.
    2:{ eexists _, _. split; [done|]. cbn. rewrite lookup_delete_eq. split; [done|].
        by left. }
    destruct (Halloc _ _ _ _ Hc1) as [Htopo Hcol].
    unfold Make.
    destruct (@MakeNodes_cases _ StructPropertyType pg1 tmp)
      as [[e He]|(col & vals & Hlook & Hview & Hmake)].
    { rewrite He. eexists _, _. split; [done|]. cbn. rewrite lookup_delete_eq.
      split; [done|]. right. exists pg1. split; [done|]. left.
      unfold Make. by rewrite He. }
    rewrite Hmake. rewrite Htopo.
    assert (length vals = length (topology pg)) as Hvals.
    { specialize (Hcol col Hlook). destruct col; cbn in Hview; try done.
      injection Hview as <-. exact Hcol. }
    rewrite (InitNodeDataTopological_fresh _ vals Hvals).
    unfold initial_nodes in Hrun. rewrite Hrun.
    unfold ExtractValueFromTopoGraph. cbn [type_id NodeValue FloatPropertyType fst snd].
    set (pg2 := @write_back _ StructPropertyType pg1 tmp nodes).
    destruct (ConstructNodeProperties env FLOAT pg2 out_name) as [pg3|e] eqn:Hc2.
    2:{ eexists _, _. split; [done|]. cbn. rewrite lookup_delete_eq. split; [done|].
        right. exists pg1. split; [done|]. right. left. exact Hc2. }
    destruct (Halloc _ _ _ _ Hc2) as [Htopo2 Hcol2].
    destruct (@MakeNodes_cases _ NodeValue pg3 out_name)
      as [[e He]|(col2 & ranks & Hlook2 & Hview2 & Hmake2)].
    { rewrite He. eexists _, _. split; [done|]. cbn. rewrite lookup_delete_eq.
      split; [done|]. right. exists pg1. split; [done|]. right. right.
      exists pg3. by split. }
    rewrite Hmake2.
    assert (length ranks = length nodes) as Hranks.
    { specialize (Hcol2 col2 Hlook2). unfold num_nodes, pg2 in Hcol2.
      cbn [write_back topology] in Hcol2. rewrite Htopo in Hcol2.
      destruct col2 as [t vs|t vs|vs]; cbn in Hview2; try done.
      destruct (ArrowTypeId_eqb t FLOAT); [|done]. injection Hview2 as <-.
      cbn in Hcol2. etrans; [exact Hcol2|symmetry; exact Hlen]. }
    rewrite copy_ranks; [|done|].
    2:{ intros v Hv. apply Hfair, list_elem_of_In, in_seq. lia. }
    eexists _, _. split; [done|]. cbn.
    rewrite lookup_delete_eq. split; [done|].
    by rewrite lookup_delete_ne, lookup_insert_eq.
  - destruct (ComputePRResidual_returns (executor env) (topology pg) plan
                (initial_nodes (topology pg) fzero)
                (replicate (length (topology pg)) fzero)
                (replicate (length (topology pg)) (initial_residual plan))
                fuel Hmax Hfuel) as (st & k & Hrun & Hlen & Hk).
    exists st, k. split; [done|].
    unfold initial_nodes in Hlen. rewrite ComputeOutDeg_length, length_replicate in Hlen.
    split; [done|]. split; [done|].
    unfold PagerankPullResidual, residual_storage_error.
    cbn [type_id StructPropertyType].
    destruct (ConstructNodeProperties env FIXED_SIZE_BINARY pg out_name)
      as [pg1|e] eqn:Hc1.
    2:{ eexists _, _. split; [done|]. by left. }
    destruct (Halloc _ _ _ _ Hc1) as [Htopo Hcol].
    unfold Make.
    destruct (@MakeNodes_cases _ StructPropertyType pg1 out_name)
      as [[e He]|(col & vals & Hlook & Hview & Hmake)].
    { rewrite He. eexists _, _. split; [done|]. right. exists pg1. split; [done|].
      unfold Make. by rewrite He. }
    rewrite Hmake. unfold num_nodes. rewrite Htopo.
    assert (length vals = length (topology pg)) as Hvals.
    { specialize (Hcol col Hlook). destruct col; cbn in Hview; try done.
      injection Hview as <-. exact Hcol. }
    rewrite InitNodeDataResidual_fresh by (by rewrite ?length_replicate).
    unfold initial_nodes in Hrun. rewrite Hrun.
    eexists _, _. split; [done|]. cbn. by rewrite lookup_insert_eq.
Qed.

Lemma in_memory_allocates : allocates in_memory.
Proof.
  intros t pg name pg' [= <-]. split; [done|]. cbn.
  intros col. rewrite lookup_insert_eq. intros [= <-].
  unfold fresh_column, fresh_nodes. destruct t; cbn; by rewrite length_replicate.
Qed.

(** The two-cycle, kept in memory. *)
Lemma Pagerank_returns_rank_per_node_witness :
  (∃ nodes k,
      ComputePRTopological in_order two_cycle default_plan 1000
        (initial_nodes two_cycle (fdiv fone (float_of_Z 2)))
      = Some (nodes, k)
      ∧ length nodes = 2%nat
      ∧ 1 <= k <= Z.max 1 (max_iterations default_plan)
      ∧ ∃ r pg', PagerankPullTopological in_memory "tmp" 1000 (bare two_cycle) "rank"
                   default_plan
                 = Some (r, pg')
          ∧ node_properties pg' !! "tmp" = None
          ∧ match r with
            | ResultSuccess _ =>
                node_properties pg' !! "rank" = Some (FloatColumn FLOAT (map value nodes))
            | ResultError e =>
                topological_storage_error in_memory "tmp" "rank" (bare two_cycle) nodes e
            end)
  ∧ (∃ st k,
      ComputePRResidual in_order two_cycle default_plan 1000
        (initial_nodes two_cycle fzero)
        (replicate 2 fzero) (replicate 2 (initial_residual default_plan))
      = Some (st, k)
      ∧ length (rs_nodes st) = 2%nat
      ∧ 1 <= k <= Z.max 1 (max_iterations default_plan)
      ∧ ∃ r pg', PagerankPullResidual in_memory 1000 (bare two_cycle) "rank" default_plan
                 = Some (r, pg')
          ∧ match r with
            | ResultSuccess _ =>
                node_properties pg' !! "rank" = Some (StructColumn (rs_nodes st))
            | ResultError e => residual_storage_error in_memory "rank" (bare two_cycle) e
            end).
Proof.
  apply (Pagerank_returns_rank_per_node in_memory "tmp" "rank" (bare two_cycle)
           default_plan 1000).
  - cbn. lia.
  - vm_compute. lia.
  - exact in_memory_allocates.
  - intros round l x Hx. exact Hx.
  - discriminate.
Defined.

(** An error of the storage layer is handed on: with a storage layer
    that refuses to make a column, both algorithms return its error
    before any round, and the topological one leaves the graph without
    the temporary column. *)
Lemma Pagerank_storage_refuses :
  PagerankPullTopological read_only "tmp" 0 (bare two_cycle) "rank" default_plan
  = Some (ResultError AlreadyExists, bare two_cycle)
  ∧ PagerankPullResidual read_only 0 (bare two_cycle) "rank" default_plan
    = Some (ResultError AlreadyExists, bare two_cycle).
Proof. split; vm_compute; reflexivity. Qed.

End pagerank_more.

(** ** SSSP: what the strategies write *)

Module sssp_writes.
Import sssp sssp_entry sssp_spec sssp_order sssp_runs sssp_examples more_spec more_examples.

Section Writes.
Context {W : Type} {Wt : Weight W}.
Variable g : Graph W.

(** A property of the distance array that survives every write the
    strategies make: a candidate [y + w] of an edge, stored at the
    destination of the edge when it is below the value there. *)
Variable P : list W → Prop.
Hypothesis Hwrite :
  ∀ d u e y, P d → e ∈ edges g u →
    wltb (wadd y e.2) (GetData d e.1) = true → P (<[e.1 := wadd y e.2]> d).

Lemma topoRelax_keeps n u d e : e ∈ edges g u → P d → P (topoRelax n d e).
Proof.
  intros He Hd. unfold topoRelax, atomicMin. cbn [snd].
  destruct (wltb _ _) eqn:Hlt; [|done]. by apply (Hwrite d u).
Qed.

Lemma topoRelax_fold_keeps n u es d :
  (∀ e, e ∈ es → e ∈ edges g u) → P d → P (fold_left (topoRelax n) es d).
Proof.
  revert d. induction es as [|e es IH]; intros d Hes Hd; cbn [fold_left]; [done|].
  apply IH; [intros e' He'; apply Hes; by right|].
  apply (topoRelax_keeps n u); [apply Hes; by left|done].
Qed.

Lemma TopoVisit_keeps st n : P st.1.1 → P (TopoVisit g st n).1.1.
Proof.
  destruct st as [[d old_dist] changed]. cbn [fst]. intros Hd. unfold TopoVisit.
  destruct (wltb _ _); [|done]. cbn [fst].
  by apply (topoRelax_fold_keeps n n).
Qed.

Lemma TopoTileVisit_keeps st i : P st.1.1 → P (TopoTileVisit g st i).1.1.
Proof.
  destruct st as [[d tiles] changed]. cbn [fst]. intros Hd. unfold TopoTileVisit.
  destruct (tiles !! i) as [t|]; [|done].
  destruct (wltb _ _); [|done]. cbn [fst].
  apply (topoRelax_fold_keeps (t_src t) (t_src t)); [|done].
  intros e He. by apply (sssp_shortest.edge_range_sub g) in He.
Qed.

Lemma topo_steps_keep st st' : rtc (topo_step g) st st' → P st.1 → P st'.1.
Proof.
  intros Hrtc. induction Hrtc as [st|st1 st2 st3 Hstep _ IH]; [done|].
  intros H1. apply IH. destruct Hstep as [d old_dist changed n].
  apply (TopoVisit_keeps (d, old_dist, changed) n H1).
Qed.

Lemma topo_tile_steps_keep st st' : rtc (topo_tile_step g) st st' → P st.1 → P st'.1.
Proof.
  intros Hrtc. induction Hrtc as [st|st1 st2 st3 Hstep _ IH]; [done|].
  intros H1. apply IH. destruct Hstep as [d tiles changed i].
  apply (TopoTileVisit_keeps (d, tiles, changed) i H1).
Qed.

Section Worklist.
Context {T : Type} {Rq : Request (W := W) T}.
Variable pushWrap : nat → W → list T.
Variable edgeRange : T → list (nat * W).
Hypothesis Hranged : ranged g edgeRange.

Lemma relaxSerial_keeps x u st e :
  e ∈ edges g u → P st.1 → P (relaxSerial pushWrap x st e).1.
Proof.
  intros He Hd. unfold relaxSerial. destruct (wltb _ _) eqn:Hlt; [|done].
  cbn [fst]. by apply (Hwrite _ u).
Qed.

Lemma relaxAtomic_keeps s u st e :
  e ∈ edges g u → P st.1 → P (relaxAtomic pushWrap s st e).1.
Proof.
  intros He Hd. unfold relaxAtomic, atomicMin.
  destruct (wltb _ _) eqn:Hlt; cbn [fst]; [|done]. by apply (Hwrite _ u).
Qed.

Lemma relax_fold_keeps (relax : list W * list T → nat * W → list W * list T) u es st :
  (∀ st e, e ∈ edges g u → P st.1 → P (relax st e).1) →
  (∀ e, e ∈ es → e ∈ edges g u) → P st.1 → P (fold_left relax es st).1.
Proof.
  intros Hrelax. revert st. induction es as [|e es IH]; intros st Hes Hst; [done|].
  cbn [fold_left]. apply IH; [intros e' He'; apply Hes; by right|].
  apply Hrelax; [apply Hes; by left|done].
Qed.

Lemma SerialBody_keeps item st :
  P st.1 → P (SerialBody pushWrap edgeRange item st).1.
Proof.
  intros Hst. unfold SerialBody. destruct (wltb _ (dist item)); [done|].
  apply (relax_fold_keeps _ (src item)); [|apply Hranged|done].
  intros st' e. apply relaxSerial_keeps.
Qed.

Lemma DeltaStepBody_keeps item st :
  P st.1 → P (DeltaStepBody pushWrap edgeRange item st).1.
Proof.
  intros Hst. unfold DeltaStepBody. destruct (wltb _ (dist item)); [done|].
  apply (relax_fold_keeps _ (src item)); [|apply Hranged|done].
  intros st' e. apply relaxAtomic_keeps.
Qed.

Lemma wl_steps_keep (body : T → list W * list T → list W * list T) st st' :
  (∀ item st, P st.1 → P (body item st).1) →
  rtc (wl_step body) st st' → P st.1 → P st'.1.
Proof.
  intros Hbody Hrtc. induction Hrtc as [st|st1 st2 st3 Hstep _ IH]; [done|].
  intros H1. apply IH. destruct Hstep as [d wl item wl' _]. by apply Hbody.
Qed.

Lemma DijkstraAlgo_keeps fuel d source d' :
  DijkstraAlgo pushWrap edgeRange fuel d source = Some d' →
  P (<[source := wzero]> d) → P d'.
Proof.
  unfold DijkstraAlgo. intros Hrun.
  destruct (loop fuel _ _) as [st'|] eqn:Hloop; [|done].
  injection Hrun as <-. apply Dijkstra_loop_rtc in Hloop as [Hrtc _].
  apply (wl_steps_keep _ _ _ SerialBody_keeps Hrtc).
Qed.

Lemma SerDeltaAlgo_keeps fuel d source shift d' :
  SerDeltaAlgo pushWrap edgeRange fuel d source shift = Some (Returns d') →
  P (<[source := wzero]> d) → P d'.
Proof.
  intros Hrtc%SerDeltaAlgo_rtc.
  apply (wl_steps_keep _ _ _ SerialBody_keeps Hrtc).
Qed.

Lemma DeltaStepAlgo_keeps ex fuel d source d' :
  DeltaStepAlgo pushWrap edgeRange ex fuel d source = Some d' →
  P (<[source := wzero]> d) → P d'.
Proof.
  unfold DeltaStepAlgo. intros Hrun.
  destruct (for_each _ _ _ _ _ _) as [st'|] eqn:Hloop; [|done].
  injection Hrun as <-. apply for_each_rtc in Hloop as [Hrtc _].
  apply (wl_steps_keep _ _ _ DeltaStepBody_keeps Hrtc).
Qed.

End Worklist.

Lemma TopoAlgo_keeps ex fuel d source d' :
  TopoAlgo ex g fuel d source = Some d' → P (<[source := wzero]> d) → P d'.
Proof.
  unfold TopoAlgo. intros Hrun. apply TopoLoop_rtc in Hrun as [old' Hrtc].
  apply (topo_steps_keep _ _ Hrtc).
Qed.

Lemma TopoTileAlgo_keeps ex tile fuel d source d' :
  TopoTileAlgo ex g tile fuel d source = Some d' → P (<[source := wzero]> d) → P d'.
Proof.
  unfold TopoTileAlgo. intros Hrun. apply TopoTileLoop_rtc in Hrun as [tiles' Hrtc].
  apply (topo_tile_steps_keep _ _ Hrtc).
Qed.

(** Whatever strategy [SSSP] runs, a property that survives the guarded
    writes holds of the result when it holds of the initial distances. *)
Lemma SSSP_keeps env tile fuel d start_node plan r d' :
  SSSP env tile fuel g d start_node plan = Some (Returns (r, d')) →
  (start_node < length g)%nat →
  P (initial_distances g d start_node) → P d'.
Proof.
  intros Hrun Hstart HP.
  unfold SSSP in Hrun. apply Nat.leb_gt in Hstart as Hguard. rewrite Hguard in Hrun.
  fold (initial_distances g d start_node) in Hrun.
  rewrite <- (sssp_monotone.initial_distances_source g d start_node) in HP.
  set (d1 := initial_distances g d start_node) in *.
  set (plan' := match algorithm plan with kAutomatic => _ | _ => plan end) in Hrun.
  destruct (algorithm plan'); cbn in Hrun;
    try (match type of Hrun with
         | (Run_map _ <$> ?a) = Some _ =>
             destruct a as [[dr|]|] eqn:Halgo; [|done..]; injection Hrun as <- <-
         | (_ <$> ?a) = Some _ =>
             destruct a as [dr|] eqn:Halgo; [|done]; injection Hrun as <- <-
         end);
    try (match type of Halgo with
         | @DeltaStepAlgo _ _ ?T' ?Rq' ?pw (TileRangeFn g) ?ex ?fl ?d0 ?s = _ =>
             exact (@DeltaStepAlgo_keeps T' Rq' pw _
                      (sssp_shortest.TileRangeFn_ranged g) ex fl d0 s _ Halgo HP)
         | @DeltaStepAlgo _ _ ?T' ?Rq' ?pw (OutEdgeRangeFn g) ?ex ?fl ?d0 ?s = _ =>
             exact (@DeltaStepAlgo_keeps T' Rq' pw _
                      (sssp_monotone.OutEdgeRangeFn_ranged g) ex fl d0 s _ Halgo HP)
         | @SerDeltaAlgo _ _ ?T' ?Rq' ?pw (TileRangeFn g) ?fl ?d0 ?s ?sh = _ =>
             exact (@SerDeltaAlgo_keeps T' Rq' pw _
                      (sssp_shortest.TileRangeFn_ranged g) fl d0 s sh _ Halgo HP)
         | @SerDeltaAlgo _ _ ?T' ?Rq' ?pw (OutEdgeRangeFn g) ?fl ?d0 ?s ?sh = _ =>
             exact (@SerDeltaAlgo_keeps T' Rq' pw _
                      (sssp_monotone.OutEdgeRangeFn_ranged g) fl d0 s sh _ Halgo HP)
         | @DijkstraAlgo _ _ ?T' ?Rq' ?pw (TileRangeFn g) ?fl ?d0 ?s = _ =>
             exact (@DijkstraAlgo_keeps T' Rq' pw _
                      (sssp_shortest.TileRangeFn_ranged g) fl d0 s _ Halgo HP)
         | @DijkstraAlgo _ _ ?T' ?Rq' ?pw (OutEdgeRangeFn g) ?fl ?d0 ?s = _ =>
             exact (@DijkstraAlgo_keeps T' Rq' pw _
                      (sssp_monotone.OutEdgeRangeFn_ranged g) fl d0 s _ Halgo HP)
         | TopoAlgo _ _ _ _ _ = _ => exact (TopoAlgo_keeps _ _ _ _ _ Halgo HP)
         | TopoTileAlgo _ _ _ _ _ _ = _ => exact (TopoTileAlgo_keeps _ _ _ _ _ _ Halgo HP)
         end).
  injection Hrun as <- <-. subst d1.
  by rewrite sssp_monotone.initial_distances_source in HP.
Qed.

End Writes.

Section Frame.
Context {W : Type} {Wt : Weight W}.

Lemma initial_distances_fresh (g : Graph W) (d : list W) (start_node : nat) :
  length d = length g →
  initial_distances g d start_node
  = <[start_node := wzero]> (replicate (length g) kDistanceInfinity).
Proof.
  intros Hlen. unfold initial_distances.
  rewrite pagerank_more.fold_insert_seq by lia.
  by rewrite drop_ge, app_nil_r by lia.
Qed.

Lemma GetData_initial_distances (g : Graph W) (d : list W) (start_node v : nat) :
  length d = length g → (start_node < length g)%nat →
  GetData (initial_distances g d start_node) v
  = if decide (v = start_node) then wzero else kDistanceInfinity.
Proof.
  intros Hlen Hstart. rewrite initial_distances_fresh by done.
  rewrite GetData_insert, length_replicate.
  destruct (decide (v = start_node)) as [->|Hne].
  - by rewrite decide_True.
  - rewrite decide_False by (intros [? _]; congruence).
    unfold GetData. destruct (decide (v < length g)%nat).
    + by rewrite lookup_replicate_2.
    + by rewrite lookup_ge_None_2 by (rewrite length_replicate; lia).
Qed.

(** [SSSP] returns [InvalidArgument] in two cases and in no other: when
    the start node is out of range, with the distances untouched; and when
    the plan is still [kAutomatic] after the heuristic was asked, in which
    case the distances have already been reset (all at the sentinel, the
    start node at zero).  Neither case needs fuel. *)
Theorem SSSP_InvalidArgument (env : Environment) (tile fuel : nat) (g : Graph W)
    (d : list W) (start_node : nat) (plan : SsspPlan) :
  ((length g <= start_node)%nat →
     SSSP env tile fuel g d start_node plan
     = Some (Returns (ResultError InvalidArgument, d)))
  ∧ ((start_node < length g)%nat →
     algorithm (chosen_plan env g plan) = kAutomatic →
     SSSP env tile fuel g d start_node plan
     = Some (Returns (ResultError InvalidArgument, initial_distances g d start_node)))
  ∧ (∀ r d', SSSP env tile fuel g d start_node plan = Some (Returns (r, d')) →
       r = ResultSuccess ()
       ∨ r = ResultError InvalidArgument
         ∧ ((length g <= start_node)%nat
            ∨ algorithm (chosen_plan env g plan) = kAutomatic)).
Proof.
  unfold SSSP. fold (initial_distances g d start_node). fold (chosen_plan env g plan).
  split; [|split].
  - intros Hout. apply Nat.leb_le in Hout. by rewrite Hout.
  - intros Hin Hauto. apply Nat.leb_gt in Hin. by rewrite Hin, Hauto.
  - intros r d'. destruct (Nat.leb_spec (length g) start_node) as [Hout|Hin].
    + intros [= <- <-]. right. split; [done|by left].
    + destruct (algorithm (chosen_plan env g plan)) eqn:Halg; cbn;
        try (intros Hrun;
             match type of Hrun with
             | (Run_map _ <$> ?a) = Some _ =>
                 destruct a as [[?|]|]; [|done..]; injection Hrun as <- <-; by left
             | (_ <$> ?a) = Some _ =>
                 destruct a; [|done]; injection Hrun as <- <-; by left
             end).
      intros [= <- <-]. right. split; [done|by right].
Qed.

(** The result of [SSSP] does not depend on what the distance column held
    before the call. *)
Theorem SSSP_ignores_prior_distances (env : Environment) (tile fuel : nat)
    (g : Graph W) (d1 d2 : list W) (start_node : nat) (plan : SsspPlan) :
  length d1 = length g → length d2 = length g → (start_node < length g)%nat →
  SSSP env tile fuel g d1 start_node plan = SSSP env tile fuel g d2 start_node plan.
Proof.
  intros H1 H2 Hstart. unfold SSSP. apply Nat.leb_gt in Hstart. rewrite Hstart.
  fold (initial_distances g d1 start_node). fold (initial_distances g d2 start_node).
  by rewrite !initial_distances_fresh.
Qed.

(** The strategies write only at destinations of edges: after [SSSP] the
    distance column has its length, and a node that no edge leads to holds
    what the reset put there: zero at the start node, the sentinel
    elsewhere. *)
Theorem SSSP_writes_only_destinations (env : Environment) (tile fuel : nat)
    (g : Graph W) (d : list W) (start_node : nat) (plan : SsspPlan)
    (r : Result ()) (d' : list W) :
  SSSP env tile fuel g d start_node plan = Some (Returns (r, d')) →
  (start_node < length g)%nat → length d = length g →
  length d' = length g
  ∧ ∀ v, (∀ u e, e ∈ edges g u → e.1 ≠ v) →
      GetData d' v = if decide (v = start_node) then wzero else kDistanceInfinity.
Proof.
  intros Hrun Hstart Hlen.
  apply (SSSP_keeps g
           (λ d', length d' = length g
                  ∧ ∀ v, (∀ u e, e ∈ edges g u → e.1 ≠ v) →
                      GetData d' v
                      = if decide (v = start_node) then wzero else kDistanceInfinity)
           ) in Hrun; [done| |done|].
  - intros d1 u e y [Hl Hframe] He _. split; [by rewrite length_insert|].
    intros v Hv. rewrite GetData_insert_ne by (by apply (Hv u)). by apply Hframe.
  - split.
    + by rewrite initial_distances_fresh, length_insert, length_replicate.
    + intros v _. by apply GetData_initial_distances.
Qed.

End Frame.

Lemma SSSP_ignores_prior_distances_witness :
  SSSP (Wt := UInt32Weight) single_thread 2 50 diamond [7; 7; 7; 7] 0
       {| algorithm := kSerialDeltaTile; delta := 2; edge_tile_size := 2 |}
  = SSSP (Wt := UInt32Weight) single_thread 2 50 diamond [0; 1; 2; 3] 0
         {| algorithm := kSerialDeltaTile; delta := 2; edge_tile_size := 2 |}.
Proof.
  apply (SSSP_ignores_prior_distances (Wt := UInt32Weight) single_thread 2 50 diamond
           [7; 7; 7; 7] [0; 1; 2; 3] 0);
    [reflexivity|reflexivity|cbn; lia].
Defined.

(** No edge of [isolated] leads to node 2, which stays at the sentinel. *)
Lemma SSSP_writes_only_destinations_witness :
  length [0; 5; 1073741823; 7] = length isolated
  ∧ ∀ v, (∀ u e, e ∈ edges isolated u → e.1 ≠ v) →
      @GetData Z (UInt32Weight) [0; 5; 1073741823; 7] v
      = if decide (v = 0%nat) then 0 else 1073741823.
Proof.
  apply (SSSP_writes_only_destinations (Wt := UInt32Weight) single_thread 1 50
           isolated [9; 9; 9; 9] 0
           {| algorithm := kTopological; delta := 0; edge_tile_size := 1 |}
           (ResultSuccess ()) [0; 5; 1073741823; 7]);
    [vm_compute; reflexivity|cbn; lia|reflexivity].
Defined.

(** *** Unsigned weights: the start node stays at zero *)

(** With an unsigned weight type no candidate is below zero, so whatever
    the weights and whether or not additions wrap around, every strategy
    leaves the start node at distance zero. *)
Theorem SSSP_start_node_at_zero (bits inf : Z) (env : Environment) (tile fuel : nat)
    (g : Graph Z) (d : list Z) (start_node : nat) (plan : SsspPlan)
    (r : Result ()) (d' : list Z) :
  0 <= bits →
  SSSP (Wt := UIntWeight bits inf) env tile fuel g d start_node plan
  = Some (Returns (r, d')) →
  (start_node < length g)%nat → length d = length g →
  @GetData Z (UIntWeight bits inf) d' start_node = 0.
Proof.
  intros Hbits Hrun Hstart Hlen.
  apply (SSSP_keeps (Wt := UIntWeight bits inf) g
           (λ d', @GetData Z (UIntWeight bits inf) d' start_node = 0))
    in Hrun; [done| |done|].
  - intros d1 u e y H0 He Hlt. rewrite GetData_insert.
    destruct (decide (e.1 = start_node ∧ (e.1 < length d1)%nat)) as [[Heq _]|_]; [|done].
    rewrite Heq, H0 in Hlt. cbn in Hlt. apply Z.ltb_lt in Hlt.
    unfold uwrap in Hlt.
    pose proof (Z.mod_pos_bound (y + e.2) (2 ^ bits)) as Hpos.
    assert (0 < 2 ^ bits) by (apply Z.pow_pos_nonneg; lia). lia.
  - rewrite (GetData_initial_distances (Wt := UIntWeight bits inf)) by done.
    by rewrite decide_True.
Qed.

(** On [overflow_graph], where an addition wraps around. *)
Lemma SSSP_start_node_at_zero_witness :
  @GetData Z (UIntWeight 32 1073741823) [0; 5; 2; 2] 0 = 0.
Proof.
  apply (SSSP_start_node_at_zero 32 1073741823 single_thread 1 100 overflow_graph
           (replicate 4 1073741823) 0
           {| algorithm := kTopological; delta := 13; edge_tile_size := 1 |}
           (ResultSuccess ()) [0; 5; 2; 2]);
    [lia|vm_compute; reflexivity|cbn; lia|reflexivity].
Defined.

End sssp_writes.

(** ** SSSP: statistics and storage errors *)

Module sssp_statistics.
Import sssp sssp_entry sssp_spec sssp_order shortest_spec sssp_examples more_spec more_examples.
Import sssp_writes.

Lemma reduce_statistics_fold (bits inf : Z) (d : list Z) :
  ∀ m a b : Z,
    fold_left
      (λ (acc : Z * Z * Z) my_distance,
         let '(max_dist, sum_dist, num_visited) := acc in
         if my_distance <? inf
         then (if max_dist <? my_distance then my_distance else max_dist,
               uwrap bits (sum_dist + my_distance),
               uwrap 64 (num_visited + 1))
         else acc)
      d (m, uwrap bits a, uwrap 64 b)
    = (fold_left Z.max (reached inf d) m,
       uwrap bits (a + Zsum (reached inf d)),
       uwrap 64 (b + Z.of_nat (length (reached inf d)))).
Proof.
  induction d as [|x d IH]; intros m a b; cbn [fold_left reached List.filter].
  - unfold Zsum. cbn. by rewrite !Z.add_0_r.
  - fold (reached inf d). destruct (x <? inf).
    + replace (if m <? x then x else m) with (Z.max m x)
        by (destruct (Z.ltb_spec m x); lia).
      replace (uwrap bits (uwrap bits a + x)) with (uwrap bits (a + x))
        by (unfold uwrap; by rewrite Zplus_mod_idemp_l).
      replace (uwrap 64 (uwrap 64 b + 1)) with (uwrap 64 (b + 1))
        by (unfold uwrap; by rewrite Zplus_mod_idemp_l).
      rewrite IH. cbn [fold_left length]. unfold Zsum. cbn [foldr].
      f_equal; [f_equal|]; f_equal; lia.
    + apply IH.
Qed.

(** The three reducers on unsigned distances: the maximum of the
    distances below the sentinel (zero when there is none), their sum
    reduced modulo 2^bits, since it is accumulated in the weight type, and
    their number. *)
Lemma reduce_statistics_unsigned (bits inf : Z) (d : list Z) :
  reduce_statistics (Wt := UIntWeight bits inf) d
  = (fold_left Z.max (reached inf d) 0,
     uwrap bits (Zsum (reached inf d)),
     uwrap 64 (Z.of_nat (length (reached inf d)))).
Proof.
  unfold reduce_statistics. cbn [wltb wadd wzero kDistanceInfinity reduce_max_identity
                                 UIntWeight].
  pose proof (reduce_statistics_fold bits inf d 0 0 0) as Hfold.
  assert (∀ n, uwrap n 0 = 0) as Hzero by (intros n; apply Zmod_0_l).
  rewrite !Hzero, !Z.add_0_l in Hfold. exact Hfold.
Qed.

(** The statistics of a [uint32_t] distance column: the number of
    distances below the sentinel, their maximum, and as the mean the
    quotient of their sum modulo 2^32 by their number. *)
Theorem statistics_of_uint32_column (pg : PropertyGraph)
    (output_property_name : string) (vals : list Z) :
  node_properties pg !! output_property_name = Some (IntColumn UINT32 vals) →
  SsspStatistics_Compute pg output_property_name
  = Some (ResultSuccess
            {| n_reached_nodes :=
                 uwrap 64 (Z.of_nat (length (reached ((2 ^ 32 - 1) / 4) vals)));
               max_distance :=
                 Z_to_double (fold_left Z.max (reached ((2 ^ 32 - 1) / 4) vals) 0);
               average_visited_distance :=
                 SFdiv 53 1024
                   (Z_to_double (uwrap 32 (Zsum (reached ((2 ^ 32 - 1) / 4) vals))))
                   (Z_to_double
                      (uwrap 64 (Z.of_nat (length (reached ((2 ^ 32 - 1) / 4) vals)))))
            |}).
Proof.
  intros Hcol. unfold SsspStatistics_Compute. rewrite Hcol. cbn [column_type].
  unfold ComputeStatistics, MakeNodes. rewrite Hcol. cbn [view UInt32Type IntPropertyType].
  cbn [ArrowTypeId_eqb].
  change (reduce_statistics (Wt := UInt32Weight) vals)
    with (reduce_statistics (Wt := UIntWeight 32 ((2 ^ 32 - 1) / 4)) vals).
  by rewrite reduce_statistics_unsigned.
Qed.

(** The diamond with its shortest distances: four reached nodes, at most
    4 away, 8 in total. *)
Lemma statistics_of_uint32_column_witness :
  SsspStatistics_Compute diamond_graph "dist"
  = Some (ResultSuccess
            {| n_reached_nodes :=
                 uwrap 64 (Z.of_nat (length (reached ((2 ^ 32 - 1) / 4) [0; 1; 4; 3])));
               max_distance :=
                 Z_to_double (fold_left Z.max (reached ((2 ^ 32 - 1) / 4) [0; 1; 4; 3]) 0);
               average_visited_distance :=
                 SFdiv 53 1024
                   (Z_to_double
                      (uwrap 32 (Zsum (reached ((2 ^ 32 - 1) / 4) [0; 1; 4; 3]))))
                   (Z_to_double
                      (uwrap 64
                         (Z.of_nat (length (reached ((2 ^ 32 - 1) / 4) [0; 1; 4; 3])))))
            |}).
Proof.
  apply (statistics_of_uint32_column diamond_graph "dist" [0; 1; 4; 3]).
  reflexivity.
Defined.

(** After a run of [SSSP] on unsigned weights the start node is counted:
    the number of reached nodes is at least one and at most the number
    of nodes, so the mean distance is not a division by zero. *)
Theorem statistics_after_SSSP (bits inf : Z) (env : Environment) (tile fuel : nat)
    (g : Graph Z) (d : list Z) (start_node : nat) (plan : SsspPlan)
    (r : Result ()) (d' : list Z) :
  0 <= bits → 0 < inf → Z.of_nat (length g) < 2 ^ 64 →
  SSSP (Wt := UIntWeight bits inf) env tile fuel g d start_node plan
  = Some (Returns (r, d')) →
  (start_node < length g)%nat → length d = length g →
  1 <= (reduce_statistics (Wt := UIntWeight bits inf) d').2 <= Z.of_nat (length g).
Proof.
  intros Hbits Hinf Hsmall Hrun Hstart Hlen.
  apply (SSSP_keeps (Wt := UIntWeight bits inf) g
           (λ d', length d' = length g
                  ∧ @GetData Z (UIntWeight bits inf) d' start_node = 0))
    in Hrun; [| |done|].
  - destruct Hrun as [Hlen' Hzero].
    rewrite reduce_statistics_unsigned. cbn [snd].
    assert (In 0 (reached inf d')) as Hin.
    { apply filter_In. split; [|by apply Z.ltb_lt].
      unfold GetData in Hzero.
      destruct (d' !! start_node) as [x|] eqn:Hx.
      - cbn in Hzero. subst x. by apply list_elem_of_In, (list_elem_of_lookup_2 d' start_node).
      - apply lookup_ge_None in Hx. lia. }
    assert (length (reached inf d') <= length d')%nat as Hle
      by apply filter_length_le.
    assert (1 <= length (reached inf d'))%nat as Hge.
    { destruct (reached inf d'); [by destruct Hin|cbn; lia]. }
    unfold uwrap. rewrite Z.mod_small; lia.
  - intros d1 u e y [Hl H0] He Hlt. split; [by rewrite length_insert|].
    rewrite GetData_insert.
    destruct (decide (e.1 = start_node ∧ (e.1 < length d1)%nat)) as [[Heq _]|_]; [|done].
    rewrite Heq, H0 in Hlt. cbn in Hlt. apply Z.ltb_lt in Hlt.
    unfold uwrap in Hlt.
    pose proof (Z.mod_pos_bound (y + e.2) (2 ^ bits)) as Hpos.
    assert (0 < 2 ^ bits) by (apply Z.pow_pos_nonneg; lia). lia.
  - split.
    + by rewrite initial_distances_fresh, length_insert, length_replicate.
    + rewrite (GetData_initial_distances (Wt := UIntWeight bits inf)) by done.
      by rewrite decide_True.
Qed.

Lemma statistics_after_SSSP_witness :
  1 <= (reduce_statistics (Wt := UIntWeight 32 1073741823) [0; 5; 2; 2]).2
    <= Z.of_nat (length overflow_graph).
Proof.
  apply (statistics_after_SSSP 32 1073741823 single_thread 1 100 overflow_graph
           (replicate 4 1073741823) 0
           {| algorithm := kTopological; delta := 13; edge_tile_size := 1 |}
           (ResultSuccess ()) [0; 5; 2; 2]);
    [lia|lia|cbn; lia|vm_compute; reflexivity|cbn; lia|reflexivity].
Defined.

(** *** Errors of the entry points *)

(** [SsspStatistics::Compute] answers [TypeError] for a distance column of
    any type other than the six it is instantiated at. *)
Theorem SsspStatistics_Compute_TypeError (pg : PropertyGraph)
    (output_property_name : string) (col : Column) :
  node_properties pg !! output_property_name = Some col →
  supported_type (column_type col) = false →
  SsspStatistics_Compute pg output_property_name = Some (ResultError TypeError).
Proof.
  intros Hcol Htype. unfold SsspStatistics_Compute. rewrite Hcol.
  by destruct (column_type col).
Qed.

Lemma SsspStatistics_Compute_TypeError_witness :
  SsspStatistics_Compute int16_graph "dist" = Some (ResultError TypeError).
Proof.
  apply (SsspStatistics_Compute_TypeError int16_graph "dist" (IntColumn INT16 [5]));
    reflexivity.
Defined.

(** When the output column cannot be created, [Sssp] hands the error of
    the storage layer on and leaves the graph as it was, whatever the
    supported type of the weights. *)
Theorem Sssp_storage_error (env : Environment) (fuel : nat) (pg : PropertyGraph)
    (start_node : nat) (edge_weight_property_name output_property_name : string)
    (plan : SsspPlan) (col : Column) (e : ErrorCode) :
  edge_properties pg !! edge_weight_property_name = Some col →
  supported_type (column_type col) = true →
  ConstructNodeProperties env (column_type col) pg output_property_name
  = ResultError e →
  Sssp env fuel pg start_node edge_weight_property_name output_property_name plan
  = Some (Returns (ResultError e, pg)).
Proof.
  intros Hcol Htype Hfail. unfold Sssp. rewrite Hcol.
  destruct (column_type col); try discriminate Htype;
    unfold SSSPWithWrap; cbn [type_id UInt32Type Int32Type UInt64Type Int64Type
                               FloatType DoubleType IntPropertyType FloatPropertyType];
    by rewrite Hfail.
Qed.

Lemma Sssp_storage_error_witness :
  Sssp read_only 10 diamond_graph 0 "w" "dist"
       {| algorithm := kDijkstra; delta := 0; edge_tile_size := 1 |}
  = Some (Returns (ResultError AlreadyExists, diamond_graph)).
Proof.
  apply (Sssp_storage_error read_only 10 diamond_graph 0 "w" "dist"
           {| algorithm := kDijkstra; delta := 0; edge_tile_size := 1 |}
           (IntColumn UINT32 [1; 4; 2; 1]) AlreadyExists);
    reflexivity.
Defined.

End sssp_statistics.

(** ** SSSP on unsigned weights: termination and relaxation closure, also
    when sums wrap around *)

Module sssp_closure.
Import sssp sssp_entry sssp_spec sssp_order sssp_runs shortest_spec sssp_shortest.
Import closure_spec sssp_examples more_examples.

Section Unsigned.
Context {Wt : Weight Z}.
Variable g : Graph Z.
Variable source : nat.
Hypothesis Hunsigned : unsigned_weights.

#[local] Abbreviation inf := (kDistanceInfinity : Z).

Lemma unsigned_walk_nonneg v x : walk g source v x → 0 <= x.
Proof.
  destruct Hunsigned as (Hz & _ & _ & Hadd).
  induction 1 as [|u x e _ _ _ _]; [lia|apply Hadd].
Qed.

Lemma unsigned_distance_nonneg x : distance g source x → 0 <= x.
Proof.
  intros [->|[v Hv]]; [|by eapply unsigned_walk_nonneg].
  destruct Hunsigned as (_ & _ & Hinf & _). lia.
Qed.

(** The unsigned integers number themselves, whether or not sums wrap
    around. *)
Lemma unsigned_ranked : ranked g source Z.to_nat.
Proof.
  pose proof Hunsigned as (Hz & Hlt & Hinf & Hadd).
  split; [|split; [|split]].
  - rewrite Hz. lia.
  - intros a b Ha%unsigned_distance_nonneg Hb%unsigned_distance_nonneg.
    rewrite Hlt, Z.ltb_lt. lia.
  - intros a b Ha%unsigned_distance_nonneg Hb%unsigned_distance_nonneg. lia.
  - intros a Ha%unsigned_distance_nonneg. rewrite Hz. lia.
Qed.

Lemma settled_closed_distances (d : list Z) :
  settled g source d → closed_distances g source d.
Proof.
  pose proof Hunsigned as (Hz & Hlt & Hinf & Hadd).
  intros (Hlen & Hd & Hsrc & Hclosed). split; [split; [done|]|split].
  - intros v. destruct (Hd v) as [->|[Hv Hw%unsigned_walk_nonneg]]; [lia|].
    rewrite Hlt in Hv. apply Z.ltb_lt in Hv. lia.
  - by rewrite Hsrc.
  - intros u e He Hu. unfold relaxed_w.
    specialize (Hclosed u e He). rewrite !Hlt in Hclosed.
    apply Z.ltb_ge, Hclosed. by apply Z.ltb_lt.
Qed.

End Unsigned.

Lemma UIntWeight_unsigned (bits inf : Z) :
  0 <= bits → 0 < inf → unsigned_weights (Wt := UIntWeight bits inf).
Proof.
  intros Hbits Hinf. split; [done|]. split; [done|]. split; [done|].
  intros a b. cbn. unfold uwrap. apply Z.mod_pos_bound.
  by apply Z.pow_pos_nonneg.
Qed.

(** On unsigned weights every strategy [SSSP] can select comes to an end
    within [enough_fuel] steps, whatever the weights and also when sums
    wrap around.  The delta-stepping, Dijkstra and topological strategies
    return, and so does serial delta unless it aborts, which it does when
    a request is left in a bucket behind the one being drained; the
    distances returned are between zero and the sentinel, zero at the
    start node, and closed under relaxation: for every edge [(u, v, w)]
    of a node [u] below the sentinel, [dist[v] <= dist[u] + w] in the
    arithmetic of the weight type. *)
Theorem SSSP_unsigned_settles (bits inf : Z) (env : Environment) (g : Graph Z)
    (d0 : list Z) (source tile fuel : nat) (plan : SsspPlan) :
  0 <= bits → 0 < inf → wf_graph g → (source < length g)%nat →
  fair (executor env) → (0 < tile)%nat → length d0 = length g →
  algorithm (chosen_plan env g plan) ≠ kAutomatic →
  (enough_fuel (Wt := UIntWeight bits inf) g Z.to_nat <= fuel)%nat →
  ∃ r, SSSP (Wt := UIntWeight bits inf) env tile fuel g d0 source plan = Some r
       ∧ ((r = Aborts
           ∧ (algorithm (chosen_plan env g plan) = kSerialDelta
              ∨ algorithm (chosen_plan env g plan) = kSerialDeltaTile))
          ∨ ∃ d', r = Returns (ResultSuccess (), d')
                  ∧ closed_distances (Wt := UIntWeight bits inf) g source d').
Proof.
  intros Hbits Hinf Hwf Hsource Hfair Htile Hlen Hplan Hfuel.
  pose proof (UIntWeight_unsigned bits inf Hbits Hinf) as Hunsigned.
  destruct (SSSP_settled (Wt := UIntWeight bits inf) env g source Z.to_nat
              Hwf Hsource Hfair tile fuel d0 plan)
    as (r & Hr & Hcases); [by apply unsigned_ranked|done..|].
  exists r. split; [done|].
  destruct Hcases as [?|(d' & -> & Hd')]; [by left|right].
  exists d'. split; [done|]. by apply settled_closed_distances.
Qed.

(** On [overflow_graph], where a sum wraps around, with the tiled
    delta-stepping strategy. *)
Lemma SSSP_unsigned_settles_witness :
  ∃ r, SSSP (Wt := UIntWeight 32 1073741823) single_thread 2
            (enough_fuel (Wt := UIntWeight 32 1073741823) overflow_graph Z.to_nat)
            overflow_graph [7; 7; 7; 7] 0
            {| algorithm := kDeltaTile; delta := 13; edge_tile_size := 2 |}
       = Some r
       ∧ ((r = Aborts
           ∧ (kDeltaTile = kSerialDelta ∨ kDeltaTile = kSerialDeltaTile))
          ∨ ∃ d', r = Returns (ResultSuccess (), d')
                  ∧ closed_distances (Wt := UIntWeight 32 1073741823)
                      overflow_graph 0 d').
Proof.
  apply (SSSP_unsigned_settles 32 1073741823 single_thread overflow_graph
           [7; 7; 7; 7] 0 2
           (enough_fuel (Wt := UIntWeight 32 1073741823) overflow_graph Z.to_nat)
           {| algorithm := kDeltaTile; delta := 13; edge_tile_size := 2 |}).
  - lia.
  - lia.
  - apply sssp_agree.wf_graphb_wf. reflexivity.
  - cbn. lia.
  - intros round l x Hx. exact Hx.
  - lia.
  - reflexivity.
  - cbn. intros Heq. discriminate Heq.
  - apply Nat.le_refl.
Defined.

(** Serial delta aborts on [wrap_chain] with buckets of width one: the
    sum at node 1 wraps around to 2, and the request for node 2 goes to
    bucket 2, behind bucket 10, which is being drained; the worklist then
    reports no bucket left to drain while that request is pending, and
    the final test of [SerDeltaAlgo] fails. *)
Lemma SerialDelta_aborts_behind_cursor :
  SSSP (Wt := UInt32Weight) single_thread 1 100 wrap_chain (replicate 3 0) 0
       {| algorithm := kSerialDelta; delta := 0; edge_tile_size := 1 |}
  = Some Aborts
  ∧ SSSP (Wt := UInt32Weight) single_thread 1 100 wrap_chain (replicate 3 0) 0
         {| algorithm := kDijkstra; delta := 0; edge_tile_size := 1 |}
    = Some (Returns (ResultSuccess (), [0; 10; 2])).
Proof. split; vm_compute; reflexivity. Qed.

End sssp_closure.
